(** * Scene orchestration and phase-timed animation: a verified model

    A shallow embedding of the scene controller ([App]), the progress store
    ([GlobalState]) and the two scene timelines ([LoadingScene],
    [EntryGateScene]) of the Unimate Robotics presentation, together with
    the properties its specification states about them.

    Conventions of the embedding.
    - Scene indices are JavaScript numbers that only ever hold integers:
      they are [Z].
    - Times, opacities, radii and the other animated quantities are
      JavaScript numbers: they are modelled by exact rationals [Q], with
      the comparisons of the source as the boolean tests [<?] and [<=?].
      The rounding of double precision is outside the model: a test that
      the doubles decide within one rounding of its threshold may fall on
      the other side here (at 600 ms of the clock the gate computes
      0.04999999999999999 where the model has 1/20). What a store into a
      [Float32Array] keeps is rounded to single precision ([fround]).
    - A string is the list of the bytes of its UTF-8 encoding.
    - [Math.sin], [Math.cos], [Math.PI] are a parameter ([Math]).
    - Each JavaScript object is a record, a method is a function that takes
      the objects it reads and returns the ones it writes; the document,
      [sessionStorage], the console and the pending [setTimeout] callbacks
      form the record [Browser]. *)

From Stdlib Require Import ZArith QArith Qabs Qminmax Qround Qpower Lia Lqa Ascii String.
From stdpp Require Import base strings list gmap pretty.

Local Open Scope Z_scope.

(** ** Record update *)

Class Setter {R T : Type} (proj : R -> T) := upd : T -> R -> R.
Arguments upd {R T} proj {Setter} _ _ /.
#[warnings="-postfix-notation-not-level-1"]
Notation "r <| p := v |>" := (upd p v r)
  (at level 12, left associativity, format "r  <| p  :=  v |>").

(** [setter copy proj] builds the function that rebuilds a record with the
    field [proj] replaced, from [copy], the field-by-field copy of the
    record. *)
Ltac setter copy proj :=
  let v := fresh "v" in
  let s := fresh "s" in
  intros v s;
  let body := eval cbv beta delta [copy] in (copy s) in
  match eval pattern (proj s) in body with
  | ?f _ => let r := eval cbv beta in (f v) in exact r
  end.

(** ** JavaScript values the model needs *)

(** The outcome of an expression that may throw. *)
Inductive Try (A : Type) : Type :=
| Returned (a : A)
| Thrown.
Arguments Returned {A} a.
Arguments Thrown {A}.

(** A string is held as the bytes of its UTF-8 encoding. [parseInt] skips
    the StrWhiteSpaceChar at the start of its argument: the white space
    TAB, VT, FF, SP, U+00A0, U+FEFF and the other space separators (U+1680,
    U+2000 to U+200A, U+202F, U+205F, U+3000), and the line terminators LF,
    CR, U+2028 and U+2029. *)

(** Those of one byte: TAB, LF, VT, FF, CR, SP. *)
Definition is_white_space (c : ascii) : bool :=
  match nat_of_ascii c with
  | 9%nat | 10%nat | 11%nat | 12%nat | 13%nat | 32%nat => true
  | _ => false
  end.

(** Those of two bytes: U+00A0 is C2 A0. *)
Definition is_white_space2 (c d : ascii) : bool :=
  (nat_of_ascii c =? 194)%nat && (nat_of_ascii d =? 160)%nat.

(** Those of three bytes: U+1680 is E1 9A 80; U+2000 to U+200A are
    E2 80 80 to E2 80 8A; U+2028, U+2029 and U+202F are E2 80 A8, E2 80 A9
    and E2 80 AF; U+205F is E2 81 9F; U+3000 is E3 80 80; U+FEFF is
    EF BB BF. *)
Definition is_white_space3 (c d e : ascii) : bool :=
  let c := nat_of_ascii c in
  let d := nat_of_ascii d in
  let e := nat_of_ascii e in
  ((c =? 225) && (d =? 154) && (e =? 128)
   || (c =? 226) && (d =? 128)
      && ((128 <=? e) && (e <=? 138) || (e =? 168) || (e =? 169) || (e =? 175))
   || (c =? 226) && (d =? 129) && (e =? 159)
   || (c =? 227) && (d =? 128) && (e =? 128)
   || (c =? 239) && (d =? 187) && (e =? 191))%nat.

Fixpoint trim_start (s : string) : string :=
  match s with
  | EmptyString => EmptyString
  | String c r =>
      if is_white_space c then trim_start r
      else
        match r with
        | EmptyString => s
        | String d r1 =>
            if is_white_space2 c d then trim_start r1
            else
              match r1 with
              | EmptyString => s
              | String e r2 =>
                  if is_white_space3 c d e then trim_start r2 else s
              end
        end
  end.

Definition digit_value (c : ascii) : option Z :=
  let n := Z.of_nat (nat_of_ascii c) in
  if (48 <=? n) && (n <=? 57) then Some (n - 48) else None.

(** Value of the longest prefix of decimal digits, [None] when it is empty. *)
Fixpoint leading_digits (s : string) (acc : option Z) : option Z :=
  match s with
  | String c s' =>
      match digit_value c with
      | Some d => leading_digits s' (Some (10 * default 0 acc + d))
      | None => acc
      end
  | EmptyString => acc
  end.

(** [parseInt(s, 10)]: leading white space is skipped, one sign is read,
    then the longest run of digits; whatever follows is ignored. [None] is
    NaN. *)
Definition parseInt10 (s : string) : option Z :=
  let s := trim_start s in
  let '(sign, s) :=
    match s with
    | String "-" r => (-1, r)
    | String "+" r => (1, r)
    | _ => (1, s)
    end in
  match leading_digits s None with
  | Some n => Some (sign * n)
  | None => None
  end.

(** [String(n)] for an integral number. *)
Definition String_of (n : Z) : string := pretty n.

(** ** The browser: storage, document, timers, console *)

(** The callbacks that the program hands to [setTimeout]. *)
Inductive TimerAction : Type :=
| HideOverlay             (* fadeTransition: overlay.classList.add('hidden') *)
| ResetProgressGuard      (* checkSceneProgression: _progressGuard = false *)
| StopHum (sound : nat).  (* stopMechanicalHum: the hum object [sound] stopped *)

(** The click listeners that the program attaches to the arrow buttons. *)
Inductive ClickListener : Type :=
| ControlsMove            (* Controls.setupArrowButtons *)
| AppPreviousScene        (* App.setupUI: this.previousScene() *)
| GateProgress.           (* EntryGateScene.enableProgression *)

Record ArrowButton : Type := {
  display : string;
  glow : bool;
  listeners : list ClickListener
}.

Record Browser : Type := {
  storageBlocked : bool;                 (* sessionStorage.setItem throws *)
  storageUnreadable : bool;              (* sessionStorage.getItem throws *)
  sessionStorage : gmap string string;
  progressDots : list bool;              (* .progress-dot: has class active *)
  loadingOverlay : option bool;          (* #loading-overlay: has class hidden *)
  arrows : gmap string ArrowButton;      (* #arrow-... buttons by id *)
  themeLight : bool;                     (* body[data-theme] is light *)
  pendingTimers : list (Z * TimerAction);
  console : list string
}.

Definition copy_Browser (b : Browser) : Browser :=
  {| storageBlocked := storageBlocked b;
     storageUnreadable := storageUnreadable b;
     sessionStorage := sessionStorage b;
     progressDots := progressDots b; loadingOverlay := loadingOverlay b;
     arrows := arrows b; themeLight := themeLight b;
     pendingTimers := pendingTimers b; console := console b |}.

#[global] Instance upd_storageBlocked : Setter storageBlocked :=
  ltac:(setter copy_Browser storageBlocked).
#[global] Instance upd_storageUnreadable : Setter storageUnreadable :=
  ltac:(setter copy_Browser storageUnreadable).
#[global] Instance upd_sessionStorage : Setter sessionStorage :=
  ltac:(setter copy_Browser sessionStorage).
#[global] Instance upd_progressDots : Setter progressDots :=
  ltac:(setter copy_Browser progressDots).
#[global] Instance upd_loadingOverlay : Setter loadingOverlay :=
  ltac:(setter copy_Browser loadingOverlay).
#[global] Instance upd_arrows : Setter arrows :=
  ltac:(setter copy_Browser arrows).
#[global] Instance upd_pendingTimers : Setter pendingTimers :=
  ltac:(setter copy_Browser pendingTimers).
#[global] Instance upd_console : Setter console :=
  ltac:(setter copy_Browser console).

Definition console_log (msg : string) (b : Browser) : Browser :=
  b <| console := console b ++ [msg] |>.

Definition setTimeout (action : TimerAction) (ms : Z) (b : Browser) : Browser :=
  b <| pendingTimers := pendingTimers b ++ [(ms, action)] |>.

(** [sessionStorage.getItem(key)]: [None] is [null]. Reading and writing
    fail independently of each other: a store that is full can be read and
    not written. *)
Definition getItem (key : string) (b : Browser) : Try (option string) :=
  if storageUnreadable b then Thrown else Returned (sessionStorage b !! key).

(** [sessionStorage.setItem(key, value)]. *)
Definition setItem (key value : string) (b : Browser) : Try Browser :=
  if storageBlocked b then Thrown
  else Returned (b <| sessionStorage := <[key := value]> (sessionStorage b) |>).

(** ** GlobalState.js *)

Definition SESSION_KEY : string := "unimate_last_scene".

Module GlobalState.

Record UserData : Type := {
  name : string; age : string; contact : string; interest : string
}.

Record t : Type := {
  currentScene : Z;
  visitedScenes : gset Z;
  loadingProgress : Q;
  isLoading : bool;
  canProgress : bool;
  userData : UserData
}.

Definition copy (g : t) : t :=
  {| currentScene := currentScene g; visitedScenes := visitedScenes g;
     loadingProgress := loadingProgress g; isLoading := isLoading g;
     canProgress := canProgress g; userData := userData g |}.

#[global] Instance upd_currentScene : Setter currentScene :=
  ltac:(setter copy currentScene).
#[global] Instance upd_visitedScenes : Setter visitedScenes :=
  ltac:(setter copy visitedScenes).
#[global] Instance upd_loadingProgress : Setter loadingProgress :=
  ltac:(setter copy loadingProgress).
#[global] Instance upd_isLoading : Setter isLoading :=
  ltac:(setter copy isLoading).
#[global] Instance upd_canProgress : Setter canProgress :=
  ltac:(setter copy canProgress).

(** [this.sceneNames], assigned once by the constructor. *)
Definition sceneNames : list string :=
  [ "loading"; "entryGate"; "mainStreet"; "workshopDistrict";
    "competitionArena"; "hallOfLegacy"; "enrollmentHub";
    "exitConfirmation" ].

Definition sceneCount : Z := Z.of_nat (length sceneNames).

Definition new : t :=
  {| currentScene := 0; visitedScenes := {[ 0 ]};
     loadingProgress := 0%Q; isLoading := true; canProgress := false;
     userData := {| name := EmptyString; age := EmptyString;
                    contact := EmptyString; interest := EmptyString |} |}.

(** [getSavedScene()]: the [try] covers the read and the parse; a thrown
    access, a missing key, NaN and an index outside 1..length-1 all fall
    through to the default. *)
Definition getSavedScene (g : t) (b : Browser) : Z :=
  match getItem SESSION_KEY b with
  | Returned (Some saved) =>
      match parseInt10 saved with
      | Some idx =>
          if (1 <=? idx) && (idx <? sceneCount) then idx else 1
      | None => 1
      end
  | Returned None => 1
  | Thrown => 1
  end.

Definition saveScene (index : Z) (b : Browser) : Browser :=
  match setItem SESSION_KEY (String_of index) b with
  | Returned b' => b'
  | Thrown => b
  end.

Definition updateProgressIndicator (g : t) (b : Browser) : Browser :=
  b <| progressDots :=
         imap (fun index _ => bool_decide (Z.of_nat index = currentScene g))
              (progressDots b) |>.

(** [this.sceneNames[i]] inside a template string. *)
Definition sceneNameText (i : Z) : string :=
  if i <? 0 then "undefined"
  else default "undefined" (sceneNames !! Z.to_nat i).

Definition setScene (sceneIndex : Z) (g : t) (b : Browser) : t * Browser :=
  if (0 <=? sceneIndex) && (sceneIndex <? sceneCount) then
    let g := g <| currentScene := sceneIndex |> in
    let g := g <| visitedScenes := visitedScenes g ∪ {[ sceneIndex ]} |> in
    let b := updateProgressIndicator g b in
    let b := if 0 <? sceneIndex then saveScene sceneIndex b else b in
    let b := console_log ("Scene changed to: " +:+ sceneNameText sceneIndex) b in
    (g, b)
  else (g, b).

Definition nextScene (g : t) (b : Browser) : bool * (t * Browser) :=
  if currentScene g <? sceneCount - 1 then
    (true, setScene (currentScene g + 1) g b)
  else (false, (g, b)).

Definition getCanProgress (g : t) : bool := canProgress g.
Definition setCanProgress (v : bool) (g : t) : t := g <| canProgress := v |>.
Definition setLoadingProgress (p : Q) (g : t) : t :=
  g <| loadingProgress := Qmax 0 (Qmin 1 p) |>.
Definition setLoading (v : bool) (g : t) : t := g <| isLoading := v |>.
Definition getCurrentSceneName (g : t) : option string :=
  if currentScene g <? 0 then None else sceneNames !! Z.to_nat (currentScene g).

End GlobalState.


(** ** Numbers *)

(** [Math.sin], [Math.cos] and [Math.PI]. *)
Class Math : Type := {
  sin : Q -> Q;
  cos : Q -> Q;
  PI : Q
}.

(** [Math.sign] of a number that is not NaN: -1, 0 or 1. *)
Definition sign (x : Q) : Z := Z.sgn (Qnum x).

Definition Qltb (x y : Q) : bool := negb (Qle_bool y x).
Infix "<=?" := Qle_bool : Q_scope.
Infix "<?" := Qltb : Q_scope.

#[global] Instance Q_inhabited : Inhabited Q := populate 0%Q.

(** *** Single precision: what a [Float32Array] stores *)

(** A number is an exact rational; a store into a [Float32Array] rounds it
    to the nearest number of single precision, ties to even. *)

Definition pow2 (e : Z) : Q := (2 ^ e)%Q.

(** The [e] with [2^e <= x < 2^(e+1)], for a positive [x]. *)
Definition binade (x : Q) : Z :=
  let e := Z.log2 (Qnum x) - Z.log2 (Z.pos (Qden x)) in
  if Qle_bool (pow2 e) x then e else e - 1.

(** The nearest integer, the even one of two that are equally near. *)
Definition round_half_even (x : Q) : Z :=
  let f := Qfloor x in
  match (x - inject_Z f ?= 1 # 2)%Q with
  | Lt => f
  | Gt => f + 1
  | Eq => if Z.even f then f else f + 1
  end.

(** The nearest number of the binary format with [prec] bits of precision
    whose least normal exponent is [emin]; below [2^emin] the spacing is
    the one of the subnormal numbers. The exponent is not bounded above:
    a number past the largest of the format, which the format rounds to
    Infinity, is outside the model, as is NaN. *)
Definition round_binary (prec emin : Z) (x : Q) : Q :=
  let a := Qabs x in
  let ulp := pow2 (Z.max (binade a) emin - prec + 1) in
  (inject_Z (Z.sgn (Qnum x) * round_half_even (a / ulp)) * ulp)%Q.

(** [Math.fround]: binary32. *)
Definition fround (x : Q) : Q := round_binary 24 (-126) x.

(** [for (let i = 0; i < n; i++) body]. Inside the loops a typed array is
    written with list insert, which like the array ignores an index past
    the end, the value rounded by [fround] as the array is a
    [Float32Array], and read with the total lookup [!!!]; the arrays of a scene
    all have the length that [createParticles] gave them, so the reads are
    in range (past the end JavaScript reads NaN, the total lookup 0). *)
Definition for_loop {S : Type} (n : nat) (body : nat -> S -> S) (s : S) : S :=
  foldl (fun acc i => body i acc) s (seq 0 n).

(** The end of a method call: it returned, or it threw at the state given
    (an uncaught exception leaves a tick listener early, and the next tick
    calls it again on the state as it was left). *)
Inductive Outcome (S : Type) : Type :=
| Done (s : S)
| Threw (s : S).
Arguments Done {S} s.
Arguments Threw {S} s.

Definition state_of {S : Type} (o : Outcome S) : S :=
  match o with Done s => s | Threw s => s end.

Definition and_then {S : Type} (o : Outcome S) (k : S -> Outcome S) : Outcome S :=
  match o with
  | Done s => k s
  | Threw s => Threw s
  end.

(** ** AudioManager.js *)

Module AudioManager.

Inductive Sound : Type :=
| MechanicalHum
| GateOpening
| Whoosh.

Record t : Type := {
  initialized : bool;
  isMuted : bool;
  masterVolume : Q;
  hums : list bool;         (* the hum objects made so far, oldest first:
                               [isPlaying] of each *)
  started : list Sound;     (* what was started on the audio context *)
  requested : list Sound    (* every call of a play method, in order *)
}.

Definition copy (a : t) : t :=
  {| initialized := initialized a; isMuted := isMuted a;
     masterVolume := masterVolume a; hums := hums a; started := started a;
     requested := requested a |}.

#[global] Instance upd_initialized : Setter initialized :=
  ltac:(setter copy initialized).
#[global] Instance upd_isMuted : Setter isMuted := ltac:(setter copy isMuted).
#[global] Instance upd_masterVolume : Setter masterVolume :=
  ltac:(setter copy masterVolume).
#[global] Instance upd_hums : Setter hums := ltac:(setter copy hums).
#[global] Instance upd_started : Setter started := ltac:(setter copy started).
#[global] Instance upd_requested : Setter requested :=
  ltac:(setter copy requested).

Definition new : t :=
  {| initialized := false; isMuted := false; masterVolume := 1%Q;
     hums := []; started := []; requested := [] |}.

(** [this.sounds.get('mechanical-hum')]: the key holds the hum object that
    [createMechanicalHum] made last, and [None] before the first; the value
    is its [isPlaying]. An older hum object is reachable only from the
    timer of a [stopMechanicalHum] that found it under the key. *)
Definition hum (a : t) : option bool := last (hums a).

(** The hum object under the key, as its number in [hums]. *)
Definition currentHum (a : t) : nat := pred (length (hums a)).

Definition init (a : t) (b : Browser) : t * Browser :=
  if initialized a then (a, b)
  else (a <| initialized := true |>, console_log "AudioManager initialized" b).

Definition createMechanicalHum (a : t) (b : Browser) : t * Browser :=
  let '(a, b) := if negb (initialized a) then init a b else (a, b) in
  (a <| hums := hums a ++ [false] |>, b).

Definition playMechanicalHum (a : t) : t :=
  let a := a <| requested := requested a ++ [MechanicalHum] |> in
  if negb (initialized a) || isMuted a then a
  else
    match hum a with
    | None | Some true => a
    | Some false =>
        a <| started := started a ++ [MechanicalHum] |>
          <| hums := <[currentHum a := true]> (hums a) |>
    end.

Definition stopMechanicalHum (a : t) (b : Browser) : t * Browser :=
  match hum a with
  | None | Some false => (a, b)
  | Some true => (a, setTimeout (StopHum (currentHum a)) 500 b)
  end.

(** The callback of that timer: it holds the hum object that
    [stopMechanicalHum] found, whatever the key holds when it runs. *)
Definition humStopped (sound : nat) (a : t) : t :=
  a <| hums := <[sound := false]> (hums a) |>.

Definition playGateOpening (a : t) (b : Browser) : t * Browser :=
  let a := a <| requested := requested a ++ [GateOpening] |> in
  if negb (initialized a) || isMuted a then (a, b)
  else (a <| started := started a ++ [GateOpening] |>,
        console_log "Gate opening sound played (placeholder)" b).

(** [setMuted(muted)]. The map of sounds holds the hum only: [createTone]
    is not called by the program, and the loop acts on sounds of the type
    hum, of which the key [mechanical-hum] holds the only one. *)
Definition setMuted (muted : bool) (a : t) (b : Browser) : t * Browser :=
  let a := a <| isMuted := muted |> in
  if muted then
    match hum a with
    | Some true => stopMechanicalHum a b
    | Some false | None => (a, b)
    end
  else (a, b).

Definition setMasterVolume (volume : Q) (a : t) : t :=
  a <| masterVolume := Qmax 0 (Qmin 1 volume) |>.

End AudioManager.

(** ** The objects every scene shares *)

Record World : Type := {
  globalState : GlobalState.t;
  audioManager : AudioManager.t;
  cameraZ : Q;                  (* camera.instance.position.z *)
  browser : Browser
}.

Definition copy_World (w : World) : World :=
  {| globalState := globalState w; audioManager := audioManager w;
     cameraZ := cameraZ w; browser := browser w |}.

#[global] Instance upd_globalState : Setter globalState :=
  ltac:(setter copy_World globalState).
#[global] Instance upd_audioManager : Setter audioManager :=
  ltac:(setter copy_World audioManager).
#[global] Instance upd_cameraZ : Setter cameraZ := ltac:(setter copy_World cameraZ).
#[global] Instance upd_browser : Setter browser := ltac:(setter copy_World browser).

(** A method of [GlobalState] or of [AudioManager], called on the shared
    object. *)
Definition on_globalState
    (m : GlobalState.t -> Browser -> GlobalState.t * Browser) (w : World) : World :=
  let '(g, b) := m (globalState w) (browser w) in
  w <| globalState := g |> <| browser := b |>.

Definition on_audioManager
    (m : AudioManager.t -> Browser -> AudioManager.t * Browser) (w : World) : World :=
  let '(a, b) := m (audioManager w) (browser w) in
  w <| audioManager := a |> <| browser := b |>.

Definition arrow_ids : list string :=
  [ "arrow-backward"; "arrow-left"; "arrow-right"; "arrow-forward" ].

Definition set_display (value : string) (a : ArrowButton) : ArrowButton :=
  {| display := value; glow := glow a; listeners := listeners a |}.

(** [ids.forEach(id => { const el = document.getElementById(id);
    if (el) el.style.display = value; })] *)
Definition set_arrows_display (value : string) (b : Browser) : Browser :=
  b <| arrows :=
         foldl (fun m id => alter (set_display value) id m) (arrows b)
               arrow_ids |>.

(** ** LoadingScene.js *)

Module LoadingScene.

Local Open Scope Q_scope.

Definition LOAD_DURATION_MS : Q := 1500.
Definition RING_FADE_DURATION : Q := 0.3.
Definition DOT_PULSES_BEFORE_EXPLODE : Z := 1.
Definition EXPLODE_DURATION : Q := 0.75.
Definition PULSE_HOLD_BEFORE_EXIT : Q := 1.2.
Definition EXIT_DURATION : Q := 0.7.

Inductive Phase : Type :=
| loading
| ringFade
| dotExplode
| textPulse
| exitBurst
| done.

(** [text-shadow: 0 0 {blur1}px rgba(0,255,255,{alpha1}), 0 0 {blur2}px
    rgba(0,255,255,{alpha2})]; the alphas are kept as numbers, before
    [toFixed(2)] prints them. *)
Record TextShadow : Type := {
  blur1 : Z; alpha1 : Q; blur2 : Z; alpha2 : Q
}.

(** The [#welcome-text] element: the style properties that the scene
    animates. *)
Record WelcomeEl : Type := {
  style_opacity : Q;
  style_scale : Q;              (* scale(...) of style.transform *)
  style_textShadow : TextShadow;
  inDocument : bool
}.

Definition with_opacity (v : Q) (el : WelcomeEl) : WelcomeEl :=
  {| style_opacity := v; style_scale := style_scale el;
     style_textShadow := style_textShadow el; inDocument := inDocument el |}.
Definition with_scale (v : Q) (el : WelcomeEl) : WelcomeEl :=
  {| style_opacity := style_opacity el; style_scale := v;
     style_textShadow := style_textShadow el; inDocument := inDocument el |}.
Definition with_textShadow (v : TextShadow) (el : WelcomeEl) : WelcomeEl :=
  {| style_opacity := style_opacity el; style_scale := style_scale el;
     style_textShadow := v; inDocument := inDocument el |}.

Record t : Type := {
  phase : Phase;
  phaseTimer : Q;               (* seconds elapsed in the current phase *)
  loadingProgress : Q;
  isComplete : bool;
  pulseTime : Q;
  dotPulseCount : Z;
  lastSinSign : Z;
  _explodeStarted : bool;       (* undefined, read as false, until set *)
  _blockLook : bool;
  particleAngles : list Q;
  particleRadii : list Q;
  particleBaseRadii : list Q;
  particleHeights : list Q;
  _exitStartRadii : option (list Q);   (* undefined until textPulse ends *)
  positions : list (Q * Q * Q); (* particles.geometry.attributes.position *)
  pulsingDot_scale : Q;
  pulsingDot_visible : bool;
  dotMat_opacity : Q;
  ringMat_opacity : Q;
  arcMat_opacity : Q;
  particleMat_opacity : Q;
  progressRing_rotation_z : Q;
  progressRing_visible : bool;
  progressArc_visible : bool;
  progressArc_arc : Q;          (* arc of the rebuilt TorusGeometry *)
  centerLight_intensity : Q;
  welcomeEl : option WelcomeEl
}.

Definition copy (s : t) : t :=
  {| phase := phase s; phaseTimer := phaseTimer s;
     loadingProgress := loadingProgress s; isComplete := isComplete s;
     pulseTime := pulseTime s; dotPulseCount := dotPulseCount s;
     lastSinSign := lastSinSign s; _explodeStarted := _explodeStarted s;
     _blockLook := _blockLook s; particleAngles := particleAngles s;
     particleRadii := particleRadii s;
     particleBaseRadii := particleBaseRadii s;
     particleHeights := particleHeights s;
     _exitStartRadii := _exitStartRadii s; positions := positions s;
     pulsingDot_scale := pulsingDot_scale s;
     pulsingDot_visible := pulsingDot_visible s;
     dotMat_opacity := dotMat_opacity s; ringMat_opacity := ringMat_opacity s;
     arcMat_opacity := arcMat_opacity s;
     particleMat_opacity := particleMat_opacity s;
     progressRing_rotation_z := progressRing_rotation_z s;
     progressRing_visible := progressRing_visible s;
     progressArc_visible := progressArc_visible s;
     progressArc_arc := progressArc_arc s;
     centerLight_intensity := centerLight_intensity s;
     welcomeEl := welcomeEl s |}.

#[global] Instance upd_phase : Setter phase := ltac:(setter copy phase).
#[global] Instance upd_phaseTimer : Setter phaseTimer :=
  ltac:(setter copy phaseTimer).
#[global] Instance upd_loadingProgress : Setter loadingProgress :=
  ltac:(setter copy loadingProgress).
#[global] Instance upd_isComplete : Setter isComplete :=
  ltac:(setter copy isComplete).
#[global] Instance upd_pulseTime : Setter pulseTime :=
  ltac:(setter copy pulseTime).
#[global] Instance upd_dotPulseCount : Setter dotPulseCount :=
  ltac:(setter copy dotPulseCount).
#[global] Instance upd_lastSinSign : Setter lastSinSign :=
  ltac:(setter copy lastSinSign).
#[global] Instance upd_explodeStarted : Setter _explodeStarted :=
  ltac:(setter copy _explodeStarted).
#[global] Instance upd_blockLook : Setter _blockLook :=
  ltac:(setter copy _blockLook).
#[global] Instance upd_particleAngles : Setter particleAngles :=
  ltac:(setter copy particleAngles).
#[global] Instance upd_particleRadii : Setter particleRadii :=
  ltac:(setter copy particleRadii).
#[global] Instance upd_particleBaseRadii : Setter particleBaseRadii :=
  ltac:(setter copy particleBaseRadii).
#[global] Instance upd_particleHeights : Setter particleHeights :=
  ltac:(setter copy particleHeights).
#[global] Instance upd_exitStartRadii : Setter _exitStartRadii :=
  ltac:(setter copy _exitStartRadii).
#[global] Instance upd_positions : Setter positions :=
  ltac:(setter copy positions).
#[global] Instance upd_pulsingDot_scale : Setter pulsingDot_scale :=
  ltac:(setter copy pulsingDot_scale).
#[global] Instance upd_pulsingDot_visible : Setter pulsingDot_visible :=
  ltac:(setter copy pulsingDot_visible).
#[global] Instance upd_dotMat_opacity : Setter dotMat_opacity :=
  ltac:(setter copy dotMat_opacity).
#[global] Instance upd_ringMat_opacity : Setter ringMat_opacity :=
  ltac:(setter copy ringMat_opacity).
#[global] Instance upd_arcMat_opacity : Setter arcMat_opacity :=
  ltac:(setter copy arcMat_opacity).
#[global] Instance upd_particleMat_opacity : Setter particleMat_opacity :=
  ltac:(setter copy particleMat_opacity).
#[global] Instance upd_progressRing_rotation_z : Setter progressRing_rotation_z :=
  ltac:(setter copy progressRing_rotation_z).
#[global] Instance upd_progressRing_visible : Setter progressRing_visible :=
  ltac:(setter copy progressRing_visible).
#[global] Instance upd_progressArc_visible : Setter progressArc_visible :=
  ltac:(setter copy progressArc_visible).
#[global] Instance upd_progressArc_arc : Setter progressArc_arc :=
  ltac:(setter copy progressArc_arc).
#[global] Instance upd_centerLight_intensity : Setter centerLight_intensity :=
  ltac:(setter copy centerLight_intensity).
#[global] Instance upd_welcomeEl : Setter welcomeEl :=
  ltac:(setter copy welcomeEl).

(** [if (this.welcomeEl) ...] *)
Definition style_welcomeEl (f : WelcomeEl -> WelcomeEl) (s : t) : t :=
  s <| welcomeEl := f <$> welcomeEl s |>.

(** *** Helpers *)

(** Quartic ease-in. *)
Definition easeInQuart (t : Q) : Q := t * t * t * t.

(** Cubic ease-in-out. *)
Definition easeInOutCubic (t : Q) : Q :=
  if t <? 0.5 then 4 * t * t * t
  else 1 - (-2 * t + 2) ^ 3 / 2.

Section WithMath.
Context `{M : Math}.

Definition orbitParticles (delta : Q) (s : t) : t :=
  let speed := delta * 0.0004 in
  let count := length (particleAngles s) in
  for_loop count (fun i s =>
    let s := s <| particleAngles :=
                   <[i := fround
                            (particleAngles s !!! i
                             + (speed + inject_Z (Z.of_nat i mod 5) * speed * 0.12))]>
                     (particleAngles s) |> in
    let a := particleAngles s !!! i in
    let r := particleRadii s !!! i in
    s <| positions :=
           <[i := (fround (cos a * r), fround (particleHeights s !!! i),
                   fround (sin a * r))]> (positions s) |>)
    s.

(** *** Construction *)

(** [createParticles()]; [random k] is the value of the k-th call of
    [Math.random()]. *)
Definition createParticles (random : nat -> Q) (s : t) : t :=
  let count := 80%nat in
  let s := s <| particleAngles := replicate count 0 |> in
  let s := s <| particleRadii := replicate count 0 |> in
  let s := s <| particleBaseRadii := replicate count 0 |> in
  let s := s <| particleHeights := replicate count 0 |> in
  let s := s <| positions := replicate count (0, 0, 0) |> in
  let s :=
    for_loop count (fun i s =>
      let angle := inject_Z (Z.of_nat i) / inject_Z (Z.of_nat count) * PI * 2 in
      let radius := 1.1 + random (2 * i)%nat * 0.6 in
      let height := (random (2 * i + 1)%nat - 0.5) * 0.6 in
      let s := s <| particleAngles := <[i := fround angle]> (particleAngles s) |> in
      let s := s <| particleRadii := <[i := fround radius]> (particleRadii s) |> in
      let s := s <| particleBaseRadii :=
                     <[i := fround radius]> (particleBaseRadii s) |> in
      let s := s <| particleHeights :=
                     <[i := fround height]> (particleHeights s) |> in
      s <| positions :=
             <[i := (fround (cos angle * radius), fround height,
                     fround (sin angle * radius))]>
               (positions s) |>)
      s in
  s <| particleMat_opacity := 0.7 |>.

Definition disableControls (s : t) (w : World) : t * World :=
  (s <| _blockLook := true |>,
   w <| browser := set_arrows_display "none" (browser w) |>).

Definition enableControls (s : t) (w : World) : t * World :=
  (s <| _blockLook := false |>,
   w <| browser := set_arrows_display EmptyString (browser w) |>).

(** The constructor, up to the listeners of [startAudio] and the first
    [requestAnimationFrame] of [simulateLoading], which are [startAudio_init]
    and [simulateLoading_tick] below. *)
Definition new (random : nat -> Q) (w : World) : t * World :=
  let s :=
    {| phase := loading; phaseTimer := 0; loadingProgress := 0;
       isComplete := false; pulseTime := 0; dotPulseCount := 0%Z;
       lastSinSign := 1%Z; _explodeStarted := false; _blockLook := false;
       particleAngles := []; particleRadii := []; particleBaseRadii := [];
       particleHeights := []; _exitStartRadii := None; positions := [];
       pulsingDot_scale := 1; pulsingDot_visible := true;
       dotMat_opacity := 1; ringMat_opacity := 0.35; arcMat_opacity := 1;
       particleMat_opacity := 0.7; progressRing_rotation_z := 0;
       progressRing_visible := true; progressArc_visible := true;
       progressArc_arc := 0.001; centerLight_intensity := 2;
       welcomeEl :=
         Some {| style_opacity := 0; style_scale := 1;
                 style_textShadow :=
                   {| blur1 := 30; alpha1 := 0.85; blur2 := 70; alpha2 := 0.35 |};
                 inDocument := true |} |} in
  disableControls (createParticles random s) w.

(** *** Audio *)

(** The [init] listener of [startAudio], run by the first click or touch. *)
Definition startAudio_init (w : World) : World :=
  let w := on_audioManager AudioManager.init w in
  let w := on_audioManager AudioManager.createMechanicalHum w in
  w <| audioManager := AudioManager.playMechanicalHum (audioManager w) |>.

Definition playWhoosh (w : World) : World :=
  let a := audioManager w in
  if negb (AudioManager.initialized a) then w
  else w <| audioManager :=
              a <| AudioManager.started :=
                     AudioManager.started a ++ [AudioManager.Whoosh] |> |>.

(** *** Loading simulation *)

(** One run of the [tick] closure of [simulateLoading] at [Date.now() = now];
    the boolean tells whether it asked for another animation frame. *)
Definition simulateLoading_tick (startTime now : Q) (s : t) (w : World)
  : bool * (t * World) :=
  let progress := Qmin ((now - startTime) / LOAD_DURATION_MS) 1 in
  let s := s <| loadingProgress := progress |> in
  let w := w <| globalState :=
                  GlobalState.setLoadingProgress progress (globalState w) |> in
  if progress <? 1 then (true, (s, w))
  else
    let w := on_audioManager AudioManager.stopMechanicalHum w in
    (false, (s <| phase := ringFade |> <| phaseTimer := 0 |>, w)).

(** *** Update, called every frame *)

Definition updateLoading (s : t) : t :=
  let s := s <| pulsingDot_scale := 1 + sin (pulseTime s * 3) * 0.3 |> in
  let s := s <| centerLight_intensity := 1.5 + sin (pulseTime s * 3) * 0.8 |> in
  let arcLength := loadingProgress s * PI * 2 in
  s <| progressArc_arc := arcLength |>.

Definition updateRingFade (dt : Q) (s : t) : t :=
  let t := Qmin (phaseTimer s / RING_FADE_DURATION) 1 in
  let opacity := 1 - t in
  let s := s <| ringMat_opacity := 0.35 * opacity |> in
  let s := s <| arcMat_opacity := opacity |> in
  let s := s <| pulsingDot_scale := 1 + sin (pulseTime s * 3) * 0.3 |> in
  let s := s <| centerLight_intensity := 1.5 + sin (pulseTime s * 3) * 0.8 |> in
  if 1 <=? t then
    let s := s <| progressRing_visible := false |> in
    let s := s <| progressArc_visible := false |> in
    let s := s <| dotPulseCount := 0%Z |> in
    let s := s <| lastSinSign := sign (sin (pulseTime s * 3)) |> in
    let s := s <| phase := dotExplode |> in
    s <| phaseTimer := 0 |>
  else s.

Definition updateDotExplode (dt : Q) (s : t) : t :=
  let sinVal := sin (pulseTime s * 3) in
  let sinSign := sign sinVal in
  let s :=
    if (0 <? lastSinSign s)%Z && (sinSign <=? 0)%Z then
      let s := s <| dotPulseCount := (dotPulseCount s + 1)%Z |> in
      if (DOT_PULSES_BEFORE_EXPLODE <=? dotPulseCount s)%Z
         && negb (_explodeStarted s)
      then s <| _explodeStarted := true |> <| phaseTimer := 0 |>
      else s
    else s in
  let s := s <| lastSinSign := sinSign |> in
  if negb (_explodeStarted s) then
    let s := s <| pulsingDot_scale := 1 + sinVal * 0.3 |> in
    s <| centerLight_intensity := 1.5 + sinVal * 0.8 |>
  else
    let t := Qmin (phaseTimer s / EXPLODE_DURATION) 1 in
    let ease := easeInOutCubic t in
    let scale := 1 + ease * 60 in
    let s := s <| pulsingDot_scale := scale |> in
    let s := s <| dotMat_opacity := 1 - ease |> in
    let s := s <| centerLight_intensity := 1.5 + sin (t * PI) * 4 |> in
    let s :=
      if 0.25 <=? t then
        let textT := Qmin ((t - 0.25) / 0.5) 1 in
        let textOpacity := easeInOutCubic textT in
        style_welcomeEl (with_opacity textOpacity) s
      else s in
    let s :=
      if 0.2 <=? t then
        let particleT := (t - 0.2) / 0.8 in
        let expandFactor := 1 + easeInOutCubic particleT * 1.5 in
        for_loop (length (particleBaseRadii s)) (fun i s =>
          s <| particleRadii :=
                 <[i := fround (particleBaseRadii s !!! i * expandFactor)]>
                   (particleRadii s) |>) s
      else s in
    if 1 <=? t then
      let s := s <| dotMat_opacity := 0 |> in
      let s := s <| pulsingDot_visible := false |> in
      let s := s <| centerLight_intensity := 1 |> in
      let s :=
        for_loop (length (particleBaseRadii s)) (fun i s =>
          s <| particleRadii :=
                 <[i := fround (particleBaseRadii s !!! i * 2.5)]>
                   (particleRadii s) |>) s in
      let s := style_welcomeEl (with_opacity 1) s in
      let s := s <| phase := textPulse |> in
      s <| phaseTimer := 0 |>
    else s.

Definition updateTextPulse (dt : Q) (s : t) (w : World) : t * World :=
  let pulse := 0.75 + sin (pulseTime s * 2.5) * 0.25 in
  let glowStr := Qfloor (20 + pulse * 20) in
  let glowStr2 := Qfloor (40 + pulse * 40) in
  let s :=
    style_welcomeEl (fun el =>
      with_textShadow
        {| blur1 := glowStr; alpha1 := 0.6 + pulse * 0.4;
           blur2 := glowStr2; alpha2 := 0.2 + pulse * 0.2 |}
        (with_opacity pulse el)) s in
  let s := s <| particleMat_opacity := 0.4 + pulse * 0.3 |> in
  if PULSE_HOLD_BEFORE_EXIT <=? phaseTimer s then
    if 0.85 <? sin (pulseTime s * 2.5) then
      let w := playWhoosh w in
      let s := s <| phase := exitBurst |> in
      let s := s <| phaseTimer := 0 |> in
      (s <| _exitStartRadii := Some (particleRadii s) |>, w)
    else (s, w)
  else (s, w).

(** Reading [this._exitStartRadii[i]] while the field is undefined throws
    a TypeError, at the first turn of the loop. *)
Definition updateExitBurst (dt : Q) (s : t) (w : World) : Outcome (t * World) :=
  let t := Qmin (phaseTimer s / EXIT_DURATION) 1 in
  let ease := easeInQuart t in
  let textScale := 1 + ease * 3 in
  let textOpacity := 1 - ease in
  let s :=
    style_welcomeEl
      (fun el => with_scale textScale (with_opacity textOpacity el)) s in
  let expandFactor := 1 + ease * 8 in
  match _exitStartRadii s, particleAngles s with
  | None, _ :: _ => Threw (s, w)
  | start, _ =>
      let s :=
        for_loop (length (particleAngles s)) (fun i s =>
          s <| particleRadii :=
                 <[i := fround (default [] start !!! i * expandFactor)]>
                   (particleRadii s) |>) s in
      let s := s <| particleMat_opacity := (1 - ease) * 0.7 |> in
      let s := s <| centerLight_intensity := (1 - ease) * 1.5 |> in
      if 1 <=? t then
        let s := s <| isComplete := true |> in
        let '(s, w) := enableControls s w in
        Done (s, w <| globalState := GlobalState.setCanProgress true (globalState w) |>)
      else Done (s, w)
  end.

Definition update (time delta : Q) (s : t) (w : World) : Outcome (t * World) :=
  if isComplete s then Done (s, w)
  else
    let dt := delta * 0.001 in
    let s := s <| pulseTime := pulseTime s + dt |> in
    let s := s <| phaseTimer := phaseTimer s + dt |> in
    let s := s <| progressRing_rotation_z :=
                   progressRing_rotation_z s + delta * 0.0004 |> in
    let s := orbitParticles delta s in
    match phase s with
    | loading => Done (updateLoading s, w)
    | ringFade => Done (updateRingFade dt s, w)
    | dotExplode => Done (updateDotExplode dt s, w)
    | textPulse => Done (updateTextPulse dt s w)
    | exitBurst => updateExitBurst dt s w
    | done => Done (s, w)
    end.

(** [dispose()]: the welcome element leaves the document; geometries and
    materials are released, which no field here records. *)
Definition dispose (s : t) : t :=
  style_welcomeEl (fun el =>
    {| style_opacity := style_opacity el; style_scale := style_scale el;
       style_textShadow := style_textShadow el; inDocument := false |}) s.

(** The scene over a sequence of frames, each given by the [elapsed] and
    [delta] (milliseconds) of the clock. *)
Fixpoint frames (ticks : list (Q * Q)) (s : t) (w : World) : t * World :=
  match ticks with
  | [] => (s, w)
  | (time, delta) :: rest =>
      let '(s, w) := state_of (update time delta s w) in
      frames rest s w
  end.

End WithMath.

End LoadingScene.

(** ** EntryGateScene.js *)

Module EntryGateScene.

Local Open Scope Q_scope.

Definition DOOR_ANIMATION_START : Q := 0.5.
Definition DOOR_ANIMATION_DURATION : Q := 2.0.
Definition TEXT_FADE_START : Q := 3.0.
Definition TEXT_FADE_DURATION : Q := 1.0.
Definition PROGRESSION_Z_THRESHOLD : Q := -10.

(** The title mesh: what the scene animates of it. *)
Record TitleText : Type := {
  visible : bool;
  material_opacity : Q;
  material_transparent : bool;
  position_y : Q;
  rotation_y : Q
}.

Definition copy_TitleText (x : TitleText) : TitleText :=
  {| visible := visible x; material_opacity := material_opacity x;
     material_transparent := material_transparent x;
     position_y := position_y x; rotation_y := rotation_y x |}.

#[global] Instance upd_visible : Setter visible :=
  ltac:(setter copy_TitleText visible).
#[global] Instance upd_material_opacity : Setter material_opacity :=
  ltac:(setter copy_TitleText material_opacity).
#[global] Instance upd_material_transparent : Setter material_transparent :=
  ltac:(setter copy_TitleText material_transparent).
#[global] Instance upd_position_y : Setter position_y :=
  ltac:(setter copy_TitleText position_y).
#[global] Instance upd_rotation_y : Setter rotation_y :=
  ltac:(setter copy_TitleText rotation_y).

(** Colours are the hexadecimal literals of the source. *)
Record Lighting : Type := {
  background : Z;
  fog_color : Z;
  ambient_color : Z;
  ambient_intensity : Q;
  dirLight_color : Z;
  dirLight_intensity : Q;
  dirLight_position : Q * Q * Q
}.

Record t : Type := {
  elapsedTime : Q;
  doorsOpened : bool;
  textVisible : bool;
  userPassedThrough : bool;
  progressionEnabled : bool;
  gateOpeningSoundPlayed : bool;
  leftDoor_x : Q;               (* leftDoor.position.x *)
  rightDoor_x : Q;              (* rightDoor.position.x *)
  titleText : option TitleText; (* null until a font callback has run *)
  fontLoaded : bool;
  lighting : Lighting
}.

Definition copy (s : t) : t :=
  {| elapsedTime := elapsedTime s; doorsOpened := doorsOpened s;
     textVisible := textVisible s; userPassedThrough := userPassedThrough s;
     progressionEnabled := progressionEnabled s;
     gateOpeningSoundPlayed := gateOpeningSoundPlayed s;
     leftDoor_x := leftDoor_x s; rightDoor_x := rightDoor_x s;
     titleText := titleText s; fontLoaded := fontLoaded s;
     lighting := lighting s |}.

#[global] Instance upd_elapsedTime : Setter elapsedTime :=
  ltac:(setter copy elapsedTime).
#[global] Instance upd_doorsOpened : Setter doorsOpened :=
  ltac:(setter copy doorsOpened).
#[global] Instance upd_textVisible : Setter textVisible :=
  ltac:(setter copy textVisible).
#[global] Instance upd_userPassedThrough : Setter userPassedThrough :=
  ltac:(setter copy userPassedThrough).
#[global] Instance upd_progressionEnabled : Setter progressionEnabled :=
  ltac:(setter copy progressionEnabled).
#[global] Instance upd_gateOpeningSoundPlayed : Setter gateOpeningSoundPlayed :=
  ltac:(setter copy gateOpeningSoundPlayed).
#[global] Instance upd_leftDoor_x : Setter leftDoor_x :=
  ltac:(setter copy leftDoor_x).
#[global] Instance upd_rightDoor_x : Setter rightDoor_x :=
  ltac:(setter copy rightDoor_x).
#[global] Instance upd_titleText : Setter titleText :=
  ltac:(setter copy titleText).
#[global] Instance upd_fontLoaded : Setter fontLoaded :=
  ltac:(setter copy fontLoaded).
#[global] Instance upd_lighting : Setter lighting :=
  ltac:(setter copy lighting).

Definition darkLighting : Lighting :=
  {| background := 0x000a14; fog_color := 0x000a14;
     ambient_color := 0x4488bb; ambient_intensity := 0.4;
     dirLight_color := 0xffffff; dirLight_intensity := 0.7;
     dirLight_position := (5, 15, 10) |}.

Definition sunLighting : Lighting :=
  {| background := 0x87ceeb; fog_color := 0x87ceeb;
     ambient_color := 0xfff4e0; ambient_intensity := 0.8;
     dirLight_color := 0xffffff; dirLight_intensity := 1.2;
     dirLight_position := (10, 20, 10) |}.

Definition updateLightsForTheme (s : t) (w : World) : t :=
  let isLight := themeLight (browser w) in
  if isLight then s <| lighting := sunLighting |>
  else s <| lighting := darkLighting |>.

(** The constructor, up to the answer of the font loader, which is one of
    the two callbacks below. *)
Definition new (w : World) : t * World :=
  let s :=
    {| elapsedTime := 0; doorsOpened := false; textVisible := false;
       userPassedThrough := false; progressionEnabled := false;
       gateOpeningSoundPlayed := false;
       leftDoor_x := -3.25; rightDoor_x := 3.25;
       titleText := None; fontLoaded := false; lighting := darkLighting |} in
  let s := updateLightsForTheme s w in
  let w := w <| cameraZ := 45 |> in
  (s, w <| browser := console_log "EntryGateScene initialized" (browser w) |>).

Definition hiddenTitle : TitleText :=
  {| visible := false; material_opacity := 1; material_transparent := false;
     position_y := 13; rotation_y := 0 |}.

(** The font arrived: [createTitleText(font); this.fontLoaded = true]. *)
Definition loadFont_onLoad (s : t) : t :=
  s <| titleText := Some hiddenTitle |> <| fontLoaded := true |>.

(** The font failed: [createFallbackText()]. *)
Definition loadFont_onError (s : t) (w : World) : t * World :=
  (s <| titleText := Some hiddenTitle |> <| fontLoaded := true |>,
   w <| browser := console_log "Font loading failed:" (browser w) |>).

Section WithMath.
Context `{M : Math}.

(** The animation of the doors. The cue is played on a frame with
    [0 < t < 0.05] only; a frame at the edge of that window, within one
    rounding of 0.05, can be on either side of it in the doubles of the
    source. *)
Definition updateDoorAnimation (s : t) (w : World) : t * World :=
  if doorsOpened s then (s, w)
  else if elapsedTime s <? DOOR_ANIMATION_START then (s, w)
  else
    let animTime := elapsedTime s - DOOR_ANIMATION_START in
    let t := Qmin (animTime / DOOR_ANIMATION_DURATION) 1 in
    let eased := 1 - (1 - t) ^ 3 in
    let s := s <| leftDoor_x := -3.25 - eased * 3.25 |> in
    let s := s <| rightDoor_x := 3.25 + eased * 3.25 |> in
    let '(s, w) :=
      if (0 <? t) && (t <? 0.05) && negb (gateOpeningSoundPlayed s) then
        let w := on_audioManager AudioManager.playGateOpening w in
        (s <| gateOpeningSoundPlayed := true |>, w)
      else (s, w) in
    if 1 <=? t then
      (s <| doorsOpened := true |>,
       w <| browser := console_log "Doors fully opened" (browser w) |>)
    else (s, w).

(** [this.titleText.visible] throws a TypeError while [titleText] is null. *)
Definition updateTextAnimation (s : t) (w : World) : Outcome (t * World) :=
  if textVisible s || negb (fontLoaded s) then Done (s, w)
  else if elapsedTime s <? TEXT_FADE_START then Done (s, w)
  else
    let fadeTime := elapsedTime s - TEXT_FADE_START in
    let t := Qmin (fadeTime / TEXT_FADE_DURATION) 1 in
    match titleText s with
    | None => Threw (s, w)
    | Some title =>
        let title :=
          if negb (visible title) && (0 <? t)
          then title <| visible := true |> else title in
        let title := title <| material_opacity := t |> in
        let title := title <| material_transparent := true |> in
        if 1 <=? t then
          let s := s <| textVisible := true |> in
          let title := title <| material_transparent := false |> in
          let title := title <| material_opacity := 1 |> in
          Done (s <| titleText := Some title |>,
                w <| browser := console_log "Title text fully visible" (browser w) |>)
        else Done (s <| titleText := Some title |>, w)
    end.

Definition updateTextFloating (s : t) : t :=
  match titleText s with
  | None => s
  | Some title =>
      if negb (textVisible s) then s
      else
        let floatSpeed := 0.5 in
        let floatAmount := 0.2 in
        let title :=
          title <| position_y := 13 + sin (elapsedTime s * floatSpeed) * floatAmount |> in
        let title := title <| rotation_y := sin (elapsedTime s * 0.3) * 0.06 |> in
        s <| titleText := Some title |>
  end.

(** The forward arrow gets the class [glow] and is replaced by a clone,
    which keeps the attributes and drops the listeners; the clone gets the
    click listener [forwardArrow_onClick]. *)
Definition enableProgression (s : t) (w : World) : t * World :=
  let s := s <| progressionEnabled := true |> in
  match arrows (browser w) !! "arrow-forward" with
  | None => (s, w)
  | Some forwardArrow =>
      let newButton :=
        {| display := display forwardArrow; glow := true;
           listeners := [GateProgress] |} in
      let b := browser w in
      (s, w <| browser :=
                 b <| arrows := <["arrow-forward" := newButton]> (arrows b) |> |>)
  end.

Definition forwardArrow_onClick (s : t) (w : World) : World :=
  if progressionEnabled s then
    let w := w <| globalState := GlobalState.setCanProgress true (globalState w) |> in
    w <| browser :=
           console_log "User clicked forward - progressing to Stage 3" (browser w) |>
  else w.

Definition checkUserProgress (s : t) (w : World) : t * World :=
  let userZ := cameraZ w in
  if (userZ <? PROGRESSION_Z_THRESHOLD) && negb (userPassedThrough s) then
    let s := s <| userPassedThrough := true |> in
    let '(s, w) := enableProgression s w in
    (s, w <| browser :=
               console_log "User passed through gate - progression enabled"
                           (browser w) |>)
  else (s, w).

Definition update (elapsed delta : Q) (s : t) (w : World) : Outcome (t * World) :=
  let s := s <| elapsedTime := elapsed / 1000 |> in
  let '(s, w) := updateDoorAnimation s w in
  and_then (updateTextAnimation s w) (fun '(s, w) =>
    let s := updateTextFloating s in
    let '(s, w) := checkUserProgress s w in
    Done (updateLightsForTheme s w, w)).

Definition dispose (w : World) : World :=
  w <| browser := console_log "EntryGateScene disposed" (browser w) |>.

(** The scene over a sequence of frames, each given by the [elapsed] and
    [delta] (milliseconds) of the clock. *)
Fixpoint frames (ticks : list (Q * Q)) (s : t) (w : World) : t * World :=
  match ticks with
  | [] => (s, w)
  | (elapsed, delta) :: rest =>
      let '(s, w) := state_of (update elapsed delta s w) in
      frames rest s w
  end.

End WithMath.

End EntryGateScene.

(** ** App.js *)

Module App.

Definition SCENE_NAMES : list string :=
  [ "loading"; "entryGate"; "mainStreet"; "workshopDistrict";
    "competitionArena"; "hallOfLegacy"; "enrollmentHub";
    "exitConfirmation" ].

(** [SCENE_NAMES[i]]: [None] is [undefined]. *)
Definition SCENE_NAMES_at (i : Z) : option string :=
  if i <? 0 then None else SCENE_NAMES !! Z.to_nat i.

(** [names.indexOf(x)]. *)
Fixpoint indexOf_from (names : list string) (x : string) (i : Z) : Z :=
  match names with
  | [] => -1
  | n :: rest => if bool_decide (n = x) then i else indexOf_from rest x (i + 1)
  end.

Definition indexOf (names : list string) (x : option string) : Z :=
  match x with
  | Some x => indexOf_from names x 0
  | None => -1
  end.

(** A value inside a template string. *)
Definition text_of (x : option string) : string := default "undefined" x.

Definition quote : string := String (ascii_of_nat 34) EmptyString.

(** The names that every object inherits from [Object.prototype]. *)
Definition Object_prototype_names : list string :=
  [ "constructor"; "__defineGetter__"; "__defineSetter__"; "hasOwnProperty";
    "__lookupGetter__"; "__lookupSetter__"; "isPrototypeOf";
    "propertyIsEnumerable"; "toString"; "valueOf"; "__proto__";
    "toLocaleString" ].

(** What [this.scenes[name]] can hold that is not falsy: a scene, or the
    value that [Object.prototype] has under [name], a function or, for
    [__proto__], the prototype itself; these have no [update], [dispose]
    or [scene]. *)
Inductive Scene : Type :=
| LoadingSceneObject (s : LoadingScene.t)
| EntryGateSceneObject (s : EntryGateScene.t)
| InheritedObject (name : string).

(** [currentScene] holds a reference to a scene object. Every scene object
    is stored in one slot of [scenes], by [initScenes], and slots are not
    reassigned afterwards, so the reference is the key of that slot.
    [switched] is a history variable: the arguments of the calls of
    [switchScene] so far, oldest first. No method reads it. *)
Record t : Type := {
  world : World;                        (* globalState, audioManager, camera, document *)
  scenes : gmap string (option Scene);  (* a null slot is [Some None] *)
  currentScene : option string;
  _progressGuard : bool;
  switched : list (option string)
}.

Definition copy (a : t) : t :=
  {| world := world a; scenes := scenes a; currentScene := currentScene a;
     _progressGuard := _progressGuard a; switched := switched a |}.

#[global] Instance upd_world : Setter world := ltac:(setter copy world).
#[global] Instance upd_scenes : Setter scenes := ltac:(setter copy scenes).
#[global] Instance upd_currentScene : Setter currentScene :=
  ltac:(setter copy currentScene).
#[global] Instance upd_progressGuard : Setter _progressGuard :=
  ltac:(setter copy _progressGuard).
#[global] Instance upd_switched : Setter switched :=
  ltac:(setter copy switched).

Definition log (msg : string) (a : t) : t :=
  let w := world a in
  a <| world := w <| browser := console_log msg (browser w) |> |>.

(** [this.scenes[sceneName]]: [None] is a falsy value, null or undefined.
    An own property of the registry comes first; a name that the registry
    does not have itself is looked up in [Object.prototype]. For
    [undefined] the key is the string undefined, which no assignment gives
    the registry and [Object.prototype] has not. *)
Definition scene_at (sceneName : option string) (a : t) : option Scene :=
  match sceneName with
  | Some n =>
      match scenes a !! n with
      | Some slot => slot
      | None =>
          if bool_decide (n ∈ Object_prototype_names)
          then Some (InheritedObject n) else None
      end
  | None => None
  end.

Definition fadeTransition (a : t) : t :=
  let w := world a in
  let b := browser w in
  match loadingOverlay b with
  | None => a
  | Some _ =>
      let b := b <| loadingOverlay := Some false |> in
      let b := setTimeout HideOverlay 300 b in
      a <| world := w <| browser := b |> |>
  end.

(** [if (this.currentScene?.dispose) this.currentScene.dispose()]: both
    scene classes have the method, an inherited value has not. *)
Definition dispose_current (a : t) : t :=
  match currentScene a with
  | None => a
  | Some key =>
      match scene_at (Some key) a with
      | Some (LoadingSceneObject s) =>
          a <| scenes :=
                 <[key := Some (LoadingSceneObject (LoadingScene.dispose s))]>
                   (scenes a) |>
      | Some (EntryGateSceneObject _) =>
          a <| world := EntryGateScene.dispose (world a) |>
      | Some (InheritedObject _) | None => a
      end
  end.

(** [if (idx !== -1) this.globalState.setScene(idx)] *)
Definition setScene_if_named (sceneName : option string) (a : t) : t :=
  let idx := indexOf SCENE_NAMES sceneName in
  if bool_decide (idx <> -1) then
    a <| world := on_globalState (GlobalState.setScene idx) (world a) |>
  else a.

Definition switchScene (sceneName : option string) (a : t) : t :=
  let a := a <| switched := switched a ++ [sceneName] |> in
  match scene_at sceneName a with
  | None =>
      let a :=
        log ("Scene " +:+ quote +:+ text_of sceneName +:+ quote
             +:+ " not implemented") a in
      let a := setScene_if_named sceneName a in
      let a := a <| currentScene := None |> in
      fadeTransition a
  | Some _ =>
      let a := dispose_current a in
      let a := a <| currentScene := sceneName |> in
      let a := setScene_if_named sceneName a in
      let a := fadeTransition a in
      log ("Switched to: " +:+ text_of sceneName) a
  end.

Definition previousScene (a : t) : t :=
  let currentIdx := GlobalState.currentScene (globalState (world a)) in
  if currentIdx <=? 0 then a
  else
    let prevIdx := currentIdx - 1 in
    if prevIdx =? 0 then a
    else switchScene (SCENE_NAMES_at prevIdx) a.

Definition after_timeout (action : TimerAction) (ms : Z) (a : t) : t :=
  let w := world a in
  a <| world := w <| browser := setTimeout action ms (browser w) |> |>.

Definition checkSceneProgression (a : t) : t :=
  if negb (GlobalState.getCanProgress (globalState (world a))) || _progressGuard a
  then a
  else
    let currentIdx := GlobalState.currentScene (globalState (world a)) in
    if currentIdx =? 0 then
      let a := a <| _progressGuard := true |> in
      let w := world a in
      let a := a <| world :=
                     w <| globalState :=
                            GlobalState.setCanProgress false (globalState w) |> |> in
      let savedIdx :=
        GlobalState.getSavedScene (globalState (world a)) (browser (world a)) in
      let a := switchScene (SCENE_NAMES_at savedIdx) a in
      after_timeout ResetProgressGuard 500 a
    else if GlobalState.getCanProgress (globalState (world a)) then
      let a := a <| _progressGuard := true |> in
      let w := world a in
      let w := w <| globalState :=
                     GlobalState.setCanProgress false (globalState w) |> in
      let '(advanced, (g, b)) := GlobalState.nextScene (globalState w) (browser w) in
      let a := a <| world := w <| globalState := g |> <| browser := b |> |> in
      let a :=
        if advanced then
          switchScene
            (SCENE_NAMES_at (GlobalState.currentScene (globalState (world a)))) a
        else a in
      after_timeout ResetProgressGuard 500 a
    else a.

(** The callback of a timer, when the browser runs it. *)
Definition timer_callback (action : TimerAction) (a : t) : t :=
  match action with
  | HideOverlay =>
      let w := world a in
      let b := browser w in
      a <| world := w <| browser := b <| loadingOverlay := Some true |> |> |>
  | ResetProgressGuard => a <| _progressGuard := false |>
  | StopHum sound =>
      let w := world a in
      a <| world :=
             w <| audioManager :=
                    AudioManager.humStopped sound (audioManager w) |> |>
  end.

(** The browser runs the pending timer number [i]. *)
Definition fire_timer (i : nat) (a : t) : t :=
  let w := world a in
  let b := browser w in
  match pendingTimers b !! i with
  | None => a
  | Some (_, action) =>
      let b := b <| pendingTimers := delete i (pendingTimers b) |> in
      timer_callback action (a <| world := w <| browser := b |> |>)
  end.

Section WithMath.
Context `{M : Math}.

Definition initScenes (random : nat -> Q) (a : t) : t :=
  let '(loadingScene, w) := LoadingScene.new random (world a) in
  let a := a <| scenes :=
                 <["loading" := Some (LoadingSceneObject loadingScene)]>
                   (scenes a) |> in
  let '(entryGate, w) := EntryGateScene.new w in
  let a := a <| scenes :=
                 <["entryGate" := Some (EntryGateSceneObject entryGate)]>
                   (scenes a) |> in
  a <| world := w <| cameraZ := 5%Q |> |>.

Definition add_listener (l : ClickListener) (x : ArrowButton) : ArrowButton :=
  {| display := display x; glow := glow x; listeners := listeners x ++ [l] |}.

Definition setupUI (a : t) : t :=
  let w := world a in
  let b := browser w in
  a <| world :=
         w <| browser :=
                b <| arrows := alter (add_listener AppPreviousScene)
                                     "arrow-backward" (arrows b) |> |> |>.

(** [new App(canvas)] in a document [b]. *)
Definition new (random : nat -> Q) (b : Browser) : t :=
  let a :=
    {| world := {| globalState := GlobalState.new;
                   audioManager := AudioManager.new;
                   cameraZ := 5%Q; browser := b |};
       scenes := list_to_map ((fun n => (n, None)) <$> SCENE_NAMES);
       currentScene := None;
       _progressGuard := false;
       switched := [] |} in
  let a := initScenes random a in
  let a := setupUI a in
  let a := switchScene (Some "loading") a in
  log "App initialized" a.

(** [this.currentScene.update(elapsed, delta)] on the object behind the
    reference. *)
Definition update_current (elapsed delta : Q) (a : t) : Outcome t :=
  match currentScene a with
  | None => Done a
  | Some key =>
      match scene_at (Some key) a with
      | Some (LoadingSceneObject s) =>
          let put '(s, w) :=
            a <| scenes := <[key := Some (LoadingSceneObject s)]> (scenes a) |>
              <| world := w |> in
          match LoadingScene.update elapsed delta s (world a) with
          | Done r => Done (put r)
          | Threw r => Threw (put r)
          end
      | Some (EntryGateSceneObject s) =>
          let put '(s, w) :=
            a <| scenes := <[key := Some (EntryGateSceneObject s)]> (scenes a) |>
              <| world := w |> in
          match EntryGateScene.update elapsed delta s (world a) with
          | Done r => Done (put r)
          | Threw r => Threw (put r)
          end
      | Some (InheritedObject _) | None => Done a
      end
  end.

(** One tick; [controls.update()] and [renderer.render(...)] write nothing
    that is modelled. *)
Definition update (elapsed delta : Q) (a : t) : Outcome t :=
  and_then (update_current elapsed delta a) (fun a =>
    Done (checkSceneProgression a)).

End WithMath.

End App.

(** ** Time.js *)

Module Time.

(** [Date.now()] reads whole milliseconds. *)
Record t : Type := {
  start : Z;
  current : Z;
  elapsed : Z;
  delta : Z
}.

(** [tick()] when [Date.now()] reads [now]; the listeners of the [tick]
    event that it dispatches find the clock as returned. *)
Definition tick (now : Z) (c : t) : t :=
  {| start := start c;
     current := now;
     elapsed := now - start c;
     delta := now - current c |}.

(** The constructor reads the time once for [start] and, in its first
    [tick()], once more. *)
Definition new (now now' : Z) : t :=
  tick now' {| start := now; current := now; elapsed := 0; delta := 16 |}.

(** The clock at each of the animation frames at which [Date.now()] reads
    [nows]. *)
Fixpoint ticks (nows : list Z) (c : t) : list t :=
  match nows with
  | [] => []
  | now :: rest => let c := tick now c in c :: ticks rest c
  end.

End Time.

(** ** Controls.js *)

Module Controls.

Local Open Scope Q_scope.

(** [movement], [touch], [rotation] and [scrollDelta]; [keys], which only
    the keyboard listeners write and nothing reads, is left out. The timers
    that reset [movement.forward] are counted by [pendingResets]. *)
Record t : Type := {
  movement_forward : Q;
  movement_rotation : Q;
  movement_rotationY : Q;
  touch_startX : Q;
  touch_startY : Q;
  touch_currentX : Q;
  touch_currentY : Q;
  touch_isActive : bool;
  touch_isSwiping : bool;
  scrollDelta : Q;
  rotation_horizontal : Q;
  rotation_vertical : Q;
  rotation_targetHorizontal : Q;
  rotation_targetVertical : Q;
  rotation_smoothness : Q;
  pendingResets : nat
}.

Definition copy (c : t) : t :=
  {| movement_forward := movement_forward c;
     movement_rotation := movement_rotation c;
     movement_rotationY := movement_rotationY c;
     touch_startX := touch_startX c; touch_startY := touch_startY c;
     touch_currentX := touch_currentX c; touch_currentY := touch_currentY c;
     touch_isActive := touch_isActive c; touch_isSwiping := touch_isSwiping c;
     scrollDelta := scrollDelta c;
     rotation_horizontal := rotation_horizontal c;
     rotation_vertical := rotation_vertical c;
     rotation_targetHorizontal := rotation_targetHorizontal c;
     rotation_targetVertical := rotation_targetVertical c;
     rotation_smoothness := rotation_smoothness c;
     pendingResets := pendingResets c |}.

#[global] Instance upd_movement_forward : Setter movement_forward :=
  ltac:(setter copy movement_forward).
#[global] Instance upd_touch_startX : Setter touch_startX :=
  ltac:(setter copy touch_startX).
#[global] Instance upd_touch_startY : Setter touch_startY :=
  ltac:(setter copy touch_startY).
#[global] Instance upd_touch_currentX : Setter touch_currentX :=
  ltac:(setter copy touch_currentX).
#[global] Instance upd_touch_currentY : Setter touch_currentY :=
  ltac:(setter copy touch_currentY).
#[global] Instance upd_touch_isActive : Setter touch_isActive :=
  ltac:(setter copy touch_isActive).
#[global] Instance upd_touch_isSwiping : Setter touch_isSwiping :=
  ltac:(setter copy touch_isSwiping).
#[global] Instance upd_scrollDelta : Setter scrollDelta :=
  ltac:(setter copy scrollDelta).
#[global] Instance upd_rotation_horizontal : Setter rotation_horizontal :=
  ltac:(setter copy rotation_horizontal).
#[global] Instance upd_rotation_vertical : Setter rotation_vertical :=
  ltac:(setter copy rotation_vertical).
#[global] Instance upd_rotation_targetHorizontal :
  Setter rotation_targetHorizontal :=
  ltac:(setter copy rotation_targetHorizontal).
#[global] Instance upd_rotation_targetVertical :
  Setter rotation_targetVertical :=
  ltac:(setter copy rotation_targetVertical).
#[global] Instance upd_pendingResets : Setter pendingResets :=
  ltac:(setter copy pendingResets).

(** The constructor, up to the listeners that [initControls] attaches,
    which are the functions below. *)
Definition new : t :=
  {| movement_forward := 0; movement_rotation := 0; movement_rotationY := 0;
     touch_startX := 0; touch_startY := 0;
     touch_currentX := 0; touch_currentY := 0;
     touch_isActive := false; touch_isSwiping := false;
     scrollDelta := 0;
     rotation_horizontal := 0; rotation_vertical := 0;
     rotation_targetHorizontal := 0; rotation_targetVertical := 0;
     rotation_smoothness := 0.1;
     pendingResets := 0%nat |}.

(** [setTimeout(() => { this.movement.forward = 0; }, 100)] *)
Definition reset_later (c : t) : t :=
  c <| pendingResets := S (pendingResets c) |>.

(** That timer runs. *)
Definition reset_timeout (c : t) : t :=
  match pendingResets c with
  | O => c
  | S n => c <| movement_forward := 0 |> <| pendingResets := n |>
  end.

(** *** Touch *)

Definition touchstart (clientX clientY : Q) (c : t) : t :=
  let c := c <| touch_isActive := true |> in
  let c := c <| touch_startX := clientX |> in
  let c := c <| touch_startY := clientY |> in
  let c := c <| touch_currentX := touch_startX c |> in
  c <| touch_currentY := touch_startY c |>.

Definition touchmove (clientX clientY : Q) (c : t) : t :=
  if negb (touch_isActive c) then c
  else
    let c := c <| touch_currentX := clientX |> in
    let c := c <| touch_currentY := clientY |> in
    let deltaX := touch_currentX c - touch_startX c in
    let deltaY := touch_currentY c - touch_startY c in
    let c :=
      if Qabs deltaY <? Qabs deltaX then
        let c := c <| rotation_targetHorizontal :=
                       rotation_targetHorizontal c + deltaX * 0.005 |> in
        c <| touch_isSwiping := true |>
      else
        let c := c <| movement_forward := if 0 <? deltaY then -0.5 else 0.5 |> in
        c <| touch_isSwiping := true |> in
    let c := c <| touch_startX := touch_currentX c |> in
    c <| touch_startY := touch_currentY c |>.

Definition touchend (c : t) : t :=
  let c := c <| touch_isActive := false |> in
  let c := c <| touch_isSwiping := false |> in
  c <| movement_forward := 0 |>.

(** *** Mouse and wheel *)

Definition mousedown (clientX clientY : Q) (c : t) : t :=
  let c := c <| touch_isActive := true |> in
  let c := c <| touch_startX := clientX |> in
  c <| touch_startY := clientY |>.

Section WithMath.
Context `{M : Math}.

Definition mousemove (clientX clientY : Q) (c : t) : t :=
  if negb (touch_isActive c) then c
  else
    let deltaX := clientX - touch_startX c in
    let deltaY := clientY - touch_startY c in
    let c := c <| rotation_targetHorizontal :=
                   rotation_targetHorizontal c + deltaX * 0.003 |> in
    let c := c <| rotation_targetVertical :=
                   rotation_targetVertical c - deltaY * 0.003 |> in
    let c := c <| rotation_targetVertical :=
                   Qmax (- PI / 4) (Qmin (PI / 4) (rotation_targetVertical c)) |> in
    let c := c <| touch_startX := clientX |> in
    c <| touch_startY := clientY |>.

End WithMath.

Definition mouseup (c : t) : t := c <| touch_isActive := false |>.

Definition wheel (deltaY : Q) (c : t) : t :=
  let c := c <| scrollDelta := deltaY |> in
  let c := c <| movement_forward := if 0 <? deltaY then -0.3 else 0.3 |> in
  reset_later c.

(** *** Arrow buttons *)

(** The click listener that [setupArrowButtons] attaches to the button
    [id]. *)
Definition arrow_onClick (id : string) (c : t) : t :=
  if bool_decide (id = "arrow-forward"%string) then
    reset_later (c <| movement_forward := 0.5 |>)
  else if bool_decide (id = "arrow-backward"%string) then
    reset_later (c <| movement_forward := -0.5 |>)
  else if bool_decide (id = "arrow-left"%string) then
    c <| rotation_targetHorizontal := rotation_targetHorizontal c - 0.2 |>
  else if bool_decide (id = "arrow-right"%string) then
    c <| rotation_targetHorizontal := rotation_targetHorizontal c + 0.2 |>
  else c.

(** [setupArrowButtons()] in the document: each of the four buttons that
    exists gets its listener. *)
Definition setupArrowButtons (b : Browser) : Browser :=
  b <| arrows :=
         foldl (fun m id => alter (App.add_listener ControlsMove) id m)
               (arrows b) arrow_ids |>.

(** *** Update *)

(** [update()]: the rotation moves towards its target; the pair is what
    the camera gets, [cam.rotation.y] and [cam.rotation.x]. *)
Definition update (c : t) : t * (Q * Q) :=
  let c := c <| rotation_horizontal :=
                 rotation_horizontal c
                 + (rotation_targetHorizontal c - rotation_horizontal c)
                   * rotation_smoothness c |> in
  let c := c <| rotation_vertical :=
                 rotation_vertical c
                 + (rotation_targetVertical c - rotation_vertical c)
                   * rotation_smoothness c |> in
  (c, (rotation_horizontal c, rotation_vertical c)).

Definition getMovement (c : t) : Q * Q * Q :=
  (movement_forward c, movement_rotation c, movement_rotationY c).

End Controls.

(** ** The page: what the browser delivers to the application *)

Module Page.

(** The listeners and callbacks that the program registers, with what the
    browser hands them. Events are taken in any order and number: in the
    browser the frames of the loader end when the progress is 1, the audio
    listener runs once and the font loader answers once, so the sequences
    of the browser are among those considered. *)
Inductive Event : Type :=
| Tick (elapsed delta : Q)        (* [tick] on window: App.update *)
| Click (id : string)             (* a click on the arrow button [id] *)
| Timeout (i : nat)               (* the pending timer number [i] runs *)
| AudioMuteToggle (muted : bool)  (* [audio-mute-toggle] on window *)
| Interaction                     (* click or touch in the document: startAudio *)
| LoaderFrame (startTime now : Q) (* animation frame of simulateLoading *)
| FontLoaded                      (* the font loader succeeds *)
| FontFailed.                     (* the font loader fails *)

Section WithMath.
Context `{M : Math}.

(** A closure of the loading scene runs on the object that [initScenes]
    stored in the registry. *)
Definition with_loading
    (f : LoadingScene.t -> World -> LoadingScene.t * World) (a : App.t) : App.t :=
  match App.scene_at (Some "loading"%string) a with
  | Some (App.LoadingSceneObject s) =>
      let '(s, w) := f s (App.world a) in
      a <| App.scenes :=
             <["loading"%string := Some (App.LoadingSceneObject s)]> (App.scenes a) |>
        <| App.world := w |>
  | _ => a
  end.

Definition with_entryGate
    (f : EntryGateScene.t -> World -> EntryGateScene.t * World) (a : App.t) : App.t :=
  match App.scene_at (Some "entryGate"%string) a with
  | Some (App.EntryGateSceneObject s) =>
      let '(s, w) := f s (App.world a) in
      a <| App.scenes :=
             <["entryGate"%string := Some (App.EntryGateSceneObject s)]>
               (App.scenes a) |>
        <| App.world := w |>
  | _ => a
  end.

(** One click listener of an arrow button; the listener of [Controls]
    writes the movement of [Controls] only. *)
Definition listener (l : ClickListener) (a : App.t) : App.t :=
  match l with
  | ControlsMove => a
  | AppPreviousScene => App.previousScene a
  | GateProgress =>
      with_entryGate (fun s w => (s, EntryGateScene.forwardArrow_onClick s w)) a
  end.

(** A click runs the listeners that the button has, in the order in which
    they were added. *)
Definition click (id : string) (a : App.t) : App.t :=
  match arrows (browser (App.world a)) !! id with
  | Some button => foldl (fun a l => listener l a) a (listeners button)
  | None => a
  end.

Definition handle (e : Event) (a : App.t) : App.t :=
  match e with
  | Tick elapsed delta => state_of (App.update elapsed delta a)
  | Click id => click id a
  | Timeout i => App.fire_timer i a
  | AudioMuteToggle muted =>
      a <| App.world :=
             on_audioManager (AudioManager.setMuted muted) (App.world a) |>
  | Interaction =>
      a <| App.world := LoadingScene.startAudio_init (App.world a) |>
  | LoaderFrame startTime now =>
      with_loading
        (fun s w => (LoadingScene.simulateLoading_tick startTime now s w).2) a
  | FontLoaded =>
      with_entryGate (fun s w => (EntryGateScene.loadFont_onLoad s, w)) a
  | FontFailed => with_entryGate EntryGateScene.loadFont_onError a
  end.

Definition run (events : list Event) (a : App.t) : App.t :=
  foldl (fun a e => handle e a) a events.

(** [new App(canvas)]: the constructor of [Controls] attaches its arrow
    listeners before the scenes are built and [setupUI] runs. *)
Definition start (random : nat -> Q) (b : Browser) : App.t :=
  App.new random (Controls.setupArrowButtons b).

End WithMath.

End Page.

(** * Notions used by the statements *)

(** *** Strings and the progress store *)

Fixpoint all_digits (s : string) : bool :=
  match s with
  | EmptyString => true
  | String c r => bool_decide (is_Some (digit_value c)) && all_digits r
  end.

(** The strings that spell an integer in decimal: an optional minus sign
    and then digits only, at least one. *)
Definition is_integer_string (s : string) : bool :=
  match s with
  | String "-" (String c r) => all_digits (String c r)
  | String c r => all_digits (String c r)
  | EmptyString => false
  end.

(** A string that [parseInt] reads from its first character on: it begins
    with a decimal digit. *)
Definition starts_with_digit (s : string) : Prop :=
  exists c r, s = String c r /\ is_Some (digit_value c).

(** The current scene index lies in the enumeration, as it does initially
    and after every [setScene]. *)
Definition valid_index (g : GlobalState.t) : Prop :=
  0 <= GlobalState.currentScene g <= 7.

(** The indices made current by the successful calls among [n] calls of
    [nextScene] in a row. *)
Fixpoint advance_trace (n : nat) (g : GlobalState.t) (b : Browser) : list Z :=
  match n with
  | O => []
  | S n' =>
      match GlobalState.nextScene g b with
      | (true, (g', b')) => GlobalState.currentScene g' :: advance_trace n' g' b'
      | (false, (g', b')) => advance_trace n' g' b'
      end
  end.

(** *** The application *)

(** The current scene index of the application. *)
Definition current_index (a : App.t) : Z :=
  GlobalState.currentScene (globalState (App.world a)).

(** The advance flag of the application. *)
Definition can_progress (a : App.t) : bool :=
  GlobalState.canProgress (globalState (App.world a)).

(** The overlay after [fadeTransition]: shown, when there is one. *)
Definition shown (overlay : option bool) : option bool :=
  match overlay with Some _ => Some false | None => None end.

(** The timer that [fadeTransition] queues, when there is an overlay. *)
Definition hide_timer (overlay : option bool) : list (Z * TimerAction) :=
  match overlay with Some _ => [(300, HideOverlay)] | None => [] end.

(** The application with the guard engaged and the advance flag cleared. *)
Definition consumed (a : App.t) : App.t :=
  let a := a <| App._progressGuard := true |> in
  let w := App.world a in
  a <| App.world :=
         w <| globalState := GlobalState.setCanProgress false (globalState w) |> |>.

(** The scene that the progression check moves to, if any: the resume
    target from the loading scene, the next scene from a later one, none
    from the last. *)
Definition progression_target (a : App.t) : list (option string) :=
  if current_index a =? 0 then
    [App.SCENE_NAMES_at
       (GlobalState.getSavedScene (globalState (App.world a))
                                  (browser (App.world a)))]
  else if current_index a <? 7 then [App.SCENE_NAMES_at (current_index a + 1)]
  else [].

(** *** The loading scene *)

(** The fields that steer the timeline, as opposed to what is drawn. *)
Definition control (s : LoadingScene.t) :=
  (LoadingScene.phase s, LoadingScene.phaseTimer s, LoadingScene.isComplete s,
   LoadingScene.pulseTime s, LoadingScene.dotPulseCount s,
   LoadingScene.lastSinSign s, LoadingScene._explodeStarted s,
   LoadingScene._blockLook s, LoadingScene._exitStartRadii s).

(** The scene as [update] hands it to the phase: clocks advanced, ring
    turned, particles moved. *)
Definition stepped `{M : Math} (delta : Q) (s : LoadingScene.t) : LoadingScene.t :=
  LoadingScene.orbitParticles delta
    (s <| LoadingScene.pulseTime := (LoadingScene.pulseTime s + delta * 0.001)%Q |>
       <| LoadingScene.phaseTimer := (LoadingScene.phaseTimer s + delta * 0.001)%Q |>
       <| LoadingScene.progressRing_rotation_z :=
            (LoadingScene.progressRing_rotation_z s + delta * 0.0004)%Q |>).

(** The signs of the pulse signal that the frames [ticks] sample, from a
    scene whose [pulseTime] is [pulseTime]. *)
Fixpoint pulse_samples `{M : Math} (pulseTime : Q) (ticks : list (Q * Q)) : list Z :=
  match ticks with
  | [] => []
  | (_, delta) :: rest =>
      let pulseTime := (pulseTime + delta * 0.001)%Q in
      sign (sin (pulseTime * 3)) :: pulse_samples pulseTime rest
  end.

(** The first frame at which the sign before was positive and the sign
    sampled is not; [prev] is the sign before the first frame. *)
Fixpoint first_crossing (prev : Z) (samples : list Z) : option nat :=
  match samples with
  | [] => None
  | x :: rest =>
      if (0 <? prev) && (x <=? 0) then Some O
      else S <$> first_crossing x rest
  end.

(** The dot pulses and the explosion has not begun. *)
Definition awaiting_explosion (s : LoadingScene.t) : Prop :=
  LoadingScene.isComplete s = false /\
  LoadingScene.phase s = LoadingScene.dotExplode /\
  LoadingScene._explodeStarted s = false /\
  0 <= LoadingScene.dotPulseCount s.

(** The scene is not in exitBurst without the baseline radii of that
    phase. *)
Definition exit_baseline_set (s : LoadingScene.t) : Prop :=
  LoadingScene.phase s = LoadingScene.exitBurst ->
  is_Some (LoadingScene._exitStartRadii s).

(** *** The gated passage *)

(** The normalized progress [t] of the door animation at the clock value
    [elapsed] (milliseconds). *)
Definition door_progress (elapsed : Q) : Q :=
  Qmin ((elapsed / 1000 - EntryGateScene.DOOR_ANIMATION_START)
        / EntryGateScene.DOOR_ANIMATION_DURATION) 1.

(** The calls of [playGateOpening] so far. *)
Definition gate_cues (w : World) : list AudioManager.Sound :=
  AudioManager.requested (audioManager w).

(** What the door animation reads and writes of the scene and of the audio
    manager. *)
Definition door_state (s : EntryGateScene.t) (w : World) :=
  (EntryGateScene.doorsOpened s, EntryGateScene.gateOpeningSoundPlayed s,
   gate_cues w).

(** Whether the frame at [elapsed] calls [playGateOpening]. *)
Definition cue_fires (elapsed : Q) (s : EntryGateScene.t) : bool :=
  negb (EntryGateScene.doorsOpened s)
  && negb (elapsed / 1000 <? EntryGateScene.DOOR_ANIMATION_START)%Q
  && (0 <? door_progress elapsed)%Q && (door_progress elapsed <? 0.05)%Q
  && negb (EntryGateScene.gateOpeningSoundPlayed s).

(** Whether the frame at [elapsed] finds the doors fully open. *)
Definition doors_finish (elapsed : Q) (s : EntryGateScene.t) : bool :=
  negb (EntryGateScene.doorsOpened s)
  && negb (elapsed / 1000 <? EntryGateScene.DOOR_ANIMATION_START)%Q
  && (1 <=? door_progress elapsed)%Q.

(** What [setScene] writes of the document, with the flag that decides
    whether the store is written. *)
Definition store_view (b : Browser) :=
  (storageBlocked b, sessionStorage b, progressDots b).

(** That view after [setScene(idx)]. *)
Definition store_view_set (idx : Z)
    (v : bool * gmap string string * list bool) :=
  let '(blocked, store, dots) := v in
  if bool_decide (0 <= idx <= 7) then
    (blocked,
     (if bool_decide (0 < idx) && negb blocked
      then <[SESSION_KEY := String_of idx]> store else store),
     imap (fun k _ => bool_decide (Z.of_nat k = idx)) dots)
  else v.

(** *** Concrete inputs *)

(** The string of U+00A0, two bytes in UTF-8, and the digit 5. *)
Definition no_break_space_5 : string :=
  String (ascii_of_nat 194) (String (ascii_of_nat 160) "5").

(** A document with eight progress dots, the overlay and the four arrow
    buttons, and a readable store that holds [stored], if anything, under
    [SESSION_KEY]. *)
Definition document (stored : option string) : Browser :=
  {| storageBlocked := false;
     storageUnreadable := false;
     sessionStorage :=
       match stored with
       | Some v => {[ SESSION_KEY := v ]}
       | None => ∅
       end;
     progressDots := replicate 8 false;
     loadingOverlay := Some false;
     arrows :=
       list_to_map
         ((fun id => (id, {| display := EmptyString; glow := false;
                             listeners := [] |}))
            <$> arrow_ids);
     themeLight := false;
     pendingTimers := [];
     console := [] |}.

(** The shared objects at the start, in the document [b]. *)
Definition fresh_world (b : Browser) : World :=
  {| globalState := GlobalState.new; audioManager := AudioManager.new;
     cameraZ := 5%Q; browser := b |}.

(** An application over the progress store [g] and the document [b] in
    which no scene has been built. *)
Definition bare_app (g : GlobalState.t) (b : Browser) : App.t :=
  {| App.world := {| globalState := g; audioManager := AudioManager.new;
                     cameraZ := 5%Q; browser := b |};
     App.scenes := list_to_map ((fun n => (n, None)) <$> App.SCENE_NAMES);
     App.currentScene := None;
     App._progressGuard := false;
     App.switched := [] |}.

(** Polynomials in place of the sine and the cosine, to run the scenes on
    concrete numbers. *)
Definition PolynomialMath : Math :=
  {| sin := fun x => (x - x * x * x / 6)%Q;
     cos := fun x => (1 - x * x / 2)%Q;
     PI := (355 # 113)%Q |}.

(** A loading scene with two particles, in the phase [p] with the phase
    timer at [timer] and the pulse clock at [pulse]. *)
Definition scene_in (p : LoadingScene.Phase) (timer pulse : Q) : LoadingScene.t :=
  {| LoadingScene.phase := p;
     LoadingScene.phaseTimer := timer;
     LoadingScene.loadingProgress := 1%Q;
     LoadingScene.isComplete := false;
     LoadingScene.pulseTime := pulse;
     LoadingScene.dotPulseCount := 0;
     LoadingScene.lastSinSign := 1;
     LoadingScene._explodeStarted := false;
     LoadingScene._blockLook := true;
     LoadingScene.particleAngles := [0%Q; 3%Q];
     LoadingScene.particleRadii := [1.25%Q; 1.5%Q];
     LoadingScene.particleBaseRadii := [1.25%Q; 1.5%Q];
     LoadingScene.particleHeights := [0.125%Q; (-0.25)%Q];
     LoadingScene._exitStartRadii :=
       match p with
       | LoadingScene.exitBurst => Some [3.125%Q; 3.75%Q]
       | _ => None
       end;
     LoadingScene.positions := [(1.25%Q, 0.125%Q, 0%Q); (0%Q, (-0.25)%Q, 1.5%Q)];
     LoadingScene.pulsingDot_scale := 1%Q;
     LoadingScene.pulsingDot_visible := true;
     LoadingScene.dotMat_opacity := 1%Q;
     LoadingScene.ringMat_opacity := 0.35%Q;
     LoadingScene.arcMat_opacity := 1%Q;
     LoadingScene.particleMat_opacity := 0.7%Q;
     LoadingScene.progressRing_rotation_z := 0%Q;
     LoadingScene.progressRing_visible := true;
     LoadingScene.progressArc_visible := true;
     LoadingScene.progressArc_arc := 0.001%Q;
     LoadingScene.centerLight_intensity := 2%Q;
     LoadingScene.welcomeEl :=
       Some {| LoadingScene.style_opacity := 0%Q;
               LoadingScene.style_scale := 1%Q;
               LoadingScene.style_textShadow :=
                 {| LoadingScene.blur1 := 30; LoadingScene.alpha1 := 0.85%Q;
                    LoadingScene.blur2 := 70; LoadingScene.alpha2 := 0.35%Q |};
               LoadingScene.inDocument := true |} |}.

(** ** Notions used by the further properties *)

(** *** Calls of the progress store *)

Inductive StoreCall : Type :=
| CallSetScene (sceneIndex : Z)
| CallNextScene
| CallSetCanProgress (v : bool)
| CallSetLoadingProgress (p : Q)
| CallSetLoading (v : bool).

Definition store_call (c : StoreCall) (g : GlobalState.t) (b : Browser)
  : GlobalState.t * Browser :=
  match c with
  | CallSetScene sceneIndex => GlobalState.setScene sceneIndex g b
  | CallNextScene => (GlobalState.nextScene g b).2
  | CallSetCanProgress v => (GlobalState.setCanProgress v g, b)
  | CallSetLoadingProgress p => (GlobalState.setLoadingProgress p g, b)
  | CallSetLoading v => (GlobalState.setLoading v g, b)
  end.

(** The store and the document after the calls [cs], made in this order. *)
Fixpoint store_calls (cs : list StoreCall) (g : GlobalState.t) (b : Browser)
  : GlobalState.t * Browser :=
  match cs with
  | [] => (g, b)
  | c :: rest =>
      let '(g, b) := store_call c g b in store_calls rest g b
  end.

(** What the calls keep true of the store. *)
Definition store_sound (g : GlobalState.t) : Prop :=
  0 <= GlobalState.currentScene g <= 7 /\
  GlobalState.currentScene g ∈ GlobalState.visitedScenes g /\
  0 ∈ GlobalState.visitedScenes g /\
  (forall i, i ∈ GlobalState.visitedScenes g -> 0 <= i <= 7) /\
  (0 <= GlobalState.loadingProgress g <= 1)%Q.

(** *** Concrete applications *)

(** An application on the loading scene [s], with the gate scene built,
    over the progress store [g] and the document [b]. *)
Definition app_on_loading (s : LoadingScene.t) (g : GlobalState.t) (b : Browser)
  : App.t :=
  {| App.world := {| globalState := g; audioManager := AudioManager.new;
                     cameraZ := 5%Q; browser := b |};
     App.scenes :=
       <["loading"%string := Some (App.LoadingSceneObject s)]>
         (<["entryGate"%string :=
              Some (App.EntryGateSceneObject
                      (EntryGateScene.new (fresh_world b)).1)]>
            (list_to_map ((fun n => (n, None)) <$> App.SCENE_NAMES)));
     App.currentScene := Some "loading"%string;
     App._progressGuard := false;
     App.switched := [Some "loading"%string] |}.

(** *** The application *)

(** What no switch writes of the document. *)
Definition kept (b : Browser) :=
  (arrows b, themeLight b, storageBlocked b, storageUnreadable b).

(** *** Calls of the audio manager *)

(** The methods of the manager, and the run of the timer that
    [stopMechanicalHum] queues. *)
Inductive AudioCall : Type :=
| CallInit
| CallCreateMechanicalHum
| CallPlayMechanicalHum
| CallStopMechanicalHum
| HumTimerRuns (sound : nat)
| CallPlayGateOpening
| CallSetMuted (muted : bool)
| CallSetMasterVolume (volume : Q).

Definition audio_call (c : AudioCall) (a : AudioManager.t) (b : Browser)
  : AudioManager.t * Browser :=
  match c with
  | CallInit => AudioManager.init a b
  | CallCreateMechanicalHum => AudioManager.createMechanicalHum a b
  | CallPlayMechanicalHum => (AudioManager.playMechanicalHum a, b)
  | CallStopMechanicalHum => AudioManager.stopMechanicalHum a b
  | HumTimerRuns sound => (AudioManager.humStopped sound a, b)
  | CallPlayGateOpening => AudioManager.playGateOpening a b
  | CallSetMuted muted => AudioManager.setMuted muted a b
  | CallSetMasterVolume volume => (AudioManager.setMasterVolume volume a, b)
  end.

Fixpoint audio_calls (cs : list AudioCall) (a : AudioManager.t) (b : Browser)
  : AudioManager.t * Browser :=
  match cs with
  | [] => (a, b)
  | c :: rest => let '(a, b) := audio_call c a b in audio_calls rest a b
  end.

(** The calls that can make [isMuted] false. *)
Definition unmutes (c : AudioCall) : bool :=
  match c with
  | CallSetMuted false => true
  | _ => false
  end.

(** The calls after which the hum may not be playing although it was: the
    sound object is replaced, or the stop timer has run. *)
Definition renews_hum (c : AudioCall) : bool :=
  match c with
  | CallCreateMechanicalHum | HumTimerRuns _ => true
  | _ => false
  end.

(** How often the hum was started. *)
Definition is_hum (x : AudioManager.Sound) : bool :=
  match x with
  | AudioManager.MechanicalHum => true
  | _ => false
  end.

Definition hum_starts (a : AudioManager.t) : nat :=
  length (List.filter is_hum (AudioManager.started a)).

(** What the calls keep true of the manager. *)
Definition audio_sound (a : AudioManager.t) : Prop :=
  (0 <= AudioManager.masterVolume a <= 1)%Q /\
  (is_Some (AudioManager.hum a) -> AudioManager.initialized a = true) /\
  (AudioManager.started a <> [] -> AudioManager.initialized a = true) /\
  (AudioManager.hum a = Some true ->
   AudioManager.MechanicalHum ∈ AudioManager.started a).

(** *** The loading scene *)

(** The place of a phase in the timeline. *)
Definition phase_rank (p : LoadingScene.Phase) : nat :=
  match p with
  | LoadingScene.loading => 0
  | LoadingScene.ringFade => 1
  | LoadingScene.dotExplode => 2
  | LoadingScene.textPulse => 3
  | LoadingScene.exitBurst => 4
  | LoadingScene.done => 5
  end.

(** The shared objects after the frame that completes the scene. *)
Definition handed_over (w : World) : World :=
  w <| browser := set_arrows_display EmptyString (browser w) |>
    <| globalState := GlobalState.setCanProgress true (globalState w) |>.

(** The frame leaves the text pulse for the exit burst. *)
Definition starts_exit (p p' : LoadingScene.Phase) : bool :=
  match p, p' with
  | LoadingScene.textPulse, LoadingScene.exitBurst => true
  | _, _ => false
  end.

(** What the loading scene does not write of the audio manager. *)
Definition audio_rest (a : AudioManager.t) :=
  (AudioManager.initialized a, AudioManager.isMuted a,
   AudioManager.masterVolume a, AudioManager.hums a, AudioManager.requested a).

(** The lengths of the particle arrays. *)
Definition lengths (s : LoadingScene.t) :=
  (length (LoadingScene.particleAngles s), length (LoadingScene.particleRadii s),
   length (LoadingScene.particleBaseRadii s),
   length (LoadingScene.particleHeights s), length (LoadingScene.positions s)).

(** Every particle array has [n] entries, and so has the snapshot of the
    radii that the exit burst reads, when it is set. *)
Definition arrays_of_length (n : nat) (s : LoadingScene.t) : Prop :=
  lengths s = (n, n, n, n, n) /\
  forall r, LoadingScene._exitStartRadii s = Some r -> length r = n.

(** What the particle number [i] is moved by in a frame of [delta]
    milliseconds. *)
Definition orbit_step (delta : Q) (i : nat) : Q :=
  (delta * 0.0004 + inject_Z (Z.of_nat i mod 5) * (delta * 0.0004) * 0.12)%Q.

(** *** The gate scene *)

(** What the scenes never write of the document. *)
Definition browser_core (b : Browser) :=
  (storageBlocked b, storageUnreadable b, sessionStorage b, progressDots b,
   loadingOverlay b,
   themeLight b, pendingTimers b).

(** The door animation: the flag and the two positions. *)
Definition door_view (s : EntryGateScene.t) :=
  (EntryGateScene.doorsOpened s, EntryGateScene.leftDoor_x s,
   EntryGateScene.rightDoor_x s).

(** The title: the mesh, whether the font has answered, and whether the
    fade has ended. *)
Definition title_view (s : EntryGateScene.t) :=
  (EntryGateScene.titleText s, EntryGateScene.fontLoaded s,
   EntryGateScene.textVisible s).

(** The progression: whether the user has passed, and whether the forward
    arrow has been armed. *)
Definition progress_view (s : EntryGateScene.t) :=
  (EntryGateScene.userPassedThrough s, EntryGateScene.progressionEnabled s).

(** The title mesh exists once the font loader has answered. *)
Definition title_ready (s : EntryGateScene.t) : Prop :=
  EntryGateScene.fontLoaded s = true -> is_Some (EntryGateScene.titleText s).

(** The eased opening of the doors at the clock value [elapsed]. *)
Definition door_eased (elapsed : Q) : Q :=
  (1 - (1 - door_progress elapsed) ^ 3)%Q.

(** The forward arrow once the gate has armed it. *)
Definition armed (button : ArrowButton) : ArrowButton :=
  {| display := display button; glow := true; listeners := [GateProgress] |}.

(** *** The application, over the events of the page *)

(** The registry holds the two scenes that [initScenes] built, each in a
    state in which its [update] returns, and no other slot of its own
    holds a scene. *)
Definition registry_sound (a : App.t) : Prop :=
  (exists s,
     App.scenes a !! "loading"%string = Some (Some (App.LoadingSceneObject s)) /\
     exit_baseline_set s) /\
  (exists g,
     App.scenes a !! "entryGate"%string
     = Some (Some (App.EntryGateSceneObject g)) /\
     title_ready g) /\
  (forall k, k <> "loading"%string -> k <> "entryGate"%string ->
     forall sc, App.scenes a !! k <> Some (Some sc)).

(** The index is in the enumeration, and the active scene, when there is
    one, is the built scene of the name at that index. *)
Definition reference_sound (a : App.t) : Prop :=
  0 <= current_index a <= 7 /\
  forall n, App.currentScene a = Some n ->
    App.SCENE_NAMES_at (current_index a) = Some n /\
    is_Some (App.scene_at (Some n) a).

(** An engaged guard has its reset pending. *)
Definition guard_sound (a : App.t) : Prop :=
  App._progressGuard a = true ->
  exists ms, (ms, ResetProgressGuard) ∈ pendingTimers (browser (App.world a)).

Definition app_sound (a : App.t) : Prop :=
  registry_sound a /\ reference_sound a /\ guard_sound a.

(** *** The controls, over the events of the canvas and of the buttons *)

Inductive ControlsEvent : Type :=
| TouchStart (clientX clientY : Q)
| TouchMove (clientX clientY : Q)
| TouchEnd
| MouseDown (clientX clientY : Q)
| MouseMove (clientX clientY : Q)
| MouseUp
| Wheel (deltaY : Q)
| ArrowClick (id : string)
| ResetTimeout                    (* a timer that resets [movement.forward] *)
| Frame.                          (* [update()], from the tick listener *)

Section ControlsEvents.
Context `{M : Math}.

Definition controls_event (e : ControlsEvent) (c : Controls.t) : Controls.t :=
  match e with
  | TouchStart x y => Controls.touchstart x y c
  | TouchMove x y => Controls.touchmove x y c
  | TouchEnd => Controls.touchend c
  | MouseDown x y => Controls.mousedown x y c
  | MouseMove x y => Controls.mousemove x y c
  | MouseUp => Controls.mouseup c
  | Wheel deltaY => Controls.wheel deltaY c
  | ArrowClick id => Controls.arrow_onClick id c
  | ResetTimeout => Controls.reset_timeout c
  | Frame => (Controls.update c).1
  end.

Definition controls_events (events : list ControlsEvent) (c : Controls.t) :
    Controls.t :=
  foldl (fun c e => controls_event e c) c events.

(** The pitch and its target are within a quarter of a half turn, and the
    smoothness is the one of the constructor. *)
Definition pitch_bounded (c : Controls.t) : Prop :=
  (- PI / 4 <= Controls.rotation_targetVertical c <= PI / 4)%Q /\
  (- PI / 4 <= Controls.rotation_vertical c <= PI / 4)%Q /\
  Controls.rotation_smoothness c = 0.1%Q.

End ControlsEvents.

(** [update()], [n] times with no event in between. *)
Fixpoint updates (n : nat) (c : Controls.t) : Controls.t :=
  match n with
  | O => c
  | S n => updates n (Controls.update c).1
  end.

(** *** The clock *)

(** The sum of the [delta] that the listeners of the [tick] event find. *)
Definition sum_deltas (cs : list Time.t) : Z :=
  foldr (fun c n => Time.delta c + n) 0 cs.

(** * Properties *)

Lemma sceneCount_eq : GlobalState.sceneCount = 8.
Proof. reflexivity. Qed.

Lemma digit_value_pretty d :
  (d < 10)%N -> digit_value (pretty_N_char d) = Some (Z.of_N d).
Proof.
  intros Hd.
  assert (d = 0 \/ d = 1 \/ d = 2 \/ d = 3 \/ d = 4 \/ d = 5 \/ d = 6
          \/ d = 7 \/ d = 8 \/ d = 9)%N as Hcases by lia.
  repeat (destruct Hcases as [-> | Hcases]; [reflexivity|]).
  subst. reflexivity.
Qed.

Lemma leading_digits_pretty_go x :
  forall s, (0 < x)%N ->
    leading_digits (pretty_N_go x s) None = leading_digits s (Some (Z.of_N x)).
Proof.
  induction (N.lt_wf_0 x) as [x _ IH]; intros s Hx.
  rewrite pretty_N_go_step by done.
  assert (Hmod : (x `mod` 10 < 10)%N) by (apply N.mod_lt; lia).
  assert (Hsplit : Z.of_N x = 10 * Z.of_N (x `div` 10) + Z.of_N (x `mod` 10)).
  { rewrite (N.div_mod x 10) at 1 by lia. lia. }
  destruct (decide (x `div` 10 = 0)%N) as [Hq | Hq].
  - rewrite Hq, pretty_N_go_0. cbn [leading_digits].
    rewrite digit_value_pretty by done. cbn [default].
    rewrite Hsplit, Hq. reflexivity.
  - rewrite IH; [| apply N.div_lt; lia | lia].
    cbn [leading_digits]. rewrite digit_value_pretty by done. cbn [default].
    rewrite Hsplit. reflexivity.
Qed.

Lemma pretty_go_starts_with_digit x :
  forall s, (0 < x)%N -> starts_with_digit (pretty_N_go x s).
Proof.
  induction (N.lt_wf_0 x) as [x _ IH]; intros s Hx.
  rewrite pretty_N_go_step by done.
  destruct (decide (x `div` 10 = 0)%N) as [Hq | Hq].
  - rewrite Hq, pretty_N_go_0. eexists _, _. split; [reflexivity|].
    rewrite digit_value_pretty by (apply N.mod_lt; discriminate). eauto.
  - apply IH; [apply N.div_lt; lia | by apply N.neq_0_lt_0].
Qed.

Lemma digit_not_space_or_sign c :
  is_Some (digit_value c) ->
  is_white_space c = false /\ c <> "-"%char /\ c <> "+"%char.
Proof.
  destruct c as [[] [] [] [] [] [] [] []]; vm_compute; intros [d Hd];
    try discriminate Hd; repeat split; congruence.
Qed.

Lemma trim_start_digit c r :
  is_Some (digit_value c) -> trim_start (String c r) = String c r.
Proof.
  intros [v Hv].
  destruct c as [[] [] [] [] [] [] [] []];
    try (vm_compute in Hv; discriminate Hv);
    destruct r as [|d [|e r2]]; reflexivity.
Qed.

Lemma trim_start_minus r : trim_start (String "-" r) = String "-"%char r.
Proof. destruct r as [|d [|e r2]]; reflexivity. Qed.

Lemma parseInt10_digits s :
  starts_with_digit s ->
  parseInt10 s = leading_digits s None.
Proof.
  intros (c & r & -> & Hc).
  destruct (digit_not_space_or_sign c Hc) as (Hws & Hminus & Hplus).
  unfold parseInt10. rewrite trim_start_digit by exact Hc.
  assert (Hsign :
    match String c r with
    | String "-" r0 => (-1, r0)
    | String "+" r0 => (1, r0)
    | _ => (1, String c r)
    end = (1, String c r)).
  { destruct c as [[] [] [] [] [] [] [] []]; try reflexivity; congruence. }
  rewrite Hsign.
  destruct (leading_digits (String c r) None) as [n|]; [|reflexivity].
  f_equal. lia.
Qed.

Lemma parseInt10_pretty_pos p : parseInt10 (pretty (Zpos p)) = Some (Zpos p).
Proof.
  change (pretty (Zpos p)) with (pretty (Npos p)).
  unfold pretty, pretty_N. rewrite decide_False by discriminate.
  rewrite parseInt10_digits by (apply pretty_go_starts_with_digit; lia).
  rewrite leading_digits_pretty_go by lia. reflexivity.
Qed.

(** [parseInt(String(n), 10) === n] for every integer [n]. *)
Lemma parseInt10_String_of n : parseInt10 (String_of n) = Some n.
Proof.
  destruct n as [|p|p].
  - reflexivity.
  - apply parseInt10_pretty_pos.
  - unfold String_of.
    change (pretty (Zneg p)) with (String "-"%char (pretty (Npos p))).
    unfold pretty, pretty_N. rewrite decide_False by discriminate.
    pose proof (leading_digits_pretty_go (Npos p) EmptyString ltac:(lia)) as Hbody.
    revert Hbody. generalize (pretty_N_go (N.pos p) EmptyString) as body.
    intros body Hbody. unfold parseInt10. rewrite trim_start_minus.
    cbn iota. rewrite Hbody. reflexivity.
Qed.

(** ** GlobalState *)

Lemma in_range_iff i :
  (0 <=? i) && (i <? GlobalState.sceneCount) = true <-> 0 <= i <= 7.
Proof. rewrite andb_true_iff, sceneCount_eq. lia. Qed.

Lemma in_range_false i :
  i < 0 \/ 7 < i -> (0 <=? i) && (i <? GlobalState.sceneCount) = false.
Proof.
  intros H. apply not_true_is_false. rewrite in_range_iff. lia.
Qed.

Lemma getSavedScene_range g b : 1 <= GlobalState.getSavedScene g b <= 7.
Proof.
  unfold GlobalState.getSavedScene.
  destruct (getItem SESSION_KEY b) as [[saved|]|]; try lia.
  destruct (parseInt10 saved) as [idx|]; try lia.
  destruct ((1 <=? idx) && (idx <? GlobalState.sceneCount)) eqn:E; try lia.
  apply andb_true_iff in E as [E1 E2].
  rewrite sceneCount_eq in E2. lia.
Qed.

Lemma getSavedScene_parsed g b saved n :
  storageUnreadable b = false ->
  sessionStorage b !! SESSION_KEY = Some saved ->
  parseInt10 saved = Some n ->
  GlobalState.getSavedScene g b = if (1 <=? n) && (n <=? 7) then n else 1.
Proof.
  intros Hb Hs Hp. unfold GlobalState.getSavedScene, getItem.
  rewrite Hb, Hs, Hp, sceneCount_eq.
  destruct (1 <=? n) eqn:E1, (n <? 8) eqn:E2, (n <=? 7) eqn:E3; cbn; lia.
Qed.

(** C2, the claim as stated fails: a stored string that is not an integer
    string, but begins with the digit of a valid index, is resumed at that
    index and not at the default 1. *)
Lemma getSavedScene_digit_prefix :
  is_integer_string "4abc" = false /\
  GlobalState.getSavedScene GlobalState.new (document (Some "4abc")) = 4.
Proof. split; reflexivity. Qed.

(** C2 (amended): for every content of the store, and also when reading
    the store throws, [getSavedScene] returns an index from 1 to 7, never
    0; it returns [n] when the stored string is the decimal string of an
    [n] from 1 to 7, more generally when [parseInt] reads such an [n] from
    it, after any white space of JavaScript, a sign, and before anything
    that is not a digit; it returns 1 when the read throws, when the key
    is absent, when [parseInt] reads no number and when the number read is
    below 1 or above 7. *)
Theorem getSavedScene_spec (g : GlobalState.t) (b : Browser) :
  let r := GlobalState.getSavedScene g b in
  1 <= r <= 7 /\ r <> 0 /\
  (forall n, 1 <= n <= 7 -> storageUnreadable b = false ->
     sessionStorage b !! SESSION_KEY = Some (String_of n) -> r = n) /\
  (forall saved n, storageUnreadable b = false ->
     sessionStorage b !! SESSION_KEY = Some saved ->
     parseInt10 saved = Some n -> 1 <= n <= 7 -> r = n) /\
  (storageUnreadable b = true -> r = 1) /\
  (sessionStorage b !! SESSION_KEY = None -> r = 1) /\
  (forall saved, sessionStorage b !! SESSION_KEY = Some saved ->
     parseInt10 saved = None -> r = 1) /\
  (forall saved n, sessionStorage b !! SESSION_KEY = Some saved ->
     parseInt10 saved = Some n -> n < 1 \/ 7 < n -> r = 1).
Proof.
  intros r. pose proof (getSavedScene_range g b) as Hr. fold r in Hr.
  assert (Hparsed : forall saved n, storageUnreadable b = false ->
     sessionStorage b !! SESSION_KEY = Some saved ->
     parseInt10 saved = Some n -> 1 <= n <= 7 -> r = n).
  { intros saved n Hb Hs Hp Hn. subst r.
    rewrite (getSavedScene_parsed g b saved n Hb Hs Hp).
    destruct (1 <=? n) eqn:E1, (n <=? 7) eqn:E2; cbn; lia. }
  repeat split; try lia.
  - intros n Hn Hb Hs.
    exact (Hparsed _ n Hb Hs (parseInt10_String_of n) Hn).
  - exact Hparsed.
  - intros Hb. subst r. unfold GlobalState.getSavedScene, getItem.
    rewrite Hb. reflexivity.
  - intros Hs. subst r. unfold GlobalState.getSavedScene, getItem.
    destruct (storageUnreadable b); [reflexivity|]. rewrite Hs. reflexivity.
  - intros saved Hs Hp. subst r. unfold GlobalState.getSavedScene, getItem.
    destruct (storageUnreadable b); [reflexivity|]. rewrite Hs, Hp. reflexivity.
  - intros saved n Hs Hp Hn. subst r.
    unfold GlobalState.getSavedScene, getItem.
    destruct (storageUnreadable b); [reflexivity|].
    rewrite Hs, Hp, sceneCount_eq.
    destruct (1 <=? n) eqn:E1, (n <? 8) eqn:E2; cbn; lia.
Qed.

Lemma getSavedScene_spec_witness :
  GlobalState.getSavedScene GlobalState.new (document (Some "4")) = 4 /\
  GlobalState.getSavedScene GlobalState.new (document (Some no_break_space_5))
  = 5 /\
  GlobalState.getSavedScene GlobalState.new (document (Some " +7 ")) = 7 /\
  GlobalState.getSavedScene GlobalState.new (document None) = 1 /\
  GlobalState.getSavedScene GlobalState.new (document (Some "four")) = 1 /\
  GlobalState.getSavedScene GlobalState.new (document (Some "0")) = 1 /\
  GlobalState.getSavedScene GlobalState.new (document (Some "-3")) = 1 /\
  GlobalState.getSavedScene GlobalState.new (document (Some "99")) = 1.
Proof.
  repeat apply conj.
  - apply (proj1 (proj2 (proj2 (getSavedScene_spec GlobalState.new
                                   (document (Some "4"))))) 4);
      [lia | reflexivity | reflexivity].
  - destruct (getSavedScene_spec GlobalState.new
                (document (Some no_break_space_5))) as (_ & _ & _ & H & _).
    apply (H no_break_space_5 5); [reflexivity | reflexivity | reflexivity | lia].
  - destruct (getSavedScene_spec GlobalState.new (document (Some " +7 ")))
      as (_ & _ & _ & H & _).
    apply (H " +7 "%string 7); [reflexivity | reflexivity | reflexivity | lia].
  - destruct (getSavedScene_spec GlobalState.new (document None))
      as (_ & _ & _ & _ & _ & H & _).
    apply H. reflexivity.
  - destruct (getSavedScene_spec GlobalState.new (document (Some "four")))
      as (_ & _ & _ & _ & _ & _ & H & _).
    apply (H "four"%string); reflexivity.
  - destruct (getSavedScene_spec GlobalState.new (document (Some "0")))
      as (_ & _ & _ & _ & _ & _ & _ & H).
    apply (H "0"%string 0); [reflexivity | reflexivity | lia].
  - destruct (getSavedScene_spec GlobalState.new (document (Some "-3")))
      as (_ & _ & _ & _ & _ & _ & _ & H).
    apply (H "-3"%string (-3)); [reflexivity | reflexivity | lia].
  - destruct (getSavedScene_spec GlobalState.new (document (Some "99")))
      as (_ & _ & _ & _ & _ & _ & _ & H).
    apply (H "99"%string 99); [reflexivity | reflexivity | lia].
Defined.

(** *** setScene *)

Lemma setScene_out_of_range idx g b :
  idx < 0 \/ 7 < idx -> GlobalState.setScene idx g b = (g, b).
Proof.
  intros H. unfold GlobalState.setScene. rewrite in_range_false by done.
  reflexivity.
Qed.

Lemma setScene_in_range idx g b :
  0 <= idx <= 7 ->
  GlobalState.setScene idx g b =
    (g <| GlobalState.currentScene := idx |>
       <| GlobalState.visitedScenes := GlobalState.visitedScenes g ∪ {[ idx ]} |>,
     console_log ("Scene changed to: " +:+ GlobalState.sceneNameText idx)
       (let b := GlobalState.updateProgressIndicator
                   (g <| GlobalState.currentScene := idx |>) b in
        if 0 <? idx then GlobalState.saveScene idx b else b)).
Proof.
  intros H. unfold GlobalState.setScene.
  rewrite (proj2 (in_range_iff idx)) by done. reflexivity.
Qed.

Lemma sessionStorage_saveScene idx b :
  sessionStorage (GlobalState.saveScene idx b) =
    if storageBlocked b then sessionStorage b
    else <[SESSION_KEY := String_of idx]> (sessionStorage b).
Proof.
  unfold GlobalState.saveScene, setItem. destruct (storageBlocked b); reflexivity.
Qed.

Lemma setScene_valid idx g b :
  valid_index g -> valid_index (GlobalState.setScene idx g b).1.
Proof.
  unfold valid_index. intros Hg.
  destruct (decide (0 <= idx <= 7)) as [Hin | Hout].
  - rewrite setScene_in_range by done. cbn. lia.
  - rewrite setScene_out_of_range by lia. done.
Qed.

(** C4: an index outside 0..7 leaves the progress store and the browser as
    they are, and nothing is raised; an index inside 0..7 becomes the
    current scene and joins the visited set, the other fields of the store
    keep their values, and [sessionStorage] is written, with the decimal
    string of the index under the session key, if and only if the index is
    greater than 0 (a store that throws on access is left as it is). *)
Theorem setScene_spec (idx : Z) (g : GlobalState.t) (b : Browser) :
  let '(g', b') := GlobalState.setScene idx g b in
  (idx < 0 \/ 7 < idx -> g' = g /\ b' = b) /\
  (0 <= idx <= 7 ->
     GlobalState.currentScene g' = idx /\
     GlobalState.visitedScenes g' = GlobalState.visitedScenes g ∪ {[ idx ]} /\
     GlobalState.canProgress g' = GlobalState.canProgress g /\
     GlobalState.loadingProgress g' = GlobalState.loadingProgress g /\
     GlobalState.isLoading g' = GlobalState.isLoading g /\
     GlobalState.userData g' = GlobalState.userData g /\
     storageBlocked b' = storageBlocked b /\
     sessionStorage b' =
       (if bool_decide (0 < idx) && negb (storageBlocked b)
        then <[SESSION_KEY := String_of idx]> (sessionStorage b)
        else sessionStorage b)).
Proof.
  destruct (GlobalState.setScene idx g b) as [g' b'] eqn:E. split.
  - intros H. rewrite setScene_out_of_range in E by done.
    by injection E as <- <-.
  - intros H. rewrite setScene_in_range in E by done.
    injection E as <- <-. repeat split.
    + destruct (0 <? idx); [|reflexivity].
      unfold GlobalState.saveScene, setItem, GlobalState.updateProgressIndicator.
      destruct b as [blocked unreadable store dots overlay arr theme timers out].
      simpl. destruct blocked; reflexivity.
    + destruct (0 <? idx) eqn:E0.
      * rewrite bool_decide_eq_true_2 by lia.
        unfold GlobalState.saveScene, setItem, GlobalState.updateProgressIndicator.
        destruct b as [blocked unreadable store dots overlay arr theme timers out].
        simpl. destruct blocked; reflexivity.
      * rewrite bool_decide_eq_false_2 by lia. reflexivity.
Qed.

Lemma setScene_spec_witness :
  sessionStorage (GlobalState.setScene 3 GlobalState.new (document None)).2
    !! SESSION_KEY = Some "3"
  /\ GlobalState.setScene 9 GlobalState.new (document None)
     = (GlobalState.new, document None).
Proof.
  pose proof (setScene_spec 3 GlobalState.new (document None)) as H3.
  pose proof (setScene_spec 9 GlobalState.new (document None)) as H9.
  destruct (GlobalState.setScene 3 GlobalState.new (document None)) as [g3 b3].
  destruct (GlobalState.setScene 9 GlobalState.new (document None)) as [g9 b9].
  split.
  - destruct H3 as [_ H3].
    destruct (H3 ltac:(lia)) as (_ & _ & _ & _ & _ & _ & _ & H).
    simpl. rewrite H. reflexivity.
  - destruct H9 as [H9 _]. destruct (H9 ltac:(lia)) as [-> ->]. reflexivity.
Defined.

(** What [setScene] persists is what [getSavedScene] resumes. *)
Lemma getSavedScene_after_setScene idx g b :
  1 <= idx <= 7 -> storageBlocked b = false -> storageUnreadable b = false ->
  GlobalState.getSavedScene (GlobalState.setScene idx g b).1
                            (GlobalState.setScene idx g b).2 = idx.
Proof.
  intros Hidx Hb Hr. rewrite setScene_in_range by lia. cbn [fst snd].
  destruct (0 <? idx) eqn:E; [|lia].
  rewrite (getSavedScene_parsed _ _ (String_of idx) idx).
  - destruct (1 <=? idx) eqn:E1, (idx <=? 7) eqn:E2; simpl; lia.
  - unfold GlobalState.saveScene, setItem, GlobalState.updateProgressIndicator.
    simpl. rewrite Hb. simpl. exact Hr.
  - unfold GlobalState.saveScene, setItem, GlobalState.updateProgressIndicator.
    simpl. rewrite Hb. simpl. apply lookup_insert_eq.
  - apply parseInt10_String_of.
Qed.

(** *** nextScene *)

Lemma nextScene_at_last g b :
  7 <= GlobalState.currentScene g -> GlobalState.nextScene g b = (false, (g, b)).
Proof.
  intros H. unfold GlobalState.nextScene. rewrite sceneCount_eq.
  destruct (GlobalState.currentScene g <? 8 - 1) eqn:E; [lia | reflexivity].
Qed.

Lemma nextScene_before_last g b :
  GlobalState.currentScene g < 7 ->
  GlobalState.nextScene g b
  = (true, GlobalState.setScene (GlobalState.currentScene g + 1) g b).
Proof.
  intros H. unfold GlobalState.nextScene. rewrite sceneCount_eq.
  destruct (GlobalState.currentScene g <? 8 - 1) eqn:E; [reflexivity | lia].
Qed.

Lemma advance_trace_steps n :
  forall g b, -1 <= GlobalState.currentScene g <= 7 ->
    advance_trace n g b
    = (fun k => GlobalState.currentScene g + 1 + Z.of_nat k)
        <$> seq 0 (Nat.min n (Z.to_nat (7 - GlobalState.currentScene g))).
Proof.
  induction n as [|n IH]; intros g b Hg; [reflexivity|].
  cbn [advance_trace].
  destruct (decide (GlobalState.currentScene g = 7)) as [Hlast | Hmore].
  - rewrite nextScene_at_last by lia. rewrite IH by lia.
    rewrite Hlast. change (Z.to_nat (7 - 7)) with 0%nat.
    rewrite !Nat.min_0_r. reflexivity.
  - rewrite nextScene_before_last by lia.
    rewrite setScene_in_range by lia.
    rewrite IH by (simpl; lia). simpl GlobalState.currentScene.
    replace (Z.to_nat (7 - GlobalState.currentScene g))
      with (S (Z.to_nat (7 - (GlobalState.currentScene g + 1)))) by lia.
    cbn [Nat.min seq fmap list_fmap]. rewrite Z.add_0_r. f_equal.
    rewrite <- fmap_S_seq, <- list_fmap_compose.
    apply list_fmap_ext. intros _ k _. simpl. lia.
Qed.

(** C3: at the last index (7) [nextScene] fails and changes nothing;
    below it, it sets the scene to exactly the current index plus one and
    succeeds; so the indices made current by the successful calls among any
    number of calls in a row are the consecutive integers that follow the
    starting index, up to 7: strictly increasing, none skipped. *)
Theorem nextScene_spec (g : GlobalState.t) (b : Browser)
    (Hstart : -1 <= GlobalState.currentScene g) :
  (GlobalState.currentScene g >= 7 ->
     GlobalState.nextScene g b = (false, (g, b))) /\
  (GlobalState.currentScene g < 7 ->
     let '(ok, (g', b')) := GlobalState.nextScene g b in
     ok = true /\
     GlobalState.currentScene g' = GlobalState.currentScene g + 1 /\
     (g', b') = GlobalState.setScene (GlobalState.currentScene g + 1) g b) /\
  (GlobalState.currentScene g <= 7 ->
     forall n, advance_trace n g b
     = (fun k => GlobalState.currentScene g + 1 + Z.of_nat k)
         <$> seq 0 (Nat.min n (Z.to_nat (7 - GlobalState.currentScene g)))).
Proof.
  repeat split.
  - intros H. apply nextScene_at_last. lia.
  - intros H. rewrite nextScene_before_last by done.
    destruct (GlobalState.setScene _ g b) as [g' b'] eqn:E.
    rewrite setScene_in_range in E by lia. injection E as <- <-.
    repeat split.
  - intros H n. apply advance_trace_steps. lia.
Qed.

Lemma nextScene_spec_witness :
  advance_trace 9 GlobalState.new (document None) = [1; 2; 3; 4; 5; 6; 7] /\
  (GlobalState.nextScene GlobalState.new (document None)).1 = true /\
  GlobalState.nextScene (GlobalState.new <| GlobalState.currentScene := 7 |>)
                        (document None)
  = (false, (GlobalState.new <| GlobalState.currentScene := 7 |>, document None)).
Proof.
  pose proof (nextScene_spec GlobalState.new (document None)) as H.
  destruct (H ltac:(simpl; lia)) as (_ & Hstep & Htrace). split; [|split].
  - rewrite (Htrace ltac:(simpl; lia) 9%nat). reflexivity.
  - specialize (Hstep ltac:(simpl; lia)).
    destruct (GlobalState.nextScene GlobalState.new (document None))
      as [ok [g' b']].
    apply Hstep.
  - apply (nextScene_spec (GlobalState.new <| GlobalState.currentScene := 7 |>)
             (document None)); simpl; lia.
Defined.

Lemma nextScene_valid g b :
  valid_index g -> valid_index (GlobalState.nextScene g b).2.1.
Proof.
  intros Hg. unfold GlobalState.nextScene.
  destruct (GlobalState.currentScene g <? GlobalState.sceneCount - 1);
    [apply setScene_valid|]; done.
Qed.

(** ** App *)

(** What [setScene] does to the progress store does not depend on the
    document. *)
Lemma setScene_store idx g b :
  (GlobalState.setScene idx g b).1
  = if (0 <=? idx) && (idx <? GlobalState.sceneCount)
    then g <| GlobalState.currentScene := idx |>
           <| GlobalState.visitedScenes := GlobalState.visitedScenes g ∪ {[ idx ]} |>
    else g.
Proof.
  unfold GlobalState.setScene.
  destruct ((0 <=? idx) && (idx <? GlobalState.sceneCount)); reflexivity.
Qed.

Ltac app_cases :=
  repeat match goal with
         | |- context [match ?x with _ => _ end] => destruct x eqn:?; simpl
         end.

Lemma setScene_if_named_globalState n a :
  globalState (App.world (App.setScene_if_named n a))
  = if bool_decide (App.indexOf App.SCENE_NAMES n <> -1)
    then (GlobalState.setScene (App.indexOf App.SCENE_NAMES n)
            (globalState (App.world a)) (browser (App.world a))).1
    else globalState (App.world a).
Proof.
  unfold App.setScene_if_named, on_globalState.
  destruct (bool_decide _); [|reflexivity].
  destruct (GlobalState.setScene _ _ _); reflexivity.
Qed.

Lemma dispose_current_globalState a :
  globalState (App.world (App.dispose_current a)) = globalState (App.world a).
Proof. unfold App.dispose_current. app_cases; reflexivity. Qed.

Lemma fadeTransition_globalState a :
  globalState (App.world (App.fadeTransition a)) = globalState (App.world a).
Proof. unfold App.fadeTransition. app_cases; reflexivity. Qed.

(** Both paths of [switchScene] do the same to the progress store. *)
Lemma switchScene_globalState n a :
  globalState (App.world (App.switchScene n a))
  = if bool_decide (App.indexOf App.SCENE_NAMES n <> -1)
    then (GlobalState.setScene (App.indexOf App.SCENE_NAMES n)
            (globalState (App.world a)) (browser (App.world a))).1
    else globalState (App.world a).
Proof.
  unfold App.switchScene.
  destruct (App.scene_at n _) as [sc|].
  - unfold App.log. simpl. rewrite fadeTransition_globalState.
    rewrite setScene_if_named_globalState. simpl.
    rewrite !setScene_store. rewrite dispose_current_globalState. reflexivity.
  - rewrite fadeTransition_globalState. simpl.
    rewrite setScene_if_named_globalState. simpl.
    rewrite !setScene_store. reflexivity.
Qed.

Lemma switchScene_progressGuard n a :
  App._progressGuard (App.switchScene n a) = App._progressGuard a.
Proof.
  unfold App.switchScene, App.log, App.fadeTransition, App.setScene_if_named,
    App.dispose_current.
  app_cases; reflexivity.
Qed.

Lemma switchScene_switched n a :
  App.switched (App.switchScene n a) = App.switched a ++ [n].
Proof.
  unfold App.switchScene, App.log, App.fadeTransition, App.setScene_if_named,
    App.dispose_current.
  app_cases; reflexivity.
Qed.

Lemma switchScene_clears_reference n a :
  App.scene_at n a = None -> App.currentScene (App.switchScene n a) = None.
Proof.
  intros H. unfold App.switchScene.
  replace (App.scene_at n (a <| App.switched := App.switched a ++ [n] |>))
    with (App.scene_at n a) by (destruct n; reflexivity).
  rewrite H. unfold App.log, App.fadeTransition, App.setScene_if_named.
  app_cases; reflexivity.
Qed.

Lemma indexOf_SCENE_NAMES_at i name :
  App.SCENE_NAMES_at i = Some name ->
  App.indexOf App.SCENE_NAMES (Some name) = i /\ 0 <= i <= 7.
Proof.
  unfold App.SCENE_NAMES_at. destruct (i <? 0) eqn:Hneg; [discriminate|].
  assert (Hi : i = Z.of_nat (Z.to_nat i)) by lia.
  revert Hi. generalize (Z.to_nat i) as k. intros k -> Hk.
  do 8 (destruct k as [|k]; [injection Hk as <-; split; [reflexivity | lia]|]).
  discriminate Hk.
Qed.

Lemma indexOf_from_range names x i :
  App.indexOf_from names x i = -1 \/
  i <= App.indexOf_from names x i < i + Z.of_nat (length names).
Proof.
  revert i. induction names as [|n rest IH]; intros i; [by left|].
  cbn [App.indexOf_from length]. destruct (bool_decide (n = x)); [right; lia|].
  destruct (IH (i + 1)) as [-> | H]; [by left | right; lia].
Qed.

Lemma indexOf_range n :
  App.indexOf App.SCENE_NAMES n = -1 \/ 0 <= App.indexOf App.SCENE_NAMES n <= 7.
Proof.
  destruct n as [x|]; [|by left]. cbn [App.indexOf].
  destruct (indexOf_from_range App.SCENE_NAMES x 0) as [H | H];
    [by left | right]. cbn [App.SCENE_NAMES length] in H. lia.
Qed.

(** The index after a switch: the position of the name when it has one. *)
Lemma switchScene_index n a :
  current_index (App.switchScene n a)
  = if bool_decide (App.indexOf App.SCENE_NAMES n <> -1)
    then App.indexOf App.SCENE_NAMES n else current_index a.
Proof.
  unfold current_index. rewrite switchScene_globalState.
  destruct (indexOf_range n) as [H | H].
  - rewrite H. reflexivity.
  - rewrite bool_decide_eq_true_2 by lia. rewrite setScene_store.
    rewrite (proj2 (in_range_iff _)) by done. reflexivity.
Qed.

Lemma switchScene_canProgress n a :
  can_progress (App.switchScene n a) = can_progress a.
Proof.
  unfold can_progress. rewrite switchScene_globalState.
  destruct (bool_decide _); [|reflexivity]. rewrite setScene_store.
  destruct (_ && _); reflexivity.
Qed.

Lemma setScene_fade_state idx g b :
  loadingOverlay (GlobalState.setScene idx g b).2 = loadingOverlay b /\
  pendingTimers (GlobalState.setScene idx g b).2 = pendingTimers b.
Proof.
  unfold GlobalState.setScene, GlobalState.saveScene, setItem,
    GlobalState.updateProgressIndicator, console_log.
  destruct b as [blocked store dots overlay arr theme timers out]. simpl.
  destruct (_ && _), (0 <? idx), blocked; split; reflexivity.
Qed.

Lemma setScene_if_named_fade_state n a :
  loadingOverlay (browser (App.world (App.setScene_if_named n a)))
  = loadingOverlay (browser (App.world a)) /\
  pendingTimers (browser (App.world (App.setScene_if_named n a)))
  = pendingTimers (browser (App.world a)).
Proof.
  unfold App.setScene_if_named, on_globalState.
  destruct (bool_decide _); [|done].
  pose proof (setScene_fade_state (App.indexOf App.SCENE_NAMES n)
                (globalState (App.world a)) (browser (App.world a))) as H.
  destruct (GlobalState.setScene _ _ _) as [g' b']. exact H.
Qed.

Lemma indexOf_found name :
  App.indexOf App.SCENE_NAMES (Some name) <> -1 ->
  App.SCENE_NAMES_at (App.indexOf App.SCENE_NAMES (Some name)) = Some name.
Proof.
  cbn [App.indexOf App.SCENE_NAMES App.indexOf_from].
  repeat case_bool_decide; subst; try reflexivity. intros Hne. by destruct Hne.
Qed.

Lemma fadeTransition_fade a :
  let b := browser (App.world a) in
  let b' := browser (App.world (App.fadeTransition a)) in
  loadingOverlay b' = shown (loadingOverlay b) /\
  pendingTimers b' = pendingTimers b ++ hide_timer (loadingOverlay b).
Proof.
  unfold App.fadeTransition. simpl.
  destruct (loadingOverlay (browser (App.world a))) eqn:E; simpl.
  - split; reflexivity.
  - rewrite E, app_nil_r. split; reflexivity.
Qed.

Lemma dispose_current_fade_state a :
  loadingOverlay (browser (App.world (App.dispose_current a)))
  = loadingOverlay (browser (App.world a)) /\
  pendingTimers (browser (App.world (App.dispose_current a)))
  = pendingTimers (browser (App.world a)).
Proof. unfold App.dispose_current. app_cases; split; reflexivity. Qed.

(** The fade of [switchScene], on either path. *)
Lemma switchScene_fade n a :
  let b := browser (App.world a) in
  let b' := browser (App.world (App.switchScene n a)) in
  loadingOverlay b' = shown (loadingOverlay b) /\
  pendingTimers b' = pendingTimers b ++ hide_timer (loadingOverlay b).
Proof.
  unfold App.switchScene. destruct (App.scene_at n _) as [sc|].
  - unfold App.log at 1. simpl.
    match goal with |- context [App.fadeTransition ?x] =>
      destruct (fadeTransition_fade x) as [-> ->]
    end.
    match goal with |- context [App.setScene_if_named n ?y] =>
      destruct (setScene_if_named_fade_state n y) as [-> ->]
    end.
    simpl.
    match goal with |- context [App.dispose_current ?y] =>
      destruct (dispose_current_fade_state y) as [-> ->]
    end.
    split; reflexivity.
  - match goal with |- context [App.fadeTransition ?x] =>
      destruct (fadeTransition_fade x) as [-> ->]
    end.
    simpl.
    match goal with |- context [App.setScene_if_named n ?y] =>
      destruct (setScene_if_named_fade_state n y) as [-> ->]
    end.
    split; reflexivity.
Qed.

(** The dots and the store of the session through a switch. *)
Lemma setScene_store_view idx g b :
  store_view (GlobalState.setScene idx g b).2
  = store_view_set idx (store_view b).
Proof.
  unfold store_view_set, store_view.
  destruct (decide (0 <= idx <= 7)) as [Hin | Hout].
  - rewrite setScene_in_range by exact Hin. cbn [snd].
    rewrite bool_decide_eq_true_2 by exact Hin.
    unfold GlobalState.saveScene, setItem, GlobalState.updateProgressIndicator,
      console_log.
    destruct b as [blocked unreadable store dots overlay arr theme timers out].
    simpl. destruct (0 <? idx) eqn:Hpos.
    + rewrite bool_decide_eq_true_2 by lia. destruct blocked; reflexivity.
    + rewrite bool_decide_eq_false_2 by lia. reflexivity.
  - rewrite setScene_out_of_range by lia.
    rewrite bool_decide_eq_false_2 by exact Hout. reflexivity.
Qed.

Lemma setScene_console idx g b :
  console (GlobalState.setScene idx g b).2
  = console b
    ++ (if bool_decide (0 <= idx <= 7)
        then ["Scene changed to: " +:+ GlobalState.sceneNameText idx] else []).
Proof.
  destruct (decide (0 <= idx <= 7)) as [Hin | Hout].
  - rewrite setScene_in_range by exact Hin. cbn [snd].
    rewrite bool_decide_eq_true_2 by exact Hin.
    unfold GlobalState.saveScene, setItem, GlobalState.updateProgressIndicator,
      console_log.
    destruct b as [blocked unreadable store dots overlay arr theme timers out].
    simpl. destruct (0 <? idx), blocked; reflexivity.
  - rewrite setScene_out_of_range by lia.
    rewrite bool_decide_eq_false_2 by exact Hout. by rewrite app_nil_r.
Qed.

Lemma setScene_if_named_store_view n a :
  store_view (browser (App.world (App.setScene_if_named n a)))
  = store_view_set (App.indexOf App.SCENE_NAMES n)
      (store_view (browser (App.world a))).
Proof.
  unfold App.setScene_if_named, on_globalState.
  pose proof (indexOf_range n) as Hr. case_bool_decide as Hi.
  - pose proof (setScene_store_view (App.indexOf App.SCENE_NAMES n)
                  (globalState (App.world a)) (browser (App.world a))) as H.
    destruct (GlobalState.setScene _ _ _) as [g' b']. exact H.
  - assert (E : App.indexOf App.SCENE_NAMES n = -1)
      by (destruct (decide (App.indexOf App.SCENE_NAMES n = -1)); tauto).
    rewrite E. unfold store_view_set.
    destruct (store_view _) as [[? ?] ?].
    rewrite bool_decide_eq_false_2 by lia. reflexivity.
Qed.

Lemma setScene_if_named_console n a :
  console (browser (App.world (App.setScene_if_named n a)))
  = console (browser (App.world a))
    ++ (if bool_decide (App.indexOf App.SCENE_NAMES n <> -1)
        then ["Scene changed to: "
              +:+ GlobalState.sceneNameText (App.indexOf App.SCENE_NAMES n)]
        else []).
Proof.
  unfold App.setScene_if_named, on_globalState.
  pose proof (indexOf_range n) as Hr. case_bool_decide as Hi.
  - pose proof (setScene_console (App.indexOf App.SCENE_NAMES n)
                  (globalState (App.world a)) (browser (App.world a))) as H.
    destruct (GlobalState.setScene _ _ _) as [g' b']. cbn [snd] in H.
    rewrite bool_decide_eq_true_2 in H by lia. exact H.
  - by rewrite app_nil_r.
Qed.

Lemma fadeTransition_store_view a :
  store_view (browser (App.world (App.fadeTransition a)))
  = store_view (browser (App.world a)) /\
  console (browser (App.world (App.fadeTransition a)))
  = console (browser (App.world a)).
Proof.
  unfold App.fadeTransition.
  destruct (loadingOverlay (browser (App.world a))); split; reflexivity.
Qed.

Lemma dispose_current_store_view a :
  store_view (browser (App.world (App.dispose_current a)))
  = store_view (browser (App.world a)).
Proof. unfold App.dispose_current. app_cases; reflexivity. Qed.

Lemma switchScene_store_view n a :
  store_view (browser (App.world (App.switchScene n a)))
  = store_view_set (App.indexOf App.SCENE_NAMES n)
      (store_view (browser (App.world a))).
Proof.
  unfold App.switchScene. destruct (App.scene_at n _) as [sc|].
  - unfold App.log at 1.
    change (store_view (browser (App.world (?x <| App.world := ?w |>))))
      with (store_view (browser w)).
    cbn [browser upd upd_browser]. unfold console_log.
    match goal with
    | |- context [App.fadeTransition ?x] =>
        change (store_view (browser (App.world (App.fadeTransition x)))
                = store_view_set (App.indexOf App.SCENE_NAMES n)
                    (store_view (browser (App.world a))));
        rewrite (proj1 (fadeTransition_store_view x))
    end.
    rewrite setScene_if_named_store_view. f_equal.
    transitivity
      (store_view
         (browser
            (App.world
               (App.dispose_current
                  (a <| App.switched := App.switched a ++ [n] |>)))));
      [reflexivity|].
    rewrite dispose_current_store_view. reflexivity.
  - rewrite (proj1 (fadeTransition_store_view _)).
    change (store_view
              (browser (App.world (App.setScene_if_named n ?x <| App.currentScene := None |>))))
      with (store_view (browser (App.world (App.setScene_if_named n x)))).
    rewrite setScene_if_named_store_view. reflexivity.
Qed.

(** The console on the degraded path. *)
Lemma switchScene_unbuilt_console name a :
  App.scene_at (Some name) a = None ->
  console (browser (App.world (App.switchScene (Some name) a)))
  = console (browser (App.world a))
    ++ ["Scene " +:+ App.quote +:+ name +:+ App.quote +:+ " not implemented"]
    ++ (if bool_decide (App.indexOf App.SCENE_NAMES (Some name) <> -1)
        then ["Scene changed to: "
              +:+ GlobalState.sceneNameText
                    (App.indexOf App.SCENE_NAMES (Some name))]
        else []).
Proof.
  intros Hslot. unfold App.switchScene.
  change (App.scene_at (Some name) (a <| App.switched := ?l |>))
    with (App.scene_at (Some name) a).
  rewrite Hslot. rewrite (proj2 (fadeTransition_store_view _)).
  change (console
            (browser (App.world (App.setScene_if_named (Some name) ?x
                                   <| App.currentScene := None |>))))
    with (console (browser (App.world (App.setScene_if_named (Some name) x)))).
  rewrite setScene_if_named_console. unfold App.log, console_log. simpl.
  rewrite <- app_assoc. reflexivity.
Qed.

(** C5: for a name whose lookup in the registry gives no scene (the slot
    holds null, or the name is no property of the registry at all, own or
    inherited), [switchScene] returns normally; the active scene reference
    becomes none; the console gets the line that the scene is not
    implemented; when the name is in the enumeration, [setScene] runs for
    its position as on the normal path: the position becomes the current
    index and joins the visited set, the progress dot of the position is
    the active one, and the position is written to the store of the session
    when it is above 0 and the store can be written; when the name is not
    in the enumeration the progress store, the dots and the store of the
    session are untouched; the fade runs, that is, a present overlay is
    shown and a timer of 300 ms to hide it is queued; and the progress
    store, the dots and the store of the session end as they do from any
    application with the same ones, in particular one in which a scene is
    built for the name. *)
Theorem switchScene_unbuilt (a : App.t) (name : string)
    (Hslot : App.scene_at (Some name) a = None) :
  let a' := App.switchScene (Some name) a in
  let b := browser (App.world a) in
  let b' := browser (App.world a') in
  App.currentScene a' = None /\
  (exists rest,
     console b'
     = console b
       ++ ("Scene " +:+ App.quote +:+ name +:+ App.quote +:+ " not implemented")
       :: rest) /\
  (forall i, App.SCENE_NAMES_at i = Some name ->
     current_index a' = i /\
     GlobalState.visitedScenes (globalState (App.world a'))
     = GlobalState.visitedScenes (globalState (App.world a)) ∪ {[ i ]} /\
     progressDots b'
     = imap (fun k _ => bool_decide (Z.of_nat k = i)) (progressDots b) /\
     sessionStorage b'
     = (if bool_decide (0 < i) && negb (storageBlocked b)
        then <[SESSION_KEY := String_of i]> (sessionStorage b)
        else sessionStorage b)) /\
  ((forall i, App.SCENE_NAMES_at i <> Some name) ->
     globalState (App.world a') = globalState (App.world a) /\
     progressDots b' = progressDots b /\
     sessionStorage b' = sessionStorage b) /\
  (forall hidden, loadingOverlay b = Some hidden ->
     loadingOverlay b' = Some false /\
     pendingTimers b' = pendingTimers b ++ [(300, HideOverlay)]) /\
  (loadingOverlay b = None ->
     loadingOverlay b' = None /\ pendingTimers b' = pendingTimers b) /\
  (forall built : App.t,
     globalState (App.world built) = globalState (App.world a) ->
     store_view (browser (App.world built)) = store_view b ->
     globalState (App.world (App.switchScene (Some name) built))
     = globalState (App.world a') /\
     store_view (browser (App.world (App.switchScene (Some name) built)))
     = store_view b').
Proof.
  intros a' b b'.
  pose proof (switchScene_store_view (Some name) a) as Hview.
  fold a' b b' in Hview.
  split; [by apply switchScene_clears_reference|].
  split; [eexists; unfold b', a'; rewrite switchScene_unbuilt_console by done;
          reflexivity|].
  split; [|split; [|split; [|split; [|]]]].
  - intros i Hi.
    destruct (indexOf_SCENE_NAMES_at i name Hi) as [Ei Hr].
    rewrite Ei in Hview. unfold store_view_set, store_view in Hview.
    rewrite bool_decide_eq_true_2 in Hview by lia.
    injection Hview as _ Hstore Hdots.
    split; [|split; [|split; [exact Hdots | exact Hstore]]].
    + unfold a'. rewrite switchScene_index, Ei.
      rewrite bool_decide_eq_true_2 by lia. reflexivity.
    + unfold a'. rewrite switchScene_globalState, Ei.
      rewrite bool_decide_eq_true_2 by lia. rewrite setScene_store.
      rewrite (proj2 (in_range_iff _)) by done. reflexivity.
  - intros Hnot.
    assert (E : App.indexOf App.SCENE_NAMES (Some name) = -1).
    { destruct (decide (App.indexOf App.SCENE_NAMES (Some name) = -1))
        as [E|E]; [exact E|].
      exfalso. exact (Hnot _ (indexOf_found name E)). }
    rewrite E in Hview. unfold store_view_set, store_view in Hview.
    rewrite bool_decide_eq_false_2 in Hview by lia.
    injection Hview as _ Hstore Hdots.
    split; [|split; [exact Hdots | exact Hstore]].
    unfold a'. rewrite switchScene_globalState, E. reflexivity.
  - intros hidden H. destruct (switchScene_fade (Some name) a) as [Ho Ht].
    unfold b', a'. rewrite Ho, Ht. unfold b in H. rewrite H. split; reflexivity.
  - intros H. destruct (switchScene_fade (Some name) a) as [Ho Ht].
    unfold b', a'. rewrite Ho, Ht. unfold b in H. rewrite H.
    split; [reflexivity | apply app_nil_r].
  - intros built Hg Hb. split.
    + unfold a'. rewrite !switchScene_globalState, Hg.
      assert (Eb : forall idx,
        (GlobalState.setScene idx (globalState (App.world a))
           (browser (App.world built))).1
        = (GlobalState.setScene idx (globalState (App.world a))
             (browser (App.world a))).1)
        by (intros idx; rewrite !setScene_store; reflexivity).
      rewrite Eb. reflexivity.
    + rewrite switchScene_store_view, Hb. symmetry. exact Hview.
Qed.

Lemma switchScene_unbuilt_witness :
  let a := bare_app GlobalState.new (document None) in
  let a' := App.switchScene (Some "mainStreet") a in
  App.scene_at (Some "mainStreet") a = None /\
  App.scene_at (Some "toString") a = Some (App.InheritedObject "toString") /\
  current_index a' = 2 /\
  progressDots (browser (App.world a'))
  = [false; false; true; false; false; false; false; false] /\
  sessionStorage (browser (App.world a')) !! SESSION_KEY = Some "2" /\
  globalState (App.world (App.switchScene (Some "lobby") a))
  = globalState (App.world a) /\
  pendingTimers (browser (App.world a')) = [(300, HideOverlay)].
Proof.
  intros a a'.
  assert (Hslot : App.scene_at (Some "mainStreet") a = None) by reflexivity.
  assert (Hlobby : App.scene_at (Some "lobby") a = None) by reflexivity.
  split; [exact Hslot|]. split; [reflexivity|].
  destruct (switchScene_unbuilt a "mainStreet" Hslot)
    as (_ & _ & Hindex & _ & Hfade & _).
  destruct (switchScene_unbuilt a "lobby" Hlobby) as (_ & _ & _ & Hnone & _).
  destruct (Hindex 2 eq_refl) as (Hi & _ & Hdots & Hstore).
  split; [exact Hi|].
  split; [etransitivity; [exact Hdots | reflexivity]|].
  split; [unfold a'; rewrite Hstore; reflexivity|]. split.
  - apply Hnone. intros i Hi'. apply indexOf_SCENE_NAMES_at in Hi' as [Hi' Hr].
    vm_compute in Hi'. lia.
  - apply (Hfade false eq_refl).
Defined.

(** *** previousScene *)

Lemma previousScene_stays a :
  current_index a <= 1 -> App.previousScene a = a.
Proof.
  intros H. unfold App.previousScene. fold (current_index a).
  destruct (current_index a <=? 0) eqn:E0; [reflexivity|].
  destruct (current_index a - 1 =? 0) eqn:E1; [reflexivity | lia].
Qed.

Lemma previousScene_back a :
  2 <= current_index a ->
  App.previousScene a
  = App.switchScene (App.SCENE_NAMES_at (current_index a - 1)) a.
Proof.
  intros H. unfold App.previousScene. fold (current_index a).
  destruct (current_index a <=? 0) eqn:E0; [lia|].
  destruct (current_index a - 1 =? 0) eqn:E1; [lia | reflexivity].
Qed.

Lemma SCENE_NAMES_at_defined i :
  0 <= i <= 7 -> exists name, App.SCENE_NAMES_at i = Some name.
Proof.
  intros Hi. unfold App.SCENE_NAMES_at.
  destruct (i <? 0) eqn:E; [lia|].
  assert (Hk : (Z.to_nat i < 8)%nat) by lia.
  revert Hk. generalize (Z.to_nat i) as k. intros k Hk.
  do 8 (destruct k as [|k]; [eexists; reflexivity|]). lia.
Qed.

Lemma previousScene_index a :
  0 <= current_index a <= 7 ->
  current_index (App.previousScene a)
  = if current_index a <=? 1 then current_index a else current_index a - 1.
Proof.
  intros Hvalid. destruct (current_index a <=? 1) eqn:E.
  - rewrite previousScene_stays by lia. reflexivity.
  - rewrite previousScene_back by lia. rewrite switchScene_index.
    destruct (SCENE_NAMES_at_defined (current_index a - 1)) as [name Hname];
      [lia|].
    rewrite Hname. destruct (indexOf_SCENE_NAMES_at _ _ Hname) as [-> _].
    rewrite bool_decide_eq_true_2 by lia. reflexivity.
Qed.

Lemma previousScene_iter_index n :
  forall a, 1 <= current_index a <= 7 ->
    1 <= current_index (Nat.iter n App.previousScene a) <= 7.
Proof.
  induction n as [|n IH]; intros a Ha; [exact Ha|].
  change (Nat.iter (S n) App.previousScene a)
    with (App.previousScene (Nat.iter n App.previousScene a)).
  specialize (IH a Ha). rewrite previousScene_index by lia.
  destruct (_ <=? 1) eqn:E; lia.
Qed.

(** C10: backward navigation never moves to the loading scene. At index 0
    or 1 [previousScene] leaves the whole application as it is; at an index
    from 2 to 7 it is one call of [switchScene] with the name at the index
    before, which is not the loading scene, and that index becomes current;
    so from an index other than 0, no number of backward navigations makes
    index 0 current. *)
Theorem previousScene_spec (a : App.t) (Hvalid : 0 <= current_index a <= 7) :
  (current_index a <= 1 -> App.previousScene a = a) /\
  (2 <= current_index a ->
     App.previousScene a
     = App.switchScene (App.SCENE_NAMES_at (current_index a - 1)) a /\
     App.switched (App.previousScene a)
     = App.switched a ++ [App.SCENE_NAMES_at (current_index a - 1)] /\
     App.SCENE_NAMES_at (current_index a - 1) <> Some "loading" /\
     current_index (App.previousScene a) = current_index a - 1) /\
  (current_index a <> 0 ->
     forall n, current_index (Nat.iter n App.previousScene a) <> 0).
Proof.
  repeat split.
  - apply previousScene_stays.
  - by apply previousScene_back.
  - rewrite previousScene_back by done. apply switchScene_switched.
  - intros Hname. apply indexOf_SCENE_NAMES_at in Hname as [Hname _].
    change (App.indexOf App.SCENE_NAMES (Some "loading")) with 0 in Hname. lia.
  - rewrite previousScene_index by done.
    destruct (_ <=? 1) eqn:E; lia.
  - intros Hne n. pose proof (previousScene_iter_index n a ltac:(lia)). lia.
Qed.

Lemma previousScene_spec_witness :
  let at_index i :=
    bare_app (GlobalState.new <| GlobalState.currentScene := i |>)
             (document None) in
  current_index (App.previousScene (at_index 3)) = 2 /\
  current_index (Nat.iter 5 App.previousScene (at_index 3)) <> 0 /\
  App.previousScene (at_index 1) = at_index 1.
Proof.
  intros at_index.
  assert (Hvalid : 0 <= current_index (at_index 3) <= 7)
    by (vm_compute; split; discriminate).
  destruct (previousScene_spec (at_index 3) Hvalid) as (_ & Hback & Hnever).
  split; [|split].
  - destruct (Hback ltac:(vm_compute; discriminate)) as (_ & _ & _ & ->).
    reflexivity.
  - apply Hnever. vm_compute. discriminate.
  - apply (previousScene_spec (at_index 1)); vm_compute; try split; discriminate.
Defined.

(** *** checkSceneProgression *)

Lemma checkSceneProgression_guarded a :
  App._progressGuard a = true -> App.checkSceneProgression a = a.
Proof.
  intros H. unfold App.checkSceneProgression. rewrite H, orb_true_r.
  reflexivity.
Qed.

Lemma checkSceneProgression_idle a :
  can_progress a = false -> App.checkSceneProgression a = a.
Proof.
  intros H. unfold App.checkSceneProgression, GlobalState.getCanProgress.
  unfold can_progress in H. rewrite H. reflexivity.
Qed.

Lemma checkSceneProgression_from_loading a :
  can_progress a = true -> App._progressGuard a = false ->
  current_index a = 0 ->
  App.checkSceneProgression a
  = App.after_timeout ResetProgressGuard 500
      (App.switchScene
         (App.SCENE_NAMES_at
            (GlobalState.getSavedScene (globalState (App.world a))
                                       (browser (App.world a))))
         (consumed a)).
Proof.
  intros Hflag Hguard Hidx.
  unfold App.checkSceneProgression, GlobalState.getCanProgress.
  unfold can_progress in Hflag. unfold current_index in Hidx.
  rewrite Hflag, Hguard, Hidx. reflexivity.
Qed.

Lemma checkSceneProgression_advance a :
  can_progress a = true -> App._progressGuard a = false ->
  0 < current_index a < 7 ->
  App.checkSceneProgression a
  = App.after_timeout ResetProgressGuard 500
      (App.switchScene (App.SCENE_NAMES_at (current_index a + 1))
         (consumed a
            <| App.world :=
                 on_globalState
                   (GlobalState.setScene (current_index a + 1))
                   (App.world (consumed a)) |>)).
Proof.
  intros Hflag Hguard Hidx.
  unfold App.checkSceneProgression, GlobalState.getCanProgress.
  unfold can_progress in Hflag. unfold current_index in Hidx |- *.
  rewrite Hflag, Hguard. simpl.
  destruct (GlobalState.currentScene (globalState (App.world a)) =? 0) eqn:E;
    [lia|].
  rewrite nextScene_before_last by (simpl; lia). simpl.
  unfold on_globalState. simpl.
  destruct (GlobalState.setScene _ _ _) as [g' b'] eqn:Eset. simpl.
  rewrite setScene_in_range in Eset by lia. injection Eset as <- <-.
  reflexivity.
Qed.

Lemma checkSceneProgression_at_last a :
  can_progress a = true -> App._progressGuard a = false ->
  7 <= current_index a ->
  App.checkSceneProgression a
  = App.after_timeout ResetProgressGuard 500 (consumed a).
Proof.
  intros Hflag Hguard Hidx.
  unfold App.checkSceneProgression, GlobalState.getCanProgress.
  unfold can_progress in Hflag. unfold current_index in Hidx.
  rewrite Hflag, Hguard. simpl.
  destruct (GlobalState.currentScene (globalState (App.world a)) =? 0) eqn:E;
    [lia|].
  rewrite nextScene_at_last by (simpl; lia).
  destruct a as [[g au cz b] sc cur guard sw]. reflexivity.
Qed.

Lemma after_timeout_fields action ms a :
  App._progressGuard (App.after_timeout action ms a) = App._progressGuard a /\
  App.switched (App.after_timeout action ms a) = App.switched a /\
  globalState (App.world (App.after_timeout action ms a))
  = globalState (App.world a).
Proof. repeat split. Qed.

(** C1, the claim as stated fails: at the last scene a set advance flag is
    consumed, the guard is engaged, and no scene is switched; two
    invocations perform no swap, not one. *)
Lemma checkSceneProgression_no_swap_at_last :
  let a := bare_app (GlobalState.new <| GlobalState.currentScene := 7 |>
                                      <| GlobalState.canProgress := true |>)
                    (document None) in
  can_progress a = true /\ App._progressGuard a = false /\
  App.switched (App.checkSceneProgression (App.checkSceneProgression a))
  = App.switched a.
Proof. repeat split. Qed.

(** C1 (amended): from a state with the advance flag set and the guard
    clear, the first invocation engages the guard and clears the flag, and
    it does so before it switches; it calls [switchScene] once when the
    current index is below the last (with the resume target at index 0,
    with the next scene otherwise) and not at all at the last index 7; the
    second invocation, before the guard timer has run, returns the state
    unchanged. Two invocations therefore perform at most one scene swap,
    and exactly one below the last index. *)
Theorem checkSceneProgression_once (a : App.t)
    (Hflag : can_progress a = true)
    (Hguard : App._progressGuard a = false)
    (Hvalid : 0 <= current_index a <= 7) :
  let a1 := App.checkSceneProgression a in
  let a2 := App.checkSceneProgression a1 in
  a2 = a1 /\
  App._progressGuard a1 = true /\
  can_progress a1 = false /\
  App.switched a2 = App.switched a ++ progression_target a /\
  (current_index a < 7 ->
     length (App.switched a2) = S (length (App.switched a))) /\
  (current_index a = 7 ->
     App.switched a2 = App.switched a /\ current_index a2 = 7) /\
  (exists before : App.t,
     App._progressGuard before = true /\ can_progress before = false /\
     a1 = App.after_timeout ResetProgressGuard 500
            (match progression_target a with
             | target :: _ => App.switchScene target before
             | [] => before
             end)).
Proof.
  intros a1 a2.
  assert (Hshape : exists before : App.t,
     App._progressGuard before = true /\ can_progress before = false /\
     App.switched before = App.switched a /\
     (current_index a = 7 -> current_index before = 7) /\
     a1 = App.after_timeout ResetProgressGuard 500
            (match progression_target a with
             | target :: _ => App.switchScene target before
             | [] => before
             end)).
  { unfold a1, progression_target.
    destruct (decide (current_index a = 0)) as [H0 | H0].
    - exists (consumed a). rewrite H0. simpl.
      rewrite checkSceneProgression_from_loading by done.
      repeat split. lia.
    - destruct (decide (current_index a < 7)) as [H7 | H7].
      + exists (consumed a
                  <| App.world :=
                       on_globalState
                         (GlobalState.setScene (current_index a + 1))
                         (App.world (consumed a)) |>).
        rewrite checkSceneProgression_advance by (try done; lia).
        destruct (current_index a =? 0) eqn:E0; [lia|].
        destruct (current_index a <? 7) eqn:E7; [|lia].
        split; [|split; [|split; [|split; [|reflexivity]]]].
        * reflexivity.
        * unfold can_progress, on_globalState. simpl.
          destruct (GlobalState.setScene _ _ _) as [g' b'] eqn:Eset.
          rewrite setScene_in_range in Eset by lia.
          injection Eset as <- <-. reflexivity.
        * reflexivity.
        * lia.
      + exists (consumed a).
        rewrite checkSceneProgression_at_last by (try done; lia).
        destruct (current_index a =? 0) eqn:E0; [lia|].
        destruct (current_index a <? 7) eqn:E7; [lia|].
        repeat split. intros H. exact H. }
  destruct Hshape as (before & Hbg & Hbf & Hbs & Hb7 & Ha1).
  assert (Hg1 : App._progressGuard a1 = true).
  { rewrite Ha1. destruct (progression_target a);
      [exact Hbg | simpl; rewrite switchScene_progressGuard; exact Hbg]. }
  assert (Hidem : a2 = a1) by (apply checkSceneProgression_guarded, Hg1).
  assert (Hs1 : App.switched a1 = App.switched a ++ progression_target a).
  { rewrite Ha1. unfold progression_target in *.
    destruct (current_index a =? 0); [|destruct (current_index a <? 7)];
      simpl; rewrite ?switchScene_switched, ?app_nil_r; congruence. }
  split; [exact Hidem|]. split; [exact Hg1|]. split.
  { rewrite Ha1. destruct (progression_target a);
      [exact Hbf | ].
    change (can_progress (App.switchScene o before) = false).
    rewrite switchScene_canProgress. exact Hbf. }
  split; [rewrite Hidem; exact Hs1|]. split.
  { intros H7. rewrite Hidem, Hs1. unfold progression_target.
    destruct (current_index a =? 0); [|destruct (current_index a <? 7) eqn:E; [|lia]];
      rewrite length_app; simpl; lia. }
  split.
  { intros H7. rewrite Hidem. split.
    - rewrite Hs1. unfold progression_target. rewrite H7. apply app_nil_r.
    - rewrite Ha1. unfold progression_target. rewrite H7. simpl.
      apply Hb7, H7. }
  exists before. auto.
Qed.

Lemma checkSceneProgression_once_witness :
  let ready g := bare_app (g <| GlobalState.canProgress := true |>)
                          (document (Some "4")) in
  let twice a := App.checkSceneProgression (App.checkSceneProgression a) in
  App.switched (twice (ready GlobalState.new)) = [Some "competitionArena"] /\
  App.switched
    (twice (ready (GlobalState.new <| GlobalState.currentScene := 2 |>)))
  = [Some "workshopDistrict"] /\
  current_index
    (twice (ready (GlobalState.new <| GlobalState.currentScene := 7 |>))) = 7.
Proof.
  intros ready twice. split; [|split].
  - destruct (checkSceneProgression_once (ready GlobalState.new))
      as (_ & _ & _ & H & _);
      [reflexivity | reflexivity | vm_compute; split; discriminate |].
    unfold twice. rewrite H. reflexivity.
  - destruct (checkSceneProgression_once
                (ready (GlobalState.new <| GlobalState.currentScene := 2 |>)))
      as (_ & _ & _ & H & _);
      [reflexivity | reflexivity | vm_compute; split; discriminate |].
    unfold twice. rewrite H. reflexivity.
  - destruct (checkSceneProgression_once
                (ready (GlobalState.new <| GlobalState.currentScene := 7 |>)))
      as (_ & _ & _ & _ & _ & H & _);
      [reflexivity | reflexivity | vm_compute; split; discriminate |].
    apply H. reflexivity.
Defined.

(** When the guard timer runs, the guard is clear again. *)
Lemma guard_timer_clears a :
  App._progressGuard (App.timer_callback ResetProgressGuard a) = false.
Proof. reflexivity. Qed.

(** *** The scene index stays in the enumeration *)

Lemma switchScene_valid n a :
  0 <= current_index a <= 7 -> 0 <= current_index (App.switchScene n a) <= 7.
Proof.
  intros Ha. rewrite switchScene_index.
  destruct (indexOf_range n) as [H | H].
  - rewrite H. exact Ha.
  - rewrite bool_decide_eq_true_2 by lia. exact H.
Qed.

Lemma previousScene_valid a :
  0 <= current_index a <= 7 -> 0 <= current_index (App.previousScene a) <= 7.
Proof.
  intros Ha. rewrite previousScene_index by exact Ha.
  destruct (current_index a <=? 1) eqn:E; lia.
Qed.

Lemma checkSceneProgression_valid a :
  0 <= current_index a <= 7 ->
  0 <= current_index (App.checkSceneProgression a) <= 7.
Proof.
  intros Ha.
  destruct (can_progress a) eqn:Hflag;
    [|by rewrite checkSceneProgression_idle].
  destruct (App._progressGuard a) eqn:Hguard;
    [by rewrite checkSceneProgression_guarded|].
  destruct (decide (current_index a = 0)) as [H0 | H0].
  - rewrite checkSceneProgression_from_loading by done.
    apply (switchScene_valid _ (consumed a)). exact Ha.
  - destruct (decide (current_index a < 7)) as [H7 | H7].
    + rewrite checkSceneProgression_advance by (try done; lia).
      apply switchScene_valid. unfold current_index, on_globalState. simpl.
      destruct (GlobalState.setScene _ _ _) as [g' b'] eqn:Eset.
      rewrite setScene_in_range in Eset by (fold (current_index a); lia).
      injection Eset as <- <-. simpl. fold (current_index a). lia.
    + rewrite checkSceneProgression_at_last by (try done; lia). exact Ha.
Qed.

(** A new application is on the loading scene, index 0, with the guard
    clear and nothing to advance. *)
Lemma initScenes_state `{M : Math} random a :
  globalState (App.world (App.initScenes random a)) = globalState (App.world a) /\
  App.scene_at (Some "loading") (App.initScenes random a)
  = Some (App.LoadingSceneObject (LoadingScene.new random (App.world a)).1) /\
  App._progressGuard (App.initScenes random a) = App._progressGuard a /\
  App.switched (App.initScenes random a) = App.switched a /\
  App.currentScene (App.initScenes random a) = App.currentScene a.
Proof.
  unfold App.initScenes, LoadingScene.new, LoadingScene.disableControls,
    EntryGateScene.new, App.scene_at.
  simpl. rewrite lookup_insert_ne by discriminate.
  rewrite lookup_insert_eq. repeat split.
Qed.

Lemma log_state msg a :
  globalState (App.world (App.log msg a)) = globalState (App.world a) /\
  App._progressGuard (App.log msg a) = App._progressGuard a /\
  App.switched (App.log msg a) = App.switched a /\
  App.currentScene (App.log msg a) = App.currentScene a.
Proof. repeat split. Qed.

Lemma setupUI_state a :
  globalState (App.world (App.setupUI a)) = globalState (App.world a) /\
  App._progressGuard (App.setupUI a) = App._progressGuard a /\
  App.switched (App.setupUI a) = App.switched a /\
  App.currentScene (App.setupUI a) = App.currentScene a /\
  forall n, App.scene_at n (App.setupUI a) = App.scene_at n a.
Proof. repeat split. Qed.

Lemma switchScene_sets_reference n a sc :
  App.scene_at n a = Some sc -> App.currentScene (App.switchScene n a) = n.
Proof.
  intros H. unfold App.switchScene.
  replace (App.scene_at n (a <| App.switched := App.switched a ++ [n] |>))
    with (App.scene_at n a) by (destruct n; reflexivity).
  rewrite H. unfold App.log, App.fadeTransition, App.setScene_if_named,
    App.dispose_current.
  app_cases; reflexivity.
Qed.

Lemma new_app_state `{M : Math} random b :
  let a := App.new random b in
  current_index a = 0 /\ can_progress a = false /\
  App._progressGuard a = false /\ App.currentScene a = Some "loading"%string /\
  App.switched a = [Some "loading"%string].
Proof.
  unfold App.new. cbv zeta.
  match goal with
  | |- context [App.initScenes random ?x] =>
      destruct (initScenes_state random x) as (Hg & Hslot & Hguard & Hsw & Hcur);
      revert Hg Hslot Hguard Hsw Hcur;
      generalize (App.initScenes random x) as a1
  end.
  intros a1 Hg Hslot Hguard Hsw Hcur. simpl in Hg, Hguard, Hsw, Hcur.
  destruct (setupUI_state a1) as (Hg0 & Hguard0 & Hsw0 & Hcur0 & Hslot0).
  revert Hg0 Hguard0 Hsw0 Hcur0 Hslot0. generalize (App.setupUI a1) as a0.
  intros a0 Hg0 Hguard0 Hsw0 Hcur0 Hslot0.
  match goal with
  | |- context [App.log ?m ?x] =>
      destruct (log_state m x) as (Hg2 & Hguard2 & Hsw2 & Hcur2)
  end.
  unfold current_index, can_progress.
  rewrite Hg2, Hguard2, Hsw2, Hcur2.
  rewrite switchScene_globalState, switchScene_progressGuard,
    switchScene_switched.
  rewrite (switchScene_sets_reference (Some "loading"%string) a0 _
             (eq_trans (Hslot0 _) Hslot)).
  change (App.indexOf App.SCENE_NAMES (Some "loading"%string)) with 0.
  rewrite bool_decide_eq_true_2 by lia. rewrite setScene_store.
  rewrite Hguard0, Hguard, Hsw0, Hsw, Hg0, Hg. repeat split.
Qed.

(** ** Rational comparisons *)

Lemma Qltb_lt x y : (x <? y)%Q = true <-> (x < y)%Q.
Proof.
  unfold Qltb. rewrite negb_true_iff. split.
  - intros H. apply Qnot_le_lt. intros Hle.
    apply Qle_bool_iff in Hle. congruence.
  - intros H. apply not_true_is_false. intros Hle.
    apply Qle_bool_iff in Hle. apply (Qlt_not_le _ _ H Hle).
Qed.

Lemma Qltb_ge x y : (x <? y)%Q = false <-> (y <= x)%Q.
Proof.
  unfold Qltb. rewrite negb_false_iff. apply Qle_bool_iff.
Qed.

Lemma Qleb_le x y : (x <=? y)%Q = true <-> (x <= y)%Q.
Proof. apply Qle_bool_iff. Qed.

Lemma Qleb_gt x y : (x <=? y)%Q = false <-> (y < x)%Q.
Proof.
  split.
  - intros H. apply Qnot_le_lt. intros Hle.
    apply Qle_bool_iff in Hle. congruence.
  - intros H. apply not_true_is_false. intros Hle.
    apply Qle_bool_iff in Hle. apply (Qlt_not_le _ _ H Hle).
Qed.

(** Division by a constant, for [lra]: [x / c] becomes [x * (1 / c)]. *)
Ltac divide_out :=
  unfold Qdiv in *;
  repeat match goal with
         | |- context [Qinv (Qmake ?n ?d)] =>
             let v := eval vm_compute in (Qinv (Qmake n d)) in
             change (Qinv (Qmake n d)) with v
         | H : context [Qinv (Qmake ?n ?d)] |- _ =>
             let v := eval vm_compute in (Qinv (Qmake n d)) in
             change (Qinv (Qmake n d)) with v in H
         end.

(** ** Ease functions *)

Section Ease.
Local Open Scope Q_scope.

Lemma cube_monotone x y : 0 <= x -> x <= y -> x * x * x <= y * y * y.
Proof.
  intros Hx Hxy.
  assert (Hsq : x * x <= y * y)
    by (apply Qmult_le_compat_nonneg; split; assumption).
  apply Qmult_le_compat_nonneg; split; try assumption.
  apply Qmult_le_0_compat; assumption.
Qed.

Lemma cube_power x : x ^ 3 == x * x * x.
Proof. simpl. ring. Qed.

Lemma easeInQuart_monotone a b :
  0 <= a -> a <= b ->
  LoadingScene.easeInQuart a <= LoadingScene.easeInQuart b.
Proof.
  intros Ha Hab. unfold LoadingScene.easeInQuart.
  apply Qmult_le_compat_nonneg; split; try assumption.
  - apply Qmult_le_0_compat; [apply Qmult_le_0_compat|]; assumption.
  - apply cube_monotone; assumption.
Qed.

Lemma easeInOutCubic_first_half t :
  t < 0.5 -> LoadingScene.easeInOutCubic t = 4 * t * t * t.
Proof.
  intros H. unfold LoadingScene.easeInOutCubic.
  rewrite (proj2 (Qltb_lt _ _) H). reflexivity.
Qed.

Lemma easeInOutCubic_second_half t :
  0.5 <= t -> LoadingScene.easeInOutCubic t = 1 - (-2 * t + 2) ^ 3 / 2.
Proof.
  intros H. unfold LoadingScene.easeInOutCubic.
  rewrite (proj2 (Qltb_ge _ _) H). reflexivity.
Qed.

Lemma easeInOutCubic_monotone a b :
  0 <= a -> a <= b -> b <= 1 ->
  LoadingScene.easeInOutCubic a <= LoadingScene.easeInOutCubic b.
Proof.
  intros Ha Hab Hb.
  destruct (Qlt_le_dec a 0.5) as [Ha2 | Ha2], (Qlt_le_dec b 0.5) as [Hb2 | Hb2].
  - rewrite !easeInOutCubic_first_half by assumption.
    pose proof (cube_monotone a b Ha Hab). lra.
  - rewrite easeInOutCubic_first_half, easeInOutCubic_second_half by assumption.
    rewrite cube_power.
    assert (H1 : a * a * a <= 0.5 * 0.5 * 0.5)
      by (apply cube_monotone; [assumption | lra]).
    assert (H2 : (-2 * b + 2) * (-2 * b + 2) * (-2 * b + 2) <= 1 * 1 * 1)
      by (apply cube_monotone; lra).
    divide_out. lra.
  - lra.
  - rewrite !easeInOutCubic_second_half by assumption.
    rewrite !cube_power.
    assert (H : (-2 * b + 2) * (-2 * b + 2) * (-2 * b + 2)
                <= (-2 * a + 2) * (-2 * a + 2) * (-2 * a + 2))
      by (apply cube_monotone; lra).
    divide_out. lra.
Qed.

(** C8: both ease functions take 0 to 0 and 1 to 1 and are monotonically
    non-decreasing on the interval from 0 to 1 (over exact rational
    arithmetic). *)
Theorem ease_boundary_and_monotone :
  LoadingScene.easeInOutCubic 0 == 0 /\
  LoadingScene.easeInOutCubic 1 == 1 /\
  LoadingScene.easeInQuart 0 == 0 /\
  LoadingScene.easeInQuart 1 == 1 /\
  (forall a b, 0 <= a -> a <= b -> b <= 1 ->
     LoadingScene.easeInOutCubic a <= LoadingScene.easeInOutCubic b) /\
  (forall a b, 0 <= a -> a <= b -> b <= 1 ->
     LoadingScene.easeInQuart a <= LoadingScene.easeInQuart b).
Proof.
  repeat split; try reflexivity.
  - exact easeInOutCubic_monotone.
  - intros a b Ha Hab _. by apply easeInQuart_monotone.
Qed.

Lemma ease_boundary_and_monotone_witness :
  LoadingScene.easeInOutCubic 0.25 <= LoadingScene.easeInOutCubic 0.75 /\
  LoadingScene.easeInQuart 0.25 <= LoadingScene.easeInQuart 0.75.
Proof.
  destruct ease_boundary_and_monotone as (_ & _ & _ & _ & Hcubic & Hquart).
  split; [apply Hcubic | apply Hquart]; vm_compute; discriminate.
Defined.

End Ease.

(** ** LoadingScene *)

Arguments for_loop : simpl never.

Lemma for_loop_invariant {S : Type} (P : S -> Prop) n body (s : S) :
  P s -> (forall i x, P x -> P (body i x)) -> P (for_loop n body s).
Proof.
  intros Hs Hbody. unfold for_loop. generalize (seq 0 n) as l.
  intros l. revert s Hs. induction l as [|i l IH]; intros s Hs; [exact Hs|].
  simpl. apply IH, Hbody, Hs.
Qed.

Section LoadingTimeline.
Context `{M : Math}.
Local Open Scope Q_scope.

Lemma orbitParticles_control delta s :
  control (LoadingScene.orbitParticles delta s) = control s.
Proof.
  unfold LoadingScene.orbitParticles.
  apply (for_loop_invariant (fun x => control x = control s)); [reflexivity|].
  intros i x Hx. rewrite <- Hx. reflexivity.
Qed.

Lemma control_fields s s' :
  control s' = control s ->
  LoadingScene.phase s' = LoadingScene.phase s /\
  LoadingScene.phaseTimer s' = LoadingScene.phaseTimer s /\
  LoadingScene.isComplete s' = LoadingScene.isComplete s /\
  LoadingScene.pulseTime s' = LoadingScene.pulseTime s /\
  LoadingScene.dotPulseCount s' = LoadingScene.dotPulseCount s /\
  LoadingScene.lastSinSign s' = LoadingScene.lastSinSign s /\
  LoadingScene._explodeStarted s' = LoadingScene._explodeStarted s /\
  LoadingScene._blockLook s' = LoadingScene._blockLook s /\
  LoadingScene._exitStartRadii s' = LoadingScene._exitStartRadii s.
Proof. unfold control. intros H. injection H. intros. repeat split; assumption. Qed.

Lemma stepped_control delta s :
  control (stepped delta s)
  = (LoadingScene.phase s, LoadingScene.phaseTimer s + delta * 0.001,
     LoadingScene.isComplete s, LoadingScene.pulseTime s + delta * 0.001,
     LoadingScene.dotPulseCount s, LoadingScene.lastSinSign s,
     LoadingScene._explodeStarted s, LoadingScene._blockLook s,
     LoadingScene._exitStartRadii s).
Proof. unfold stepped. rewrite orbitParticles_control. reflexivity. Qed.

Lemma update_running time delta s w :
  LoadingScene.isComplete s = false ->
  LoadingScene.update time delta s w =
    let dt := delta * 0.001 in
    match LoadingScene.phase s with
    | LoadingScene.loading =>
        Done (LoadingScene.updateLoading (stepped delta s), w)
    | LoadingScene.ringFade =>
        Done (LoadingScene.updateRingFade dt (stepped delta s), w)
    | LoadingScene.dotExplode =>
        Done (LoadingScene.updateDotExplode dt (stepped delta s), w)
    | LoadingScene.textPulse =>
        Done (LoadingScene.updateTextPulse dt (stepped delta s) w)
    | LoadingScene.exitBurst =>
        LoadingScene.updateExitBurst dt (stepped delta s) w
    | LoadingScene.done => Done (stepped delta s, w)
    end.
Proof.
  intros Hc. unfold LoadingScene.update. rewrite Hc. cbv zeta.
  match goal with
  | |- context [LoadingScene.orbitParticles delta ?x] =>
      change (LoadingScene.orbitParticles delta x) with (stepped delta s)
  end.
  pose proof (stepped_control delta s) as Hs.
  apply (f_equal (fun c => c.1.1.1.1.1.1.1.1)) in Hs. simpl in Hs.
  rewrite Hs. reflexivity.
Qed.

Lemma update_complete time delta s w :
  LoadingScene.isComplete s = true ->
  LoadingScene.update time delta s w = Done (s, w).
Proof. intros Hc. unfold LoadingScene.update. rewrite Hc. reflexivity. Qed.

Lemma frames_complete ticks s w :
  LoadingScene.isComplete s = true -> LoadingScene.frames ticks s w = (s, w).
Proof.
  intros Hc. induction ticks as [|[time delta] rest IH]; [reflexivity|].
  cbn [LoadingScene.frames]. rewrite update_complete by exact Hc. exact IH.
Qed.


Lemma stepped_fields delta s :
  LoadingScene.phase (stepped delta s) = LoadingScene.phase s /\
  LoadingScene.phaseTimer (stepped delta s)
  = LoadingScene.phaseTimer s + delta * 0.001 /\
  LoadingScene.isComplete (stepped delta s) = LoadingScene.isComplete s /\
  LoadingScene.pulseTime (stepped delta s)
  = LoadingScene.pulseTime s + delta * 0.001 /\
  LoadingScene.dotPulseCount (stepped delta s) = LoadingScene.dotPulseCount s /\
  LoadingScene.lastSinSign (stepped delta s) = LoadingScene.lastSinSign s /\
  LoadingScene._explodeStarted (stepped delta s)
  = LoadingScene._explodeStarted s /\
  LoadingScene._blockLook (stepped delta s) = LoadingScene._blockLook s /\
  LoadingScene._exitStartRadii (stepped delta s)
  = LoadingScene._exitStartRadii s.
Proof.
  pose proof (stepped_control delta s) as H. unfold control in H.
  injection H. intros. repeat split; assumption.
Qed.

(** A phase of fixed duration [d] is over, [t >= 1], exactly when its timer
    has reached [d]. *)
Lemma duration_reached x d :
  0 < d -> (1 <=? Qmin (x / d) 1) = true <-> d <= x.
Proof.
  intros Hd. rewrite Qleb_le, Q.min_glb_iff.
  assert (Hnz : ~ d == 0) by (intros E; rewrite E in Hd; discriminate).
  split.
  - intros [H _]. apply (Qmult_le_compat_r _ _ d) in H; [|apply Qlt_le_weak, Hd].
    rewrite Qmult_1_l in H. unfold Qdiv in H.
    rewrite <- Qmult_assoc, (Qmult_comm (/ d)), Qmult_inv_r, Qmult_1_r in H;
      assumption.
  - intros H. split; [|apply Qle_refl].
    apply Qle_shift_div_l; [exact Hd|]. rewrite Qmult_1_l. exact H.
Qed.

Lemma set_arrows_display_lookup value b id :
  id ∈ arrow_ids ->
  arrows (set_arrows_display value b) !! id
  = set_display value <$> arrows b !! id.
Proof.
  intros Hid. unfold set_arrows_display, arrow_ids in *. simpl.
  repeat (apply elem_of_cons in Hid as [-> | Hid];
          [repeat (rewrite lookup_alter_ne by discriminate);
           rewrite lookup_alter_eq;
           repeat (rewrite lookup_alter_ne by discriminate); reflexivity|]).
  by apply elem_of_nil in Hid.
Qed.

Lemma updateExitBurst_completes dt s w r :
  LoadingScene._exitStartRadii s = Some r ->
  LoadingScene.EXIT_DURATION <= LoadingScene.phaseTimer s ->
  exists s',
    LoadingScene.updateExitBurst dt s w
    = Done (s', w <| browser := set_arrows_display EmptyString (browser w) |>
                  <| globalState :=
                       GlobalState.setCanProgress true (globalState w) |>) /\
    LoadingScene.isComplete s' = true /\
    LoadingScene._blockLook s' = false.
Proof.
  intros Hr Ht. unfold LoadingScene.updateExitBurst. cbv zeta.
  rewrite (proj2 (duration_reached _ LoadingScene.EXIT_DURATION eq_refl) Ht).
  unfold LoadingScene.style_welcomeEl at 1 2.
  simpl LoadingScene._exitStartRadii. rewrite Hr.
  eexists. split; [reflexivity|]. split; reflexivity.
Qed.


Lemma updateDotExplode_waiting dt s :
  LoadingScene._explodeStarted s = false ->
  (0 <= LoadingScene.dotPulseCount s)%Z ->
  let x := sign (sin (LoadingScene.pulseTime s * 3)) in
  let s' := LoadingScene.updateDotExplode dt s in
  LoadingScene.isComplete s' = LoadingScene.isComplete s /\
  LoadingScene.pulseTime s' = LoadingScene.pulseTime s /\
  if (0 <? LoadingScene.lastSinSign s)%Z && (x <=? 0)%Z
  then LoadingScene._explodeStarted s' = true /\
       LoadingScene.phaseTimer s' = 0
  else LoadingScene._explodeStarted s' = false /\
       LoadingScene.phase s' = LoadingScene.phase s /\
       LoadingScene.dotPulseCount s' = LoadingScene.dotPulseCount s /\
       LoadingScene.lastSinSign s' = x.
Proof.
  intros Hstarted Hcount x s'. unfold s', LoadingScene.updateDotExplode.
  cbv zeta. fold x.
  destruct ((0 <? LoadingScene.lastSinSign s)%Z && (x <=? 0)%Z) eqn:Hcross.
  - simpl LoadingScene.dotPulseCount. simpl LoadingScene._explodeStarted.
    rewrite Hstarted.
    rewrite (proj2 (Z.leb_le _ _))
      by (unfold LoadingScene.DOT_PULSES_BEFORE_EXPLODE; lia).
    simpl. repeat split.
  - simpl. rewrite Hstarted. simpl. repeat split. exact Hstarted.
Qed.

(** One frame of the wait for the pulse to cross. *)
Lemma update_awaiting time delta s w :
  awaiting_explosion s ->
  let x := sign (sin ((LoadingScene.pulseTime s + delta * 0.001) * 3)) in
  let '(s', w') := state_of (LoadingScene.update time delta s w) in
  w' = w /\
  LoadingScene.pulseTime s' = LoadingScene.pulseTime s + delta * 0.001 /\
  if (0 <? LoadingScene.lastSinSign s)%Z && (x <=? 0)%Z
  then LoadingScene._explodeStarted s' = true /\
       LoadingScene.phaseTimer s' = 0
  else awaiting_explosion s' /\ LoadingScene.lastSinSign s' = x.
Proof.
  intros (Hc & Hp & Hs & Hcount) x.
  rewrite update_running by exact Hc. rewrite Hp. cbv zeta. simpl state_of.
  destruct (stepped_fields delta s)
    as (Hp' & _ & Hc' & Hpt' & Hcount' & Hsign' & Hs' & _).
  pose proof (updateDotExplode_waiting (delta * 0.001) (stepped delta s)) as H.
  rewrite Hs', Hcount', Hpt', Hsign', Hc', Hp' in H.
  specialize (H Hs Hcount). cbv zeta in H. fold x in H.
  destruct H as (Hc1 & Hpt1 & H). split; [reflexivity|]. split; [exact Hpt1|].
  destruct ((0 <? LoadingScene.lastSinSign s)%Z && (x <=? 0)%Z).
  - exact H.
  - destruct H as (Hs1 & Hp1 & Hcount1 & Hsign1).
    split; [|exact Hsign1]. unfold awaiting_explosion.
    rewrite Hc1, Hp1, Hs1, Hcount1. auto.
Qed.

Lemma loop_control n (body : nat -> LoadingScene.t -> LoadingScene.t) s :
  (forall i x, control (body i x) = control x) ->
  control (for_loop n body s) = control s.
Proof.
  intros Hbody.
  apply (for_loop_invariant (fun x => control x = control s)); [reflexivity|].
  intros i x Hx. rewrite Hbody. exact Hx.
Qed.

Lemma loop_started n (body : nat -> LoadingScene.t -> LoadingScene.t) s :
  (forall i x, control (body i x) = control x) ->
  LoadingScene._explodeStarted (for_loop n body s)
  = LoadingScene._explodeStarted s.
Proof. intros Hbody. apply (control_fields _ _ (loop_control n body s Hbody)). Qed.

Lemma loop_phase n (body : nat -> LoadingScene.t -> LoadingScene.t) s :
  (forall i x, control (body i x) = control x) ->
  LoadingScene.phase (for_loop n body s) = LoadingScene.phase s.
Proof. intros Hbody. apply (control_fields _ _ (loop_control n body s Hbody)). Qed.

Lemma loop_exitStartRadii n (body : nat -> LoadingScene.t -> LoadingScene.t) s :
  (forall i x, control (body i x) = control x) ->
  LoadingScene._exitStartRadii (for_loop n body s)
  = LoadingScene._exitStartRadii s.
Proof. intros Hbody. apply (control_fields _ _ (loop_control n body s Hbody)). Qed.

Ltac through_loops :=
  repeat match goal with
         | |- context [LoadingScene._explodeStarted (for_loop ?n ?body ?s)] =>
             rewrite (loop_started n body s) by (intros; reflexivity); simpl
         | |- context [LoadingScene.phase (for_loop ?n ?body ?s)] =>
             rewrite (loop_phase n body s) by (intros; reflexivity); simpl
         | |- context [LoadingScene._exitStartRadii (for_loop ?n ?body ?s)] =>
             rewrite (loop_exitStartRadii n body s) by (intros; reflexivity);
             simpl
         end.

Lemma updateDotExplode_started dt s :
  LoadingScene._explodeStarted s = true ->
  LoadingScene._explodeStarted (LoadingScene.updateDotExplode dt s) = true.
Proof.
  intros H. destruct s. simpl in H. subst.
  unfold LoadingScene.updateDotExplode, LoadingScene.style_welcomeEl.
  cbv zeta. simpl.
  rewrite andb_false_r.
  repeat match goal with
         | |- context [if ?c then _ else _] => destruct c; simpl
         end;
    through_loops; reflexivity.
Qed.


Lemma update_started_stays time delta s w :
  LoadingScene._explodeStarted s = true ->
  LoadingScene._explodeStarted (state_of (LoadingScene.update time delta s w)).1
  = true.
Proof.
  intros H. destruct (LoadingScene.isComplete s) eqn:Hc.
  - rewrite update_complete by exact Hc. exact H.
  - rewrite update_running by exact Hc. cbv zeta.
    destruct (stepped_fields delta s) as (_ & _ & _ & _ & _ & _ & Hs & _).
    rewrite H in Hs. revert Hs. generalize (stepped delta s) as x. intros x Hx.
    destruct (LoadingScene.phase s); simpl state_of; cbn [fst].
    + destruct x. simpl in Hx. subst. reflexivity.
    + destruct x. simpl in Hx. subst. unfold LoadingScene.updateRingFade.
      cbv zeta. simpl. destruct (Qle_bool _ _); reflexivity.
    + by apply updateDotExplode_started.
    + destruct x. simpl in Hx. subst. unfold LoadingScene.updateTextPulse.
      cbv zeta. simpl.
      repeat match goal with
             | |- context [if ?c then _ else _] => destruct c; simpl
             end; reflexivity.
    + destruct x. simpl in Hx. subst. unfold LoadingScene.updateExitBurst,
        LoadingScene.style_welcomeEl, LoadingScene.enableControls.
      cbv zeta. simpl.
      repeat match goal with
             | |- context [match ?c with _ => _ end] => destruct c; simpl
             end; through_loops; reflexivity.
    + exact Hx.
Qed.

Lemma frames_started_stay ticks :
  forall s w, LoadingScene._explodeStarted s = true ->
    LoadingScene._explodeStarted (LoadingScene.frames ticks s w).1 = true.
Proof.
  induction ticks as [|[time delta] rest IH]; intros s w H; [exact H|].
  cbn [LoadingScene.frames].
  pose proof (update_started_stays time delta s w H) as H1.
  destruct (state_of (LoadingScene.update time delta s w)) as [s1 w1].
  apply IH, H1.
Qed.

(** The end of the ring fade seeds the count of the crossings. *)
Lemma ringFade_seeds time delta s w :
  LoadingScene.isComplete s = false ->
  LoadingScene.phase s = LoadingScene.ringFade ->
  LoadingScene.RING_FADE_DURATION <= LoadingScene.phaseTimer s + delta * 0.001 ->
  exists s',
    LoadingScene.update time delta s w = Done (s', w) /\
    LoadingScene.phase s' = LoadingScene.dotExplode /\
    LoadingScene.phaseTimer s' = 0 /\
    LoadingScene.dotPulseCount s' = 0%Z /\
    LoadingScene.pulseTime s' = LoadingScene.pulseTime s + delta * 0.001 /\
    LoadingScene.lastSinSign s' = sign (sin (LoadingScene.pulseTime s' * 3)) /\
    LoadingScene.isComplete s' = false /\
    LoadingScene._explodeStarted s' = LoadingScene._explodeStarted s.
Proof.
  intros Hc Hp Ht. rewrite update_running by exact Hc. rewrite Hp. cbv zeta.
  destruct (stepped_fields delta s)
    as (_ & Htimer & Hc' & Hpt & _ & _ & Hs & _).
  revert Htimer Hc' Hpt Hs. generalize (stepped delta s) as x.
  intros x Htimer Hc' Hpt Hs. eexists. split; [reflexivity|].
  unfold LoadingScene.updateRingFade. cbv zeta. simpl LoadingScene.phaseTimer.
  rewrite Htimer.
  rewrite (proj2 (duration_reached _ LoadingScene.RING_FADE_DURATION eq_refl) Ht).
  simpl. rewrite Hpt, Hc', Hc, Hs. repeat split.
Qed.


Lemma LoadingScene_frames_cons time delta rest s w :
  LoadingScene.frames ((time, delta) :: rest) s w
  = LoadingScene.frames rest
      (state_of (LoadingScene.update time delta s w)).1
      (state_of (LoadingScene.update time delta s w)).2.
Proof.
  cbn [LoadingScene.frames].
  destruct (state_of (LoadingScene.update time delta s w)); reflexivity.
Qed.

Lemma crossing_frames ticks :
  forall s w, awaiting_explosion s ->
    match first_crossing (LoadingScene.lastSinSign s)
                         (pulse_samples (LoadingScene.pulseTime s) ticks) with
    | None =>
        forall j, LoadingScene._explodeStarted
                    (LoadingScene.frames (take j ticks) s w).1 = false
    | Some k =>
        (forall j, (j <= k)%nat ->
           LoadingScene._explodeStarted
             (LoadingScene.frames (take j ticks) s w).1 = false) /\
        (LoadingScene._explodeStarted
           (LoadingScene.frames (take (S k) ticks) s w).1 = true /\
         LoadingScene.phaseTimer
           (LoadingScene.frames (take (S k) ticks) s w).1 = 0) /\
        (forall j, (k < j)%nat ->
           LoadingScene._explodeStarted
             (LoadingScene.frames (take j ticks) s w).1 = true)
    end.
Proof.
  induction ticks as [|[time delta] rest IH]; intros s w Hs.
  - simpl. intros j. rewrite take_nil. apply Hs.
  - cbn [pulse_samples first_crossing].
    pose proof (update_awaiting time delta s w Hs) as Hstep. cbv zeta in Hstep.
    destruct (state_of (LoadingScene.update time delta s w)) as [s1 w1] eqn:E1.
    destruct Hstep as (-> & Hpt & Hstep).
    assert (Hframes : forall j,
      LoadingScene.frames (take (S j) ((time, delta) :: rest)) s w
      = LoadingScene.frames (take j rest) s1 w).
    { intros j. rewrite firstn_cons, LoadingScene_frames_cons, E1. reflexivity. }
    destruct ((0 <? LoadingScene.lastSinSign s)%Z
              && (sign (sin ((LoadingScene.pulseTime s + delta * 0.001) * 3)) <=? 0)%Z).
    + destruct Hstep as [Hstarted Htimer]. split; [|split].
      * intros j Hj. replace j with 0%nat by lia. apply Hs.
      * rewrite Hframes, take_0. simpl. auto.
      * intros [|j] Hj; [lia|]. rewrite Hframes.
        apply frames_started_stay, Hstarted.
    + destruct Hstep as [Hs1 Hsign]. specialize (IH s1 w Hs1).
      rewrite Hsign, Hpt in IH.
      destruct (first_crossing _ (pulse_samples _ rest)) as [k|];
        cbn [fmap option_fmap option_map].
      * destruct IH as (Hbefore & Hat & Hafter). split; [|split].
        -- intros [|j] Hj; [apply Hs|]. rewrite Hframes. apply Hbefore. lia.
        -- rewrite Hframes. exact Hat.
        -- intros [|j] Hj; [lia|]. rewrite Hframes. apply Hafter. lia.
      * intros [|j]; [apply Hs|]. rewrite Hframes. apply IH.
Qed.

(** C7: the end of the ring fade sets the crossing count to 0 and seeds the
    sign before the first frame of dotExplode from the pulse signal as it
    is then; from there, with one cycle to count, the explosion begins (the
    flag is set and the phase timer restarts at 0) at the first frame whose
    sampled sign is not positive while the sign before it was, on no
    earlier frame, and stays begun; with a seed that is not positive, the
    first frame never begins it. *)
Theorem explosion_at_first_crossing :
  (forall time delta s w,
     LoadingScene.isComplete s = false ->
     LoadingScene.phase s = LoadingScene.ringFade ->
     LoadingScene._explodeStarted s = false ->
     LoadingScene.RING_FADE_DURATION <= LoadingScene.phaseTimer s + delta * 0.001 ->
     exists s',
       LoadingScene.update time delta s w = Done (s', w) /\
       awaiting_explosion s' /\
       LoadingScene.dotPulseCount s' = 0%Z /\
       LoadingScene.phaseTimer s' = 0 /\
       LoadingScene.lastSinSign s' = sign (sin (LoadingScene.pulseTime s' * 3))) /\
  (forall ticks s w, awaiting_explosion s ->
     match first_crossing (LoadingScene.lastSinSign s)
                          (pulse_samples (LoadingScene.pulseTime s) ticks) with
     | None =>
         forall j, LoadingScene._explodeStarted
                     (LoadingScene.frames (take j ticks) s w).1 = false
     | Some k =>
         (forall j, (j <= k)%nat ->
            LoadingScene._explodeStarted
              (LoadingScene.frames (take j ticks) s w).1 = false) /\
         (LoadingScene._explodeStarted
            (LoadingScene.frames (take (S k) ticks) s w).1 = true /\
          LoadingScene.phaseTimer
            (LoadingScene.frames (take (S k) ticks) s w).1 = 0) /\
         (forall j, (k < j)%nat ->
            LoadingScene._explodeStarted
              (LoadingScene.frames (take j ticks) s w).1 = true)
     end) /\
  (forall tick s w, awaiting_explosion s ->
     (LoadingScene.lastSinSign s <= 0)%Z ->
     LoadingScene._explodeStarted (LoadingScene.frames [tick] s w).1 = false).
Proof.
  split; [|split].
  - intros time delta s w Hc Hp Hs Ht.
    destruct (ringFade_seeds time delta s w Hc Hp Ht)
      as (s' & Hup & Hp' & Htimer & Hcount & Hpt & Hsign & Hc' & Hs').
    exists s'. unfold awaiting_explosion.
    rewrite Hc', Hp', Hs', Hs, Hcount. repeat split; try assumption. lia.
  - intros ticks s w Hs. by apply crossing_frames.
  - intros [time delta] s w Hs Hseed.
    pose proof (crossing_frames [(time, delta)] s w Hs) as H.
    cbn [pulse_samples first_crossing] in H.
    replace (0 <? LoadingScene.lastSinSign s)%Z with false in H
      by (symmetry; apply Z.ltb_ge; exact Hseed).
    simpl in H. apply (H 1%nat).
Qed.

Lemma update_keeps_exit_baseline time delta s w :
  exit_baseline_set s ->
  exit_baseline_set (state_of (LoadingScene.update time delta s w)).1.
Proof.
  intros H. destruct (LoadingScene.isComplete s) eqn:Hc.
  - rewrite update_complete by exact Hc. exact H.
  - rewrite update_running by exact Hc. cbv zeta.
    destruct (stepped_fields delta s) as (Hp & _ & _ & _ & _ & _ & _ & _ & Hr).
    unfold exit_baseline_set in *. rewrite <- Hp, <- Hr in H.
    rewrite <- Hp. revert H. generalize (stepped delta s) as x. intros x Hx.
    destruct (LoadingScene.phase x) eqn:Hphase; simpl state_of; cbn [fst].
    + unfold LoadingScene.updateLoading. simpl. rewrite Hphase. discriminate.
    + unfold LoadingScene.updateRingFade. cbv zeta.
      destruct (Qle_bool _ _); simpl; [|rewrite Hphase]; discriminate.
    + destruct x. simpl in Hphase. subst.
      unfold LoadingScene.updateDotExplode, LoadingScene.style_welcomeEl.
      cbv zeta. simpl.
      repeat match goal with
             | |- context [if ?c then _ else _] => destruct c; simpl
             end;
        through_loops; discriminate.
    + destruct x. simpl in Hphase. subst.
      unfold LoadingScene.updateTextPulse, LoadingScene.style_welcomeEl.
      cbv zeta. simpl.
      repeat match goal with
             | |- context [if ?c then _ else _] => destruct c; simpl
             end; first [discriminate | eauto].
    + specialize (Hx eq_refl). destruct x. simpl in Hphase, Hx. subst.
      destruct Hx as [r ->].
      unfold LoadingScene.updateExitBurst, LoadingScene.style_welcomeEl,
        LoadingScene.enableControls.
      cbv zeta. simpl.
      repeat match goal with
             | |- context [if ?c then _ else _] => destruct c; simpl
             end; through_loops; eauto.
    + rewrite Hphase. discriminate.
Qed.

Lemma control_particleMat_opacity v x :
  control (x <| LoadingScene.particleMat_opacity := v |>) = control x.
Proof. reflexivity. Qed.

Lemma createParticles_control random s :
  control (LoadingScene.createParticles random s) = control s.
Proof.
  unfold LoadingScene.createParticles. cbv zeta.
  rewrite control_particleMat_opacity.
  rewrite loop_control by (intros; reflexivity). reflexivity.
Qed.

Lemma new_exit_baseline random w :
  exit_baseline_set (LoadingScene.new random w).1.
Proof.
  unfold exit_baseline_set, LoadingScene.new, LoadingScene.disableControls.
  cbn [fst].
  match goal with
  | |- context [LoadingScene.createParticles random ?s0] =>
      pose proof (control_fields _ _ (createParticles_control random s0))
        as (Hp & _);
      revert Hp; generalize (LoadingScene.createParticles random s0) as c
  end.
  intros c Hp. simpl in *. rewrite Hp. discriminate.
Qed.

Lemma tick_keeps_exit_baseline startTime now s w :
  exit_baseline_set s ->
  exit_baseline_set (LoadingScene.simulateLoading_tick startTime now s w).2.1.
Proof.
  unfold exit_baseline_set, LoadingScene.simulateLoading_tick. cbv zeta.
  destruct (_ <? 1)%Q; simpl; [auto | discriminate].
Qed.

(** Through any sequence of frames. *)
Lemma frames_keep_exit_baseline ticks :
  forall s w, exit_baseline_set s ->
    exit_baseline_set (LoadingScene.frames ticks s w).1.
Proof.
  induction ticks as [|[time delta] rest IH]; intros s w H; [exact H|].
  rewrite LoadingScene_frames_cons. apply IH.
  apply update_keeps_exit_baseline, H.
Qed.

(** The frame on which the exit burst ends. *)
Lemma update_at_exit_end time delta s w :
  LoadingScene.isComplete s = false ->
  LoadingScene.phase s = LoadingScene.exitBurst ->
  exit_baseline_set s ->
  LoadingScene.EXIT_DURATION <= LoadingScene.phaseTimer s + delta * 0.001 ->
  exists s',
    LoadingScene.update time delta s w
    = Done (s', w <| browser := set_arrows_display EmptyString (browser w) |>
                  <| globalState :=
                       GlobalState.setCanProgress true (globalState w) |>) /\
    LoadingScene.isComplete s' = true /\
    LoadingScene._blockLook s' = false.
Proof.
  intros Hc Hp Hbase Ht. destruct (Hbase Hp) as [r Hr].
  rewrite update_running by exact Hc. rewrite Hp. cbv zeta.
  destruct (stepped_fields delta s) as (_ & Htimer & _ & _ & _ & _ & _ & _ & Hr').
  rewrite Hr in Hr'. rewrite <- Htimer in Ht.
  exact (updateExitBurst_completes (delta * 0.001) (stepped delta s) w r Hr' Ht).
Qed.

(** C6: when the timer of exitBurst reaches its duration (in a scene that
    has the baseline radii of that phase, as every scene has that the
    constructor built and the frames advanced), the scene sets
    [isComplete], shows the arrow buttons again and unblocks the look, and
    sets [canProgress] on the progress store; and once [isComplete] is set,
    [update] returns at once: the scene and the shared objects are what
    they were, after one call and after any number of frames. *)
Theorem exit_burst_completion :
  (forall time delta s w,
     LoadingScene.isComplete s = false ->
     LoadingScene.phase s = LoadingScene.exitBurst ->
     exit_baseline_set s ->
     LoadingScene.EXIT_DURATION <= LoadingScene.phaseTimer s + delta * 0.001 ->
     exists s' w',
       LoadingScene.update time delta s w = Done (s', w') /\
       LoadingScene.isComplete s' = true /\
       LoadingScene._blockLook s' = false /\
       (forall id button, id ∈ arrow_ids ->
          arrows (browser w) !! id = Some button ->
          display <$> arrows (browser w') !! id = Some EmptyString) /\
       GlobalState.canProgress (globalState w') = true /\
       (forall time' delta',
          LoadingScene.update time' delta' s' w' = Done (s', w')) /\
       (forall ticks, LoadingScene.frames ticks s' w' = (s', w'))) /\
  (forall time delta s w,
     LoadingScene.isComplete s = true ->
     LoadingScene.update time delta s w = Done (s, w)) /\
  (forall ticks s w,
     LoadingScene.isComplete s = true ->
     LoadingScene.frames ticks s w = (s, w)).
Proof.
  split; [|split].
  - intros time delta s w Hc Hp Hbase Ht.
    destruct (update_at_exit_end time delta s w Hc Hp Hbase Ht)
      as (s' & Hup & Hc' & Hlook).
    eexists s', _. split; [exact Hup|]. split; [exact Hc'|].
    split; [exact Hlook|]. split; [|split; [reflexivity|split]].
    + intros id button Hid Hbutton.
      change (display <$> arrows (set_arrows_display EmptyString (browser w)) !! id
              = Some EmptyString).
      rewrite set_arrows_display_lookup by exact Hid.
      rewrite Hbutton. reflexivity.
    + intros time' delta'. by apply update_complete.
    + intros ticks. by apply frames_complete.
  - intros time delta s w. apply update_complete.
  - intros ticks s w. apply frames_complete.
Qed.

End LoadingTimeline.

Lemma explosion_at_first_crossing_witness :
  let s := scene_in LoadingScene.dotExplode 0 0 in
  let w := fresh_world (document None) in
  let ticks := [(500%Q, 500%Q); (1000%Q, 500%Q); (1016%Q, 16%Q)] in
  LoadingScene._explodeStarted
    ((LoadingScene.frames (M := PolynomialMath) (take 1 ticks) s w).1) = false /\
  LoadingScene._explodeStarted
    ((LoadingScene.frames (M := PolynomialMath) (take 2 ticks) s w).1) = true /\
  LoadingScene._explodeStarted
    ((LoadingScene.frames (M := PolynomialMath) [(1000%Q, 1000%Q)]
        (s <| LoadingScene.lastSinSign := (-1)%Z |>) w).1) = false /\
  (exists s',
     LoadingScene.update (M := PolynomialMath) 2000 16
       (scene_in LoadingScene.ringFade 0.29 0.4) w = Done (s', w) /\
     awaiting_explosion s').
Proof.
  intros s w ticks.
  assert (Hs : awaiting_explosion s) by (repeat split; simpl; lia).
  destruct (explosion_at_first_crossing (M := PolynomialMath))
    as (Hseed & H & Hlow).
  specialize (H ticks s w Hs).
  change (first_crossing (LoadingScene.lastSinSign s)
            (pulse_samples (M := PolynomialMath) (LoadingScene.pulseTime s) ticks))
    with (Some 1%nat) in H.
  destruct H as (Hbefore & (Hat & _) & _). split; [|split; [|split]].
  - apply Hbefore. lia.
  - exact Hat.
  - apply Hlow; [repeat split; simpl; lia | simpl; lia].
  - destruct (Hseed 2000%Q 16%Q (scene_in LoadingScene.ringFade 0.29 0.4) w)
      as (s' & Hup & Hawait & _);
      [reflexivity | reflexivity | reflexivity | vm_compute; discriminate |].
    exists s'. split; assumption.
Defined.

Lemma exit_burst_completion_witness :
  let s := scene_in LoadingScene.exitBurst 0.69 5 in
  let w := fresh_world (document None) in
  (exists s' w',
     LoadingScene.update (M := PolynomialMath) 7000 16 s w = Done (s', w') /\
     LoadingScene.isComplete s' = true /\
     GlobalState.canProgress (globalState w') = true /\
     LoadingScene.frames (M := PolynomialMath) [(7016%Q, 16%Q)] s' w' = (s', w')) /\
  LoadingScene.update (M := PolynomialMath) 7000 16
    (s <| LoadingScene.isComplete := true |>) w
  = Done (s <| LoadingScene.isComplete := true |>, w) /\
  LoadingScene.frames (M := PolynomialMath) [(7000%Q, 16%Q); (7016%Q, 16%Q)]
    (s <| LoadingScene.isComplete := true |>) w
  = (s <| LoadingScene.isComplete := true |>, w).
Proof.
  intros s w.
  destruct (exit_burst_completion (M := PolynomialMath))
    as (Hdone & Hupdate & Hframes').
  split; [|split].
  - destruct (Hdone 7000%Q 16%Q s w)
      as (s' & w' & Hup & Hc & _ & _ & Hflag & _ & Hframes).
    + reflexivity.
    + reflexivity.
    + intros _. eexists. reflexivity.
    + vm_compute. discriminate.
    + exists s', w'. auto.
  - apply Hupdate. reflexivity.
  - apply Hframes'. reflexivity.
Defined.

(** ** EntryGateScene *)

Section GateTimeline.
Context `{M : Math}.
Local Open Scope Q_scope.

Lemma updateDoorAnimation_door_state elapsed s w :
  let s0 := s <| EntryGateScene.elapsedTime := elapsed / 1000 |> in
  let '(s', w') := EntryGateScene.updateDoorAnimation s0 w in
  door_state s' w'
  = (EntryGateScene.doorsOpened s || doors_finish elapsed s,
     EntryGateScene.gateOpeningSoundPlayed s || cue_fires elapsed s,
     gate_cues w ++ (if cue_fires elapsed s then [AudioManager.GateOpening] else [])).
Proof.
  destruct s as [et opened tv passed enabled played lx rx title font light].
  unfold EntryGateScene.updateDoorAnimation, cue_fires, doors_finish,
    door_state, gate_cues, door_progress.
  cbv zeta. simpl.
  destruct opened; simpl.
  { rewrite orb_false_r, app_nil_r. reflexivity. }
  destruct (elapsed / 1000 <? EntryGateScene.DOOR_ANIMATION_START) eqn:Hstart;
    simpl.
  { rewrite orb_false_r, app_nil_r. reflexivity. }
  set (t := Qmin _ 1).
  destruct played, (0 <? t), (t <? 0.05), (1 <=? t); simpl;
    unfold on_audioManager, AudioManager.playGateOpening; simpl;
    rewrite ?app_nil_r; try reflexivity;
    destruct (negb (AudioManager.initialized (audioManager w))
              || AudioManager.isMuted (audioManager w)); reflexivity.
Qed.


Ltac by_cases :=
  simpl;
  repeat match goal with
         | |- context [if ?c then _ else _] => destruct c; simpl
         | |- context [match ?c with Some _ => _ | None => _ end] =>
             destruct c; simpl
         end;
  reflexivity.

Lemma updateTextAnimation_door_state s w :
  door_state (state_of (EntryGateScene.updateTextAnimation s w)).1
             (state_of (EntryGateScene.updateTextAnimation s w)).2
  = door_state s w.
Proof.
  unfold EntryGateScene.updateTextAnimation.
  destruct s as [et opened tv passed enabled played lx rx title font light].
  by_cases.
Qed.

Lemma checkUserProgress_door_state s w :
  door_state (EntryGateScene.checkUserProgress s w).1
             (EntryGateScene.checkUserProgress s w).2
  = door_state s w.
Proof.
  unfold EntryGateScene.checkUserProgress, EntryGateScene.enableProgression.
  destruct s as [et opened tv passed enabled played lx rx title font light].
  by_cases.
Qed.

Lemma updateTextFloating_door_state s w :
  door_state (EntryGateScene.updateTextFloating s) w = door_state s w.
Proof.
  unfold EntryGateScene.updateTextFloating.
  destruct s as [et opened tv passed enabled played lx rx title font light].
  by_cases.
Qed.

Lemma updateLightsForTheme_door_state s w w' :
  door_state (EntryGateScene.updateLightsForTheme s w') w = door_state s w.
Proof.
  unfold EntryGateScene.updateLightsForTheme.
  destruct (themeLight (browser w')); reflexivity.
Qed.

(** One frame, seen from the door. *)
Lemma update_door_state elapsed delta s w :
  door_state (state_of (EntryGateScene.update elapsed delta s w)).1
             (state_of (EntryGateScene.update elapsed delta s w)).2
  = (EntryGateScene.doorsOpened s || doors_finish elapsed s,
     EntryGateScene.gateOpeningSoundPlayed s || cue_fires elapsed s,
     gate_cues w ++ (if cue_fires elapsed s then [AudioManager.GateOpening] else [])).
Proof.
  unfold EntryGateScene.update.
  pose proof (updateDoorAnimation_door_state elapsed s w) as Hdoor.
  cbv zeta in Hdoor.
  destruct (EntryGateScene.updateDoorAnimation _ w) as [s1 w1].
  rewrite <- Hdoor.
  pose proof (updateTextAnimation_door_state s1 w1) as Htext.
  destruct (EntryGateScene.updateTextAnimation s1 w1) as [[s2 w2] | [s2 w2]];
    simpl in Htext |- *; [|exact Htext].
  rewrite <- Htext.
  pose proof (checkUserProgress_door_state
                (EntryGateScene.updateTextFloating s2) w2) as Hprog.
  destruct (EntryGateScene.checkUserProgress _ w2) as [s3 w3].
  simpl in Hprog |- *.
  rewrite updateLightsForTheme_door_state, Hprog.
  apply updateTextFloating_door_state.
Qed.

Lemma cue_fires_window elapsed s :
  cue_fires elapsed s = true ->
  0 < door_progress elapsed /\ door_progress elapsed < 0.05 /\
  EntryGateScene.gateOpeningSoundPlayed s = false /\
  EntryGateScene.doorsOpened s = false.
Proof.
  unfold cue_fires. rewrite !andb_true_iff, !negb_true_iff, !Qltb_lt.
  tauto.
Qed.


Lemma progress_after_start elapsed :
  0 < door_progress elapsed ->
  (elapsed / 1000 <? EntryGateScene.DOOR_ANIMATION_START) = false.
Proof.
  unfold door_progress. intros H. apply Q.min_glb_lt_iff in H as [H _].
  apply Qltb_ge.
  unfold EntryGateScene.DOOR_ANIMATION_START,
    EntryGateScene.DOOR_ANIMATION_DURATION in *.
  divide_out. lra.
Qed.

Lemma EntryGateScene_frames_cons time delta rest s w :
  EntryGateScene.frames ((time, delta) :: rest) s w
  = EntryGateScene.frames rest
      (state_of (EntryGateScene.update time delta s w)).1
      (state_of (EntryGateScene.update time delta s w)).2.
Proof.
  cbn [EntryGateScene.frames].
  destruct (state_of (EntryGateScene.update time delta s w)); reflexivity.
Qed.

(** Once the cue has been played, no frame plays it. *)
Lemma frames_after_cue ticks :
  forall s w, EntryGateScene.gateOpeningSoundPlayed s = true ->
    gate_cues (EntryGateScene.frames ticks s w).2 = gate_cues w /\
    EntryGateScene.gateOpeningSoundPlayed (EntryGateScene.frames ticks s w).1
    = true.
Proof.
  induction ticks as [|[elapsed delta] rest IH]; intros s w Hp; [by split|].
  rewrite EntryGateScene_frames_cons.
  pose proof (update_door_state elapsed delta s w) as Hstep.
  unfold door_state in Hstep. injection Hstep as _ Hplayed Hcues.
  assert (Hquiet : cue_fires elapsed s = false).
  { unfold cue_fires. rewrite Hp. simpl. apply andb_false_r. }
  rewrite Hquiet, app_nil_r in Hcues. rewrite Hp in Hplayed.
  destruct (IH _ (state_of (EntryGateScene.update elapsed delta s w)).2 Hplayed)
    as [-> ->].
  split; [exact Hcues | reflexivity].
Qed.


(** Once the doors are flagged open, no frame plays the cue. *)
Lemma frames_after_open ticks :
  forall s w, EntryGateScene.doorsOpened s = true ->
    gate_cues (EntryGateScene.frames ticks s w).2 = gate_cues w /\
    EntryGateScene.doorsOpened (EntryGateScene.frames ticks s w).1 = true.
Proof.
  induction ticks as [|[elapsed delta] rest IH]; intros s w Hp; [by split|].
  rewrite EntryGateScene_frames_cons.
  pose proof (update_door_state elapsed delta s w) as Hstep.
  unfold door_state in Hstep. injection Hstep as Hopened _ Hcues.
  assert (Hquiet : cue_fires elapsed s = false).
  { unfold cue_fires. rewrite Hp. reflexivity. }
  rewrite Hquiet, app_nil_r in Hcues. rewrite Hp in Hopened.
  destruct (IH _ (state_of (EntryGateScene.update elapsed delta s w)).2 Hopened)
    as [-> ->].
  split; [exact Hcues | reflexivity].
Qed.

(** X27: the cue of the gate is played at most once for a scene. Over
    any sequence of frames the scene calls [playGateOpening] at most once;
    a scene that has played it, or whose doors are flagged open, never
    calls it; and when it is called, on one frame of the sequence, the flag
    [gateOpeningSoundPlayed] is set from then on. *)
Theorem gate_cue_at_most_once (ticks : list (Q * Q)) :
  forall (s : EntryGateScene.t) (w : World),
  exists n : nat,
    gate_cues (EntryGateScene.frames ticks s w).2
    = gate_cues w ++ replicate n AudioManager.GateOpening /\
    (n <= 1)%nat /\
    (EntryGateScene.gateOpeningSoundPlayed s = true -> n = 0%nat) /\
    (EntryGateScene.doorsOpened s = true -> n = 0%nat) /\
    (n = 1%nat ->
       EntryGateScene.gateOpeningSoundPlayed (EntryGateScene.frames ticks s w).1
       = true /\
       exists i elapsed delta,
         ticks !! i = Some (elapsed, delta) /\
         gate_cues (EntryGateScene.frames (take i ticks) s w).2 = gate_cues w /\
         gate_cues (EntryGateScene.frames (take (S i) ticks) s w).2
         = gate_cues w ++ [AudioManager.GateOpening]).
Proof.
  induction ticks as [|[elapsed delta] rest IH]; intros s w.
  { exists 0%nat. simpl. rewrite app_nil_r.
    repeat split; try done; lia. }
  pose proof (update_door_state elapsed delta s w) as Hstep.
  unfold door_state in Hstep. injection Hstep as Hopened Hplayed Hcues.
  assert (Htake : forall j,
    EntryGateScene.frames (take (S j) ((elapsed, delta) :: rest)) s w
    = EntryGateScene.frames (take j rest)
        (state_of (EntryGateScene.update elapsed delta s w)).1
        (state_of (EntryGateScene.update elapsed delta s w)).2).
  { intros j. rewrite firstn_cons. apply EntryGateScene_frames_cons. }
  rewrite EntryGateScene_frames_cons.
  set (s1 := (state_of (EntryGateScene.update elapsed delta s w)).1) in *.
  set (w1 := (state_of (EntryGateScene.update elapsed delta s w)).2) in *.
  destruct (cue_fires elapsed s) eqn:Hfires.
  - (* the cue is played on this frame *)
    destruct (cue_fires_window _ _ Hfires) as (Hlow & Hhigh & Hnot & Hclosed).
    rewrite orb_true_r in Hplayed.
    destruct (frames_after_cue rest s1 w1 Hplayed) as [Hquiet Hstays].
    exists 1%nat. rewrite Hquiet, Hcues. cbn [replicate].
    split; [reflexivity|]. split; [lia|]. split; [congruence|].
    split; [congruence|].
    intros _. split; [exact Hstays|].
    exists 0%nat, elapsed, delta. rewrite Htake, !take_0.
    cbn [EntryGateScene.frames snd]. fold w1. rewrite Hcues. auto.
  - (* no cue on this frame *)
    rewrite app_nil_r in Hcues. rewrite orb_false_r in Hplayed.
    destruct (IH s1 w1) as (n & Hn & Hle & Hzero & Hopen & Hone).
    exists n. rewrite Hn, Hcues, Hplayed in *.
    split; [reflexivity|]. split; [exact Hle|]. split; [exact Hzero|].
    split.
    + intros Ho. apply Hopen. rewrite Hopened, Ho. reflexivity.
    + intros H1. destruct (Hone H1) as (Hp & i & e & d & Hi & Hb & Ha).
      split; [exact Hp|]. exists (S i), e, d. rewrite !Htake.
      fold s1 w1. rewrite Hb, Ha. auto.
Qed.

Lemma door_progress_late elapsed : 2500 <= elapsed -> door_progress elapsed == 1.
Proof.
  intros H. unfold door_progress, EntryGateScene.DOOR_ANIMATION_START,
    EntryGateScene.DOOR_ANIMATION_DURATION.
  apply Qle_antisym; [apply Q.le_min_r|].
  apply Q.min_glb; [|apply Qle_refl]. divide_out. lra.
Qed.

(** X28: a gate scene whose first frame comes 2.5 seconds or more into
    the clock never plays its cue. That frame finds the door animation
    over: it flags the doors open without a call of [playGateOpening], and
    no later frame, whatever its clock, calls it either. *)
Theorem gate_cue_lost (elapsed delta : Q) (rest : list (Q * Q))
    (s : EntryGateScene.t) (w : World) :
  2500 <= elapsed ->
  gate_cues (EntryGateScene.frames ((elapsed, delta) :: rest) s w).2
  = gate_cues w /\
  EntryGateScene.doorsOpened
    (EntryGateScene.frames ((elapsed, delta) :: rest) s w).1 = true.
Proof.
  intros Hlate. rewrite EntryGateScene_frames_cons.
  pose proof (update_door_state elapsed delta s w) as Hstep.
  unfold door_state in Hstep. injection Hstep as Hopened _ Hcues.
  pose proof (door_progress_late elapsed Hlate) as Hfull.
  assert (Hquiet : cue_fires elapsed s = false).
  { unfold cue_fires.
    assert (E : (door_progress elapsed <? 0.05) = false)
      by (apply Qltb_ge; rewrite Hfull; discriminate).
    rewrite E, andb_false_r. reflexivity. }
  assert (Hstart : (elapsed / 1000 <? EntryGateScene.DOOR_ANIMATION_START) = false).
  { apply Qltb_ge. unfold EntryGateScene.DOOR_ANIMATION_START.
    divide_out. lra. }
  assert (Hfinish : EntryGateScene.doorsOpened s || doors_finish elapsed s = true).
  { unfold doors_finish. rewrite Hstart.
    assert (E : Qle_bool 1 (door_progress elapsed) = true)
      by (apply Qle_bool_iff; rewrite Hfull; apply Qle_refl).
    rewrite E. destruct (EntryGateScene.doorsOpened s); reflexivity. }
  rewrite Hquiet, app_nil_r in Hcues. rewrite Hfinish in Hopened.
  destruct (frames_after_open rest _
              (state_of (EntryGateScene.update elapsed delta s w)).2 Hopened)
    as [-> ->].
  split; [exact Hcues | reflexivity].
Qed.

End GateTimeline.

(** C9, the cue is lost: on a new scene, frames at 700, 716 and 2600 ms
    all come after the delay of half a second, the doors end fully open,
    and the cue was never played, although the code means to play it once
    at the start of the opening. The same happens with the frames that the
    application delivers: it hands the scene its own clock, which the
    loading scene has taken past 2.5 seconds, so that the first frame of the
    gate, here at 4000 ms, already finds the animation over. *)
Lemma gate_cue_missed :
  let s := (EntryGateScene.new (fresh_world (document None))).1 in
  let w := (EntryGateScene.new (fresh_world (document None))).2 in
  let ticks := [(700%Q, 16%Q); (716%Q, 16%Q); (2600%Q, 16%Q)] in
  let late := [(4000%Q, 16%Q); (4016%Q, 16%Q); (4032%Q, 16%Q)] in
  forallb (fun tick => Qle_bool (EntryGateScene.DOOR_ANIMATION_START * 1000) tick.1)
          (ticks ++ late) = true /\
  EntryGateScene.gateOpeningSoundPlayed s = false /\
  gate_cues w = [] /\
  gate_cues (EntryGateScene.frames (M := PolynomialMath) ticks s w).2 = [] /\
  EntryGateScene.doorsOpened
    (EntryGateScene.frames (M := PolynomialMath) ticks s w).1 = true /\
  gate_cues (EntryGateScene.frames (M := PolynomialMath) late s w).2 = [] /\
  EntryGateScene.doorsOpened
    (EntryGateScene.frames (M := PolynomialMath) late s w).1 = true.
Proof. vm_compute. repeat split. Qed.

Lemma gate_cue_at_most_once_witness :
  let s := (EntryGateScene.new (fresh_world (document None))).1
             <| EntryGateScene.gateOpeningSoundPlayed := true |> in
  let w := (EntryGateScene.new (fresh_world (document None))).2 in
  let ticks := [(400%Q, 16%Q); (516%Q, 16%Q); (532%Q, 16%Q)] in
  gate_cues (EntryGateScene.frames (M := PolynomialMath) ticks s w).2 = [].
Proof.
  intros s w ticks.
  destruct (gate_cue_at_most_once (M := PolynomialMath) ticks s w)
    as (n & Hn & _ & Hplayed & _).
  rewrite Hn, (Hplayed eq_refl). reflexivity.
Defined.

Lemma gate_cue_lost_witness :
  let s := (EntryGateScene.new (fresh_world (document None))).1 in
  let w := (EntryGateScene.new (fresh_world (document None))).2 in
  gate_cues (EntryGateScene.frames (M := PolynomialMath)
               [(4000%Q, 16%Q); (4016%Q, 16%Q); (4032%Q, 16%Q)] s w).2 = [].
Proof.
  intros s w.
  destruct (gate_cue_lost (M := PolynomialMath) 4000%Q 16%Q
              [(4016%Q, 16%Q); (4032%Q, 16%Q)] s w) as [H _];
    [vm_compute; discriminate | exact H].
Defined.

(** ** From the end of the intro to the resumed scene *)

Lemma getSavedScene_store g g' b b' :
  storageUnreadable b' = storageUnreadable b ->
  sessionStorage b' = sessionStorage b ->
  GlobalState.getSavedScene g' b' = GlobalState.getSavedScene g b.
Proof.
  intros Hb Hs. unfold GlobalState.getSavedScene, getItem.
  rewrite Hb, Hs. reflexivity.
Qed.

(** X26: the tick on which the exit burst ends: the loading scene completes and,
    in the same tick, the progression check switches to the scene that
    [getSavedScene] resolves, which becomes the current index; the guard is
    engaged and the advance flag consumed. *)
Lemma intro_completion_resumes `{M : Math} (a : App.t) (s : LoadingScene.t)
    (elapsed delta : Q) :
  App.currentScene a = Some "loading" ->
  App.scene_at (Some "loading") a = Some (App.LoadingSceneObject s) ->
  current_index a = 0 ->
  App._progressGuard a = false ->
  LoadingScene.isComplete s = false ->
  LoadingScene.phase s = LoadingScene.exitBurst ->
  exit_baseline_set s ->
  (LoadingScene.EXIT_DURATION <= LoadingScene.phaseTimer s + delta * 0.001)%Q ->
  let saved := GlobalState.getSavedScene (globalState (App.world a))
                                         (browser (App.world a)) in
  exists a',
    App.update elapsed delta a = Done a' /\
    current_index a' = saved /\
    App.switched a' = App.switched a ++ [App.SCENE_NAMES_at saved] /\
    App._progressGuard a' = true /\
    can_progress a' = false.
Proof.
  intros Hcur Hslot Hidx Hguard Hc Hp Hbase Ht saved.
  destruct (update_at_exit_end elapsed delta s (App.world a) Hc Hp Hbase Ht)
    as (s' & Hup & _).
  set (w' := App.world a
               <| browser := set_arrows_display EmptyString (browser (App.world a)) |>
               <| globalState :=
                              GlobalState.setCanProgress true
                                (globalState (App.world a)) |>) in *.
  assert (Hflag : GlobalState.canProgress (globalState w') = true) by reflexivity.
  assert (Hg' : globalState w'
                = GlobalState.setCanProgress true (globalState (App.world a)))
    by reflexivity.
  assert (Hblocked : storageUnreadable (browser w')
                     = storageUnreadable (browser (App.world a))) by reflexivity.
  assert (Hstore : sessionStorage (browser w')
                   = sessionStorage (browser (App.world a))) by reflexivity.
  clearbody w'.
  unfold App.update, App.update_current. rewrite Hcur, Hslot, Hup.
  cbn [and_then].
  set (a1 := a <| App.scenes := _ |> <| App.world := w' |>).
  assert (Hflag1 : can_progress a1 = true) by exact Hflag.
  assert (Hguard1 : App._progressGuard a1 = false) by exact Hguard.
  assert (Hidx1 : current_index a1 = 0).
  { unfold current_index, a1. simpl. rewrite Hg'. exact Hidx. }
  rewrite checkSceneProgression_from_loading by assumption.
  assert (Hsaved : GlobalState.getSavedScene (globalState (App.world a1))
                                             (browser (App.world a1)) = saved).
  { apply getSavedScene_store; assumption. }
  rewrite Hsaved. eexists. split; [reflexivity|].
  destruct (after_timeout_fields ResetProgressGuard 500
              (App.switchScene (App.SCENE_NAMES_at saved) (consumed a1)))
    as (Hg & Hs & Hgs).
  unfold current_index, can_progress. rewrite Hg, Hs, Hgs.
  fold (current_index (App.switchScene (App.SCENE_NAMES_at saved) (consumed a1))).
  fold (can_progress (App.switchScene (App.SCENE_NAMES_at saved) (consumed a1))).
  rewrite switchScene_index, switchScene_switched, switchScene_progressGuard,
    switchScene_canProgress.
  pose proof (getSavedScene_range (globalState (App.world a))
                                  (browser (App.world a))) as Hrange.
  fold saved in Hrange.
  destruct (SCENE_NAMES_at_defined saved ltac:(lia)) as [name Hname].
  rewrite Hname. destruct (indexOf_SCENE_NAMES_at _ _ Hname) as [-> _].
  rewrite bool_decide_eq_true_2 by lia. repeat split.
Qed.

(** ** Further properties of the progress store *)

Lemma getSavedScene_same_store g g' b b' :
  storageUnreadable b' = storageUnreadable b ->
  sessionStorage b' = sessionStorage b ->
  GlobalState.getSavedScene g' b' = GlobalState.getSavedScene g b.
Proof.
  intros Hb Hs. unfold GlobalState.getSavedScene, getItem.
  rewrite Hb, Hs. reflexivity.
Qed.

Lemma getSavedScene_blocked g b :
  storageUnreadable b = true -> GlobalState.getSavedScene g b = 1.
Proof.
  intros Hb. unfold GlobalState.getSavedScene, getItem. rewrite Hb. reflexivity.
Qed.

Lemma setScene_storageBlocked idx g b :
  storageBlocked (GlobalState.setScene idx g b).2 = storageBlocked b.
Proof.
  unfold GlobalState.setScene, GlobalState.saveScene, setItem,
    GlobalState.updateProgressIndicator.
  destruct ((0 <=? idx) && (idx <? GlobalState.sceneCount)); [|reflexivity].
  destruct (0 <? idx); [|reflexivity].
  destruct b as [[] ? ? ? ? ? ? ?]; reflexivity.
Qed.

Lemma setScene_sessionStorage idx g b :
  sessionStorage (GlobalState.setScene idx g b).2
  = if bool_decide (1 <= idx <= 7) && negb (storageBlocked b)
    then <[SESSION_KEY := String_of idx]> (sessionStorage b)
    else sessionStorage b.
Proof.
  destruct (decide (0 <= idx <= 7)) as [Hin | Hout].
  - rewrite setScene_in_range by exact Hin. cbn [snd].
    destruct (0 <? idx) eqn:Hpos.
    + rewrite bool_decide_eq_true_2 by lia.
      unfold GlobalState.saveScene, setItem, GlobalState.updateProgressIndicator.
      destruct b as [[] ? ? ? ? ? ? ?]; reflexivity.
    + rewrite bool_decide_eq_false_2 by lia. reflexivity.
  - rewrite setScene_out_of_range by lia. cbn [snd].
    rewrite bool_decide_eq_false_2 by lia. reflexivity.
Qed.

Lemma setScene_storageUnreadable idx g b :
  storageUnreadable (GlobalState.setScene idx g b).2 = storageUnreadable b.
Proof.
  unfold GlobalState.setScene, GlobalState.saveScene, setItem,
    GlobalState.updateProgressIndicator.
  destruct ((0 <=? idx) && (idx <? GlobalState.sceneCount)); [|reflexivity].
  destruct (0 <? idx); [|reflexivity].
  destruct b as [[] ? ? ? ? ? ? ? ?]; reflexivity.
Qed.

(** X1: what [setScene] persists is what [getSavedScene] resumes. When
    the store of the session can be written and read, after
    [setScene(idx)] for an index 1..7 [getSavedScene] returns that index;
    [setScene] with 0 or with an index outside the enumeration leaves the
    resumed scene as it was; when writing the store throws, the resumed
    scene is also as it was, whatever was set, while the index in memory is
    still updated; and when reading the store throws, the resumed scene is
    1. *)
Theorem saved_scene_round_trip (idx : Z) (g : GlobalState.t) (b : Browser) :
  let g' := (GlobalState.setScene idx g b).1 in
  let b' := (GlobalState.setScene idx g b).2 in
  (1 <= idx <= 7 -> storageBlocked b = false -> storageUnreadable b = false ->
     GlobalState.getSavedScene g' b' = idx) /\
  (~ 1 <= idx <= 7 ->
     GlobalState.getSavedScene g' b' = GlobalState.getSavedScene g b) /\
  (storageBlocked b = true ->
     GlobalState.getSavedScene g' b' = GlobalState.getSavedScene g b /\
     (0 <= idx <= 7 -> GlobalState.currentScene g' = idx)) /\
  (storageUnreadable b = true -> GlobalState.getSavedScene g' b' = 1).
Proof.
  intros g' b'. split; [|split; [|split]].
  - intros Hidx Hb Hr. by apply getSavedScene_after_setScene.
  - intros Hout. apply getSavedScene_same_store.
    + apply setScene_storageUnreadable.
    + unfold b'. rewrite setScene_sessionStorage.
      rewrite bool_decide_eq_false_2 by exact Hout. reflexivity.
  - intros Hb. split.
    + apply getSavedScene_same_store.
      * apply setScene_storageUnreadable.
      * unfold b'. rewrite setScene_sessionStorage, Hb.
        rewrite andb_false_r. reflexivity.
    + intros Hin. unfold g'. rewrite setScene_in_range by exact Hin.
      reflexivity.
  - intros Hr. apply getSavedScene_blocked. unfold b'.
    rewrite setScene_storageUnreadable. exact Hr.
Qed.

Lemma saved_scene_round_trip_witness :
  let g := GlobalState.new in
  let full := document (Some "3") <| storageBlocked := true |> in
  GlobalState.getSavedScene (GlobalState.setScene 5 g (document None)).1
                            (GlobalState.setScene 5 g (document None)).2 = 5 /\
  GlobalState.getSavedScene (GlobalState.setScene 0 g (document (Some "3"))).1
                            (GlobalState.setScene 0 g (document (Some "3"))).2 = 3 /\
  GlobalState.getSavedScene (GlobalState.setScene 9 g (document (Some "3"))).1
                            (GlobalState.setScene 9 g (document (Some "3"))).2 = 3 /\
  GlobalState.getSavedScene (GlobalState.setScene 5 g full).1
                            (GlobalState.setScene 5 g full).2 = 3.
Proof.
  intros g full. split; [|split; [|split]].
  - destruct (saved_scene_round_trip 5 g (document None)) as (H & _).
    apply H; [lia | reflexivity | reflexivity].
  - destruct (saved_scene_round_trip 0 g (document (Some "3"))) as (_ & H & _).
    rewrite H by lia. reflexivity.
  - destruct (saved_scene_round_trip 9 g (document (Some "3"))) as (_ & H & _).
    rewrite H by lia. reflexivity.
  - destruct (saved_scene_round_trip 5 g full) as (_ & _ & H & _).
    destruct (H eq_refl) as [-> _]. reflexivity.
Defined.

(** *** The progress dots *)

Lemma setScene_progressDots idx g b :
  progressDots (GlobalState.setScene idx g b).2
  = if bool_decide (0 <= idx <= 7)
    then imap (fun k _ => bool_decide (Z.of_nat k = idx)) (progressDots b)
    else progressDots b.
Proof.
  destruct (decide (0 <= idx <= 7)) as [Hin | Hout].
  - rewrite setScene_in_range by exact Hin. cbn [snd].
    rewrite bool_decide_eq_true_2 by exact Hin.
    unfold GlobalState.saveScene, setItem, GlobalState.updateProgressIndicator.
    destruct (0 <? idx); [|reflexivity].
    destruct b as [[] ? ? ? ? ? ? ?]; reflexivity.
  - rewrite setScene_out_of_range by lia. cbn [snd].
    rewrite bool_decide_eq_false_2 by exact Hout. reflexivity.
Qed.

(** X2: after [setScene] with an index of the enumeration, the dot number
    [k] is active exactly when [k] is that index, so at most one dot is
    active (none when the document has no dot for the index); the number
    of dots is unchanged, and an index outside the enumeration leaves the
    dots as they were. *)
Theorem progress_dots_follow_scene (idx : Z) (g : GlobalState.t) (b : Browser) :
  let dots := progressDots b in
  let dots' := progressDots (GlobalState.setScene idx g b).2 in
  length dots' = length dots /\
  (0 <= idx <= 7 ->
     (forall k, (k < length dots)%nat ->
        dots' !! k = Some (bool_decide (Z.of_nat k = idx))) /\
     (forall j k, dots' !! j = Some true -> dots' !! k = Some true -> j = k) /\
     ((length dots <= Z.to_nat idx)%nat -> forall k, dots' !! k <> Some true)) /\
  (~ 0 <= idx <= 7 -> dots' = dots).
Proof.
  intros dots dots'. unfold dots'. rewrite setScene_progressDots. fold dots.
  split; [|split].
  - destruct (bool_decide _); [apply length_imap | reflexivity].
  - intros Hin. rewrite bool_decide_eq_true_2 by exact Hin.
    assert (Hat : forall k v,
      imap (fun k _ => bool_decide (Z.of_nat k = idx)) dots !! k = Some v ->
      (k < length dots)%nat /\ v = bool_decide (Z.of_nat k = idx)).
    { intros k v Hk. rewrite list_lookup_imap in Hk.
      destruct (dots !! k) eqn:E; [|discriminate].
      injection Hk as <-. split; [|reflexivity].
      apply lookup_lt_is_Some. by eexists. }
    split; [|split].
    + intros k Hk. rewrite list_lookup_imap.
      destruct (lookup_lt_is_Some_2 dots k Hk) as [x ->]. reflexivity.
    + intros j k Hj Hk. apply Hat in Hj as [_ Hj], Hk as [_ Hk].
      symmetry in Hj, Hk. apply bool_decide_eq_true in Hj, Hk. lia.
    + intros Hshort k Hk. apply Hat in Hk as [Hlt Hk].
      symmetry in Hk. apply bool_decide_eq_true in Hk. lia.
  - intros Hout. rewrite bool_decide_eq_false_2 by exact Hout. reflexivity.
Qed.

Lemma progress_dots_follow_scene_witness :
  progressDots (GlobalState.setScene 2 GlobalState.new (document None)).2 !! 2%nat
  = Some true /\
  progressDots (GlobalState.setScene 2 GlobalState.new (document None)).2 !! 0%nat
  = Some false /\
  progressDots (GlobalState.setScene 8 GlobalState.new (document None)).2
  = progressDots (document None).
Proof.
  destruct (progress_dots_follow_scene 2 GlobalState.new (document None))
    as (_ & Hin & _).
  destruct (Hin ltac:(lia)) as (Hat & _).
  split; [|split].
  - apply (Hat 2%nat). simpl. lia.
  - apply (Hat 0%nat). simpl. lia.
  - apply (progress_dots_follow_scene 8 GlobalState.new (document None)). lia.
Defined.

(** *** Invariants of the store *)

Lemma nextScene_as_setScene g b :
  (GlobalState.nextScene g b).2
  = if GlobalState.currentScene g <? GlobalState.sceneCount - 1
    then GlobalState.setScene (GlobalState.currentScene g + 1) g b
    else (g, b).
Proof.
  unfold GlobalState.nextScene.
  destruct (GlobalState.currentScene g <? GlobalState.sceneCount - 1);
    reflexivity.
Qed.

Lemma clamp_unit p : (0 <= Qmax 0 (Qmin 1 p) <= 1)%Q.
Proof.
  split; [apply Q.le_max_l|].
  apply Q.max_lub; [discriminate | apply Q.le_min_l].
Qed.

Lemma clamp_unit_id p : (0 <= p <= 1)%Q -> (Qmax 0 (Qmin 1 p) == p)%Q.
Proof.
  intros [H0 H1]. rewrite (Q.min_r 1 p) by exact H1.
  apply Q.max_r. exact H0.
Qed.

Lemma setScene_sound idx g b :
  store_sound g -> store_sound (GlobalState.setScene idx g b).1.
Proof.
  intros (Hidx & Hcur & H0 & Hall & Hp). rewrite setScene_store.
  destruct ((0 <=? idx) && (idx <? GlobalState.sceneCount)) eqn:E;
    [|exact (conj Hidx (conj Hcur (conj H0 (conj Hall Hp))))].
  apply in_range_iff in E. unfold store_sound. cbn.
  split; [exact E|].
  split; [apply elem_of_union_r, elem_of_singleton; reflexivity|].
  split; [apply elem_of_union_l, H0|].
  split; [|exact Hp].
  intros i Hi. apply elem_of_union in Hi as [Hi | Hi]; [by apply Hall|].
  apply elem_of_singleton in Hi. lia.
Qed.

Lemma setScene_visited idx g b :
  GlobalState.visitedScenes g
  ⊆ GlobalState.visitedScenes (GlobalState.setScene idx g b).1.
Proof.
  rewrite setScene_store.
  destruct ((0 <=? idx) && (idx <? GlobalState.sceneCount)); cbn;
    [apply union_subseteq_l | reflexivity].
Qed.

Lemma store_call_sound c g b :
  store_sound g -> store_sound (store_call c g b).1.
Proof.
  intros Hg. destruct c as [idx| |v|p|v]; cbn [store_call].
  - by apply setScene_sound.
  - rewrite nextScene_as_setScene. destruct (_ <? _); [|exact Hg].
    by apply setScene_sound.
  - exact Hg.
  - destruct Hg as (Hidx & Hcur & H0 & Hall & Hp).
    exact (conj Hidx (conj Hcur (conj H0 (conj Hall (clamp_unit p))))).
  - exact Hg.
Qed.

Lemma store_call_visited c g b :
  GlobalState.visitedScenes g ⊆ GlobalState.visitedScenes (store_call c g b).1.
Proof.
  destruct c as [idx| |v|p|v]; cbn [store_call]; try done.
  - apply setScene_visited.
  - rewrite nextScene_as_setScene. destruct (_ <? _); [|done].
    apply setScene_visited.
Qed.

Lemma store_calls_sound cs :
  forall g b, store_sound g -> store_sound (store_calls cs g b).1.
Proof.
  induction cs as [|c rest IH]; intros g b Hg; [exact Hg|].
  cbn [store_calls]. pose proof (store_call_sound c g b Hg) as H1.
  destruct (store_call c g b) as [g1 b1]. by apply IH.
Qed.

Lemma store_calls_visited cs :
  forall g b,
    GlobalState.visitedScenes g
    ⊆ GlobalState.visitedScenes (store_calls cs g b).1.
Proof.
  induction cs as [|c rest IH]; intros g b; [done|].
  cbn [store_calls]. pose proof (store_call_visited c g b) as H1.
  destruct (store_call c g b) as [g1 b1]. cbn [fst] in H1.
  etrans; [exact H1 | apply IH].
Qed.

Lemma store_calls_app cs more g b :
  store_calls (cs ++ more) g b
  = store_calls more (store_calls cs g b).1 (store_calls cs g b).2.
Proof.
  revert g b. induction cs as [|c rest IH]; intros g b; [reflexivity|].
  cbn [app store_calls]. destruct (store_call c g b) as [g1 b1]. apply IH.
Qed.

(** X3: whatever calls are made on a new progress store, in whatever
    order and with whatever arguments, the current index stays in 0..7 and
    is a visited scene, every visited scene is an index 0..7, the loading
    scene 0 stays visited, the loading progress stays in [0, 1], and the
    set of visited scenes only grows. *)
Theorem store_invariants (calls : list StoreCall) (b : Browser) :
  let g := (store_calls calls GlobalState.new b).1 in
  0 <= GlobalState.currentScene g <= 7 /\
  GlobalState.currentScene g ∈ GlobalState.visitedScenes g /\
  0 ∈ GlobalState.visitedScenes g /\
  (forall i, i ∈ GlobalState.visitedScenes g -> 0 <= i <= 7) /\
  (0 <= GlobalState.loadingProgress g <= 1)%Q /\
  (forall more,
     GlobalState.visitedScenes g
     ⊆ GlobalState.visitedScenes
         (store_calls (calls ++ more) GlobalState.new b).1).
Proof.
  intros g.
  assert (Hnew : store_sound GlobalState.new).
  { unfold store_sound. cbn. split; [lia|].
    split; [by apply elem_of_singleton|].
    split; [by apply elem_of_singleton|]. split; [|split; discriminate].
    intros i Hi. apply elem_of_singleton in Hi. lia. }
  destruct (store_calls_sound calls GlobalState.new b Hnew)
    as (H1 & H2 & H3 & H4 & H5).
  repeat (split; [assumption|]).
  intros more. rewrite store_calls_app. apply store_calls_visited.
Qed.

Lemma store_invariants_witness :
  let calls := [CallSetScene 3; CallNextScene; CallSetScene 12;
                CallSetLoadingProgress 7; CallSetScene (-1)] in
  let g := (store_calls calls GlobalState.new (document None)).1 in
  GlobalState.currentScene g = 4 /\ 0 <= 4 <= 7 /\
  3 ∈ GlobalState.visitedScenes
        (store_calls (calls ++ [CallSetScene 1]) GlobalState.new
                     (document None)).1.
Proof.
  intros calls g.
  destruct (store_invariants calls (document None))
    as (_ & Hcur & _ & Hall & _ & Hgrow).
  split; [reflexivity|]. split.
  - apply (Hall 4). exact Hcur.
  - apply (Hgrow [CallSetScene 1]).
    apply (bool_decide_unpack _). vm_compute. exact I.
Defined.

(** ** Further properties of the scene switch *)

Lemma scene_at_switched n k a :
  App.scene_at k (a <| App.switched := App.switched a ++ [n] |>)
  = App.scene_at k a.
Proof. destruct k; reflexivity. Qed.

Lemma SCENE_NAMES_at_iff i name :
  App.SCENE_NAMES_at i = Some name <->
  0 <= i <= 7 /\ App.indexOf App.SCENE_NAMES (Some name) = i.
Proof.
  split.
  - intros H. destruct (indexOf_SCENE_NAMES_at i name H). auto.
  - intros [Hi <-]. apply indexOf_found. lia.
Qed.

Lemma getCurrentSceneName_at g :
  GlobalState.getCurrentSceneName g
  = App.SCENE_NAMES_at (GlobalState.currentScene g).
Proof. reflexivity. Qed.

(** X4: the two tables of scene names agree, and names and indices
    convert back and forth: [SCENE_NAMES[i]] is a name exactly for the
    indices 0..7, and then [indexOf] of that name is [i]; [indexOf] is -1
    exactly for the names that the table does not hold; and for each index
    0..7, [switchScene(SCENE_NAMES[i])] makes [i] the current index,
    whether or not a scene is built for it, after which
    [getCurrentSceneName()] returns the name that was switched to. *)
Theorem scene_names_round_trip :
  (forall i name,
     App.SCENE_NAMES_at i = Some name <->
     0 <= i <= 7 /\ App.indexOf App.SCENE_NAMES (Some name) = i) /\
  (forall name,
     App.indexOf App.SCENE_NAMES (Some name) = -1 <->
     forall i, App.SCENE_NAMES_at i <> Some name) /\
  (forall i (a : App.t), 0 <= i <= 7 ->
     let a' := App.switchScene (App.SCENE_NAMES_at i) a in
     is_Some (App.SCENE_NAMES_at i) /\
     current_index a' = i /\
     GlobalState.getCurrentSceneName (globalState (App.world a'))
     = App.SCENE_NAMES_at i).
Proof.
  split; [exact SCENE_NAMES_at_iff|]. split.
  - intros name. split.
    + intros Hnot i Hi. apply SCENE_NAMES_at_iff in Hi. lia.
    + intros Hnot.
      destruct (decide (App.indexOf App.SCENE_NAMES (Some name) = -1)) as [E|E];
        [exact E|].
      destruct (Hnot _ (indexOf_found name E)).
  - intros i a Hi a'.
    destruct (SCENE_NAMES_at_defined i Hi) as [name Hname].
    split; [by eexists|].
    assert (Hidx : current_index a' = i).
    { unfold a'. rewrite switchScene_index, Hname.
      destruct (indexOf_SCENE_NAMES_at i name Hname) as [-> _].
      rewrite bool_decide_eq_true_2 by lia. reflexivity. }
    split; [exact Hidx|].
    rewrite getCurrentSceneName_at. fold (current_index a').
    rewrite Hidx. reflexivity.
Qed.

Lemma scene_names_round_trip_witness :
  App.indexOf App.SCENE_NAMES (Some "hallOfLegacy"%string) = 5 /\
  (forall i, App.SCENE_NAMES_at i <> Some "lobby"%string) /\
  current_index
    (App.switchScene (App.SCENE_NAMES_at 6)
                     (bare_app GlobalState.new (document None))) = 6.
Proof.
  destruct scene_names_round_trip as (Hat & Hmiss & Hswitch).
  split; [|split].
  - apply (Hat 5 "hallOfLegacy"%string). reflexivity.
  - apply (Hmiss "lobby"%string). reflexivity.
  - apply (Hswitch 6 (bare_app GlobalState.new (document None))). lia.
Defined.

(** *** The normal path *)

Lemma setScene_if_named_frame n a :
  App.scenes (App.setScene_if_named n a) = App.scenes a /\
  App.currentScene (App.setScene_if_named n a) = App.currentScene a /\
  App._progressGuard (App.setScene_if_named n a) = App._progressGuard a.
Proof.
  unfold App.setScene_if_named. destruct (bool_decide _); repeat split.
Qed.

Lemma fadeTransition_frame a :
  App.scenes (App.fadeTransition a) = App.scenes a /\
  App.currentScene (App.fadeTransition a) = App.currentScene a /\
  App._progressGuard (App.fadeTransition a) = App._progressGuard a.
Proof.
  unfold App.fadeTransition.
  destruct (loadingOverlay (browser (App.world a))); repeat split.
Qed.

(** The registry after a switch: on the normal path the outgoing scene has
    been disposed, on the other path nothing has. *)
Lemma switchScene_scenes n a :
  App.scenes (App.switchScene n a)
  = match App.scene_at n a with
    | Some _ => App.scenes (App.dispose_current a)
    | None => App.scenes a
    end.
Proof.
  unfold App.switchScene. rewrite scene_at_switched.
  destruct (App.scene_at n a) as [sc|].
  - unfold App.log. cbn [App.scenes upd App.upd_world].
    rewrite (proj1 (fadeTransition_frame _)).
    rewrite (proj1 (setScene_if_named_frame _ _)). cbn.
    unfold App.dispose_current. cbn. unfold App.scene_at. cbn.
    destruct (App.currentScene a) as [key|]; [|reflexivity].
    destruct (App.scenes a !! key) as [[[s|g|inh]|]|]; try reflexivity; destruct (bool_decide _); reflexivity.
  - rewrite (proj1 (fadeTransition_frame _)). cbn.
    rewrite (proj1 (setScene_if_named_frame _ _)). reflexivity.
Qed.

Lemma dispose_current_scenes a :
  App.scenes (App.dispose_current a)
  = match App.currentScene a with
    | Some old =>
        match App.scene_at (Some old) a with
        | Some (App.LoadingSceneObject s) =>
            <[old := Some (App.LoadingSceneObject (LoadingScene.dispose s))]>
              (App.scenes a)
        | _ => App.scenes a
        end
    | None => App.scenes a
    end.
Proof.
  unfold App.dispose_current.
  destruct (App.currentScene a) as [old|]; [|reflexivity].
  destruct (App.scene_at (Some old) a) as [[s|g|inh]|]; reflexivity.
Qed.

Lemma switchScene_console_last n a sc :
  App.scene_at n a = Some sc ->
  exists out,
    console (browser (App.world (App.switchScene n a)))
    = out ++ ["Switched to: " +:+ App.text_of n].
Proof.
  intros H. unfold App.switchScene. rewrite scene_at_switched, H.
  unfold App.log. cbn. eexists. reflexivity.
Qed.

(** X5: [switchScene] for a name whose slot holds a built scene (or that
    the registry inherits from [Object.prototype], a value with nothing to
    update or dispose) makes
    that scene the active one and sets the index of the name; the scene
    that was active is disposed first: an outgoing loading scene stays in
    its slot with its welcome text removed from the document, an outgoing
    gate scene is left as it is; every other slot of the registry is
    untouched, and the last line of the console names the scene. *)
Theorem switchScene_built (a : App.t) (name : string) (sc : App.Scene)
    (Hslot : App.scene_at (Some name) a = Some sc) :
  let a' := App.switchScene (Some name) a in
  App.currentScene a' = Some name /\
  (forall i, App.SCENE_NAMES_at i = Some name -> current_index a' = i) /\
  (forall old s,
     App.currentScene a = Some old ->
     App.scene_at (Some old) a = Some (App.LoadingSceneObject s) ->
     App.scene_at (Some old) a'
     = Some (App.LoadingSceneObject (LoadingScene.dispose s)) /\
     forall el, LoadingScene.welcomeEl (LoadingScene.dispose s) = Some el ->
                LoadingScene.inDocument el = false) /\
  (forall old g,
     App.currentScene a = Some old ->
     App.scene_at (Some old) a = Some (App.EntryGateSceneObject g) ->
     App.scenes a' = App.scenes a) /\
  (App.currentScene a = None -> App.scenes a' = App.scenes a) /\
  (forall k, App.currentScene a <> Some k ->
     App.scene_at (Some k) a' = App.scene_at (Some k) a) /\
  (exists out,
     console (browser (App.world a'))
     = out ++ ["Switched to: " +:+ name]).
Proof.
  intros a'.
  assert (Hscenes : App.scenes a' = App.scenes (App.dispose_current a)).
  { unfold a'. rewrite switchScene_scenes, Hslot. reflexivity. }
  split; [exact (switchScene_sets_reference _ _ _ Hslot)|]. split.
  { intros i Hi. unfold a'. rewrite switchScene_index.
    destruct (indexOf_SCENE_NAMES_at i name Hi) as [-> Hr].
    rewrite bool_decide_eq_true_2 by lia. reflexivity. }
  split.
  { intros old s Hcur Hold. split.
    - unfold App.scene_at. rewrite Hscenes, dispose_current_scenes, Hcur, Hold.
      rewrite lookup_insert_eq. reflexivity.
    - unfold LoadingScene.dispose, LoadingScene.style_welcomeEl. cbn.
      intros el Hel. destruct (LoadingScene.welcomeEl s); [|discriminate].
      injection Hel as <-. reflexivity. }
  split.
  { intros old g Hcur Hold.
    rewrite Hscenes, dispose_current_scenes, Hcur, Hold. reflexivity. }
  split.
  { intros Hcur. rewrite Hscenes, dispose_current_scenes, Hcur. reflexivity. }
  split.
  { intros k Hk. unfold App.scene_at. rewrite Hscenes, dispose_current_scenes.
    destruct (App.currentScene a) as [old|]; [|reflexivity].
    destruct (App.scene_at (Some old) a) as [[s|g|inh]|]; try reflexivity.
    rewrite lookup_insert_ne by congruence. reflexivity. }
  exact (switchScene_console_last _ _ _ Hslot).
Qed.

Lemma switchScene_built_witness :
  let a := app_on_loading (scene_in LoadingScene.textPulse 0 0)
                          GlobalState.new (document None) in
  let a' := App.switchScene (Some "entryGate"%string) a in
  App.currentScene a' = Some "entryGate"%string /\
  current_index a' = 1 /\
  App.scene_at (Some "loading"%string) a'
  = Some (App.LoadingSceneObject
            (LoadingScene.dispose (scene_in LoadingScene.textPulse 0 0))).
Proof.
  intros a a'.
  destruct (switchScene_built a "entryGate"%string _ eq_refl)
    as (Hcur & Hidx & Hold & _).
  split; [exact Hcur|]. split.
  - apply (Hidx 1). reflexivity.
  - apply (Hold "loading"%string); reflexivity.
Defined.

(** *** What a switch leaves of the document *)

Lemma setScene_arrows idx g b :
  arrows (GlobalState.setScene idx g b).2 = arrows b /\
  themeLight (GlobalState.setScene idx g b).2 = themeLight b.
Proof.
  unfold GlobalState.setScene, GlobalState.saveScene, setItem,
    GlobalState.updateProgressIndicator, console_log.
  destruct b as [blocked store dots overlay arr theme timers out]. simpl.
  destruct (_ && _), (0 <? idx), blocked; split; reflexivity.
Qed.

Lemma setScene_if_named_browser n a :
  kept (browser (App.world (App.setScene_if_named n a)))
  = kept (browser (App.world a)) /\
  sessionStorage (browser (App.world (App.setScene_if_named n a)))
  = if bool_decide (1 <= App.indexOf App.SCENE_NAMES n <= 7)
       && negb (storageBlocked (browser (App.world a)))
    then <[SESSION_KEY := String_of (App.indexOf App.SCENE_NAMES n)]>
           (sessionStorage (browser (App.world a)))
    else sessionStorage (browser (App.world a)).
Proof.
  unfold App.setScene_if_named, kept.
  destruct (indexOf_range n) as [H | H].
  - rewrite H. cbn. split; reflexivity.
  - rewrite bool_decide_eq_true_2 by lia. unfold on_globalState.
    set (idx := App.indexOf App.SCENE_NAMES n) in *.
    set (b := browser (App.world a)).
    pose proof (setScene_arrows idx (globalState (App.world a)) b) as Ha.
    pose proof (setScene_storageBlocked idx (globalState (App.world a)) b) as Hb.
    pose proof (setScene_sessionStorage idx (globalState (App.world a)) b) as Hs.
    pose proof (setScene_storageUnreadable idx (globalState (App.world a)) b)
      as Hu.
    destruct (GlobalState.setScene idx _ b) as [g' b1].
    cbn in *. destruct Ha as [-> ->]. rewrite Hb, Hs, Hu. split; reflexivity.
Qed.

Lemma fadeTransition_browser a :
  kept (browser (App.world (App.fadeTransition a)))
  = kept (browser (App.world a)) /\
  sessionStorage (browser (App.world (App.fadeTransition a)))
  = sessionStorage (browser (App.world a)).
Proof.
  unfold App.fadeTransition, kept.
  destruct (loadingOverlay (browser (App.world a))); split; reflexivity.
Qed.

Lemma dispose_current_browser a :
  kept (browser (App.world (App.dispose_current a)))
  = kept (browser (App.world a)) /\
  sessionStorage (browser (App.world (App.dispose_current a)))
  = sessionStorage (browser (App.world a)).
Proof.
  unfold App.dispose_current, kept.
  destruct (App.currentScene a) as [old|]; [|auto].
  destruct (App.scene_at (Some old) a) as [[s|g|inh]|]; auto.
Qed.

Lemma log_browser msg a :
  kept (browser (App.world (App.log msg a))) = kept (browser (App.world a)) /\
  sessionStorage (browser (App.world (App.log msg a)))
  = sessionStorage (browser (App.world a)).
Proof. split; reflexivity. Qed.

(** A switch writes the store of the session when the name is one of the
    scenes 1..7, and then the index of the name; it leaves the arrow
    buttons and the theme alone. *)
Lemma switchScene_browser n a :
  kept (browser (App.world (App.switchScene n a)))
  = kept (browser (App.world a)) /\
  sessionStorage (browser (App.world (App.switchScene n a)))
  = if bool_decide (1 <= App.indexOf App.SCENE_NAMES n <= 7)
       && negb (storageBlocked (browser (App.world a)))
    then <[SESSION_KEY := String_of (App.indexOf App.SCENE_NAMES n)]>
           (sessionStorage (browser (App.world a)))
    else sessionStorage (browser (App.world a)).
Proof.
  unfold App.switchScene. rewrite scene_at_switched.
  destruct (App.scene_at n a) as [sc|].
  - match goal with
    | |- context [App.log ?m ?x] =>
        destruct (log_browser m x) as [-> ->]
    end.
    match goal with
    | |- context [App.fadeTransition ?x] =>
        destruct (fadeTransition_browser x) as [-> ->]
    end.
    match goal with
    | |- context [App.setScene_if_named n ?x] =>
        destruct (setScene_if_named_browser n x) as [-> ->]
    end.
    cbn [App.world upd App.upd_currentScene].
    match goal with
    | |- context [App.dispose_current ?x] =>
        destruct (dispose_current_browser x) as [E1 E2]
    end.
    rewrite E2. unfold kept in E1 |- *. injection E1 as -> -> -> ->.
    split; reflexivity.
  - match goal with
    | |- context [App.fadeTransition ?x] =>
        destruct (fadeTransition_browser x) as [-> ->]
    end.
    cbn [App.world upd App.upd_currentScene].
    match goal with
    | |- context [App.setScene_if_named n ?x] =>
        destruct (setScene_if_named_browser n x) as [-> ->]
    end.
    split; reflexivity.
Qed.

Lemma setScene_if_named_world_rest n a :
  audioManager (App.world (App.setScene_if_named n a))
  = audioManager (App.world a) /\
  cameraZ (App.world (App.setScene_if_named n a)) = cameraZ (App.world a).
Proof.
  unfold App.setScene_if_named, on_globalState.
  destruct (bool_decide _); [|auto].
  destruct (GlobalState.setScene _ _ _) as [g1 b1]. auto.
Qed.

Lemma fadeTransition_world_rest a :
  audioManager (App.world (App.fadeTransition a)) = audioManager (App.world a) /\
  cameraZ (App.world (App.fadeTransition a)) = cameraZ (App.world a).
Proof.
  unfold App.fadeTransition.
  destruct (loadingOverlay (browser (App.world a))); auto.
Qed.

Lemma dispose_current_world_rest a :
  audioManager (App.world (App.dispose_current a)) = audioManager (App.world a) /\
  cameraZ (App.world (App.dispose_current a)) = cameraZ (App.world a).
Proof.
  unfold App.dispose_current.
  destruct (App.currentScene a) as [old|]; [|auto].
  destruct (App.scene_at (Some old) a) as [[s|g|inh]|]; auto.
Qed.

Lemma log_world_rest msg a :
  audioManager (App.world (App.log msg a)) = audioManager (App.world a) /\
  cameraZ (App.world (App.log msg a)) = cameraZ (App.world a).
Proof. split; reflexivity. Qed.

Lemma switchScene_world_rest n a :
  audioManager (App.world (App.switchScene n a)) = audioManager (App.world a) /\
  cameraZ (App.world (App.switchScene n a)) = cameraZ (App.world a).
Proof.
  unfold App.switchScene. rewrite scene_at_switched.
  destruct (App.scene_at n a) as [sc|].
  - match goal with
    | |- context [App.log ?m ?x] =>
        destruct (log_world_rest m x) as [-> ->]
    end.
    match goal with
    | |- context [App.fadeTransition ?x] =>
        destruct (fadeTransition_world_rest x) as [-> ->]
    end.
    match goal with
    | |- context [App.setScene_if_named n ?x] =>
        destruct (setScene_if_named_world_rest n x) as [-> ->]
    end.
    cbn [App.world upd App.upd_currentScene].
    match goal with
    | |- context [App.dispose_current ?x] =>
        destruct (dispose_current_world_rest x) as [-> ->]
    end.
    auto.
  - match goal with
    | |- context [App.fadeTransition ?x] =>
        destruct (fadeTransition_world_rest x) as [-> ->]
    end.
    cbn [App.world upd App.upd_currentScene].
    match goal with
    | |- context [App.setScene_if_named n ?x] =>
        destruct (setScene_if_named_world_rest n x) as [-> ->]
    end.
    auto.
Qed.

(** *** Start-up *)

Section StartUp.
Context `{M : Math}.

Lemma initScenes_world random a :
  browser (App.world (App.initScenes random a))
  = console_log "EntryGateScene initialized"
      (set_arrows_display "none" (browser (App.world a))) /\
  audioManager (App.world (App.initScenes random a))
  = audioManager (App.world a) /\
  cameraZ (App.world (App.initScenes random a)) = 5%Q.
Proof.
  unfold App.initScenes, LoadingScene.new, LoadingScene.disableControls,
    EntryGateScene.new.
  simpl. repeat split.
Qed.

Lemma log_scenes msg a : App.scenes (App.log msg a) = App.scenes a.
Proof. reflexivity. Qed.

Lemma setupUI_scenes a : App.scenes (App.setupUI a) = App.scenes a.
Proof. reflexivity. Qed.

Lemma setupUI_currentScene a :
  App.currentScene (App.setupUI a) = App.currentScene a.
Proof. reflexivity. Qed.

(** The registry of the constructor: a slot holding null for every name
    of the table, and no other. *)
Lemma lookup_null_slots {A : Type} (names : list string) (k : string) :
  (list_to_map ((fun n => (n, @None A)) <$> names) : gmap string (option A)) !! k
  = if bool_decide (k ∈ names) then Some None else None.
Proof.
  induction names as [|n names IH].
  - rewrite bool_decide_eq_false_2 by apply not_elem_of_nil. apply lookup_empty.
  - rewrite fmap_cons, list_to_map_cons. cbn [fst snd].
    destruct (decide (k = n)) as [-> | Hne].
    + rewrite lookup_insert_eq.
      rewrite bool_decide_eq_true_2 by apply list_elem_of_here. reflexivity.
    + rewrite lookup_insert_ne by congruence. rewrite IH.
      destruct (decide (k ∈ names)) as [Hin | Hout].
      * rewrite !bool_decide_eq_true_2;
          [reflexivity | by apply list_elem_of_further | exact Hin].
      * rewrite !bool_decide_eq_false_2; [reflexivity | | exact Hout].
        intros H. apply elem_of_cons in H as [? | ?]; [congruence | done].
Qed.

Lemma initScenes_registry random a :
  App.scenes (App.initScenes random a)
  = <["entryGate"%string :=
        Some (App.EntryGateSceneObject
                (EntryGateScene.new (LoadingScene.new random (App.world a)).2).1)]>
      (<["loading"%string :=
           Some (App.LoadingSceneObject (LoadingScene.new random (App.world a)).1)]>
         (App.scenes a)).
Proof.
  unfold App.initScenes, LoadingScene.new, LoadingScene.disableControls,
    EntryGateScene.new.
  simpl. reflexivity.
Qed.

Lemma new_loading_scene random w :
  let s := (LoadingScene.new random w).1 in
  LoadingScene.phase s = LoadingScene.loading /\
  LoadingScene.isComplete s = false /\
  LoadingScene._blockLook s = true /\
  LoadingScene._explodeStarted s = false /\
  LoadingScene._exitStartRadii s = None.
Proof.
  unfold LoadingScene.new, LoadingScene.disableControls. cbn [fst].
  match goal with
  | |- context [LoadingScene.createParticles random ?s0] =>
      pose proof (control_fields _ _ (createParticles_control random s0))
        as (Hp & _ & Hc & _ & _ & _ & Hs & _ & Hr);
      revert Hp Hc Hs Hr;
      generalize (LoadingScene.createParticles random s0) as c
  end.
  intros c Hp Hc Hs Hr. simpl in *. rewrite Hp, Hc, Hs, Hr. repeat split.
Qed.

Lemma set_arrows_display_rest value b :
  (storageBlocked (set_arrows_display value b), sessionStorage (set_arrows_display value b),
   loadingOverlay (set_arrows_display value b), pendingTimers (set_arrows_display value b),
   progressDots (set_arrows_display value b), themeLight (set_arrows_display value b))
  = (storageBlocked b, sessionStorage b, loadingOverlay b, pendingTimers b,
     progressDots b, themeLight b).
Proof. reflexivity. Qed.

(** X6: a new application shows the loading scene: the active scene is
    the loading scene, in its first phase and with the look blocked, the
    index is 0, the advance flag and the guard are clear, and the gate
    scene is built beside it; the registry has no slot but the eight of
    the table of names, and the six others hold null. The scene of
    the last session is not overwritten, so [getSavedScene] still resumes
    it; every arrow button of the document is hidden and the backward
    arrow has got the listener of [previousScene] after the ones it had;
    the overlay is shown with its timer of 300 ms; no sound is set up and
    the camera is at z = 5. *)
Theorem new_app_start (random : nat -> Q) (b : Browser) :
  let a := App.new random b in
  let b' := browser (App.world a) in
  App.currentScene a = Some "loading"%string /\
  current_index a = 0 /\ can_progress a = false /\
  App._progressGuard a = false /\
  (exists s,
     App.scene_at (Some "loading"%string) a = Some (App.LoadingSceneObject s) /\
     LoadingScene.phase s = LoadingScene.loading /\
     LoadingScene.isComplete s = false /\
     LoadingScene._blockLook s = true) /\
  (exists g,
     App.scene_at (Some "entryGate"%string) a
     = Some (App.EntryGateSceneObject g)) /\
  (forall k, k <> "loading"%string -> k <> "entryGate"%string ->
     App.scenes a !! k
     = if bool_decide (k ∈ App.SCENE_NAMES) then Some None else None) /\
  sessionStorage b' = sessionStorage b /\
  GlobalState.getSavedScene (globalState (App.world a)) b'
  = GlobalState.getSavedScene GlobalState.new b /\
  (forall id, id ∈ arrow_ids ->
     display <$> arrows b' !! id = (fun _ => "none"%string) <$> arrows b !! id) /\
  listeners <$> arrows b' !! "arrow-backward"%string
  = (fun x => listeners x ++ [AppPreviousScene])
      <$> arrows b !! "arrow-backward"%string /\
  loadingOverlay b' = shown (loadingOverlay b) /\
  pendingTimers b' = pendingTimers b ++ hide_timer (loadingOverlay b) /\
  AudioManager.initialized (audioManager (App.world a)) = false /\
  cameraZ (App.world a) = 5%Q.
Proof.
  intros a b'.
  destruct (new_app_state random b) as (Hidx & Hflag & Hguard & Hcur & _).
  fold a in Hidx, Hflag, Hguard, Hcur.
  do 4 (split; [assumption|]).
  set (a0 := {| App.world := {| globalState := GlobalState.new;
                                audioManager := AudioManager.new;
                                cameraZ := 5%Q; browser := b |};
                App.scenes := list_to_map ((fun n => (n, None)) <$> App.SCENE_NAMES);
                App.currentScene := None;
                App._progressGuard := false;
                App.switched := [] |}).
  set (a1 := App.initScenes random a0).
  set (a2 := App.setupUI a1).
  set (a3 := App.switchScene (Some "loading"%string) a2).
  assert (Ha : a = App.log "App initialized" a3) by reflexivity.
  destruct (initScenes_world random a0) as (Hb1 & Haudio1 & Hcam1).
  pose proof (initScenes_registry random a0) as Hreg1.
  fold a1 in Hb1, Haudio1, Hcam1, Hreg1.
  assert (Hslot2 : App.scene_at (Some "loading"%string) a2
                   = Some (App.LoadingSceneObject
                             (LoadingScene.new random (App.world a0)).1)).
  { unfold App.scene_at. change (App.scenes a2) with (App.scenes a1).
    rewrite Hreg1. rewrite lookup_insert_ne by discriminate.
    rewrite lookup_insert_eq. reflexivity. }
  assert (Hreg3 : App.scenes a = App.scenes a1).
  { rewrite Ha. change (App.scenes (App.log "App initialized" a3))
      with (App.scenes a3).
    unfold a3. rewrite switchScene_scenes, Hslot2.
    rewrite dispose_current_scenes. reflexivity. }
  split.
  { eexists. split.
    - unfold App.scene_at. rewrite Hreg3, Hreg1.
      rewrite lookup_insert_ne by discriminate.
      rewrite lookup_insert_eq. reflexivity.
    - destruct (new_loading_scene random (App.world a0)) as (Hp & Hc & Hl & _).
      auto. }
  split.
  { eexists. unfold App.scene_at. rewrite Hreg3, Hreg1.
    rewrite lookup_insert_eq. reflexivity. }
  split.
  { intros k Hk1 Hk2. rewrite Hreg3, Hreg1.
    rewrite !lookup_insert_ne by congruence.
    unfold a0. cbn [App.scenes]. apply lookup_null_slots. }
  assert (Hb2 : browser (App.world a2)
                = (browser (App.world a1))
                    <| arrows := alter (App.add_listener AppPreviousScene)
                                       "arrow-backward"%string
                                       (arrows (browser (App.world a1))) |>)
    by reflexivity.
  destruct (switchScene_browser (Some "loading"%string) a2) as [Hkept Hstore].
  fold a3 in Hkept, Hstore.
  change (App.indexOf App.SCENE_NAMES (Some "loading"%string)) with 0 in Hstore.
  rewrite bool_decide_eq_false_2 in Hstore by lia. cbn [andb] in Hstore.
  destruct (switchScene_fade (Some "loading"%string) a2) as [Hover Htimers].
  fold a3 in Hover, Htimers.
  assert (Hb' : b' = console_log "App initialized" (browser (App.world a3)))
    by reflexivity.
  unfold kept in Hkept. injection Hkept as Harrows Htheme Hblocked Hunreadable.
  assert (H2 : sessionStorage (browser (App.world a2)) = sessionStorage b /\
               storageUnreadable (browser (App.world a2)) = storageUnreadable b /\
               loadingOverlay (browser (App.world a2)) = loadingOverlay b /\
               pendingTimers (browser (App.world a2)) = pendingTimers b /\
               arrows (browser (App.world a2))
               = alter (App.add_listener AppPreviousScene)
                       "arrow-backward"%string
                       (arrows (set_arrows_display "none" b))).
  { rewrite Hb2, Hb1. repeat split. }
  destruct H2 as (Hs2 & Hbl2 & Ho2 & Ht2 & Ha2).
  assert (Hs' : sessionStorage b' = sessionStorage b).
  { transitivity (sessionStorage (browser (App.world a3))); [by rewrite Hb'|].
    rewrite Hstore. exact Hs2. }
  assert (Hunreadable' : storageUnreadable b' = storageUnreadable b).
  { transitivity (storageUnreadable (browser (App.world a3))); [by rewrite Hb'|].
    rewrite Hunreadable. exact Hbl2. }
  split; [exact Hs'|]. split.
  { exact (getSavedScene_same_store _ _ _ _ Hunreadable' Hs'). }
  assert (Harr : arrows b'
                 = alter (App.add_listener AppPreviousScene)
                         "arrow-backward"%string
                         (arrows (set_arrows_display "none" b))).
  { transitivity (arrows (browser (App.world a3))); [by rewrite Hb'|].
    rewrite Harrows. exact Ha2. }
  split.
  { intros id Hid. rewrite Harr.
    destruct (decide (id = "arrow-backward"%string)) as [-> | Hne].
    - rewrite lookup_alter_eq, set_arrows_display_lookup by exact Hid.
      destruct (arrows b !! "arrow-backward"%string); reflexivity.
    - rewrite lookup_alter_ne by congruence.
      rewrite set_arrows_display_lookup by exact Hid.
      destruct (arrows b !! id); reflexivity. }
  split.
  { rewrite Harr, lookup_alter_eq.
    rewrite set_arrows_display_lookup
      by (apply (bool_decide_unpack _); vm_compute; exact I).
    destruct (arrows b !! "arrow-backward"%string); reflexivity. }
  split.
  { transitivity (loadingOverlay (browser (App.world a3))); [by rewrite Hb'|].
    rewrite Hover, Ho2. reflexivity. }
  split.
  { transitivity (pendingTimers (browser (App.world a3))); [by rewrite Hb'|].
    rewrite Htimers, Ht2, Ho2. reflexivity. }
  destruct (switchScene_world_rest (Some "loading"%string) a2) as [Hau Hca].
  fold a3 in Hau, Hca. split.
  { assert (E : audioManager (App.world a) = AudioManager.new).
    { transitivity (audioManager (App.world a3)); [by rewrite Ha|].
      rewrite Hau. exact Haudio1. }
    rewrite E. reflexivity. }
  { transitivity (cameraZ (App.world a3)); [by rewrite Ha|].
    rewrite Hca. exact Hcam1. }
Qed.

End StartUp.

Lemma new_app_start_witness :
  let a := App.new (M := PolynomialMath) (fun _ => 0.5%Q) (document (Some "3")) in
  display <$> arrows (browser (App.world a)) !! "arrow-left"%string
  = Some "none"%string /\
  GlobalState.getSavedScene (globalState (App.world a)) (browser (App.world a))
  = 3 /\
  App.scenes a !! "mainStreet"%string = Some None /\
  App.scenes a !! "toString"%string = None.
Proof.
  intros a.
  destruct (new_app_start (M := PolynomialMath) (fun _ => 0.5%Q)
              (document (Some "3")))
    as (_ & _ & _ & _ & _ & _ & Hempty & _ & Hsaved & Harrows & _).
  split; [|split; [|split]].
  - fold a in Harrows. rewrite Harrows; [reflexivity|].
    apply (bool_decide_unpack _). vm_compute. exact I.
  - exact Hsaved.
  - unfold a. rewrite Hempty by discriminate. reflexivity.
  - unfold a. rewrite Hempty by discriminate. reflexivity.
Defined.

(** ** The audio manager *)

Lemma audio_calls_app cs more a b :
  audio_calls (cs ++ more) a b
  = audio_calls more (audio_calls cs a b).1 (audio_calls cs a b).2.
Proof.
  revert a b. induction cs as [|c rest IH]; intros a b; [reflexivity|].
  cbn [app audio_calls]. destruct (audio_call c a b) as [a1 b1]. apply IH.
Qed.

(** *** The hum object under the key *)

Lemma last_insert_current {A} (l : list A) x y :
  last l = Some x -> last (<[pred (length l) := y]> l) = Some y.
Proof.
  rewrite !last_lookup, length_insert. intros H.
  apply list_lookup_insert_eq. by apply lookup_lt_Some in H.
Qed.

Lemma last_insert_cases {A} (l : list A) i y :
  last (<[i := y]> l) = last l \/
  (is_Some (last l) /\ last (<[i := y]> l) = Some y).
Proof.
  rewrite !last_lookup, length_insert.
  destruct (decide (i = pred (length l))) as [-> | Hne].
  - destruct (l !! pred (length l)) eqn:E.
    + right. split; [by eexists|].
      apply list_lookup_insert_eq. by apply lookup_lt_Some in E.
    + left. rewrite list_insert_ge by (by apply lookup_ge_None). exact E.
  - left. by rewrite list_lookup_insert_ne.
Qed.

(** What each method writes. *)
Lemma init_fields a b :
  let a' := (AudioManager.init a b).1 in
  AudioManager.initialized a' = true /\
  AudioManager.hums a' = AudioManager.hums a /\
  AudioManager.started a' = AudioManager.started a /\
  AudioManager.masterVolume a' = AudioManager.masterVolume a /\
  AudioManager.isMuted a' = AudioManager.isMuted a.
Proof.
  unfold AudioManager.init.
  destruct (AudioManager.initialized a) eqn:E; repeat split; exact E.
Qed.

Lemma createMechanicalHum_fields a b :
  let a' := (AudioManager.createMechanicalHum a b).1 in
  AudioManager.initialized a' = true /\
  AudioManager.hums a' = AudioManager.hums a ++ [false] /\
  AudioManager.started a' = AudioManager.started a /\
  AudioManager.masterVolume a' = AudioManager.masterVolume a /\
  AudioManager.isMuted a' = AudioManager.isMuted a.
Proof.
  unfold AudioManager.createMechanicalHum, AudioManager.init.
  destruct (AudioManager.initialized a) eqn:E; repeat split; exact E.
Qed.

Lemma playMechanicalHum_fields a :
  let a' := AudioManager.playMechanicalHum a in
  AudioManager.initialized a' = AudioManager.initialized a /\
  AudioManager.masterVolume a' = AudioManager.masterVolume a /\
  AudioManager.isMuted a' = AudioManager.isMuted a /\
  ((AudioManager.hums a' = AudioManager.hums a /\
    AudioManager.started a' = AudioManager.started a /\
    (AudioManager.isMuted a = true \/ AudioManager.initialized a = false \/
     AudioManager.hum a <> Some false)) \/
   (AudioManager.initialized a = true /\ AudioManager.isMuted a = false /\
    AudioManager.hum a = Some false /\
    AudioManager.hum a' = Some true /\
    AudioManager.started a'
    = AudioManager.started a ++ [AudioManager.MechanicalHum])).
Proof.
  unfold AudioManager.playMechanicalHum. cbv zeta.
  change (AudioManager.initialized (a <| AudioManager.requested := ?r |>))
    with (AudioManager.initialized a).
  change (AudioManager.isMuted (a <| AudioManager.requested := ?r |>))
    with (AudioManager.isMuted a).
  change (AudioManager.hum (a <| AudioManager.requested := ?r |>))
    with (AudioManager.hum a).
  destruct (AudioManager.initialized a) eqn:Ei,
    (AudioManager.isMuted a) eqn:Em; cbn [negb orb];
    try (repeat split; try assumption; left; repeat split; auto; fail).
  destruct (AudioManager.hum a) as [[]|] eqn:Eh;
    try (repeat split; try assumption; left; repeat split; auto;
         right; right; congruence; fail).
  repeat split; try assumption. right. repeat split.
  unfold AudioManager.hum in *. cbn. unfold AudioManager.currentHum. cbn.
  by apply (last_insert_current _ false).
Qed.

Lemma stopMechanicalHum_fields a b :
  (AudioManager.stopMechanicalHum a b).1 = a /\
  (AudioManager.stopMechanicalHum a b).2
  = if bool_decide (AudioManager.hum a = Some true)
    then setTimeout (StopHum (AudioManager.currentHum a)) 500 b else b.
Proof.
  unfold AudioManager.stopMechanicalHum.
  destruct (AudioManager.hum a) as [[]|]; split; reflexivity.
Qed.

Lemma setMuted_fields m a b :
  (AudioManager.setMuted m a b).1 = a <| AudioManager.isMuted := m |> /\
  (AudioManager.setMuted m a b).2
  = if m && bool_decide (AudioManager.hum a = Some true)
    then setTimeout (StopHum (AudioManager.currentHum a)) 500 b else b.
Proof.
  unfold AudioManager.setMuted, AudioManager.stopMechanicalHum. cbv zeta.
  change (AudioManager.hum (a <| AudioManager.isMuted := m |>))
    with (AudioManager.hum a).
  destruct m; [|split; reflexivity].
  destruct (AudioManager.hum a) as [[]|]; split; reflexivity.
Qed.

Lemma playGateOpening_fields a b :
  let a' := (AudioManager.playGateOpening a b).1 in
  AudioManager.initialized a' = AudioManager.initialized a /\
  AudioManager.masterVolume a' = AudioManager.masterVolume a /\
  AudioManager.isMuted a' = AudioManager.isMuted a /\
  AudioManager.hums a' = AudioManager.hums a /\
  (AudioManager.started a' = AudioManager.started a \/
   (AudioManager.initialized a = true /\ AudioManager.isMuted a = false /\
    AudioManager.started a'
    = AudioManager.started a ++ [AudioManager.GateOpening])).
Proof.
  unfold AudioManager.playGateOpening. cbv zeta.
  change (AudioManager.initialized (a <| AudioManager.requested := ?r |>))
    with (AudioManager.initialized a).
  change (AudioManager.isMuted (a <| AudioManager.requested := ?r |>))
    with (AudioManager.isMuted a).
  destruct (AudioManager.initialized a) eqn:Ei,
    (AudioManager.isMuted a) eqn:Em; cbn [negb orb fst];
    repeat split; auto.
Qed.

Lemma audio_call_sound c a b :
  audio_sound a -> audio_sound (audio_call c a b).1.
Proof.
  intros (Hv & Hh & Hs & Hp). unfold audio_sound.
  destruct c as [| | | |sound| |m|v]; cbn [audio_call fst].
  - destruct (init_fields a b) as (Ei & Eh & Est & Ev & _). cbv zeta in *.
    unfold AudioManager.hum in *. rewrite Ei, Eh, Est, Ev. auto.
  - destruct (createMechanicalHum_fields a b) as (Ei & Eh & Est & Ev & _).
    cbv zeta in *. unfold AudioManager.hum in *. rewrite Ei, Eh, Est, Ev.
    rewrite last_snoc. repeat split; auto; try apply Hv. discriminate.
  - destruct (playMechanicalHum_fields a)
      as (Ei & Ev & _ & [(Eh & Est & _) | (Hi & _ & _ & Eh & Est)]);
      cbv zeta in *.
    + unfold AudioManager.hum in *. rewrite Ei, Ev, Eh, Est. auto.
    + rewrite Ei, Ev, Eh, Est, Hi. repeat split; auto; try apply Hv.
      intros _. apply elem_of_app. right. by apply list_elem_of_singleton.
  - rewrite (proj1 (stopMechanicalHum_fields a b)). auto.
  - unfold AudioManager.humStopped, AudioManager.hum in *. cbn.
    destruct (last_insert_cases (AudioManager.hums a) sound false)
      as [-> | [Hsome ->]]; [auto|].
    repeat split; auto; try apply Hv. discriminate.
  - destruct (playGateOpening_fields a b)
      as (Ei & Ev & _ & Eh & [Est | (Hi & _ & Est)]); cbv zeta in *;
      unfold AudioManager.hum in *; rewrite Ei, Ev, Eh, Est; auto.
    rewrite Hi. repeat split; auto; try apply Hv.
    intros Hplay. apply elem_of_app. left. auto.
  - rewrite (proj1 (setMuted_fields m a b)). auto.
  - unfold AudioManager.setMasterVolume, AudioManager.hum in *. cbn.
    repeat split; auto; apply clamp_unit.
Qed.

Lemma audio_calls_sound cs :
  forall a b, audio_sound a -> audio_sound (audio_calls cs a b).1.
Proof.
  induction cs as [|c rest IH]; intros a b Ha; [exact Ha|].
  cbn [audio_calls]. pose proof (audio_call_sound c a b Ha) as H1.
  destruct (audio_call c a b) as [a1 b1]. by apply IH.
Qed.

(** X7: whatever methods of the audio manager are called and whichever
    of its stop timers run, in whatever order and with whatever arguments,
    from its construction on: the master volume stays in [0, 1]; a hum
    under the key, and any sound that has been started, imply that the
    audio context was initialised; and a hum under the key that is marked
    as playing has been started. A stop timer acts on the hum object that
    it was queued for, which need not be the one under the key. *)
Theorem audio_invariants (calls : list AudioCall) (b : Browser) :
  let a := (audio_calls calls AudioManager.new b).1 in
  (0 <= AudioManager.masterVolume a <= 1)%Q /\
  (is_Some (AudioManager.hum a) -> AudioManager.initialized a = true) /\
  (AudioManager.started a <> [] -> AudioManager.initialized a = true) /\
  (AudioManager.hum a = Some true ->
   AudioManager.MechanicalHum ∈ AudioManager.started a).
Proof.
  apply audio_calls_sound. unfold audio_sound. cbn.
  split; [split; discriminate|].
  split; [intros [? ?]; discriminate|]. split; [congruence | discriminate].
Qed.

Lemma audio_invariants_witness :
  let calls := [CallSetMasterVolume 3; CallCreateMechanicalHum;
                CallPlayMechanicalHum; CallStopMechanicalHum;
                CallCreateMechanicalHum; CallPlayMechanicalHum;
                HumTimerRuns 0] in
  let a := (audio_calls calls AudioManager.new (document None)).1 in
  AudioManager.hum a = Some true /\
  AudioManager.hums a = [false; true] /\
  AudioManager.initialized a = true /\
  AudioManager.MechanicalHum ∈ AudioManager.started a.
Proof.
  intros calls a.
  destruct (audio_invariants calls (document None)) as (_ & Hinit & _ & Hplay).
  split; [reflexivity|]. split; [reflexivity|]. split.
  - apply Hinit. eexists. reflexivity.
  - apply Hplay. reflexivity.
Defined.

(** *** Muting *)

Lemma muted_call c a b :
  AudioManager.isMuted a = true -> unmutes c = false ->
  AudioManager.isMuted (audio_call c a b).1 = true /\
  AudioManager.started (audio_call c a b).1 = AudioManager.started a.
Proof.
  intros Hm Hc.
  destruct c as [| | | |sound| |m|v]; cbn [audio_call fst].
  - destruct (init_fields a b) as (_ & _ & -> & _ & ->). auto.
  - destruct (createMechanicalHum_fields a b) as (_ & _ & -> & _ & ->). auto.
  - destruct (playMechanicalHum_fields a)
      as (_ & _ & -> & [(_ & -> & _) | (_ & Hf & _)]); [auto | congruence].
  - rewrite (proj1 (stopMechanicalHum_fields a b)). auto.
  - split; [exact Hm | reflexivity].
  - destruct (playGateOpening_fields a b)
      as (_ & _ & -> & _ & [-> | (_ & Hf & _)]); [auto | congruence].
  - rewrite (proj1 (setMuted_fields m a b)).
    destruct m; [|discriminate]. split; reflexivity.
  - split; [exact Hm | reflexivity].
Qed.

Lemma muted_calls cs :
  forall a b,
    AudioManager.isMuted a = true ->
    forallb (fun c => negb (unmutes c)) cs = true ->
    AudioManager.isMuted (audio_calls cs a b).1 = true /\
    AudioManager.started (audio_calls cs a b).1 = AudioManager.started a.
Proof.
  induction cs as [|c rest IH]; intros a b Hm Hcs; [split; [exact Hm | reflexivity]|].
  cbn [forallb] in Hcs. apply andb_true_iff in Hcs as [Hc Hrest].
  apply negb_true_iff in Hc.
  destruct (muted_call c a b Hm Hc) as [Hm1 Hs1].
  cbn [audio_calls]. destruct (audio_call c a b) as [a1 b1]. cbn in Hm1, Hs1.
  destruct (IH a1 b1 Hm1 Hrest) as [Hm2 Hs2]. split; [exact Hm2|].
  rewrite Hs2. exact Hs1.
Qed.

(** X8: a muted manager starts no sound. [setMuted(true)] itself starts
    nothing; it queues the stop of the hum under the key, in 500 ms,
    exactly when that hum is playing, and otherwise leaves the document
    alone; and after it,
    whatever methods are called before [setMuted(false)], the manager
    stays muted and no sound is started. *)
Theorem muted_starts_nothing (calls : list AudioCall) (a : AudioManager.t)
    (b : Browser) :
  let a0 := (AudioManager.setMuted true a b).1 in
  let b0 := (AudioManager.setMuted true a b).2 in
  AudioManager.isMuted a0 = true /\
  AudioManager.started a0 = AudioManager.started a /\
  (AudioManager.hum a = Some true ->
     pendingTimers b0
     = pendingTimers b ++ [(500, StopHum (AudioManager.currentHum a))]) /\
  (AudioManager.hum a <> Some true -> b0 = b) /\
  (forallb (fun c => negb (unmutes c)) calls = true ->
     AudioManager.isMuted (audio_calls calls a0 b0).1 = true /\
     AudioManager.started (audio_calls calls a0 b0).1 = AudioManager.started a).
Proof.
  intros a0 b0.
  destruct (setMuted_fields true a b) as [Ea Eb]. fold a0 in Ea. fold b0 in Eb.
  assert (Hm : AudioManager.isMuted a0 = true) by (rewrite Ea; reflexivity).
  assert (Hs : AudioManager.started a0 = AudioManager.started a)
    by (rewrite Ea; reflexivity).
  split; [exact Hm|]. split; [exact Hs|]. split; [|split].
  - intros Hh. rewrite Eb. cbn [andb].
    rewrite bool_decide_eq_true_2 by exact Hh. reflexivity.
  - intros Hh. rewrite Eb. cbn [andb].
    rewrite bool_decide_eq_false_2 by exact Hh. reflexivity.
  - intros Hcs. destruct (muted_calls calls a0 b0 Hm Hcs) as [Hm' Hs'].
    split; [exact Hm'|]. rewrite Hs'. exact Hs.
Qed.

Lemma muted_starts_nothing_witness :
  let a := (audio_calls [CallCreateMechanicalHum; CallPlayMechanicalHum]
                        AudioManager.new (document None)).1 in
  let calls := [CallPlayGateOpening; HumTimerRuns 0; CallPlayMechanicalHum;
                CallSetMuted true; CallPlayGateOpening] in
  let a0 := (AudioManager.setMuted true a (document None)).1 in
  let b0 := (AudioManager.setMuted true a (document None)).2 in
  pendingTimers b0 = [(500, StopHum 0)] /\
  AudioManager.started (audio_calls calls a0 b0).1
  = [AudioManager.MechanicalHum].
Proof.
  intros a calls a0 b0.
  destruct (muted_starts_nothing calls a (document None))
    as (_ & _ & Htimer & _ & Hquiet).
  split.
  - apply Htimer. reflexivity.
  - apply Hquiet. reflexivity.
Defined.

(** *** The hum plays once *)

Lemma hum_call c a b :
  renews_hum c = false ->
  let a' := (audio_call c a b).1 in
  match AudioManager.hum a with
  | Some true => AudioManager.hum a' = Some true /\ hum_starts a' = hum_starts a
  | Some false =>
      (AudioManager.hum a' = Some false /\ hum_starts a' = hum_starts a) \/
      (AudioManager.hum a' = Some true /\ hum_starts a' = S (hum_starts a))
  | None => AudioManager.hum a' = None /\ hum_starts a' = hum_starts a
  end.
Proof.
  intros Hc. cbv zeta.
  assert (Hsame : forall a',
    AudioManager.hums a' = AudioManager.hums a ->
    (AudioManager.started a' = AudioManager.started a \/
     AudioManager.started a'
     = AudioManager.started a ++ [AudioManager.GateOpening]) ->
    match AudioManager.hum a with
    | Some true =>
        AudioManager.hum a' = Some true /\ hum_starts a' = hum_starts a
    | Some false =>
        (AudioManager.hum a' = Some false /\ hum_starts a' = hum_starts a) \/
        (AudioManager.hum a' = Some true /\ hum_starts a' = S (hum_starts a))
    | None => AudioManager.hum a' = None /\ hum_starts a' = hum_starts a
    end).
  { intros a' Eh Est.
    assert (E1 : AudioManager.hum a' = AudioManager.hum a)
      by (unfold AudioManager.hum; by rewrite Eh).
    assert (E2 : hum_starts a' = hum_starts a).
    { unfold hum_starts. destruct Est as [-> | ->]; [reflexivity|].
      rewrite List.filter_app, length_app. cbn. lia. }
    rewrite E1, E2. destruct (AudioManager.hum a) as [[]|]; auto. }
  destruct c as [| | | |sound| |m|v]; try discriminate; cbn [audio_call fst].
  - destruct (init_fields a b) as (_ & Eh & Est & _). apply Hsame; auto.
  - destruct (playMechanicalHum_fields a)
      as (_ & _ & _ & [(Eh & Est & _) | (_ & _ & Hf & Eh & Est)]).
    + apply Hsame; auto.
    + rewrite Hf. right. split; [exact Eh|]. unfold hum_starts. rewrite Est.
      rewrite List.filter_app, length_app. cbn. lia.
  - rewrite (proj1 (stopMechanicalHum_fields a b)). apply Hsame; auto.
  - destruct (playGateOpening_fields a b)
      as (_ & _ & _ & Eh & [Est | (_ & _ & Est)]); apply Hsame; auto.
  - rewrite (proj1 (setMuted_fields m a b)). apply Hsame; auto.
  - apply Hsame; auto.
Qed.

Lemma hum_calls cs :
  forall a b,
    forallb (fun c => negb (renews_hum c)) cs = true ->
    let a' := (audio_calls cs a b).1 in
    match AudioManager.hum a with
    | Some true => hum_starts a' = hum_starts a
    | Some false => (hum_starts a <= hum_starts a' <= S (hum_starts a))%nat
    | None => hum_starts a' = hum_starts a
    end.
Proof.
  induction cs as [|c rest IH]; intros a b Hcs.
  { cbn. destruct (AudioManager.hum a) as [[]|]; lia. }
  cbn [forallb] in Hcs. apply andb_true_iff in Hcs as [Hc Hrest].
  apply negb_true_iff in Hc.
  pose proof (hum_call c a b Hc) as H1. cbv zeta in H1.
  cbn [audio_calls]. destruct (audio_call c a b) as [a1 b1]. cbn [fst] in H1.
  specialize (IH a1 b1 Hrest). cbv zeta in IH |- *.
  destruct (AudioManager.hum a) as [[]|].
  - destruct H1 as [E1 E2]. rewrite E1 in IH. lia.
  - destruct H1 as [[E1 E2] | [E1 E2]]; rewrite E1 in IH; lia.
  - destruct H1 as [E1 E2]. rewrite E1 in IH. lia.
Qed.

(** X9: the hum is not started on top of itself. Over any calls of the
    manager among which the hum is not created anew and its stop timer
    does not run, the hum is started at most once, however often
    [playMechanicalHum] is called; it is not started at all when it is
    already playing or was never created. *)
Theorem hum_started_once (calls : list AudioCall) (a : AudioManager.t)
    (b : Browser) :
  forallb (fun c => negb (renews_hum c)) calls = true ->
  let a' := (audio_calls calls a b).1 in
  (hum_starts a <= hum_starts a' <= hum_starts a + 1)%nat /\
  (AudioManager.hum a = Some true -> hum_starts a' = hum_starts a) /\
  (AudioManager.hum a = None -> hum_starts a' = hum_starts a).
Proof.
  intros Hcs a'. pose proof (hum_calls calls a b Hcs) as H. cbv zeta in H.
  fold a' in H. destruct (AudioManager.hum a) as [[]|]; repeat split;
    try lia; try discriminate; auto.
Qed.

Lemma hum_started_once_witness :
  let a := (AudioManager.createMechanicalHum AudioManager.new (document None)).1 in
  let calls := [CallPlayMechanicalHum; CallStopMechanicalHum;
                CallPlayMechanicalHum; CallSetMuted false;
                CallPlayMechanicalHum] in
  (hum_starts (audio_calls calls a (document None)).1 <= 1)%nat.
Proof.
  intros a calls.
  destruct (hum_started_once calls a (document None) eq_refl) as ((_ & H) & _).
  exact H.
Defined.

(** ** The timeline of the loading scene *)

Arguments for_loop : simpl never.

Lemma loop_isComplete n (body : nat -> LoadingScene.t -> LoadingScene.t) s :
  (forall i x, control (body i x) = control x) ->
  LoadingScene.isComplete (for_loop n body s) = LoadingScene.isComplete s.
Proof. intros Hbody. apply (control_fields _ _ (loop_control n body s Hbody)). Qed.

Lemma loop_blockLook n (body : nat -> LoadingScene.t -> LoadingScene.t) s :
  (forall i x, control (body i x) = control x) ->
  LoadingScene._blockLook (for_loop n body s) = LoadingScene._blockLook s.
Proof. intros Hbody. apply (control_fields _ _ (loop_control n body s Hbody)). Qed.

Ltac past_loops :=
  repeat match goal with
         | |- context [LoadingScene._explodeStarted (for_loop ?n ?body ?s)] =>
             rewrite (loop_started n body s) by (intros; reflexivity); simpl
         | |- context [LoadingScene.phase (for_loop ?n ?body ?s)] =>
             rewrite (loop_phase n body s) by (intros; reflexivity); simpl
         | |- context [LoadingScene._exitStartRadii (for_loop ?n ?body ?s)] =>
             rewrite (loop_exitStartRadii n body s) by (intros; reflexivity);
             simpl
         | |- context [LoadingScene.isComplete (for_loop ?n ?body ?s)] =>
             rewrite (loop_isComplete n body s) by (intros; reflexivity); simpl
         | |- context [LoadingScene._blockLook (for_loop ?n ?body ?s)] =>
             rewrite (loop_blockLook n body s) by (intros; reflexivity); simpl
         end.

Ltac code_cases :=
  repeat match goal with
         | |- context [if ?c then _ else _] => destruct c; simpl
         | |- context [match ?c with _ => _ end] => destruct c; simpl
         end.

Section LoadingFrames.
Context `{M : Math}.
Local Open Scope Q_scope.

Lemma updateDotExplode_flags dt x :
  LoadingScene.isComplete (LoadingScene.updateDotExplode dt x)
  = LoadingScene.isComplete x /\
  LoadingScene._blockLook (LoadingScene.updateDotExplode dt x)
  = LoadingScene._blockLook x /\
  (LoadingScene.phase (LoadingScene.updateDotExplode dt x) = LoadingScene.phase x \/
   LoadingScene.phase (LoadingScene.updateDotExplode dt x)
   = LoadingScene.textPulse).
Proof.
  destruct x. unfold LoadingScene.updateDotExplode, LoadingScene.style_welcomeEl.
  cbv zeta. simpl. code_cases; past_loops; auto.
Qed.

Lemma updateRingFade_flags dt x :
  LoadingScene.isComplete (LoadingScene.updateRingFade dt x)
  = LoadingScene.isComplete x /\
  LoadingScene._blockLook (LoadingScene.updateRingFade dt x)
  = LoadingScene._blockLook x /\
  (LoadingScene.phase (LoadingScene.updateRingFade dt x) = LoadingScene.phase x \/
   LoadingScene.phase (LoadingScene.updateRingFade dt x)
   = LoadingScene.dotExplode).
Proof.
  destruct x. unfold LoadingScene.updateRingFade. cbv zeta. simpl.
  code_cases; auto.
Qed.

Lemma updateTextPulse_flags dt x w :
  let r := LoadingScene.updateTextPulse dt x w in
  LoadingScene.isComplete r.1 = LoadingScene.isComplete x /\
  LoadingScene._blockLook r.1 = LoadingScene._blockLook x /\
  ((LoadingScene.phase r.1 = LoadingScene.phase x /\ r.2 = w) \/
   (LoadingScene.phase r.1 = LoadingScene.exitBurst /\
    r.2 = LoadingScene.playWhoosh w)).
Proof.
  destruct x. unfold LoadingScene.updateTextPulse, LoadingScene.style_welcomeEl.
  cbv zeta. simpl. code_cases; auto.
Qed.

Lemma updateExitBurst_flags dt x w :
  let r := state_of (LoadingScene.updateExitBurst dt x w) in
  LoadingScene.phase r.1 = LoadingScene.phase x /\
  ((LoadingScene.isComplete r.1 = LoadingScene.isComplete x /\
    LoadingScene._blockLook r.1 = LoadingScene._blockLook x /\ r.2 = w) \/
   (LoadingScene.isComplete r.1 = true /\
    LoadingScene._blockLook r.1 = false /\ r.2 = handed_over w)).
Proof.
  destruct x. unfold LoadingScene.updateExitBurst, LoadingScene.style_welcomeEl,
    LoadingScene.enableControls.
  cbv zeta. simpl. code_cases; past_loops; auto.
Qed.

(** What one frame does to the phase, to the completion flag and to the
    shared objects. *)
Lemma update_frame time delta s w :
  LoadingScene.isComplete s = false ->
  let s' := (state_of (LoadingScene.update time delta s w)).1 in
  let w' := (state_of (LoadingScene.update time delta s w)).2 in
  (LoadingScene.phase s' = LoadingScene.phase s \/
   (phase_rank (LoadingScene.phase s') = S (phase_rank (LoadingScene.phase s)) /\
    LoadingScene.phase s <> LoadingScene.loading /\
    LoadingScene.phase s <> LoadingScene.exitBurst)) /\
  (LoadingScene.isComplete s' = true ->
   LoadingScene.phase s = LoadingScene.exitBurst) /\
  LoadingScene._blockLook s'
  = (if LoadingScene.isComplete s' then false else LoadingScene._blockLook s) /\
  w' = (if LoadingScene.isComplete s' then handed_over w
        else if starts_exit (LoadingScene.phase s) (LoadingScene.phase s')
             then LoadingScene.playWhoosh w else w).
Proof.
  intros Hc. cbv zeta. rewrite update_running by exact Hc. cbv zeta.
  destruct (stepped_fields delta s)
    as (Hp & _ & Hc' & _ & _ & _ & _ & Hl & Hr).
  rewrite <- Hl. rewrite <- Hc' in Hc. revert Hp Hc.
  generalize (stepped delta s) as x. intros x Hp Hx.
  destruct (LoadingScene.phase s) eqn:Hphase; simpl state_of; cbn [fst snd].
  - unfold LoadingScene.updateLoading. simpl. rewrite Hx, Hp.
    repeat split; auto; discriminate.
  - destruct (updateRingFade_flags (delta * 0.001) x) as (-> & -> & [E | E]);
      rewrite E, Hx, ?Hp; repeat split; auto; try discriminate.
    all: try (right; repeat split; discriminate).
  - destruct (updateDotExplode_flags (delta * 0.001) x) as (-> & -> & [E | E]);
      rewrite E, Hx, ?Hp; repeat split; auto; try discriminate.
    all: try (right; repeat split; discriminate).
  - destruct (updateTextPulse_flags (delta * 0.001) x w)
      as (-> & -> & [[E ->] | [E ->]]);
      rewrite E, Hx, ?Hp; repeat split; auto; try discriminate.
    all: try (right; repeat split; discriminate).
  - destruct (updateExitBurst_flags (delta * 0.001) x w)
      as (-> & [(-> & -> & ->) | (-> & -> & ->)]);
      rewrite ?Hx, Hp; repeat split; auto.
  - rewrite Hx, Hp. repeat split; auto; discriminate.
Qed.

Lemma update_phase_step time delta s w :
  let s' := (state_of (LoadingScene.update time delta s w)).1 in
  LoadingScene.phase s' = LoadingScene.phase s \/
  (phase_rank (LoadingScene.phase s') = S (phase_rank (LoadingScene.phase s)) /\
   LoadingScene.phase s <> LoadingScene.loading /\
   LoadingScene.phase s <> LoadingScene.exitBurst).
Proof.
  cbv zeta. destruct (LoadingScene.isComplete s) eqn:Hc.
  - rewrite update_complete by exact Hc. by left.
  - apply (update_frame time delta s w Hc).
Qed.

Lemma frames_phase_rank ticks :
  forall s w,
    (phase_rank (LoadingScene.phase s)
     <= phase_rank (LoadingScene.phase (LoadingScene.frames ticks s w).1))%nat /\
    (LoadingScene.phase s = LoadingScene.loading ->
     LoadingScene.phase (LoadingScene.frames ticks s w).1 = LoadingScene.loading).
Proof.
  induction ticks as [|[time delta] rest IH]; intros s w;
    [cbn; split; [lia | auto]|].
  rewrite LoadingScene_frames_cons.
  pose proof (update_phase_step time delta s w) as Hstep. cbv zeta in Hstep.
  destruct (IH (state_of (LoadingScene.update time delta s w)).1
               (state_of (LoadingScene.update time delta s w)).2) as [Hle Hload].
  destruct Hstep as [E | (E & Hn & _)].
  - rewrite E in Hle, Hload. split; assumption.
  - split; [lia|]. intros Hl. contradiction.
Qed.

(** X10: the phases of the loading scene run in their order. A frame
    keeps the phase or moves it to the next one, never further and never
    back; [update] never leaves the phase [loading], which only the loader
    ends, and never leaves [exitBurst], the last phase: the phase [done] is
    never entered. So over any frames the phase only moves forward. *)
Theorem phase_advances_in_order :
  (forall time delta s w,
     let s' := (state_of (LoadingScene.update time delta s w)).1 in
     (LoadingScene.phase s' = LoadingScene.phase s \/
      phase_rank (LoadingScene.phase s')
      = S (phase_rank (LoadingScene.phase s))) /\
     (LoadingScene.phase s = LoadingScene.loading ->
      LoadingScene.phase s' = LoadingScene.loading) /\
     (LoadingScene.phase s = LoadingScene.exitBurst ->
      LoadingScene.phase s' = LoadingScene.exitBurst) /\
     (LoadingScene.phase s' = LoadingScene.done ->
      LoadingScene.phase s = LoadingScene.done)) /\
  (forall ticks s w,
     (phase_rank (LoadingScene.phase s)
      <= phase_rank (LoadingScene.phase (LoadingScene.frames ticks s w).1))%nat /\
     (LoadingScene.phase s = LoadingScene.loading ->
      LoadingScene.phase (LoadingScene.frames ticks s w).1
      = LoadingScene.loading) /\
     (LoadingScene.phase (LoadingScene.frames ticks s w).1 = LoadingScene.done ->
      LoadingScene.phase s = LoadingScene.done)).
Proof.
  assert (Hone : forall time delta s w,
    let s' := (state_of (LoadingScene.update time delta s w)).1 in
    LoadingScene.phase s' = LoadingScene.done ->
    LoadingScene.phase s = LoadingScene.done).
  { intros time delta s w s' Hd.
    destruct (update_phase_step time delta s w) as [E | (E & _ & Hn)];
      fold s' in E; rewrite Hd in E; [congruence|].
    destruct (LoadingScene.phase s); try discriminate; congruence. }
  split.
  - intros time delta s w s'.
    pose proof (update_phase_step time delta s w) as Hstep. fold s' in Hstep.
    split; [destruct Hstep as [E | (E & _)]; auto|].
    split; [|split].
    + intros Hl. destruct Hstep as [E | (_ & Hn & _)]; congruence.
    + intros Hl. destruct Hstep as [E | (_ & _ & Hn)]; congruence.
    + apply Hone.
  - intros ticks s w. destruct (frames_phase_rank ticks s w) as [Hle Hload].
    split; [exact Hle|]. split; [exact Hload|].
    revert s w Hle Hload.
    induction ticks as [|[time delta] rest IH]; intros s w _ _ Hd; [exact Hd|].
    rewrite LoadingScene_frames_cons in Hd.
    apply (Hone time delta s w).
    apply (IH _ _ (proj1 (frames_phase_rank rest _ _))
                 (proj2 (frames_phase_rank rest _ _)) Hd).
Qed.

(** *** The hand-over *)

Lemma playWhoosh_rest w :
  globalState (LoadingScene.playWhoosh w) = globalState w /\
  browser (LoadingScene.playWhoosh w) = browser w /\
  cameraZ (LoadingScene.playWhoosh w) = cameraZ w.
Proof.
  unfold LoadingScene.playWhoosh.
  destruct (negb _); repeat split.
Qed.

Lemma frames_hand_over ticks :
  forall s w,
    LoadingScene.isComplete s = false ->
    let s' := (LoadingScene.frames ticks s w).1 in
    let w' := (LoadingScene.frames ticks s w).2 in
    cameraZ w' = cameraZ w /\
    if LoadingScene.isComplete s'
    then globalState w' = GlobalState.setCanProgress true (globalState w) /\
         browser w' = set_arrows_display EmptyString (browser w) /\
         LoadingScene._blockLook s' = false
    else globalState w' = globalState w /\ browser w' = browser w /\
         LoadingScene._blockLook s' = LoadingScene._blockLook s.
Proof.
  induction ticks as [|[time delta] rest IH]; intros s w Hc.
  { cbn. rewrite Hc. auto. }
  cbv zeta. rewrite LoadingScene_frames_cons.
  destruct (update_frame time delta s w Hc) as (_ & _ & Hlook & Hw).
  cbv zeta in Hlook, Hw.
  set (s1 := (state_of (LoadingScene.update time delta s w)).1) in *.
  set (w1 := (state_of (LoadingScene.update time delta s w)).2) in *.
  destruct (LoadingScene.isComplete s1) eqn:Hc1.
  - rewrite frames_complete by exact Hc1. cbn [fst snd]. rewrite Hc1, Hw, Hlook.
    repeat split.
  - specialize (IH s1 w1 Hc1). cbv zeta in IH. destruct IH as [Hcam IH].
    assert (Hrest : globalState w1 = globalState w /\ browser w1 = browser w /\
                    cameraZ w1 = cameraZ w).
    { rewrite Hw. destruct (starts_exit _ _); [apply playWhoosh_rest | auto]. }
    destruct Hrest as (Hg & Hb & Hz). rewrite Hcam, Hz. split; [reflexivity|].
    destruct (LoadingScene.isComplete (LoadingScene.frames rest s1 w1).1);
      rewrite <- Hg, <- Hb, <- ?Hlook; exact IH.
Qed.

(** X11: the loading scene hands over exactly when it completes. From a
    scene that is not complete, over any frames: as long as the scene is
    not complete, the progress store and the document are as they were and
    the look stays as it was; once it is complete, the advance flag of
    the store is set, the inline display of every arrow button is cleared
    and the look is unblocked, and nothing else of the store or of the
    document has changed. The camera is never moved. *)
Theorem loading_scene_hands_over (ticks : list (Q * Q)) (s : LoadingScene.t)
    (w : World) :
  LoadingScene.isComplete s = false ->
  let s' := (LoadingScene.frames ticks s w).1 in
  let w' := (LoadingScene.frames ticks s w).2 in
  cameraZ w' = cameraZ w /\
  (LoadingScene.isComplete s' = false ->
     globalState w' = globalState w /\ browser w' = browser w /\
     LoadingScene._blockLook s' = LoadingScene._blockLook s) /\
  (LoadingScene.isComplete s' = true ->
     globalState w' = GlobalState.setCanProgress true (globalState w) /\
     browser w' = set_arrows_display EmptyString (browser w) /\
     LoadingScene._blockLook s' = false).
Proof.
  intros Hc s' w'. destruct (frames_hand_over ticks s w Hc) as [Hcam H].
  fold s' w' in Hcam, H. split; [exact Hcam|].
  destruct (LoadingScene.isComplete s'); split; intros E;
    first [discriminate | exact H].
Qed.

(** *** The whoosh *)

Lemma playWhoosh_audio w :
  audio_rest (audioManager (LoadingScene.playWhoosh w))
  = audio_rest (audioManager w) /\
  AudioManager.started (audioManager (LoadingScene.playWhoosh w))
  = AudioManager.started (audioManager w)
    ++ (if AudioManager.initialized (audioManager w)
        then [AudioManager.Whoosh] else []).
Proof.
  unfold LoadingScene.playWhoosh.
  destruct (AudioManager.initialized (audioManager w)) eqn:E; cbn.
  - split; reflexivity.
  - rewrite app_nil_r. split; reflexivity.
Qed.

(** After the text pulse no frame touches the audio manager. *)
Lemma frames_silent ticks :
  forall s w,
    (LoadingScene.isComplete s = true \/
     4 <= phase_rank (LoadingScene.phase s))%nat ->
    audioManager (LoadingScene.frames ticks s w).2 = audioManager w.
Proof.
  induction ticks as [|[time delta] rest IH]; intros s w Hs; [reflexivity|].
  destruct (LoadingScene.isComplete s) eqn:Hc.
  { rewrite frames_complete by exact Hc. reflexivity. }
  destruct Hs as [Hs | Hs]; [discriminate|].
  rewrite LoadingScene_frames_cons.
  destruct (update_frame time delta s w Hc) as (Hstep & _ & _ & Hw).
  cbv zeta in Hstep, Hw.
  set (s1 := (state_of (LoadingScene.update time delta s w)).1) in *.
  set (w1 := (state_of (LoadingScene.update time delta s w)).2) in *.
  rewrite (IH s1 w1).
  - rewrite Hw. destruct (LoadingScene.isComplete s1); [reflexivity|].
    destruct (LoadingScene.phase s); cbn in Hs; try lia; reflexivity.
  - right. destruct Hstep as [E | (E & _)]; rewrite E; lia.
Qed.

Lemma frames_whoosh ticks :
  forall s w,
    exists n : nat,
      (n <= 1)%nat /\
      audio_rest (audioManager (LoadingScene.frames ticks s w).2)
      = audio_rest (audioManager w) /\
      AudioManager.started (audioManager (LoadingScene.frames ticks s w).2)
      = AudioManager.started (audioManager w)
        ++ replicate n AudioManager.Whoosh /\
      (n = 1%nat ->
       AudioManager.initialized (audioManager w) = true /\
       LoadingScene.isComplete s = false /\
       (phase_rank (LoadingScene.phase s) <= 3)%nat /\
       (4 <= phase_rank (LoadingScene.phase (LoadingScene.frames ticks s w).1))%nat).
Proof.
  induction ticks as [|[time delta] rest IH]; intros s w.
  { exists 0%nat. cbn. rewrite app_nil_r. repeat split; auto; lia. }
  destruct (LoadingScene.isComplete s) eqn:Hc.
  { exists 0%nat. rewrite frames_complete by exact Hc. cbn.
    rewrite app_nil_r. repeat split; auto; lia. }
  rewrite LoadingScene_frames_cons.
  destruct (update_frame time delta s w Hc) as (Hstep & _ & _ & Hw).
  cbv zeta in Hstep, Hw.
  set (s1 := (state_of (LoadingScene.update time delta s w)).1) in *.
  set (w1 := (state_of (LoadingScene.update time delta s w)).2) in *.
  clearbody s1 w1.
  destruct (LoadingScene.isComplete s1) eqn:Hc1.
  { exists 0%nat. rewrite frames_complete by exact Hc1. cbn [snd].
    rewrite Hw. cbn. rewrite app_nil_r. repeat split; auto; lia. }
  destruct (starts_exit (LoadingScene.phase s) (LoadingScene.phase s1)) eqn:Hexit.
  - (* the whoosh is played on this frame *)
    assert (Hp : LoadingScene.phase s = LoadingScene.textPulse /\
                 LoadingScene.phase s1 = LoadingScene.exitBurst).
    { destruct (LoadingScene.phase s), (LoadingScene.phase s1);
        try discriminate; auto. }
    destruct Hp as [Hp Hp1].
    rewrite (frames_silent rest s1 w1) by (right; rewrite Hp1; cbn; lia).
    rewrite Hw. destruct (playWhoosh_audio w) as [-> ->].
    destruct (AudioManager.initialized (audioManager w)) eqn:Hi.
    + exists 1%nat. split; [lia|]. split; [reflexivity|].
      split; [reflexivity|]. intros _. rewrite Hp.
      repeat split; try (cbn; lia).
      eapply Nat.le_trans; [|apply frames_phase_rank].
      rewrite Hp1. cbn. lia.
    + exists 0%nat. split; [lia|]. split; [reflexivity|].
      split; [reflexivity|]. intros; lia.
  - subst w1. destruct (IH s1 w) as (n & Hn & Hrest & Hst & Hone).
    exists n. split; [exact Hn|].
    split; [exact Hrest|]. split; [exact Hst|].
    intros E. destruct (Hone E) as (Hi & _ & Hr1 & Hr). split; [exact Hi|].
    split; [reflexivity|]. split; [|exact Hr].
    destruct Hstep as [E1 | (E1 & _)]; rewrite E1 in Hr1; lia.
Qed.

(** X12: the whoosh sounds at most once for a scene. Over any frames
    the loading scene starts at most one whoosh and writes nothing else
    of the audio manager; one is started only from a scene that has not
    passed the text pulse, when the audio context is initialised, and then
    the scene is in its exit burst or past it; a scene that is complete
    or in its exit burst starts none. The frame that leaves the text pulse
    starts the whoosh whenever the context is initialised: the mute
    setting is not consulted. *)
Theorem whoosh_at_most_once (ticks : list (Q * Q)) (s : LoadingScene.t)
    (w : World) :
  let s' := (LoadingScene.frames ticks s w).1 in
  let a := audioManager w in
  let a' := audioManager (LoadingScene.frames ticks s w).2 in
  (exists n : nat,
     (n <= 1)%nat /\
     audio_rest a' = audio_rest a /\
     AudioManager.started a'
     = AudioManager.started a ++ replicate n AudioManager.Whoosh /\
     (n = 1%nat ->
      AudioManager.initialized a = true /\
      LoadingScene.isComplete s = false /\
      (phase_rank (LoadingScene.phase s) <= 3)%nat /\
      (4 <= phase_rank (LoadingScene.phase s'))%nat)) /\
  ((LoadingScene.isComplete s = true \/
    4 <= phase_rank (LoadingScene.phase s))%nat -> a' = a) /\
  (forall time delta,
     LoadingScene.isComplete s = false ->
     LoadingScene.phase s = LoadingScene.textPulse ->
     LoadingScene.phase (state_of (LoadingScene.update time delta s w)).1
     = LoadingScene.exitBurst ->
     AudioManager.initialized a = true ->
     AudioManager.started
       (audioManager (state_of (LoadingScene.update time delta s w)).2)
     = AudioManager.started a ++ [AudioManager.Whoosh]).
Proof.
  intros s' a a'. split; [apply frames_whoosh|]. split.
  - apply frames_silent.
  - intros time delta Hc Hp Hp' Hi.
    destruct (update_frame time delta s w Hc) as (_ & Hdone & _ & Hw).
    cbv zeta in Hdone, Hw. rewrite Hw.
    destruct (LoadingScene.isComplete
                (state_of (LoadingScene.update time delta s w)).1) eqn:Hc1.
    { specialize (Hdone eq_refl). congruence. }
    rewrite Hp, Hp'. cbn [starts_exit].
    destruct (playWhoosh_audio w) as [_ ->]. fold a. rewrite Hi. reflexivity.
Qed.

End LoadingFrames.

Lemma phase_advances_in_order_witness :
  let s := scene_in LoadingScene.ringFade 0.29 0.4 in
  let w := fresh_world (document None) in
  LoadingScene.phase
    (LoadingScene.frames (M := PolynomialMath)
       [(2000%Q, 16%Q); (2016%Q, 16%Q)] s w).1 <> LoadingScene.done /\
  LoadingScene.phase
    (state_of (LoadingScene.update (M := PolynomialMath) 0 16
                 (scene_in LoadingScene.loading 0 0) w)).1
  = LoadingScene.loading.
Proof.
  intros s w.
  destruct (phase_advances_in_order (M := PolynomialMath)) as [Hone Hmany].
  split.
  - intros Hd.
    destruct (Hmany [(2000%Q, 16%Q); (2016%Q, 16%Q)] s w) as (_ & _ & H).
    discriminate (H Hd).
  - apply (Hone 0%Q 16%Q (scene_in LoadingScene.loading 0 0) w). reflexivity.
Defined.

Lemma loading_scene_hands_over_witness :
  let s := scene_in LoadingScene.exitBurst 0.69 5 in
  let w := fresh_world (document None) in
  let ticks := [(7000%Q, 16%Q); (7016%Q, 16%Q)] in
  GlobalState.canProgress
    (globalState (LoadingScene.frames (M := PolynomialMath) ticks s w).2) = true /\
  browser (LoadingScene.frames (M := PolynomialMath) [] s w).2 = browser w.
Proof.
  intros s w ticks.
  destruct (loading_scene_hands_over (M := PolynomialMath) ticks s w eq_refl)
    as (_ & _ & Hdone).
  destruct (loading_scene_hands_over (M := PolynomialMath) [] s w eq_refl)
    as (_ & Hrun & _).
  split.
  - destruct (Hdone eq_refl) as (-> & _). reflexivity.
  - apply Hrun. reflexivity.
Defined.

Lemma whoosh_at_most_once_witness :
  let s := scene_in LoadingScene.textPulse 1.2 0.464 in
  let w := fresh_world (document None)
             <| audioManager :=
                  AudioManager.new <| AudioManager.initialized := true |>
                                   <| AudioManager.isMuted := true |> |> in
  AudioManager.started
    (audioManager
       (state_of (LoadingScene.update (M := PolynomialMath) 5000 16 s w)).2)
  = [AudioManager.Whoosh] /\
  audioManager
    (LoadingScene.frames (M := PolynomialMath) [(5000%Q, 16%Q)]
       (scene_in LoadingScene.exitBurst 0 0) w).2 = audioManager w.
Proof.
  intros s w.
  destruct (whoosh_at_most_once (M := PolynomialMath) [] s w)
    as (_ & _ & Hplay).
  destruct (whoosh_at_most_once (M := PolynomialMath) [(5000%Q, 16%Q)]
              (scene_in LoadingScene.exitBurst 0 0) w)
    as (_ & Hsilent & _).
  split.
  - apply (Hplay 5000%Q 16%Q); reflexivity.
  - apply Hsilent. right. cbn. lia.
Defined.

(** ** Rounding to a binary format *)

Section Rounding.
Local Open Scope Q_scope.

Lemma two_not_0 : ~ 2 == 0.
Proof. intros H. vm_compute in H. discriminate H. Qed.

Lemma pow2_pos e : 0 < pow2 e.
Proof. apply Qpower_0_lt. reflexivity. Qed.

Lemma pow2_plus a b : pow2 (a + b) == pow2 a * pow2 b.
Proof. apply Qpower_plus, two_not_0. Qed.

Lemma pow2_le a b : (a <= b)%Z -> pow2 a <= pow2 b.
Proof. intros H. apply Qpower_le_compat_l; [exact H | discriminate]. Qed.

Lemma pow2_Z e : (0 <= e)%Z -> pow2 e == inject_Z (2 ^ e).
Proof. intros H. symmetry. exact (Zpower_Qpower 2 e H). Qed.

(** [binade] finds the power of two below a positive number. *)
Lemma binade_spec x :
  0 < x -> pow2 (binade x) <= x /\ x < pow2 (binade x + 1).
Proof.
  intros Hx. destruct x as [n d]. unfold binade. cbn [Qnum Qden].
  assert (Hn : (0 < n)%Z) by (unfold Qlt in Hx; cbn in Hx; lia).
  set (a := Z.log2 n). set (b := Z.log2 (Z.pos d)).
  destruct (Z.log2_spec n Hn) as [Ha1 Ha2].
  destruct (Z.log2_spec (Z.pos d) ltac:(lia)) as [Hb1 Hb2].
  fold a in Ha1, Ha2. fold b in Hb1, Hb2.
  assert (Ha0 : (0 <= a)%Z) by apply Z.log2_nonneg.
  assert (Hb0 : (0 <= b)%Z) by apply Z.log2_nonneg.
  set (x := n # d) in *.
  assert (HxD : x * inject_Z (Z.pos d) == inject_Z n).
  { unfold x, Qeq. cbn. rewrite Pos.mul_1_r. ring. }
  assert (HD : 0 < inject_Z (Z.pos d)) by reflexivity.
  assert (HNl : pow2 a <= inject_Z n)
    by (rewrite pow2_Z by lia; rewrite <- Zle_Qle; exact Ha1).
  assert (HNu : inject_Z n < pow2 (a + 1))
    by (rewrite pow2_Z by lia; rewrite <- Zlt_Qlt; exact Ha2).
  assert (HDl : pow2 b <= inject_Z (Z.pos d))
    by (rewrite pow2_Z by lia; rewrite <- Zle_Qle; exact Hb1).
  assert (HDu : inject_Z (Z.pos d) < pow2 (b + 1))
    by (rewrite pow2_Z by lia; rewrite <- Zlt_Qlt; exact Hb2).
  (* x lies between 2^(a-b-1) and 2^(a-b+1) *)
  assert (Hlow : pow2 (a - b - 1) <= x).
  { apply (Qmult_le_r _ _ (pow2 (b + 1))); [apply pow2_pos|].
    rewrite <- pow2_plus. replace (a - b - 1 + (b + 1))%Z with a by lia.
    eapply Qle_trans; [exact HNl|]. rewrite <- HxD.
    apply Qmult_le_l; [exact Hx | apply Qlt_le_weak, HDu]. }
  assert (Hup : x < pow2 (a - b + 1)).
  { apply (Qmult_lt_r _ _ (pow2 b)); [apply pow2_pos|].
    rewrite <- pow2_plus. replace (a - b + 1 + b)%Z with (a + 1)%Z by lia.
    eapply Qle_lt_trans; [|exact HNu]. rewrite <- HxD.
    apply Qmult_le_l; [exact Hx | exact HDl]. }
  destruct (Qle_bool (pow2 (a - b)) x) eqn:E.
  - apply Qle_bool_iff in E. split; [exact E | exact Hup].
  - split; [exact Hlow|].
    replace (a - b - 1 + 1)%Z with (a - b)%Z by lia.
    apply Qnot_le_lt. intros H. apply Qle_bool_iff in H. congruence.
Qed.

Lemma binade_le x y : 0 < x -> x <= y -> (binade x <= binade y)%Z.
Proof.
  intros Hx Hxy. destruct (binade_spec x Hx) as [Hl _].
  destruct (binade_spec y ltac:(lra)) as [_ Hu].
  destruct (Z_le_gt_dec (binade x) (binade y)) as [H | H]; [exact H|].
  exfalso.
  assert (pow2 (binade y + 1) <= pow2 (binade x)) by (apply pow2_le; lia).
  lra.
Qed.

(** [round_half_even] is between the floor and the floor plus one, keeps
    the integers, and is monotone. *)
Lemma round_half_even_bounds x :
  (Qfloor x <= round_half_even x <= Qfloor x + 1)%Z.
Proof.
  unfold round_half_even.
  destruct (_ ?= _); [destruct (Z.even _)|..]; lia.
Qed.

Lemma round_half_even_ge x n :
  inject_Z n <= x -> (n <= round_half_even x)%Z.
Proof.
  intros H. apply Qfloor_resp_le in H. rewrite Qfloor_Z in H.
  pose proof (round_half_even_bounds x). lia.
Qed.

Lemma round_half_even_le x n :
  x <= inject_Z n -> (round_half_even x <= n)%Z.
Proof.
  intros H. pose proof (Qfloor_resp_le _ _ H) as Hf. rewrite Qfloor_Z in Hf.
  destruct (Z.eq_dec (Qfloor x) n) as [E | E];
    [|pose proof (round_half_even_bounds x); lia].
  unfold round_half_even.
  assert (Hfrac : x - inject_Z (Qfloor x) == 0).
  { pose proof (Qfloor_le x) as Hl. rewrite E in *. lra. }
  assert (C : (x - inject_Z (Qfloor x) ?= 1 # 2) = Lt)
    by (apply (proj1 (Qlt_alt _ _)); rewrite Hfrac; reflexivity).
  rewrite C. lia.
Qed.

Lemma round_half_even_mono x y :
  x <= y -> (round_half_even x <= round_half_even y)%Z.
Proof.
  intros H. pose proof (Qfloor_resp_le _ _ H) as Hf.
  destruct (Z.eq_dec (Qfloor x) (Qfloor y)) as [E | E].
  2: { pose proof (round_half_even_bounds x).
       pose proof (round_half_even_bounds y). lia. }
  unfold round_half_even. rewrite E. set (f := Qfloor y).
  assert (Hfr : x - inject_Z f <= y - inject_Z f) by lra.
  destruct (y - inject_Z f ?= 1 # 2) eqn:Cy.
  - apply Qeq_alt in Cy. destruct (x - inject_Z f ?= 1 # 2) eqn:Cx.
    + lia.
    + destruct (Z.even f); lia.
    + apply Qgt_alt in Cx. lra.
  - apply Qlt_alt in Cy.
    assert (Cx : (x - inject_Z f ?= 1 # 2) = Lt) by (apply (proj1 (Qlt_alt _ _)); lra).
    rewrite Cx. lia.
  - destruct (x - inject_Z f ?= 1 # 2); [destruct (Z.even f)|..]; lia.
Qed.

Variables prec emin : Z.
Hypothesis Hprec : (1 <= prec)%Z.

Lemma round_binary_pos x :
  0 < x ->
  round_binary prec emin x
  = inject_Z (round_half_even
                (x / pow2 (Z.max (binade x) emin - prec + 1)))
    * pow2 (Z.max (binade x) emin - prec + 1).
Proof.
  intros Hx. unfold round_binary. destruct x as [n d].
  assert (Hn : (0 < n)%Z) by (unfold Qlt in Hx; cbn in Hx; lia).
  assert (E : Qabs (n # d) = n # d)
    by (cbn; rewrite Z.abs_eq by lia; reflexivity).
  rewrite E. cbn [Qnum]. rewrite Z.sgn_pos by exact Hn.
  rewrite Z.mul_1_l. reflexivity.
Qed.

Lemma round_binary_mono_pos x y :
  0 < x -> x <= y -> round_binary prec emin x <= round_binary prec emin y.
Proof.
  intros Hx Hxy. assert (Hy : 0 < y) by lra.
  rewrite !round_binary_pos by assumption.
  pose proof (binade_le x y Hx Hxy) as Hb.
  destruct (binade_spec x Hx) as [_ Hux].
  destruct (binade_spec y Hy) as [Hly _].
  set (ex := Z.max (binade x) emin) in *.
  set (ey := Z.max (binade y) emin) in *.
  assert (Hexy : (ex <= ey)%Z) by lia.
  destruct (Z.eq_dec ex ey) as [E | E].
  - rewrite E. apply Qmult_le_compat_r; [|apply Qlt_le_weak, pow2_pos].
    rewrite <- Zle_Qle. apply round_half_even_mono.
    unfold Qdiv. apply Qmult_le_compat_r; [exact Hxy|].
    apply Qinv_le_0_compat, Qlt_le_weak, pow2_pos.
  - assert (Hey : ey = binade y) by lia.
    assert (Hrx : inject_Z (round_half_even (x / pow2 (ex - prec + 1)))
                  * pow2 (ex - prec + 1) <= pow2 (ex + 1)).
    { assert (Hm : (round_half_even (x / pow2 (ex - prec + 1)) <= 2 ^ prec)%Z).
      { apply round_half_even_le. rewrite <- pow2_Z by lia.
        apply Qle_shift_div_r; [apply pow2_pos|]. rewrite <- pow2_plus.
        replace (prec + (ex - prec + 1))%Z with (ex + 1)%Z by lia.
        apply Qlt_le_weak. eapply Qlt_le_trans; [exact Hux|].
        apply pow2_le. lia. }
      rewrite Zle_Qle in Hm. rewrite <- pow2_Z in Hm by lia.
      replace (ex + 1)%Z with (prec + (ex - prec + 1))%Z by lia.
      rewrite (pow2_plus prec (ex - prec + 1)).
      apply Qmult_le_compat_r; [exact Hm | apply Qlt_le_weak, pow2_pos]. }
    assert (Hry : pow2 ey
                  <= inject_Z (round_half_even (y / pow2 (ey - prec + 1)))
                     * pow2 (ey - prec + 1)).
    { assert (Hm : (2 ^ (prec - 1) <= round_half_even (y / pow2 (ey - prec + 1)))%Z).
      { apply round_half_even_ge. rewrite <- pow2_Z by lia.
        apply Qle_shift_div_l; [apply pow2_pos|]. rewrite <- pow2_plus.
        replace (prec - 1 + (ey - prec + 1))%Z with ey by lia.
        rewrite Hey. exact Hly. }
      rewrite Zle_Qle in Hm. rewrite <- pow2_Z in Hm by lia.
      replace ey with (prec - 1 + (ey - prec + 1))%Z at 1 by lia.
      rewrite (pow2_plus (prec - 1) (ey - prec + 1)).
      apply Qmult_le_compat_r; [exact Hm | apply Qlt_le_weak, pow2_pos]. }
    eapply Qle_trans; [exact Hrx|]. eapply Qle_trans; [|exact Hry].
    apply pow2_le. lia.
Qed.

Lemma round_binary_nonneg x : 0 <= x -> 0 <= round_binary prec emin x.
Proof.
  intros Hx. unfold round_binary.
  apply Qmult_le_0_compat; [|apply Qlt_le_weak, pow2_pos].
  change 0 with (inject_Z 0). rewrite <- Zle_Qle.
  apply Z.mul_nonneg_nonneg.
  - apply Z.sgn_nonneg. destruct x as [n d]. unfold Qle in Hx. cbn in *. lia.
  - apply round_half_even_ge. change (inject_Z 0) with 0.
    apply Qle_shift_div_l; [apply pow2_pos|]. rewrite Qmult_0_l.
    apply Qabs_nonneg.
Qed.

Lemma round_binary_opp x :
  round_binary prec emin (- x) == - round_binary prec emin x.
Proof.
  unfold round_binary.
  assert (E : Qabs (- x) = Qabs x)
    by (destruct x as [n d]; cbn; by rewrite Z.abs_opp).
  assert (S : Z.sgn (Qnum (- x)) = (- Z.sgn (Qnum x))%Z)
    by (destruct x; cbn; apply Z.sgn_opp).
  rewrite E, S, Z.mul_opp_l, inject_Z_opp. ring.
Qed.

(** Rounding to nearest is monotone. *)
Lemma round_binary_mono x y :
  x <= y -> round_binary prec emin x <= round_binary prec emin y.
Proof.
  intros Hxy. destruct (Qlt_le_dec 0 x) as [Hx | Hx].
  - by apply round_binary_mono_pos.
  - destruct (Qlt_le_dec y 0) as [Hy | Hy].
    + assert (H : round_binary prec emin (- y) <= round_binary prec emin (- x))
        by (apply round_binary_mono_pos; lra).
      rewrite !round_binary_opp in H. lra.
    + assert (Hnx : 0 <= round_binary prec emin (- x))
        by (apply round_binary_nonneg; lra).
      rewrite round_binary_opp in Hnx.
      pose proof (round_binary_nonneg y Hy). lra.
Qed.

End Rounding.

Lemma fround_mono x y : (x <= y)%Q -> (fround x <= fround y)%Q.
Proof. apply round_binary_mono. lia. Qed.

(** The values of single precision next to 0.4, 1.7 and -0.3; one half is
    a number of the format. *)
Lemma fround_examples :
  (fround 0.4 == 13421773 # 33554432)%Q /\
  (fround 1.7 == 14260634 # 8388608)%Q /\
  (fround (-0.3) == - (10066330 # 33554432))%Q /\
  (fround 0.5 == 0.5)%Q.
Proof. vm_compute. repeat split. Qed.

(** ** The particles of the loading scene *)

Arguments for_loop : simpl never.

Lemma for_loop_S {S : Type} n (body : nat -> S -> S) (s : S) :
  for_loop (Datatypes.S n) body s = body n (for_loop n body s).
Proof.
  unfold for_loop. rewrite seq_S, foldl_app. reflexivity.
Qed.

(** A loop invariant that knows the number of the turn. *)
Lemma for_loop_ind {S : Type} (P : nat -> S -> Prop) n body (s : S) :
  P 0%nat s ->
  (forall i x, (i < n)%nat -> P i x -> P (Datatypes.S i) (body i x)) ->
  P n (for_loop n body s).
Proof.
  intros H0 Hstep. induction n as [|n IH]; [exact H0|].
  rewrite for_loop_S. apply Hstep; [lia|]. apply IH.
  intros i x Hi. apply Hstep. lia.
Qed.

Section Particles.
Context `{M : Math}.
Local Open Scope Q_scope.

(** X13: [orbitParticles] turns every particle by its own step, the
    particle number [i] by [speed + (i % 5) * speed * 0.12] where [speed]
    is [delta * 0.0004], and puts it on the circle of its radius at its
    height; what the arrays hold afterwards is rounded to single
    precision: the angle becomes [fround (angle + step)], and the position
    [(fround (cos a * r), fround h, fround (sin a * r))] for the stored
    angle [a]. Radii and heights are not written, no array changes its
    length, and the positions past the number of particles are left as
    they were. *)
Theorem orbitParticles_spec (delta : Q) (s : LoadingScene.t) :
  let s' := LoadingScene.orbitParticles delta s in
  let n := length (LoadingScene.particleAngles s) in
  LoadingScene.particleRadii s' = LoadingScene.particleRadii s /\
  LoadingScene.particleBaseRadii s' = LoadingScene.particleBaseRadii s /\
  LoadingScene.particleHeights s' = LoadingScene.particleHeights s /\
  length (LoadingScene.particleAngles s') = n /\
  length (LoadingScene.positions s') = length (LoadingScene.positions s) /\
  (forall i, (i < n)%nat ->
     LoadingScene.particleAngles s' !!! i
     = fround (LoadingScene.particleAngles s !!! i + orbit_step delta i) /\
     ((i < length (LoadingScene.positions s))%nat ->
      LoadingScene.positions s' !!! i
      = (fround (cos (LoadingScene.particleAngles s' !!! i)
                 * (LoadingScene.particleRadii s !!! i)),
         fround (LoadingScene.particleHeights s !!! i),
         fround (sin (LoadingScene.particleAngles s' !!! i)
                 * (LoadingScene.particleRadii s !!! i))))) /\
  (forall i, (n <= i)%nat ->
     LoadingScene.positions s' !! i = LoadingScene.positions s !! i).
Proof.
  intros s' n. unfold s', LoadingScene.orbitParticles. cbv zeta. fold n.
  set (body := fun (i : nat) (s : LoadingScene.t) => _).
  pose (P := fun (k : nat) (x : LoadingScene.t) =>
    LoadingScene.particleRadii x = LoadingScene.particleRadii s /\
    LoadingScene.particleBaseRadii x = LoadingScene.particleBaseRadii s /\
    LoadingScene.particleHeights x = LoadingScene.particleHeights s /\
    length (LoadingScene.particleAngles x) = n /\
    length (LoadingScene.positions x) = length (LoadingScene.positions s) /\
    (forall i, (i < k)%nat ->
       LoadingScene.particleAngles x !!! i
       = fround (LoadingScene.particleAngles s !!! i + orbit_step delta i) /\
       ((i < length (LoadingScene.positions s))%nat ->
        LoadingScene.positions x !!! i
        = (fround (cos (LoadingScene.particleAngles x !!! i)
                   * (LoadingScene.particleRadii s !!! i)),
           fround (LoadingScene.particleHeights s !!! i),
           fround (sin (LoadingScene.particleAngles x !!! i)
                   * (LoadingScene.particleRadii s !!! i))))) /\
    (forall i, (k <= i)%nat ->
       LoadingScene.particleAngles x !!! i = LoadingScene.particleAngles s !!! i /\
       LoadingScene.positions x !! i = LoadingScene.positions s !! i)).
  assert (H : P n (for_loop n body s)).
  { apply for_loop_ind.
    - unfold P. repeat split; auto; intros; lia.
    - intros k x Hk (Hr & Hb & Hh & Hla & Hlp & Hdone & Htodo).
      unfold P, body. destruct x. cbn in *. subst.
      split; [reflexivity|]. split; [reflexivity|]. split; [reflexivity|].
      split; [by rewrite length_insert|]. split; [by rewrite length_insert|].
      split.
      + intros i Hi. destruct (decide (i = k)) as [-> | Hne].
        * rewrite list_lookup_total_insert_eq by lia.
          rewrite (proj1 (Htodo k ltac:(lia))). split; [reflexivity|].
          intros Hpos. rewrite list_lookup_total_insert_eq by lia. reflexivity.
        * rewrite list_lookup_total_insert_ne by congruence.
          destruct (Hdone i ltac:(lia)) as [Ha Hp]. split; [exact Ha|].
          intros Hpos. rewrite list_lookup_total_insert_ne by congruence.
          apply Hp, Hpos.
      + intros i Hi. rewrite list_lookup_total_insert_ne by lia.
        rewrite list_lookup_insert_ne by lia. apply Htodo. lia. }
  destruct H as (Hr & Hb & Hh & Hla & Hlp & Hdone & Htodo).
  split; [exact Hr|]. split; [exact Hb|]. split; [exact Hh|].
  split; [exact Hla|]. split; [exact Hlp|]. split; [exact Hdone|].
  intros i Hi. apply (Htodo i Hi).
Qed.

(** *** The particles that the constructor makes *)

Lemma random_radius r :
  0 <= r < 1 -> fround 1.1 <= fround (1.1 + r * 0.6) <= fround 1.7.
Proof. intros [H0 H1]. split; apply fround_mono; lra. Qed.

Lemma random_height r :
  0 <= r < 1 -> fround (-0.3) <= fround ((r - 0.5) * 0.6) <= fround 0.3.
Proof. intros [H0 H1]. split; apply fround_mono; lra. Qed.

(** X14: [createParticles] makes 80 particles, evenly spread in angle.
    For the particle number [i], with the angle [i / 80 * PI * 2], the
    radius [1.1 + random * 0.6] and the height [(random - 0.5) * 0.6], the
    radius being drawn before the height, the arrays hold these numbers
    rounded to single precision, and the position
    [(cos angle * radius, height, sin angle * radius)] rounded likewise.
    With [Math.random()] in [0, 1) the stored radius is between the
    numbers of single precision next to 1.1 and 1.7, and the stored height
    between those next to -0.3 and 0.3, ends included; the base radii are
    the radii. *)
Theorem createParticles_spec (random : nat -> Q) (s : LoadingScene.t)
    (Hrandom : forall k, 0 <= random k < 1) :
  let s' := LoadingScene.createParticles random s in
  lengths s' = (80, 80, 80, 80, 80)%nat /\
  LoadingScene.particleBaseRadii s' = LoadingScene.particleRadii s' /\
  forall i, (i < 80)%nat ->
    let angle := inject_Z (Z.of_nat i) / inject_Z (Z.of_nat 80) * PI * 2 in
    let radius := 1.1 + random (2 * i)%nat * 0.6 in
    let height := (random (2 * i + 1)%nat - 0.5) * 0.6 in
    LoadingScene.particleAngles s' !!! i = fround angle /\
    LoadingScene.particleRadii s' !!! i = fround radius /\
    LoadingScene.particleHeights s' !!! i = fround height /\
    fround 1.1 <= LoadingScene.particleRadii s' !!! i <= fround 1.7 /\
    fround (-0.3) <= LoadingScene.particleHeights s' !!! i <= fround 0.3 /\
    LoadingScene.positions s' !!! i
    = (fround (cos angle * radius), fround height,
       fround (sin angle * radius)).
Proof.
  intros s'. unfold s', LoadingScene.createParticles. cbv zeta.
  set (body := fun (i : nat) (s : LoadingScene.t) => _).
  set (s0 := s <| LoadingScene.particleAngles := replicate 80 0 |>
               <| LoadingScene.particleRadii := replicate 80 0 |>
               <| LoadingScene.particleBaseRadii := replicate 80 0 |>
               <| LoadingScene.particleHeights := replicate 80 0 |>
               <| LoadingScene.positions := replicate 80 (0, 0, 0) |>).
  pose (P := fun (k : nat) (x : LoadingScene.t) =>
    lengths x = (80, 80, 80, 80, 80)%nat /\
    LoadingScene.particleBaseRadii x = LoadingScene.particleRadii x /\
    forall i, (i < k)%nat ->
      LoadingScene.particleAngles x !!! i
      = fround (inject_Z (Z.of_nat i) / inject_Z (Z.of_nat 80) * PI * 2) /\
      LoadingScene.particleRadii x !!! i
      = fround (1.1 + random (2 * i)%nat * 0.6) /\
      LoadingScene.particleHeights x !!! i
      = fround ((random (2 * i + 1)%nat - 0.5) * 0.6) /\
      LoadingScene.positions x !!! i
      = (fround (cos (inject_Z (Z.of_nat i) / inject_Z (Z.of_nat 80) * PI * 2)
                 * (1.1 + random (2 * i)%nat * 0.6)),
         fround ((random (2 * i + 1)%nat - 0.5) * 0.6),
         fround (sin (inject_Z (Z.of_nat i) / inject_Z (Z.of_nat 80) * PI * 2)
                 * (1.1 + random (2 * i)%nat * 0.6)))).
  assert (H : P 80%nat (for_loop 80 body s0)).
  { apply for_loop_ind.
    - unfold P, lengths, s0. cbn. rewrite ?length_replicate.
      split; [reflexivity|]. split; [reflexivity|]. intros; lia.
    - intros k x Hk (Hlen & Hbase & Hdone).
      unfold P, body, lengths in *. destruct x. cbn in *.
      injection Hlen as L1 L2 L3 L4 L5. subst.
      rewrite !length_insert. split; [congruence|]. split; [reflexivity|].
      intros i Hi. destruct (decide (i = k)) as [-> | Hne].
      + rewrite !list_lookup_total_insert_eq by lia. repeat split.
      + rewrite !list_lookup_total_insert_ne by congruence.
        apply Hdone. lia. }
  revert H. generalize (for_loop 80 body s0) as x. intros x (Hlen & Hbase & Hall).
  destruct x. unfold lengths in *. cbn in *.
  split; [exact Hlen|]. split; [exact Hbase|].
  intros i Hi. destruct (Hall i Hi) as (Ha & Hr & Hh & Hp).
  split; [exact Ha|]. split; [exact Hr|]. split; [exact Hh|].
  split; [rewrite Hr; apply random_radius, Hrandom|].
  split; [rewrite Hh; apply random_height, Hrandom|]. exact Hp.
Qed.

End Particles.

Lemma orbitParticles_spec_witness :
  let s := scene_in LoadingScene.loading 0 0 in
  LoadingScene.particleAngles
    (LoadingScene.orbitParticles (M := PolynomialMath) 1000 s) !!! 1%nat
  = fround (3 + orbit_step 1000 1) /\
  LoadingScene.positions
    (LoadingScene.orbitParticles (M := PolynomialMath) 1000 s) !! 2%nat = None.
Proof.
  intros s.
  destruct (orbitParticles_spec (M := PolynomialMath) 1000 s)
    as (_ & _ & _ & _ & _ & Hin & Hout).
  split.
  - apply (Hin 1%nat). simpl. lia.
  - rewrite (Hout 2%nat) by (simpl; lia). reflexivity.
Defined.

Lemma createParticles_spec_witness :
  let s := LoadingScene.createParticles (M := PolynomialMath)
             (fun _ => 0.5%Q) (scene_in LoadingScene.loading 0 0) in
  LoadingScene.particleRadii s !!! 7%nat = fround (1.1 + 0.5 * 0.6) /\
  (LoadingScene.particleHeights s !!! 79%nat <= fround 0.3)%Q.
Proof.
  intros s.
  assert (Hrandom : forall k : nat, (0 <= (fun _ : nat => 0.5) k < 1)%Q)
    by (intros k; vm_compute; split; [discriminate | reflexivity]).
  destruct (createParticles_spec (M := PolynomialMath) (fun _ => 0.5%Q)
              (scene_in LoadingScene.loading 0 0) Hrandom) as (_ & _ & Hall).
  split.
  - apply (Hall 7%nat). lia.
  - apply (Hall 79%nat). lia.
Defined.

(** ** The arrays of the loading scene stay in range *)

Arguments for_loop : simpl never.

Section ArrayBounds.
Context `{M : Math}.
Local Open Scope Q_scope.

Lemma loop_lengths n (body : nat -> LoadingScene.t -> LoadingScene.t) s :
  (forall i x, lengths (body i x) = lengths x) ->
  lengths (for_loop n body s) = lengths s.
Proof.
  intros Hbody.
  apply (for_loop_invariant (fun x => lengths x = lengths s)); [reflexivity|].
  intros i x Hx. rewrite Hbody. exact Hx.
Qed.

Lemma lengths_fields s s' :
  lengths s' = lengths s ->
  length (LoadingScene.particleAngles s') = length (LoadingScene.particleAngles s) /\
  length (LoadingScene.particleRadii s') = length (LoadingScene.particleRadii s) /\
  length (LoadingScene.particleBaseRadii s')
  = length (LoadingScene.particleBaseRadii s) /\
  length (LoadingScene.particleHeights s')
  = length (LoadingScene.particleHeights s) /\
  length (LoadingScene.positions s') = length (LoadingScene.positions s).
Proof. unfold lengths. intros H. injection H. auto. Qed.

Ltac len_body := intros; unfold lengths; simpl; rewrite ?length_insert; reflexivity.

Ltac len_loops :=
  repeat match goal with
         | |- context [length (LoadingScene.particleAngles (for_loop ?n ?body ?s))] =>
             rewrite (proj1 (lengths_fields _ _ (loop_lengths n body s ltac:(len_body))));
             simpl
         | |- context [length (LoadingScene.particleRadii (for_loop ?n ?body ?s))] =>
             rewrite (proj1 (proj2 (lengths_fields _ _
                        (loop_lengths n body s ltac:(len_body)))));
             simpl
         | |- context [length (LoadingScene.particleBaseRadii (for_loop ?n ?body ?s))] =>
             rewrite (proj1 (proj2 (proj2 (lengths_fields _ _
                        (loop_lengths n body s ltac:(len_body))))));
             simpl
         | |- context [length (LoadingScene.particleHeights (for_loop ?n ?body ?s))] =>
             rewrite (proj1 (proj2 (proj2 (proj2 (lengths_fields _ _
                        (loop_lengths n body s ltac:(len_body)))))));
             simpl
         | |- context [length (LoadingScene.positions (for_loop ?n ?body ?s))] =>
             rewrite (proj2 (proj2 (proj2 (proj2 (lengths_fields _ _
                        (loop_lengths n body s ltac:(len_body)))))));
             simpl
         end.

Lemma stepped_lengths delta s : lengths (stepped delta s) = lengths s.
Proof.
  unfold stepped.
  match goal with
  | |- lengths (LoadingScene.orbitParticles delta ?x) = _ =>
      destruct (orbitParticles_spec delta x) as (Hr & Hb & Hh & Hla & Hlp & _);
      change (lengths x) with (lengths s) in *;
      revert Hr Hb Hh Hla Hlp;
      generalize (LoadingScene.orbitParticles delta x) as y
  end.
  intros y Hr Hb Hh Hla Hlp. unfold lengths. simpl in *.
  rewrite Hr, Hb, Hh, Hla, Hlp. reflexivity.
Qed.

Lemma updateDotExplode_lengths dt x :
  lengths (LoadingScene.updateDotExplode dt x) = lengths x /\
  LoadingScene._exitStartRadii (LoadingScene.updateDotExplode dt x)
  = LoadingScene._exitStartRadii x.
Proof.
  destruct x. unfold LoadingScene.updateDotExplode, LoadingScene.style_welcomeEl.
  cbv zeta. simpl. code_cases; unfold lengths; simpl; past_loops; len_loops;
    split; reflexivity.
Qed.

Lemma updateExitBurst_lengths dt x w :
  lengths (state_of (LoadingScene.updateExitBurst dt x w)).1 = lengths x /\
  LoadingScene._exitStartRadii (state_of (LoadingScene.updateExitBurst dt x w)).1
  = LoadingScene._exitStartRadii x.
Proof.
  destruct x. unfold LoadingScene.updateExitBurst, LoadingScene.style_welcomeEl,
    LoadingScene.enableControls.
  cbv zeta. simpl. code_cases; unfold lengths; simpl; past_loops; len_loops;
    split; reflexivity.
Qed.

Lemma updateTextPulse_lengths dt x w :
  lengths (LoadingScene.updateTextPulse dt x w).1 = lengths x /\
  (LoadingScene._exitStartRadii (LoadingScene.updateTextPulse dt x w).1
   = LoadingScene._exitStartRadii x \/
   LoadingScene._exitStartRadii (LoadingScene.updateTextPulse dt x w).1
   = Some (LoadingScene.particleRadii x)).
Proof.
  destruct x. unfold LoadingScene.updateTextPulse, LoadingScene.style_welcomeEl.
  cbv zeta. simpl. code_cases; unfold lengths; simpl; auto.
Qed.

Lemma update_arrays time delta n s w :
  arrays_of_length n s ->
  arrays_of_length n (state_of (LoadingScene.update time delta s w)).1.
Proof.
  intros [Hlen Hexit]. destruct (LoadingScene.isComplete s) eqn:Hc.
  { rewrite update_complete by exact Hc. split; assumption. }
  rewrite update_running by exact Hc. cbv zeta.
  pose proof (stepped_lengths delta s) as Hl. rewrite Hlen in Hl.
  destruct (stepped_fields delta s) as (_ & _ & _ & _ & _ & _ & _ & _ & Hr).
  rewrite <- Hr in Hexit. clear Hr Hlen Hc.
  revert Hl Hexit. generalize (stepped delta s) as x. intros x Hl Hexit.
  unfold arrays_of_length.
  destruct (LoadingScene.phase s); simpl state_of; cbn [fst].
  - destruct x. unfold LoadingScene.updateLoading, lengths in *. simpl in *. auto.
  - destruct x. unfold LoadingScene.updateRingFade, lengths in *. cbv zeta.
    simpl in *. code_cases; auto.
  - destruct (updateDotExplode_lengths (delta * 0.001) x) as [-> ->]. auto.
  - destruct (updateTextPulse_lengths (delta * 0.001) x w) as [-> [-> | ->]];
      split; auto.
    intros r [= <-]. unfold lengths in Hl. congruence.
  - destruct (updateExitBurst_lengths (delta * 0.001) x w) as [-> ->]. auto.
  - auto.
Qed.

Lemma new_arrays random w :
  (forall k, 0 <= random k < 1) ->
  arrays_of_length 80 (LoadingScene.new random w).1.
Proof.
  intros Hrandom. unfold LoadingScene.new, LoadingScene.disableControls.
  cbn [fst].
  match goal with
  | |- context [LoadingScene.createParticles random ?s0] =>
      destruct (createParticles_spec random s0 Hrandom) as (Hlen & _);
      pose proof (control_fields _ _ (createParticles_control random s0))
        as (_ & _ & _ & _ & _ & _ & _ & _ & Hr);
      revert Hlen Hr; generalize (LoadingScene.createParticles random s0) as c
  end.
  intros c Hlen Hr. split; [exact Hlen|].
  simpl in *. rewrite Hr. discriminate.
Qed.

Lemma frames_arrays ticks :
  forall n s w, arrays_of_length n s ->
    arrays_of_length n (LoadingScene.frames ticks s w).1.
Proof.
  induction ticks as [|[time delta] rest IH]; intros n s w H; [exact H|].
  rewrite LoadingScene_frames_cons. apply IH, update_arrays, H.
Qed.

(** X15: no loop of the loading scene reads an array past its end. The
    five particle arrays of a scene keep their lengths through every
    frame, and the snapshot of the radii that the exit burst reads, once
    taken, has that length too. The arrays of a scene that the
    constructor made have 80 entries each, and still have after any
    frames. *)
Theorem particle_arrays_in_range :
  (forall ticks n s w,
     arrays_of_length n s ->
     arrays_of_length n (LoadingScene.frames ticks s w).1) /\
  (forall random w ticks,
     (forall k, 0 <= random k < 1) ->
     let s := LoadingScene.frames ticks (LoadingScene.new random w).1
                                        (LoadingScene.new random w).2 in
     lengths s.1 = (80, 80, 80, 80, 80)%nat /\
     forall r, LoadingScene._exitStartRadii s.1 = Some r -> length r = 80%nat).
Proof.
  split; [exact frames_arrays|].
  intros random w ticks Hrandom. apply frames_arrays, new_arrays, Hrandom.
Qed.

End ArrayBounds.

Lemma particle_arrays_in_range_witness :
  let s := scene_in LoadingScene.textPulse 1.2 0.464 in
  let w := fresh_world (document None) in
  let s' := (LoadingScene.frames (M := PolynomialMath)
               [(5000%Q, 16%Q); (5016%Q, 16%Q)] s w).1 in
  lengths s' = (2, 2, 2, 2, 2)%nat /\
  length (default [] (LoadingScene._exitStartRadii s')) = 2%nat.
Proof.
  intros s w s'.
  destruct (particle_arrays_in_range (M := PolynomialMath)) as [Hkeep _].
  destruct (Hkeep [(5000%Q, 16%Q); (5016%Q, 16%Q)] 2%nat s w) as [Hlen Hexit].
  - split; [reflexivity | discriminate].
  - split; [exact Hlen|]. apply (Hexit (default [] (LoadingScene._exitStartRadii s'))).
    reflexivity.
Defined.

(** ** The loader and the text pulse *)

Arguments for_loop : simpl never.

Lemma progress_below_one x d :
  (0 < d)%Q -> ((Qmin (x / d) 1 <? 1)%Q = true <-> (x < d)%Q).
Proof.
  intros Hd. rewrite Qltb_lt. split.
  - intros H. destruct (Qlt_le_dec x d) as [Hlt | Hge]; [exact Hlt|].
    exfalso. apply (Qlt_irrefl 1). eapply Qle_lt_trans; [|exact H].
    apply Q.min_glb; [|apply Qle_refl].
    apply Qle_shift_div_l; [exact Hd|]. rewrite Qmult_1_l. exact Hge.
  - intros H. eapply Qle_lt_trans; [apply Q.le_min_l|].
    apply Qlt_shift_div_r; [exact Hd|]. rewrite Qmult_1_l. exact H.
Qed.

Lemma progress_monotone x y d :
  (0 < d)%Q -> (x <= y)%Q -> (Qmin (x / d) 1 <= Qmin (y / d) 1)%Q.
Proof.
  intros Hd Hxy. apply Q.min_le_compat_r.
  unfold Qdiv. apply Qmult_le_compat_r; [exact Hxy|].
  apply Qlt_le_weak, Qinv_lt_0_compat, Hd.
Qed.

Section Loader.
Context `{M : Math}.
Local Open Scope Q_scope.
#[local] Arguments Qfloor : simpl never.

(** X16: one run of the loader. The progress is the elapsed share of
    the 1500 ms, capped at 1, and does not decrease when the clock does
    not; the copy in the progress store is clamped to [0, 1], and equals
    the scene's when the clock has not run backwards. The loader asks for
    another frame exactly while fewer than 1500 ms have passed, and then
    leaves the phase, its timer and the document alone; otherwise it ends
    the loading phase: the phase becomes [ringFade] with its timer at 0,
    and the hum, if it is playing, is scheduled to stop in 500 ms. *)
Theorem simulateLoading_tick_spec (startTime now : Q) (s : LoadingScene.t)
    (w : World) :
  let r := LoadingScene.simulateLoading_tick startTime now s w in
  let s' := r.2.1 in
  let w' := r.2.2 in
  let p := LoadingScene.loadingProgress s' in
  p = Qmin ((now - startTime) / 1500) 1 /\
  p <= 1 /\
  0 <= GlobalState.loadingProgress (globalState w') <= 1 /\
  (startTime <= now ->
     0 <= p /\ GlobalState.loadingProgress (globalState w') == p) /\
  (forall later,
     now <= later ->
     p <= LoadingScene.loadingProgress
            (LoadingScene.simulateLoading_tick startTime later s w).2.1) /\
  (r.1 = true <-> now - startTime < 1500) /\
  (now - startTime < 1500 ->
     LoadingScene.phase s' = LoadingScene.phase s /\
     LoadingScene.phaseTimer s' = LoadingScene.phaseTimer s /\
     browser w' = browser w /\ audioManager w' = audioManager w) /\
  (1500 <= now - startTime ->
     LoadingScene.phase s' = LoadingScene.ringFade /\
     LoadingScene.phaseTimer s' = 0 /\ p == 1 /\
     audioManager w' = audioManager w /\
     pendingTimers (browser w')
     = pendingTimers (browser w)
       ++ (if bool_decide (AudioManager.hum (audioManager w) = Some true)
           then [(500%Z, StopHum (AudioManager.currentHum (audioManager w)))]
           else [])).
Proof.
  intros r s' w' p.
  assert (Hd : 0 < LoadingScene.LOAD_DURATION_MS) by reflexivity.
  set (q := Qmin ((now - startTime) / LoadingScene.LOAD_DURATION_MS) 1).
  assert (Hp : p = q).
  { unfold p, s', r, LoadingScene.simulateLoading_tick. cbv zeta. fold q.
    destruct (q <? 1); reflexivity. }
  assert (Hg : GlobalState.loadingProgress (globalState w') = Qmax 0 (Qmin 1 q)).
  { unfold w', r, LoadingScene.simulateLoading_tick. cbv zeta. fold q.
    destruct (q <? 1); [reflexivity|].
    unfold on_audioManager, AudioManager.stopMechanicalHum. cbn.
    destruct (AudioManager.hum (audioManager w)) as [[]|]; reflexivity. }
  split; [exact Hp|]. split; [rewrite Hp; apply Q.le_min_r|].
  split; [rewrite Hg; apply clamp_unit|]. split.
  { intros Hnow.
    assert (H0 : 0 <= q).
    { apply Q.min_glb; [|discriminate].
      apply Qle_shift_div_l; [exact Hd|]. rewrite Qmult_0_l. lra. }
    rewrite Hp, Hg. split; [exact H0|].
    apply clamp_unit_id. split; [exact H0 | apply Q.le_min_r]. }
  split.
  { intros later Hlater. rewrite Hp.
    assert (E : LoadingScene.loadingProgress
                  (LoadingScene.simulateLoading_tick startTime later s w).2.1
                = Qmin ((later - startTime) / LoadingScene.LOAD_DURATION_MS) 1).
    { unfold LoadingScene.simulateLoading_tick. cbv zeta.
      destruct (_ <? 1); reflexivity. }
    rewrite E. apply progress_monotone; [exact Hd | lra]. }
  assert (Hask : r.1 = (q <? 1)).
  { unfold r, LoadingScene.simulateLoading_tick. cbv zeta. fold q.
    destruct (q <? 1); reflexivity. }
  split.
  { rewrite Hask. exact (progress_below_one (now - startTime) _ Hd). }
  split.
  { intros Hlt.
    pose proof (proj2 (progress_below_one (now - startTime) _ Hd) Hlt) as Hq.
    fold q in Hq.
    unfold s', w', r, LoadingScene.simulateLoading_tick. cbv zeta. fold q.
    rewrite Hq. repeat split. }
  { intros Hge.
    assert (Hq : (q <? 1) = false).
    { apply not_true_is_false. intros Hq.
      pose proof (proj1 (progress_below_one (now - startTime) _ Hd) Hq) as Hlt.
      apply (Qlt_irrefl 1500). eapply Qle_lt_trans; eassumption. }
    assert (H1 : p == 1).
    { rewrite Hp. apply Qle_antisym; [apply Q.le_min_r|].
      apply Qltb_ge. exact Hq. }
    unfold s', w', r, LoadingScene.simulateLoading_tick. cbv zeta. fold q.
    rewrite Hq. unfold on_audioManager, AudioManager.stopMechanicalHum. cbn.
    split; [reflexivity|]. split; [reflexivity|]. split; [exact H1|].
    destruct (AudioManager.hum (audioManager w)) as [[]|]; cbn;
      rewrite ?app_nil_r; split; reflexivity. }
Qed.

(** *** The text pulse *)



End Loader.

Lemma simulateLoading_tick_spec_witness :
  let s := scene_in LoadingScene.loading 0 0 in
  let w := fresh_world (document None) in
  (LoadingScene.simulateLoading_tick 1000 1600 s w).1 = true /\
  LoadingScene.phase (LoadingScene.simulateLoading_tick 1000 2500 s w).2.1
  = LoadingScene.ringFade /\
  (0 <= LoadingScene.loadingProgress
          (LoadingScene.simulateLoading_tick 1000 1600 s w).2.1)%Q.
Proof.
  intros s w.
  destruct (simulateLoading_tick_spec 1000 1600 s w)
    as (_ & _ & _ & Hpos & _ & Hask & _).
  destruct (simulateLoading_tick_spec 1000 2500 s w)
    as (_ & _ & _ & _ & _ & _ & _ & Hend).
  split; [|split].
  - apply Hask. reflexivity.
  - apply Hend. discriminate.
  - apply Hpos. discriminate.
Defined.


(** ** The gate scene, frame by frame *)

Ltac gate_cases :=
  simpl;
  repeat match goal with
         | |- context [if ?c then _ else _] => destruct c; simpl
         | |- context [match ?c with Some _ => _ | None => _ end] =>
             destruct c; simpl
         end.

Section GateFrames.
Context `{M : Math}.
Local Open Scope Q_scope.

(** The steps of [update], each seen through the views. *)
Lemma updateDoorAnimation_rest s w :
  let r := EntryGateScene.updateDoorAnimation s w in
  title_view r.1 = title_view s /\ progress_view r.1 = progress_view s /\
  EntryGateScene.elapsedTime r.1 = EntryGateScene.elapsedTime s /\
  globalState r.2 = globalState w /\ cameraZ r.2 = cameraZ w /\
  browser_core (browser r.2) = browser_core (browser w) /\
  arrows (browser r.2) = arrows (browser w).
Proof.
  destruct s as [et opened tv passed enabled played lx rx title font light].
  unfold EntryGateScene.updateDoorAnimation, on_audioManager,
    AudioManager.playGateOpening.
  cbv zeta. gate_cases; repeat split.
Qed.

Lemma updateTextAnimation_rest s w :
  let r := state_of (EntryGateScene.updateTextAnimation s w) in
  door_view r.1 = door_view s /\ progress_view r.1 = progress_view s /\
  EntryGateScene.elapsedTime r.1 = EntryGateScene.elapsedTime s /\
  EntryGateScene.fontLoaded r.1 = EntryGateScene.fontLoaded s /\
  (is_Some (EntryGateScene.titleText s) ->
   is_Some (EntryGateScene.titleText r.1)) /\
  globalState r.2 = globalState w /\ cameraZ r.2 = cameraZ w /\
  audioManager r.2 = audioManager w /\
  browser_core (browser r.2) = browser_core (browser w) /\
  arrows (browser r.2) = arrows (browser w).
Proof.
  destruct s as [et opened tv passed enabled played lx rx title font light].
  unfold EntryGateScene.updateTextAnimation.
  cbv zeta. gate_cases; repeat split; auto; intros [? ?]; eauto; discriminate.
Qed.

Lemma updateTextAnimation_done s w :
  title_ready s ->
  exists r, EntryGateScene.updateTextAnimation s w = Done r.
Proof.
  unfold title_ready.
  destruct s as [et opened tv passed enabled played lx rx title font light].
  unfold EntryGateScene.updateTextAnimation. cbv zeta. simpl.
  intros Hready. destruct tv, font; simpl; try (eexists; reflexivity).
  destruct (Hready eq_refl) as [x ->].
  destruct (_ <? _); [eexists; reflexivity|].
  destruct (Qle_bool 1 _); eexists; reflexivity.
Qed.

Lemma updateTextFloating_rest s :
  let s' := EntryGateScene.updateTextFloating s in
  door_view s' = door_view s /\ progress_view s' = progress_view s /\
  EntryGateScene.elapsedTime s' = EntryGateScene.elapsedTime s /\
  EntryGateScene.fontLoaded s' = EntryGateScene.fontLoaded s /\
  EntryGateScene.textVisible s' = EntryGateScene.textVisible s /\
  (is_Some (EntryGateScene.titleText s) ->
   is_Some (EntryGateScene.titleText s')).
Proof.
  destruct s as [et opened tv passed enabled played lx rx title font light].
  unfold EntryGateScene.updateTextFloating.
  cbv zeta. gate_cases; repeat split; auto; intros [? ?]; eauto; discriminate.
Qed.

Lemma checkUserProgress_rest s w :
  let r := EntryGateScene.checkUserProgress s w in
  door_view r.1 = door_view s /\ title_view r.1 = title_view s /\
  EntryGateScene.elapsedTime r.1 = EntryGateScene.elapsedTime s /\
  globalState r.2 = globalState w /\ cameraZ r.2 = cameraZ w /\
  audioManager r.2 = audioManager w /\
  browser_core (browser r.2) = browser_core (browser w).
Proof.
  destruct s as [et opened tv passed enabled played lx rx title font light].
  unfold EntryGateScene.checkUserProgress, EntryGateScene.enableProgression.
  cbv zeta. gate_cases; repeat split.
Qed.

Lemma updateLightsForTheme_rest s w :
  let s' := EntryGateScene.updateLightsForTheme s w in
  door_view s' = door_view s /\ title_view s' = title_view s /\
  progress_view s' = progress_view s /\
  EntryGateScene.elapsedTime s' = EntryGateScene.elapsedTime s /\
  EntryGateScene.lighting s'
  = (if themeLight (browser w) then EntryGateScene.sunLighting
     else EntryGateScene.darkLighting).
Proof.
  unfold EntryGateScene.updateLightsForTheme.
  destruct (themeLight (browser w)); repeat split.
Qed.

(** A frame in which the title mesh exists, if the font has answered,
    returns, and leaves it so. *)
Lemma gate_update_done elapsed delta s w :
  title_ready s ->
  exists r, EntryGateScene.update elapsed delta s w = Done r /\ title_ready r.1.
Proof.
  intros Hready. unfold EntryGateScene.update.
  set (s0 := s <| EntryGateScene.elapsedTime := elapsed / 1000 |>).
  assert (H0 : title_ready s0) by exact Hready.
  destruct (updateDoorAnimation_rest s0 w) as (Ht1 & _).
  destruct (EntryGateScene.updateDoorAnimation s0 w) as [s1 w1].
  cbn [fst snd] in Ht1.
  assert (H1 : title_ready s1).
  { unfold title_ready, title_view in *. injection Ht1 as -> -> _. exact H0. }
  destruct (updateTextAnimation_done s1 w1 H1) as [[s2 w2] E].
  destruct (updateTextAnimation_rest s1 w1) as (_ & _ & _ & Hf2 & Hs2 & _).
  rewrite E in Hf2, Hs2 |- *. cbn [state_of fst snd and_then] in *.
  destruct (updateTextFloating_rest s2) as (_ & _ & _ & Hf3 & _ & Hs3).
  destruct (checkUserProgress_rest (EntryGateScene.updateTextFloating s2) w2)
    as (_ & Ht4 & _).
  destruct (EntryGateScene.checkUserProgress _ w2) as [s4 w4].
  cbn [fst snd] in Ht4. eexists. split; [reflexivity|]. cbn [fst].
  destruct (updateLightsForTheme_rest s4 w4) as (_ & Ht5 & _).
  unfold title_ready, title_view in *.
  injection Ht5 as -> -> _. injection Ht4 as -> -> _.
  rewrite Hf3, Hf2. intros Hfont. apply Hs3, Hs2, H1, Hfont.
Qed.

(** What a frame leaves of the shared objects. *)
Lemma gate_update_world elapsed delta s w :
  let r := state_of (EntryGateScene.update elapsed delta s w) in
  globalState r.2 = globalState w /\ cameraZ r.2 = cameraZ w /\
  browser_core (browser r.2) = browser_core (browser w).
Proof.
  unfold EntryGateScene.update.
  set (s0 := s <| EntryGateScene.elapsedTime := elapsed / 1000 |>).
  destruct (updateDoorAnimation_rest s0 w) as (_ & _ & _ & Hg1 & Hc1 & Hb1 & _).
  destruct (EntryGateScene.updateDoorAnimation s0 w) as [s1 w1].
  cbn [fst snd] in *.
  destruct (updateTextAnimation_rest s1 w1)
    as (_ & _ & _ & _ & _ & Hg2 & Hc2 & _ & Hb2 & _).
  destruct (EntryGateScene.updateTextAnimation s1 w1) as [[s2 w2] | [s2 w2]];
    cbn [state_of fst snd and_then] in *.
  - destruct (checkUserProgress_rest (EntryGateScene.updateTextFloating s2) w2)
      as (_ & _ & _ & Hg4 & Hc4 & _ & Hb4).
    destruct (EntryGateScene.checkUserProgress _ w2) as [s4 w4].
    cbn [state_of and_then fst snd] in *.
    rewrite Hg4, Hc4, Hb4, Hg2, Hc2, Hb2. auto.
  - rewrite Hg2, Hc2, Hb2. auto.
Qed.

End GateFrames.

Ltac by_theme :=
  repeat match goal with
         | |- context [if themeLight ?b then _ else _] =>
             destruct (themeLight b); simpl
         end.

Section GateDoors.
Context `{M : Math}.
Local Open Scope Q_scope.

(** The doors after the door animation of a frame. *)
Lemma updateDoorAnimation_doors elapsed s w :
  let s0 := s <| EntryGateScene.elapsedTime := elapsed / 1000 |> in
  door_view (EntryGateScene.updateDoorAnimation s0 w).1
  = if EntryGateScene.doorsOpened s
       || (elapsed / 1000 <? EntryGateScene.DOOR_ANIMATION_START)
    then door_view s
    else (Qle_bool 1 (door_progress elapsed),
          -3.25 - door_eased elapsed * 3.25,
          3.25 + door_eased elapsed * 3.25).
Proof.
  destruct s as [et opened tv passed enabled played lx rx title font light].
  unfold EntryGateScene.updateDoorAnimation, door_view, door_eased,
    door_progress.
  cbv zeta. simpl.
  destruct opened; simpl; [reflexivity|].
  destruct (elapsed / 1000 <? EntryGateScene.DOOR_ANIMATION_START) eqn:Hstart;
    simpl; [reflexivity|].
  set (t := Qmin _ 1).
  destruct played, (0 <? t), (t <? 0.05), (Qle_bool 1 t); reflexivity.
Qed.

(** The rest of the frame leaves the doors. *)
Lemma gate_update_doors elapsed delta s w :
  let s0 := s <| EntryGateScene.elapsedTime := elapsed / 1000 |> in
  door_view (state_of (EntryGateScene.update elapsed delta s w)).1
  = door_view (EntryGateScene.updateDoorAnimation s0 w).1.
Proof.
  cbv zeta. unfold EntryGateScene.update.
  set (s0 := s <| EntryGateScene.elapsedTime := elapsed / 1000 |>).
  destruct (EntryGateScene.updateDoorAnimation s0 w) as [s1 w1].
  cbn [fst snd].
  destruct (updateTextAnimation_rest s1 w1) as (Hd2 & _).
  destruct (EntryGateScene.updateTextAnimation s1 w1) as [[s2 w2] | [s2 w2]];
    cbn [state_of fst snd and_then] in *; [|exact Hd2].
  destruct (updateTextFloating_rest s2) as (Hd3 & _).
  destruct (checkUserProgress_rest (EntryGateScene.updateTextFloating s2) w2)
    as (Hd4 & _).
  destruct (EntryGateScene.checkUserProgress _ w2) as [s4 w4].
  cbn [state_of fst snd] in *.
  destruct (updateLightsForTheme_rest s4 w4) as (Hd5 & _).
  rewrite Hd5, Hd4, Hd3. exact Hd2.
Qed.

Lemma door_progress_range elapsed :
  500 <= elapsed -> 0 <= door_progress elapsed <= 1.
Proof.
  intros H. unfold door_progress, EntryGateScene.DOOR_ANIMATION_START,
    EntryGateScene.DOOR_ANIMATION_DURATION.
  split; [|apply Q.le_min_r].
  apply Q.min_glb; [|discriminate]. divide_out. lra.
Qed.

Lemma door_progress_full elapsed :
  Qle_bool 1 (door_progress elapsed) = Qle_bool 2500 elapsed.
Proof.
  unfold door_progress, EntryGateScene.DOOR_ANIMATION_START,
    EntryGateScene.DOOR_ANIMATION_DURATION.
  apply eq_true_iff_eq. rewrite !Qle_bool_iff. split; intros H.
  - apply Q.min_glb_iff in H as [H _]. divide_out. lra.
  - apply Q.min_glb; [|apply Qle_refl]. divide_out. lra.
Qed.

Lemma door_eased_range elapsed :
  500 <= elapsed -> 0 <= door_eased elapsed <= 1.
Proof.
  intros H. destruct (door_progress_range elapsed H) as [H0 H1].
  unfold door_eased. rewrite cube_power.
  set (u := 1 - door_progress elapsed).
  assert (Hu0 : 0 <= u) by (unfold u; lra).
  assert (Hu1 : u <= 1) by (unfold u; lra).
  pose proof (cube_monotone u 1 Hu0 Hu1) as Hle.
  assert (Hge : 0 <= u * u * u)
    by (apply Qmult_le_0_compat; [apply Qmult_le_0_compat|]; assumption).
  lra.
Qed.

Lemma door_eased_full elapsed :
  2500 <= elapsed -> door_eased elapsed == 1.
Proof.
  intros H. unfold door_eased.
  assert (E : door_progress elapsed == 1).
  { apply Qle_antisym; [apply Q.le_min_r|].
    apply Qle_bool_iff. rewrite door_progress_full. by apply Qle_bool_iff. }
  rewrite cube_power, E. reflexivity.
Qed.

(** X21: the doors of the gate slide apart, mirrored, from 3.25 to 6.5.
    A frame that finds the doors flagged open, or comes before half a second
    of the clock, leaves the flag and both doors as they are. Any other
    frame puts the right door at 3.25 + eased * 3.25, where eased is in
    [0, 1], and the left door at the opposite position; it flags the doors
    open exactly when the clock has reached 2500 milliseconds, and then the
    right door is at 6.5. *)
Theorem doors_slide_open (elapsed delta : Q) (s : EntryGateScene.t) (w : World) :
  let s' := (state_of (EntryGateScene.update elapsed delta s w)).1 in
  (EntryGateScene.doorsOpened s = true \/ elapsed < 500 ->
   door_view s' = door_view s) /\
  (EntryGateScene.doorsOpened s = false -> 500 <= elapsed ->
   EntryGateScene.leftDoor_x s' == - EntryGateScene.rightDoor_x s' /\
   3.25 <= EntryGateScene.rightDoor_x s' <= 6.5 /\
   EntryGateScene.doorsOpened s' = Qle_bool 2500 elapsed /\
   (2500 <= elapsed -> EntryGateScene.rightDoor_x s' == 6.5)).
Proof.
  cbv zeta. pose proof (gate_update_doors elapsed delta s w) as E.
  cbv zeta in E. rewrite updateDoorAnimation_doors in E. split.
  - intros Hcase. rewrite E.
    destruct (EntryGateScene.doorsOpened s); [reflexivity|].
    destruct Hcase as [Hopen | Hearly]; [discriminate|].
    assert (Hlt : (elapsed / 1000 <? EntryGateScene.DOOR_ANIMATION_START) = true).
    { apply Qltb_lt. unfold EntryGateScene.DOOR_ANIMATION_START.
      divide_out. lra. }
    rewrite Hlt. reflexivity.
  - intros Hclosed Hlate. rewrite Hclosed in E.
    assert (Hge : (elapsed / 1000 <? EntryGateScene.DOOR_ANIMATION_START) = false).
    { apply Qltb_ge. unfold EntryGateScene.DOOR_ANIMATION_START.
      divide_out. lra. }
    rewrite Hge in E. cbn [orb] in E. unfold door_view in E.
    injection E as -> -> ->.
    destruct (door_eased_range elapsed Hlate) as [H0 H1].
    split; [ring|]. split; [split; lra|]. split; [apply door_progress_full|].
    intros Hfull. rewrite (door_eased_full elapsed Hfull). reflexivity.
Qed.

(** X22: passing the gate arms the forward arrow, once. A frame never
    moves the camera. In a frame that returns, if the camera is beyond the
    threshold (z < -10) and the user had not passed before, the user is
    marked as passed, the progression is enabled, the forward arrow, if
    the document has it, glows and has the progression listener as its
    only listener, and a click on it then allows the progression; in every
    other frame the two flags and the forward arrow are left as they are.
    The other arrows are always left as they are. *)
Theorem gate_arms_forward_arrow (elapsed delta : Q) (s : EntryGateScene.t)
    (w : World) :
  title_ready s ->
  let r := state_of (EntryGateScene.update elapsed delta s w) in
  cameraZ r.2 = cameraZ w /\
  (forall id, id <> "arrow-forward"%string ->
     arrows (browser r.2) !! id = arrows (browser w) !! id) /\
  if (cameraZ w <? EntryGateScene.PROGRESSION_Z_THRESHOLD)
     && negb (EntryGateScene.userPassedThrough s)
  then progress_view r.1 = (true, true) /\
       arrows (browser r.2) !! "arrow-forward"%string
       = armed <$> (arrows (browser w) !! "arrow-forward"%string) /\
       GlobalState.canProgress
         (globalState (EntryGateScene.forwardArrow_onClick r.1 r.2)) = true
  else progress_view r.1 = progress_view s /\
       arrows (browser r.2) !! "arrow-forward"%string
       = arrows (browser w) !! "arrow-forward"%string.
Proof.
  intros Hready. cbv zeta. unfold EntryGateScene.update.
  set (s0 := s <| EntryGateScene.elapsedTime := elapsed / 1000 |>).
  assert (H0 : title_ready s0) by exact Hready.
  assert (Hp0 : progress_view s0 = progress_view s) by reflexivity.
  destruct (updateDoorAnimation_rest s0 w) as (Ht1 & Hp1 & _ & _ & Hc1 & _ & Ha1).
  destruct (EntryGateScene.updateDoorAnimation s0 w) as [s1 w1].
  cbn [fst snd] in *.
  assert (H1 : title_ready s1).
  { unfold title_ready, title_view in *. injection Ht1 as -> -> _. exact H0. }
  destruct (updateTextAnimation_done s1 w1 H1) as [[s2 w2] E].
  destruct (updateTextAnimation_rest s1 w1)
    as (_ & Hp2 & _ & _ & _ & _ & Hc2 & _ & _ & Ha2).
  rewrite E in Hp2, Hc2, Ha2 |- *. cbn [state_of fst snd and_then] in *.
  destruct (updateTextFloating_rest s2) as (_ & Hp3 & _).
  set (s3 := EntryGateScene.updateTextFloating s2) in *.
  assert (Hp : progress_view s3 = progress_view s)
    by (rewrite Hp3, Hp2, Hp1; exact Hp0).
  assert (Hc : cameraZ w2 = cameraZ w) by (rewrite Hc2; exact Hc1).
  assert (Ha : arrows (browser w2) = arrows (browser w))
    by (rewrite Ha2; exact Ha1).
  clearbody s3. clear - Hp Hc Ha.
  rewrite <- Hc, <- Ha.
  assert (Hpassed : EntryGateScene.userPassedThrough s
                    = EntryGateScene.userPassedThrough s3)
    by (unfold progress_view in Hp; congruence).
  rewrite Hpassed, <- Hp. clear.
  destruct s3 as [et opened tv passed enabled played lx rx title font light].
  unfold EntryGateScene.checkUserProgress, EntryGateScene.enableProgression,
    EntryGateScene.updateLightsForTheme, EntryGateScene.forwardArrow_onClick,
    progress_view.
  cbv zeta. simpl.
  destruct (cameraZ w2 <? EntryGateScene.PROGRESSION_Z_THRESHOLD), passed; simpl;
    try (by_theme; by repeat split).
  destruct (arrows (browser w2) !! "arrow-forward"%string) as [button|] eqn:Hb;
    simpl.
  - split; [reflexivity|]. split.
    + intros id Hid. by_theme. by rewrite lookup_insert_ne.
    + by_theme; rewrite lookup_insert_eq; by repeat split.
  - rewrite Hb. by_theme; by repeat split.
Qed.

End GateDoors.

Lemma doors_slide_open_witness :
  let s' := (state_of (EntryGateScene.update (M := PolynomialMath) 1500%Q 16%Q
                         (EntryGateScene.new (fresh_world (document None))).1
                         (EntryGateScene.new (fresh_world (document None))).2)).1 in
  (3.25 <= EntryGateScene.rightDoor_x s' <= 6.5)%Q.
Proof.
  intros s'.
  destruct (doors_slide_open (M := PolynomialMath) 1500%Q 16%Q
              (EntryGateScene.new (fresh_world (document None))).1
              (EntryGateScene.new (fresh_world (document None))).2) as [_ H].
  destruct H as (_ & Hrange & _); [reflexivity | discriminate | exact Hrange].
Defined.

Lemma gate_arms_forward_arrow_witness :
  let s := EntryGateScene.loadFont_onLoad
             (EntryGateScene.new (fresh_world (document None))).1 in
  let w := (EntryGateScene.new (fresh_world (document None))).2
             <| cameraZ := (-12)%Q |> in
  progress_view (state_of (EntryGateScene.update (M := PolynomialMath) 5000%Q 16%Q s w)).1 = (true, true).
Proof.
  intros s w.
  destruct (gate_arms_forward_arrow (M := PolynomialMath) 5000%Q 16%Q s w) as (_ & _ & H).
  - intros _. by eexists.
  - destruct H as [H _]. exact H.
Defined.

(** ** The application over the events of the page *)

Arguments for_loop : simpl never.

Lemma elem_of_delete_other {A : Type} (x y : A) i (l : list A) :
  x ∈ l -> l !! i = Some y -> x <> y -> x ∈ delete i l.
Proof.
  revert i. induction l as [|z l IH]; intros i Hx Hi Hne.
  { by apply elem_of_nil in Hx. }
  destruct i as [|i]; cbn in *.
  - injection Hi as ->. apply elem_of_cons in Hx as [-> | Hx]; [congruence | exact Hx].
  - apply elem_of_cons in Hx as [-> | Hx]; [apply list_elem_of_here|].
    apply list_elem_of_further. by apply (IH i).
Qed.

Lemma dispose_keeps_exit_baseline s :
  exit_baseline_set s -> exit_baseline_set (LoadingScene.dispose s).
Proof. intros H. exact H. Qed.

(** *** The registry *)

Lemma SCENE_NAMES_at_elem i n :
  App.SCENE_NAMES_at i = Some n -> n ∈ App.SCENE_NAMES.
Proof.
  unfold App.SCENE_NAMES_at. destruct (i <? 0); [discriminate|].
  intros H. by apply list_elem_of_lookup_2 in H.
Qed.

Lemma table_name_own n :
  n ∈ App.SCENE_NAMES -> bool_decide (n ∈ App.Object_prototype_names) = false.
Proof.
  intros H. unfold App.SCENE_NAMES in H.
  repeat (apply elem_of_cons in H as [-> | H]; [by vm_compute|]).
  by apply elem_of_nil in H.
Qed.

Lemma registry_kinds a key sc :
  registry_sound a -> App.scene_at (Some key) a = Some sc ->
  (key = "loading"%string /\
   exists s, sc = App.LoadingSceneObject s /\ exit_baseline_set s) \/
  (key = "entryGate"%string /\
   exists g, sc = App.EntryGateSceneObject g /\ title_ready g) \/
  (sc = App.InheritedObject key /\ key ∈ App.Object_prototype_names).
Proof.
  intros ((s & Hs & Hbase) & (g & Hg & Hready) & Hrest) Hkey.
  destruct (decide (key = "loading"%string)) as [-> | Hl].
  { left. split; [reflexivity|]. unfold App.scene_at in Hkey.
    rewrite Hs in Hkey. injection Hkey as <-. eauto. }
  destruct (decide (key = "entryGate"%string)) as [-> | Hg'].
  { right. left. split; [reflexivity|]. unfold App.scene_at in Hkey.
    rewrite Hg in Hkey. injection Hkey as <-. eauto. }
  right. right. unfold App.scene_at in Hkey.
  destruct (App.scenes a !! key) as [slot|] eqn:E.
  { subst slot. by destruct (Hrest key Hl Hg' sc). }
  case_bool_decide as Hin; [|discriminate].
  injection Hkey as <-. auto.
Qed.

Lemma table_kinds a key sc :
  registry_sound a -> key ∈ App.SCENE_NAMES ->
  App.scene_at (Some key) a = Some sc ->
  (key = "loading"%string /\
   exists s, sc = App.LoadingSceneObject s /\ exit_baseline_set s) \/
  (key = "entryGate"%string /\
   exists g, sc = App.EntryGateSceneObject g /\ title_ready g).
Proof.
  intros Hreg Hin Hkey.
  destruct (registry_kinds a key sc Hreg Hkey) as [H | [H | [_ Hp]]]; auto.
  apply table_name_own in Hin. apply bool_decide_eq_false in Hin. by destruct Hin.
Qed.

Lemma registry_put_loading a s' :
  registry_sound a -> exit_baseline_set s' ->
  forall a',
    App.scenes a'
    = <["loading"%string := Some (App.LoadingSceneObject s')]> (App.scenes a) ->
    registry_sound a'.
Proof.
  intros ((s & Hs & Hbase) & (g & Hg & Hready) & Hrest) Hbase' a' E.
  unfold registry_sound. rewrite E. split; [|split].
  - exists s'. rewrite lookup_insert_eq. auto.
  - exists g. rewrite lookup_insert_ne by discriminate. auto.
  - intros k Hl Hg'. rewrite lookup_insert_ne by congruence.
    apply (Hrest k Hl Hg').
Qed.

Lemma registry_put_entryGate a g' :
  registry_sound a -> title_ready g' ->
  forall a',
    App.scenes a'
    = <["entryGate"%string := Some (App.EntryGateSceneObject g')]> (App.scenes a) ->
    registry_sound a'.
Proof.
  intros ((s & Hs & Hbase) & (g & Hg & Hready) & Hrest) Hready' a' E.
  unfold registry_sound. rewrite E. split; [|split].
  - exists s. rewrite lookup_insert_ne by discriminate. auto.
  - exists g'. rewrite lookup_insert_eq. auto.
  - intros k Hl Hg'. rewrite lookup_insert_ne by congruence.
    apply (Hrest k Hl Hg').
Qed.

Lemma registry_same a a' :
  registry_sound a -> App.scenes a' = App.scenes a -> registry_sound a'.
Proof.
  intros H E. unfold registry_sound in *. rewrite E. exact H.
Qed.

Lemma registry_built a a' n :
  registry_sound a -> registry_sound a' -> n ∈ App.SCENE_NAMES ->
  is_Some (App.scene_at (Some n) a) -> is_Some (App.scene_at (Some n) a').
Proof.
  intros Ha ((s & Hs & _) & (g & Hg & _) & _) Hin [sc Hsc].
  destruct (table_kinds a n sc Ha Hin Hsc) as [[-> _] | [-> _]];
    unfold App.scene_at; [rewrite Hs | rewrite Hg]; by eexists.
Qed.

(** An event that keeps the index, the active scene and the pending
    timers, and does not engage the guard, keeps the application sound. *)
Lemma sound_frame a a' :
  app_sound a -> registry_sound a' ->
  current_index a' = current_index a ->
  App.currentScene a' = App.currentScene a ->
  (App._progressGuard a' = true -> App._progressGuard a = true) ->
  (forall t, t ∈ pendingTimers (browser (App.world a)) ->
             t ∈ pendingTimers (browser (App.world a'))) ->
  app_sound a'.
Proof.
  intros (Hreg & (Hidx & Href) & Hguard) Hreg' Ei Ec Eg Et.
  split; [exact Hreg'|]. split.
  - unfold reference_sound. rewrite Ei, Ec. split; [exact Hidx|].
    intros n Hn. destruct (Href n Hn) as [Hname Hbuilt]. split; [exact Hname|].
    exact (registry_built a a' n Hreg Hreg' (SCENE_NAMES_at_elem _ _ Hname) Hbuilt).
  - intros Hg. destruct (Hguard (Eg Hg)) as [ms Hms]. exists ms. auto.
Qed.

(** *** The switch *)

Lemma dispose_current_registry a :
  registry_sound a -> registry_sound (App.dispose_current a).
Proof.
  intros Hreg. pose proof (dispose_current_scenes a) as E.
  destruct (App.currentScene a) as [old|]; [|exact (registry_same _ _ Hreg E)].
  destruct (App.scene_at (Some old) a) as [[s|g|inh]|] eqn:Hold;
    try exact (registry_same _ _ Hreg E).
  destruct (registry_kinds a old _ Hreg Hold)
    as [[-> (s0 & [= <-] & Hbase)] | [[_ (g & Hg & _)] | [Hg _]]];
    [|discriminate..].
  exact (registry_put_loading a (LoadingScene.dispose s) Hreg
           (dispose_keeps_exit_baseline s Hbase) _ E).
Qed.

Lemma switchScene_registry n a :
  registry_sound a -> registry_sound (App.switchScene n a).
Proof.
  intros Hreg. pose proof (switchScene_scenes n a) as E.
  destruct (App.scene_at n a) as [sc|].
  - apply (registry_same (App.dispose_current a));
      [by apply dispose_current_registry | exact E].
  - exact (registry_same _ _ Hreg E).
Qed.

Lemma switchScene_timers n a t :
  t ∈ pendingTimers (browser (App.world a)) ->
  t ∈ pendingTimers (browser (App.world (App.switchScene n a))).
Proof.
  intros Ht. destruct (switchScene_fade n a) as [_ E]. cbv zeta in E.
  rewrite E. apply elem_of_app. by left.
Qed.

Lemma switchScene_reference n a :
  registry_sound a -> 0 <= current_index a <= 7 ->
  (forall name, n = Some name -> name ∈ App.SCENE_NAMES) ->
  reference_sound (App.switchScene n a).
Proof.
  intros Hreg Hidx Htable. split; [by apply switchScene_valid|].
  intros name Hname.
  destruct (App.scene_at n a) as [sc|] eqn:Hslot.
  - rewrite (switchScene_sets_reference n a sc Hslot) in Hname. subst n.
    assert (Hin : App.indexOf App.SCENE_NAMES (Some name) <> -1).
    { destruct (table_kinds a name sc Hreg (Htable _ eq_refl) Hslot)
        as [[-> _] | [-> _]]; discriminate. }
    split.
    + rewrite switchScene_index. rewrite bool_decide_eq_true_2 by exact Hin.
      apply indexOf_found, Hin.
    + apply (registry_built a);
        [exact Hreg | by apply switchScene_registry | exact (Htable _ eq_refl) |].
      by eexists.
  - rewrite (switchScene_clears_reference n a Hslot) in Hname. discriminate.
Qed.

Lemma switchScene_guard n a :
  guard_sound a -> guard_sound (App.switchScene n a).
Proof.
  intros Hguard Hg. rewrite switchScene_progressGuard in Hg.
  destruct (Hguard Hg) as [ms Hms]. exists ms. by apply switchScene_timers.
Qed.

Lemma switchScene_sound n a :
  registry_sound a -> 0 <= current_index a <= 7 -> guard_sound a ->
  (forall name, n = Some name -> name ∈ App.SCENE_NAMES) ->
  app_sound (App.switchScene n a).
Proof.
  intros Hreg Hidx Hguard Htable. split; [by apply switchScene_registry|].
  split; [by apply switchScene_reference | by apply switchScene_guard].
Qed.

Lemma previousScene_sound a : app_sound a -> app_sound (App.previousScene a).
Proof.
  intros Ha. unfold App.previousScene.
  destruct (_ <=? 0); [exact Ha|]. destruct (_ =? 0); [exact Ha|].
  destruct Ha as (Hreg & (Hidx & _) & Hguard).
  apply switchScene_sound; try done. intros name. apply SCENE_NAMES_at_elem.
Qed.

(** *** The progression check *)

Lemma after_timeout_sound a :
  registry_sound a -> reference_sound a ->
  app_sound (App.after_timeout ResetProgressGuard 500 a).
Proof.
  intros Hreg Href. split; [exact (registry_same _ _ Hreg eq_refl)|].
  split; [exact Href|].
  intros _. exists 500. unfold App.after_timeout, setTimeout. cbn.
  apply elem_of_app. right. apply list_elem_of_singleton. reflexivity.
Qed.

Lemma consumed_registry a : registry_sound a -> registry_sound (consumed a).
Proof. intros H. exact (registry_same _ _ H eq_refl). Qed.

Lemma checkSceneProgression_sound a :
  app_sound a -> app_sound (App.checkSceneProgression a).
Proof.
  intros Ha. destruct (can_progress a) eqn:Hflag;
    [|by rewrite checkSceneProgression_idle].
  destruct (App._progressGuard a) eqn:Hg;
    [by rewrite checkSceneProgression_guarded|].
  destruct Ha as (Hreg & (Hidx & Href) & Hguard).
  destruct (decide (current_index a = 0)) as [H0 | H0].
  - rewrite checkSceneProgression_from_loading by done.
    apply after_timeout_sound.
    + apply switchScene_registry, consumed_registry, Hreg.
    + apply switchScene_reference;
        [apply consumed_registry, Hreg | exact Hidx
        | intros name; apply SCENE_NAMES_at_elem].
  - destruct (decide (current_index a < 7)) as [H7 | H7].
    + rewrite checkSceneProgression_advance by (try done; lia).
      set (a1 := consumed a <| App.world := _ |>).
      assert (Hreg1 : registry_sound a1)
        by exact (registry_same _ _ Hreg eq_refl).
      assert (Hidx1 : 0 <= current_index a1 <= 7).
      { unfold a1, current_index, on_globalState. cbn.
        destruct (GlobalState.setScene _ _ _) as [g' b'] eqn:Eset.
        rewrite setScene_in_range in Eset by (fold (current_index a); lia).
        injection Eset as <- <-. cbn. fold (current_index a). lia. }
      apply after_timeout_sound.
      * by apply switchScene_registry.
      * apply switchScene_reference; try done.
        intros name. apply SCENE_NAMES_at_elem.
    + rewrite checkSceneProgression_at_last by (try done; lia).
      apply after_timeout_sound; [apply consumed_registry, Hreg|].
      split; [exact Hidx | exact Href].
Qed.

(** *** The timers and the listeners *)

Lemma fire_timer_sound i a : app_sound a -> app_sound (App.fire_timer i a).
Proof.
  intros (Hreg & Href & Hguard). unfold App.fire_timer. cbv zeta.
  destruct (pendingTimers (browser (App.world a)) !! i) as [[ms action]|] eqn:Hi;
    [|exact (conj Hreg (conj Href Hguard))].
  destruct action as [| |sound]; cbn.
  - split; [exact (registry_same _ _ Hreg eq_refl)|]. split; [exact Href|].
    intros Hg. destruct (Hguard Hg) as [m Hm]. exists m. cbn.
    apply (elem_of_delete_other _ _ _ _ Hm Hi). discriminate.
  - split; [exact (registry_same _ _ Hreg eq_refl)|]. split; [exact Href|].
    intros Hg. discriminate.
  - split; [exact (registry_same _ _ Hreg eq_refl)|]. split; [exact Href|].
    intros Hg. destruct (Hguard Hg) as [m Hm]. exists m. cbn.
    apply (elem_of_delete_other _ _ _ _ Hm Hi). discriminate.
Qed.

Section Handlers.
Context `{M : Math}.

Lemma with_entryGate_sound f a :
  app_sound a ->
  (forall g w, title_ready g ->
     title_ready (f g w).1 /\
     GlobalState.currentScene (globalState (f g w).2)
     = GlobalState.currentScene (globalState w) /\
     forall t, t ∈ pendingTimers (browser w) ->
               t ∈ pendingTimers (browser (f g w).2)) ->
  app_sound (Page.with_entryGate f a).
Proof.
  intros Ha Hf. unfold Page.with_entryGate.
  destruct (App.scene_at (Some "entryGate"%string) a) as [[s|g|inh]|] eqn:Hslot;
    try exact Ha.
  destruct (registry_kinds a _ _ (proj1 Ha) Hslot)
    as [[? _] | [[_ (g0 & [= <-] & Hready)] | [? _]]]; [discriminate| |discriminate].
  destruct (Hf g (App.world a) Hready) as (Hr & Hi & Ht).
  destruct (f g (App.world a)) as [g' w']. cbn [fst snd] in *.
  apply (sound_frame a); try done.
  apply (registry_put_entryGate a g' (proj1 Ha) Hr); reflexivity.
Qed.

Lemma with_loading_sound f a :
  app_sound a ->
  (forall s w, exit_baseline_set s ->
     exit_baseline_set (f s w).1 /\
     GlobalState.currentScene (globalState (f s w).2)
     = GlobalState.currentScene (globalState w) /\
     forall t, t ∈ pendingTimers (browser w) ->
               t ∈ pendingTimers (browser (f s w).2)) ->
  app_sound (Page.with_loading f a).
Proof.
  intros Ha Hf. unfold Page.with_loading.
  destruct (App.scene_at (Some "loading"%string) a) as [[s|g|inh]|] eqn:Hslot;
    try exact Ha.
  destruct (registry_kinds a _ _ (proj1 Ha) Hslot)
    as [[_ (s0 & [= <-] & Hbase)] | [[? _] | [? _]]]; [|discriminate..].
  destruct (Hf s (App.world a) Hbase) as (Hr & Hi & Ht).
  destruct (f s (App.world a)) as [s' w']. cbn [fst snd] in *.
  apply (sound_frame a); try done.
  apply (registry_put_loading a s' (proj1 Ha) Hr); reflexivity.
Qed.

Lemma listener_sound l a : app_sound a -> app_sound (Page.listener l a).
Proof.
  intros Ha. destruct l; cbn [Page.listener].
  - exact Ha.
  - by apply previousScene_sound.
  - apply with_entryGate_sound; [exact Ha|].
    intros g w Hready. cbn [fst snd]. split; [exact Hready|].
    unfold EntryGateScene.forwardArrow_onClick.
    destruct (EntryGateScene.progressionEnabled g); cbn; auto.
Qed.

Lemma click_sound id a : app_sound a -> app_sound (Page.click id a).
Proof.
  intros Ha. unfold Page.click.
  destruct (arrows (browser (App.world a)) !! id) as [button|]; [|exact Ha].
  revert a Ha. induction (listeners button) as [|l ls IH]; intros a Ha;
    [exact Ha|].
  cbn [foldl]. apply IH, listener_sound, Ha.
Qed.

(** *** The frame of the active scene *)

Lemma loading_update_done time delta s w :
  exit_baseline_set s ->
  exists r, LoadingScene.update time delta s w = Done r.
Proof.
  intros Hbase. destruct (LoadingScene.isComplete s) eqn:Hc.
  { rewrite update_complete by exact Hc. by eexists. }
  rewrite update_running by exact Hc. cbv zeta.
  destruct (LoadingScene.phase s) eqn:Hp; try (by eexists).
  destruct (Hbase Hp) as [r Hr].
  destruct (stepped_fields delta s) as (_ & _ & _ & _ & _ & _ & _ & _ & Hr').
  rewrite Hr in Hr'. revert Hr'. generalize (stepped delta s) as x.
  intros x Hx. destruct x. simpl in Hx. subst.
  unfold LoadingScene.updateExitBurst, LoadingScene.style_welcomeEl,
    LoadingScene.enableControls.
  cbv zeta. simpl. destruct (Qle_bool 1 _); by eexists.
Qed.

Lemma loading_update_world time delta s w :
  let r := state_of (LoadingScene.update time delta s w) in
  GlobalState.currentScene (globalState r.2)
  = GlobalState.currentScene (globalState w) /\
  pendingTimers (browser r.2) = pendingTimers (browser w).
Proof.
  cbv zeta. destruct (LoadingScene.isComplete s) eqn:Hc.
  { rewrite update_complete by exact Hc. auto. }
  destruct (update_frame time delta s w Hc) as (_ & _ & _ & Hw).
  cbv zeta in Hw. rewrite Hw.
  destruct (LoadingScene.isComplete (state_of _).1);
    [unfold handed_over, set_arrows_display; simpl; auto|].
  destruct (starts_exit _ _); [|auto].
  destruct (playWhoosh_rest w) as (Eg & Eb & _). rewrite Eg, Eb. auto.
Qed.

Lemma update_current_sound elapsed delta a :
  app_sound a ->
  exists a', App.update_current elapsed delta a = Done a' /\ app_sound a'.
Proof.
  intros Ha. unfold App.update_current.
  destruct (App.currentScene a) as [key|] eqn:Hcur; [|by eexists].
  destruct (App.scene_at (Some key) a) as [sc|] eqn:Hslot; [|by eexists].
  destruct (registry_kinds a key sc (proj1 Ha) Hslot)
    as [[-> (s & -> & Hbase)] | [[-> (g & -> & Hready)] | [-> _]]];
    [| |by eexists].
  - destruct (loading_update_done elapsed delta s (App.world a) Hbase) as [r E].
    pose proof (update_keeps_exit_baseline elapsed delta s (App.world a) Hbase)
      as Hbase'.
    destruct (loading_update_world elapsed delta s (App.world a)) as [Hi Ht].
    rewrite E in Hbase', Hi, Ht |- *. destruct r as [s' w'].
    cbn [state_of fst snd] in *. eexists. split; [reflexivity|].
    apply (sound_frame a); try done.
    + apply (registry_put_loading a s' (proj1 Ha) Hbase'); reflexivity.
    + cbn. intros t. rewrite Ht. auto.
  - destruct (gate_update_done elapsed delta g (App.world a) Hready)
      as (r & E & Hready').
    destruct (gate_update_world elapsed delta g (App.world a)) as (Hg & _ & Hb).
    rewrite E in Hg, Hb |- *. destruct r as [g' w'].
    cbn [state_of fst snd] in *. eexists. split; [reflexivity|].
    apply (sound_frame a); try done.
    + apply (registry_put_entryGate a g' (proj1 Ha) Hready'); reflexivity.
    + unfold current_index. cbn. rewrite Hg. reflexivity.
    + cbn. intros t. unfold browser_core in Hb. injection Hb as _ _ _ _ _ _ ->.
      auto.
Qed.

Lemma update_sound elapsed delta a :
  app_sound a ->
  exists a', App.update elapsed delta a = Done a' /\ app_sound a'.
Proof.
  intros Ha. unfold App.update.
  destruct (update_current_sound elapsed delta a Ha) as (a1 & -> & Ha1).
  cbn [and_then]. eexists. split; [reflexivity|].
  by apply checkSceneProgression_sound.
Qed.

(** *** Every event *)

Lemma startAudio_init_rest w :
  globalState (LoadingScene.startAudio_init w) = globalState w /\
  pendingTimers (browser (LoadingScene.startAudio_init w))
  = pendingTimers (browser w).
Proof.
  unfold LoadingScene.startAudio_init, on_audioManager,
    AudioManager.createMechanicalHum, AudioManager.init, console_log.
  destruct (AudioManager.initialized (audioManager w)) eqn:E; simpl;
    rewrite ?E; simpl; auto.
Qed.

Lemma handle_sound e a : app_sound a -> app_sound (Page.handle e a).
Proof.
  intros Ha. destruct e as [elapsed delta|id|i|muted| |startTime now| |];
    cbn [Page.handle].
  - destruct (update_sound elapsed delta a Ha) as (a' & -> & Ha'). exact Ha'.
  - by apply click_sound.
  - by apply fire_timer_sound.
  - apply (sound_frame a); try done.
    + exact (registry_same _ _ (proj1 Ha) eq_refl).
    + unfold current_index, on_audioManager. cbn.
      destruct (AudioManager.setMuted _ _ _); reflexivity.
    + unfold on_audioManager, AudioManager.setMuted,
        AudioManager.stopMechanicalHum, setTimeout. cbn.
      intros t Ht. destruct muted; cbn; [|exact Ht].
      destruct (last _) as [[]|]; cbn; try exact Ht.
      apply elem_of_app. by left.
  - destruct (startAudio_init_rest (App.world a)) as [Eg Et].
    apply (sound_frame a); try done.
    + exact (registry_same _ _ (proj1 Ha) eq_refl).
    + exact (f_equal GlobalState.currentScene Eg).
    + intros t Ht.
      change (t ∈ pendingTimers
                    (browser (LoadingScene.startAudio_init (App.world a)))).
      by rewrite Et.
  - apply with_loading_sound; [exact Ha|].
    intros s w Hbase. split; [by apply tick_keeps_exit_baseline|].
    unfold LoadingScene.simulateLoading_tick. cbv zeta.
    destruct (_ <? 1)%Q; [cbn; auto|].
    unfold on_audioManager, AudioManager.stopMechanicalHum, setTimeout.
    destruct (AudioManager.hum _) as [[]|]; cbn; split; auto.
    intros t Ht. apply elem_of_app. by left.
  - apply with_entryGate_sound; [exact Ha|].
    intros g w _. cbn. split; [|auto]. intros _. by eexists.
  - apply with_entryGate_sound; [exact Ha|].
    intros g w _. cbn. split; [|auto]. intros _. by eexists.
Qed.

Lemma run_sound events : forall a, app_sound a -> app_sound (Page.run events a).
Proof.
  induction events as [|e rest IH]; intros a Ha; [exact Ha|].
  unfold Page.run. cbn [foldl]. apply IH, handle_sound, Ha.
Qed.

(** *** A new application is sound *)

Lemma new_app_scenes random b :
  let w0 := {| globalState := GlobalState.new; audioManager := AudioManager.new;
               cameraZ := 5%Q; browser := b |} in
  App.scenes (App.new random b)
  = <["entryGate"%string :=
        Some (App.EntryGateSceneObject
                (EntryGateScene.new (LoadingScene.new random w0).2).1)]>
      (<["loading"%string :=
           Some (App.LoadingSceneObject (LoadingScene.new random w0).1)]>
         (list_to_map ((fun n => (n, None)) <$> App.SCENE_NAMES))).
Proof.
  intros w0. unfold App.new. cbv zeta.
  rewrite log_scenes, switchScene_scenes.
  match goal with
  | |- context [App.initScenes random ?a] => set (a0 := a)
  end.
  assert (Hscenes : App.scenes (App.setupUI (App.initScenes random a0))
                    = <["entryGate"%string :=
                          Some (App.EntryGateSceneObject
                                  (EntryGateScene.new
                                     (LoadingScene.new random w0).2).1)]>
                        (<["loading"%string :=
                             Some (App.LoadingSceneObject
                                     (LoadingScene.new random w0).1)]>
                           (list_to_map
                              ((fun n => (n, None)) <$> App.SCENE_NAMES)))).
  { rewrite setupUI_scenes. exact (initScenes_registry random a0). }
  assert (Hcur : App.currentScene (App.setupUI (App.initScenes random a0)) = None).
  { rewrite setupUI_currentScene.
    exact (proj2 (proj2 (proj2 (proj2 (initScenes_state random a0))))). }
  destruct (App.scene_at _ _);
    [rewrite dispose_current_scenes, Hcur|]; exact Hscenes.
Qed.

Lemma new_app_sound random b : app_sound (App.new random b).
Proof.
  pose proof (new_app_scenes random b) as Hreg. cbv zeta in Hreg.
  destruct (new_app_state random b) as (Hidx & _ & Hguard & Hcur & _).
  assert (Hregistry : registry_sound (App.new random b)).
  { unfold registry_sound. rewrite Hreg. split; [|split].
    - eexists. rewrite lookup_insert_ne by discriminate.
      rewrite lookup_insert_eq. split; [reflexivity|]. apply new_exit_baseline.
    - eexists. rewrite lookup_insert_eq. split; [reflexivity|].
      unfold title_ready, EntryGateScene.new, EntryGateScene.updateLightsForTheme.
      cbn. destruct (themeLight _); discriminate.
    - intros k Hl Hg sc. rewrite !lookup_insert_ne by congruence.
      rewrite lookup_null_slots. by case_bool_decide. }
  split; [exact Hregistry|]. split.
  - unfold reference_sound. rewrite Hidx, Hcur. split; [lia|].
    intros n [= <-]. split; [reflexivity|].
    destruct Hregistry as ((s & Hs & _) & _). unfold App.scene_at.
    rewrite Hs. by eexists.
  - intros Hg. congruence.
Qed.

(** X18: the scene that is drawn is the scene of the current index. In
    every state that the application reaches from its construction,
    whatever events the page delivers (frames, clicks on the arrow
    buttons, timers, mute toggles, the first interaction, frames of the
    loader, the answer of the font loader), the index is in 0..7, and the
    active scene, when there is one, is a built scene, the loading scene or
    the gate scene, whose name is the name at the current index. *)
Theorem active_scene_matches_index (random : nat -> Q) (b : Browser)
    (events : list Page.Event) :
  let a := Page.run events (App.new random b) in
  0 <= current_index a <= 7 /\
  forall n, App.currentScene a = Some n ->
    App.SCENE_NAMES_at (current_index a) = Some n /\
    is_Some (App.scene_at (Some n) a) /\
    (n = "loading"%string \/ n = "entryGate"%string).
Proof.
  intros a.
  destruct (run_sound events _ (new_app_sound random b))
    as (Hreg & (Hidx & Href) & _).
  fold a in Hreg, Hidx, Href. split; [exact Hidx|].
  intros n Hn. destruct (Href n Hn) as [Hname [sc Hsc]].
  split; [exact Hname|]. split; [by eexists|].
  destruct (table_kinds a n sc Hreg (SCENE_NAMES_at_elem _ _ Hname) Hsc)
    as [[-> _] | [-> _]]; auto.
Qed.

(** X19: the listener of the frames never throws. In every state that
    the application reaches from its construction, whatever events the
    page delivers, [update] returns: the exit burst of the loading scene
    finds the radii it reads, and the title animation of the gate scene
    finds the mesh it writes. *)
Theorem tick_never_throws (random : nat -> Q) (b : Browser)
    (events : list Page.Event) (elapsed delta : Q) :
  exists a',
    App.update elapsed delta (Page.run events (App.new random b)) = Done a'.
Proof.
  destruct (update_sound elapsed delta _
              (run_sound events _ (new_app_sound random b))) as (a' & E & _).
  by exists a'.
Qed.

(** X20: the progression guard is never left engaged. In every state
    that the application reaches from its construction, whatever events
    the page delivers, either the guard is clear, or a timer that resets
    it is pending, and when that timer runs the guard is clear. *)
Theorem progress_guard_released (random : nat -> Q) (b : Browser)
    (events : list Page.Event) :
  let a := Page.run events (App.new random b) in
  App._progressGuard a = false \/
  exists i ms,
    pendingTimers (browser (App.world a)) !! i = Some (ms, ResetProgressGuard) /\
    App._progressGuard (Page.handle (Page.Timeout i) a) = false.
Proof.
  intros a.
  destruct (run_sound events _ (new_app_sound random b)) as (_ & _ & Hguard).
  fold a in Hguard.
  destruct (App._progressGuard a) eqn:Hg; [right | by left].
  destruct (Hguard Hg) as [ms Hms].
  apply list_elem_of_lookup in Hms as [i Hi]. exists i, ms.
  split; [exact Hi|]. cbn [Page.handle]. unfold App.fire_timer.
  rewrite Hi. reflexivity.
Qed.

End Handlers.

Lemma active_scene_matches_index_witness :
  let a := Page.run (M := PolynomialMath)
             [Page.Interaction; Page.LoaderFrame 0 2000; Page.Tick 2000 16;
              Page.Click "arrow-backward"]
             (App.new (M := PolynomialMath) (fun _ => 0.5%Q) (document None)) in
  App.SCENE_NAMES_at (current_index a) = Some "loading"%string.
Proof.
  intros a.
  destruct (active_scene_matches_index (M := PolynomialMath) (fun _ => 0.5%Q)
              (document None)
              [Page.Interaction; Page.LoaderFrame 0 2000; Page.Tick 2000 16;
               Page.Click "arrow-backward"]) as [_ H].
  apply H. vm_compute. reflexivity.
Defined.

(** ** The clock *)

(** X23: the clock measures the time that has passed. Over any sequence
    of animation frames, the clock that the listeners of the tick event
    find has the reading of its frame as [current], keeps the [start] of
    the constructor, and has [elapsed] = [current] - [start]; and the
    [delta] of the frames add up to the time between the clock before the
    first frame and the last reading, whatever the number of frames. *)
Theorem clock_measures_time (nows : list Z) (c : Time.t) :
  let cs := Time.ticks nows c in
  Time.current <$> cs = nows /\
  Forall (fun c' => Time.start c' = Time.start c /\
                    Time.elapsed c' = Time.current c' - Time.start c) cs /\
  sum_deltas cs = Time.current (default c (last cs)) - Time.current c.
Proof.
  cbv zeta. revert c. induction nows as [|now rest IH]; intros c.
  - cbn. repeat apply conj; [reflexivity | constructor | lia].
  - destruct (IH (Time.tick now c)) as (Hcur & Hall & Hsum).
    cbn [Time.ticks]. cbv zeta. repeat apply conj.
    + cbn [fmap list_fmap]. f_equal. exact Hcur.
    + constructor; [split; reflexivity|]. exact Hall.
    + cbn [sum_deltas foldr]. fold (sum_deltas (Time.ticks rest (Time.tick now c))).
      rewrite Hsum, last_cons.
      destruct (last (Time.ticks rest (Time.tick now c))); cbn; lia.
Qed.

(** ** The controls *)

Section ControlsFrames.
Context `{M : Math}.
Local Open Scope Q_scope.

Lemma quarter_turn_order : 0 <= PI -> - PI / 4 <= 0 /\ 0 <= PI / 4.
Proof. intros H. divide_out. split; lra. Qed.

Lemma clamp_in_range lo hi x : lo <= hi -> lo <= Qmax lo (Qmin hi x) <= hi.
Proof.
  intros H. split; [apply Q.le_max_l|].
  apply Q.max_lub; [exact H | apply Q.le_min_l].
Qed.

Lemma smooth_in_range lo hi v t :
  lo <= v <= hi -> lo <= t <= hi -> lo <= v + (t - v) * 0.1 <= hi.
Proof. intros [? ?] [? ?]. split; lra. Qed.

Lemma new_pitch_bounded : 0 <= PI -> pitch_bounded Controls.new.
Proof.
  intros H. destruct (quarter_turn_order H). unfold pitch_bounded. cbn.
  repeat apply conj; auto.
Qed.

Lemma controls_event_bounded e c :
  0 <= PI -> pitch_bounded c -> pitch_bounded (controls_event e c).
Proof.
  intros HPI. destruct (quarter_turn_order HPI) as [Hlo Hhi].
  assert (Horder : - PI / 4 <= PI / 4) by (eapply Qle_trans; eassumption).
  unfold pitch_bounded.
  destruct c as [mf mr mry sx sy cx cy active swiping scroll rh rv th tv sm n].
  simpl. intros ([Ht1 Ht2] & [Hv1 Hv2] & ->).
  destruct e;
    unfold controls_event, Controls.touchstart, Controls.touchmove,
      Controls.touchend, Controls.mousedown, Controls.mousemove,
      Controls.mouseup, Controls.wheel, Controls.arrow_onClick,
      Controls.reset_timeout, Controls.reset_later, Controls.update;
    simpl;
    repeat match goal with
           | |- context [if ?b then _ else _] => destruct b; simpl
           | |- context [match ?x with O => _ | S _ => _ end] =>
               destruct x; simpl
           end;
    (split; [|split]);
    first [ split; assumption
          | reflexivity
          | apply clamp_in_range, Horder
          | apply smooth_in_range; split; assumption ].
Qed.

Lemma controls_events_bounded events : forall c,
  0 <= PI -> pitch_bounded c -> pitch_bounded (controls_events events c).
Proof.
  induction events as [|e rest IH]; intros c HPI Hc; [exact Hc|].
  unfold controls_events. cbn [foldl]. apply IH; [exact HPI|].
  by apply controls_event_bounded.
Qed.

(** X24: the pitch of the camera stays within a quarter of a half turn.
    Whatever the touches, mouse moves, wheel turns, clicks on the arrow
    buttons, timers and frames since the construction of the controls,
    the target of the vertical rotation, the vertical rotation itself, and
    the value that the next frame gives the camera as [rotation.x], are
    between -PI/4 and PI/4. *)
Theorem pitch_stays_bounded (events : list ControlsEvent) :
  0 <= PI ->
  let c := controls_events events Controls.new in
  - PI / 4 <= Controls.rotation_targetVertical c <= PI / 4 /\
  - PI / 4 <= Controls.rotation_vertical c <= PI / 4 /\
  - PI / 4 <= (Controls.update c).2.2 <= PI / 4.
Proof.
  intros HPI c.
  pose proof (controls_events_bounded events _ HPI (new_pitch_bounded HPI)) as Hc.
  fold c in Hc.
  destruct (controls_event_bounded Frame c HPI Hc) as (_ & Hv' & _).
  destruct Hc as (Ht & Hv & _). auto.
Qed.

Lemma update_gap c :
  let c' := (Controls.update c).1 in
  Controls.rotation_targetHorizontal c' = Controls.rotation_targetHorizontal c /\
  Controls.rotation_targetVertical c' = Controls.rotation_targetVertical c /\
  Controls.rotation_smoothness c' = Controls.rotation_smoothness c /\
  Controls.rotation_targetHorizontal c - Controls.rotation_horizontal c'
  == (1 - Controls.rotation_smoothness c)
     * (Controls.rotation_targetHorizontal c - Controls.rotation_horizontal c) /\
  Controls.rotation_targetVertical c - Controls.rotation_vertical c'
  == (1 - Controls.rotation_smoothness c)
     * (Controls.rotation_targetVertical c - Controls.rotation_vertical c).
Proof.
  destruct c as [mf mr mry sx sy cx cy active swiping scroll rh rv th tv sm n].
  unfold Controls.update. simpl. repeat apply conj; try reflexivity; ring.
Qed.

Lemma power_succ (q : Q) (n : nat) : q ^ Z.of_nat (S n) == q * q ^ Z.of_nat n.
Proof.
  rewrite Nat2Z.inj_succ, <- Z.add_1_l.
  rewrite Qpower_plus' by lia. reflexivity.
Qed.

(** X25: the rotation closes in on its target geometrically. Over [n]
    frames with no event in between, the targets stay, and what is left
    between each rotation and its target is (1 - smoothness)^n times what
    was left at the start: with the smoothness 0.1 of the constructor,
    nine tenths per frame. *)
Theorem rotation_converges (n : nat) (c : Controls.t) :
  let c' := updates n c in
  Controls.rotation_targetHorizontal c' = Controls.rotation_targetHorizontal c /\
  Controls.rotation_targetVertical c' = Controls.rotation_targetVertical c /\
  Controls.rotation_targetHorizontal c - Controls.rotation_horizontal c'
  == (1 - Controls.rotation_smoothness c) ^ Z.of_nat n
     * (Controls.rotation_targetHorizontal c - Controls.rotation_horizontal c) /\
  Controls.rotation_targetVertical c - Controls.rotation_vertical c'
  == (1 - Controls.rotation_smoothness c) ^ Z.of_nat n
     * (Controls.rotation_targetVertical c - Controls.rotation_vertical c).
Proof.
  cbv zeta. revert c. induction n as [|n IH]; intros c.
  - cbn [updates]. change (Z.of_nat 0) with 0%Z. cbn [Qpower].
    repeat apply conj; try reflexivity; ring.
  - cbn [updates].
    destruct (update_gap c) as (Hth & Htv & Hs & Hh & Hv). cbv zeta in *.
    destruct (IH (Controls.update c).1) as (IHth & IHtv & IHh & IHv).
    rewrite Hth, Htv, Hs in *.
    repeat apply conj; [exact IHth | exact IHtv | |].
    + rewrite IHh, Hh, power_succ. ring.
    + rewrite IHv, Hv, power_succ. ring.
Qed.

End ControlsFrames.

Lemma pitch_stays_bounded_witness :
  let c := controls_events (M := PolynomialMath)
             [MouseDown 0 0; MouseMove 0 (-1000); Frame; MouseUp]%Q
             Controls.new in
  (Controls.rotation_targetVertical c <= @PI PolynomialMath / 4)%Q.
Proof.
  intros c.
  destruct (pitch_stays_bounded (M := PolynomialMath)
              [MouseDown 0 0; MouseMove 0 (-1000); Frame; MouseUp]%Q)
    as ([_ H] & _); [vm_compute; discriminate | exact H].
Defined.

Lemma intro_completion_resumes_witness :
  let a := app_on_loading (scene_in LoadingScene.exitBurst 0.69 5)
             GlobalState.new (document (Some "3"%string)) in
  exists a',
    App.update (M := PolynomialMath) 7000 16 a = Done a' /\
    current_index a' = 3.
Proof.
  intros a.
  destruct (intro_completion_resumes (M := PolynomialMath) a
              (scene_in LoadingScene.exitBurst 0.69 5) 7000%Q 16%Q)
    as (a' & E & Hi & _);
    [ reflexivity | reflexivity | reflexivity | reflexivity | reflexivity
    | reflexivity | intros _; by eexists | vm_compute; discriminate | ].
  exists a'. split; [exact E|]. rewrite Hi. vm_compute. reflexivity.
Defined.
